(** * The export engine of cvs-fast-export, embedded in Rocq

    This development follows the export engine (the file that holds
    [export_blob], [compute_parent_links], [export_commit],
    [canonicalize] and [export_commits]) function by function.

    - C integers are [Z]; the one place where the source narrows a wide
      value to [int] ([compare_commit]) has its wrap-around written out.
    - Objects that the C code shares by pointer (file revisions, commits,
      branch heads) carry an address; their mutable fields ([serial],
      [other], [emitted]) live in a store keyed by that address.
    - The process-global variables ([markmap], [mark], [seqno], the blob
      directory, standard output, the error channel) are one [state]
      record threaded through an error monad.
    - Every [printf] call site of the source is one constructor of
      [event]; the output stream is the list of events written so far.
    - [serial_t] is declared outside this file; it is taken wide enough
      for every serial and mark of a run, so that the only bound on
      them is the check that [seqno_next] makes against
      [MAX_SERIAL_T].  [seqno] itself is an [int]: the model counts in
      [Z] and is the source as long as the counter is below [2^31];
      the theorems that count serials say so.
    - libc's [qsort] is a collaborator, known by what the C standard
      says of it; the order in which commits are exported in canonical
      mode is whatever it makes of the array.
    - The blob files of canonical mode are a map from serials to
      contents; the exits on a failing [mkdtemp], [mkdir] or [fopen]
      are left out, so that a run of the model that returns stands for
      a run on a file system that did not fail. *)

From Stdlib Require Import ZArith List String Ascii Lia Bool.
From Stdlib Require Import Sorting.Sorted Sorting.Permutation.
From stdpp Require Import base gmap strings list.

#[local] Set Warnings "-register-all".
#[local] Open Scope string_scope.
#[local] Open Scope list_scope.
#[local] Open Scope Z_scope.

(** ** C arithmetic and strings *)

(** [sizeof(int)] on the platforms the program is built for. *)
Definition sizeof_int : Z := 4.
Definition int_bits : Z := 8 * sizeof_int.

(** Conversion of a wide integer to [int]: the value is kept modulo
    [2^int_bits] and read as a two's complement number. *)
Definition to_int (z : Z) : Z :=
  (z + 2 ^ (int_bits - 1)) mod 2 ^ int_bits - 2 ^ (int_bits - 1).

Definition byte_of (c : ascii) : Z := Z.of_nat (nat_of_ascii c).

(** [strcmp]: the difference of the first pair of bytes that differ.  A
    C string ends at its first byte 0, so the end of a string counts as
    the byte 0 and nothing after a byte 0 is compared. *)
Fixpoint strcmp (a b : string) : Z :=
  match a, b with
  | EmptyString, EmptyString => 0
  | EmptyString, String y _ => 0 - byte_of y
  | String x _, EmptyString => byte_of x
  | String x a', String y b' =>
      if Ascii.eqb x y
      then (if byte_of x =? 0 then 0 else strcmp a' b')
      else byte_of x - byte_of y
  end.

(** [strlen], as a C integer. *)
Definition strlen (s : string) : Z := Z.of_nat (String.length s).

Definition newline : string := String "010"%char EmptyString.

(** Digits of [%o]. *)
Fixpoint octal_digits (fuel : nat) (n : Z) (acc : string) : string :=
  match fuel with
  | O => acc
  | S fuel' =>
      let acc' := String (ascii_of_nat (48 + Z.to_nat (n mod 8))) acc in
      if n / 8 =? 0 then acc' else octal_digits fuel' (n / 8) acc'
  end.

Definition print_octal (n : Z) : string :=
  octal_digits (S (Z.to_nat (Z.log2 n))) n EmptyString.

(** Digits of [%d] and [%zd]. *)
Fixpoint decimal_digits (fuel : nat) (n : Z) (acc : string) : string :=
  match fuel with
  | O => acc
  | S fuel' =>
      let acc' := String (ascii_of_nat (48 + Z.to_nat (n mod 10))) acc in
      if n / 10 =? 0 then acc' else decimal_digits fuel' (n / 10) acc'
  end.

Definition print_decimal (n : Z) : string :=
  if n <? 0
  then String "-"%char (decimal_digits (S (Z.to_nat (Z.log2 (- n)))) (- n) EmptyString)
  else decimal_digits (S (Z.to_nat (Z.log2 n))) n EmptyString.

(** What the C standard asks of the comparator handed to [qsort]: on
    the elements of the array it is a total order, the same whichever
    way round two elements are compared.  [cmp x y <= 0] puts [x] in
    front of [y]. *)
Definition consistent {A : Type} (cmp : A -> A -> Z) (l : list A) : Prop :=
  (forall x y, In x l -> In y l -> (cmp x y < 0 <-> 0 < cmp y x))
  /\ (forall x y z, In x l -> In y l -> In z l ->
        cmp x y <= 0 -> cmp y z <= 0 -> cmp x z <= 0).

(** ** Data model (the declarations the engine uses from [cvs.h]) *)

(** An interned name.  [atom] returns one pointer per string, so pointer
    equality of atoms is equality of strings. *)
Definition atom_t : Type := string.
Definition atom (s : string) : atom_t := s.
Definition atom_eqb (a b : atom_t) : bool := String.eqb a b.

Record bloom_t : Type := { el : list Z }.

Record rev_master : Type := {
  name : atom_t;
  mode : Z
}.

(** A file revision.  [serial], [other] and [emitted] are mutable and
    kept in the store, under [f_addr]. *)
Record cvs_commit : Type := {
  f_addr : nat;
  master : rev_master;
  number : list Z
}.

Record rev_dir : Type := { files : list cvs_commit }.

(** A commit of the merged DAG.  [serial] is mutable and kept in the
    store, under [c_addr]. *)
Inductive git_commit : Type := GitCommit {
  c_addr : nat;
  parent : option git_commit;
  date : Z;
  author : atom_t;
  log : string;
  tail : bool;
  dirs : list rev_dir;
  bloom : bloom_t
}.

(** A branch head; the [next] chain of the source is the list of heads. *)
Record rev_ref : Type := {
  r_addr : nat;
  ref_name : string;
  ref_commit : option git_commit;
  ref_tail : bool
}.

Record tag_t : Type := {
  tag_name : string;
  tag_commit : git_commit
}.

Record cvs_author : Type := {
  full : string;
  email : string;
  timezone : option string
}.

(** One callback of a content generator: the node and its payload. *)
Record node_t : Type := {
  node_commit : cvs_commit;
  node_buf : string
}.

Definition generator_t : Type := list node_t.

Record git_repo : Type := { heads : list rev_ref }.

Record forest_t : Type := {
  head : git_repo;
  textsize : Z;
  total_revisions : Z;
  generators : list generator_t;
  skew_vulnerable : Z
}.

Definition filecount (forest : forest_t) : Z :=
  Z.of_nat (length (generators forest)).

Inductive reportmode_t : Type := adaptive | fast | canonical.

Definition reportmode_eqb (a b : reportmode_t) : bool :=
  match a, b with
  | adaptive, adaptive | fast, fast | canonical, canonical => true
  | _, _ => false
  end.

Record export_options_t : Type := {
  reportmode : reportmode_t;
  branch_prefix : string;
  force_dates : bool;
  embed_ids : bool;
  reposurgeon : bool;
  revision_map : bool;
  fromtime : Z
}.

Definition set_reportmode (opts : export_options_t) (m : reportmode_t) : export_options_t :=
  {| reportmode := m;
     branch_prefix := branch_prefix opts;
     force_dates := force_dates opts;
     embed_ids := embed_ids opts;
     reposurgeon := reposurgeon opts;
     revision_map := revision_map opts;
     fromtime := fromtime opts |}.

Definition commit_eqb (a b : git_commit) : bool := Nat.eqb (c_addr a) (c_addr b).
Definition ref_eqb (a b : rev_ref) : bool := Nat.eqb (r_addr a) (r_addr b).

(** Pointer comparison [c == p] where [p] may be null. *)
Definition commit_is (c : git_commit) (p : option git_commit) : bool :=
  match p with
  | Some q => commit_eqb c q
  | None => false
  end.

(** ** Collaborators

    What the engine calls but does not define: the Bloom oracle, the
    author dictionary, the formatting of a time in a zone (libc's
    [localtime] and [strftime] under a given [TZ]), the printer of a
    revision pair, libc's [qsort], and the constants of [cvs.h].

    Of [qsort] the C standard fixes that the result is a rearrangement
    of the array, and that it is in the order of the comparator when
    the comparator is [consistent] on the array; what the result is
    otherwise is up to the library. *)
Class Collaborators : Type := {
  atom_bloom : atom_t -> bloom_t;
  fullname : atom_t -> option cvs_author;
  strftime_s_z : Z -> string -> string;
  stringify_revision : atom_t -> string -> list Z -> string;
  RCS_EPOCH : Z;
  cvstime2rfc3339 : Z -> string;
  commit_time_window : Z;
  MAX_SERIAL_T : Z;
  qsort : forall A : Type, (A -> A -> Z) -> list A -> list A;
  qsort_rearranges :
    forall (A : Type) (cmp : A -> A -> Z) (l : list A), Permutation l (qsort A cmp l);
  qsort_orders :
    forall (A : Type) (cmp : A -> A -> Z) (l : list A),
      consistent cmp l -> StronglySorted (fun a b => cmp a b <= 0) (qsort A cmp l)
}.

Arguments qsort {_} {A} cmp l.

(** ** The output stream

    One constructor per [printf]/[fwrite]/[fputs] call site that writes
    to standard output; the comment gives the format string. *)
Inductive event : Type :=
  | EBlobMark (m : Z)                           (* "blob\nmark :%d\n" *)
  | EData (len : Z)                             (* "data %zd\n" *)
  | ERaw (bytes : string)                       (* fwrite, fputc *)
  | ECommit (prefix branch : string)            (* "commit %s%s\n" *)
  | EMark (m : Z)                               (* "mark :%d\n" *)
  | ECommitter (who mail ts : string)           (* "committer %s <%s> %s\n" *)
  | ELog (len : Z) (text : string)              (* "data %zd\n%s\n" *)
  | ELogIds (len : Z) (text revpairs : string)  (* "data %zd\n%s\n%s\n" *)
  | EFrom (m : Z)                               (* "from :%d\n" *)
  | EModify (perm : Z) (m : Z) (path : string)  (* "M 100%o :%d %s\n" *)
  | EDelete (path : string)                     (* "D %s\n" *)
  | EIgnores                                    (* "M 100644 inline .gitignore\ndata %zd\n%s\n" *)
  | EProperty (len : Z) (revpairs : string)     (* "property cvs-revision %zd %s" *)
  | ENewline                                    (* "\n" *)
  | EAnchor (prefix branch : string)            (* "from %s%s^0\n\n" *)
  | ETagReset (tag : string) (m : Z)            (* "reset refs/tags/%s\nfrom :%d\n\n" *)
  | EReset (prefix branch : string) (m : Z)     (* "reset %s%s\nfrom :%d\n\n" *)
  | EDone.                                      (* "done\n" *)

Definition CVS_IGNORES : string :=
"# CVS default ignores begin
tags
TAGS
.make.state
.nse_depinfo
*~
#*
.#*
,*
_$*
*$
*.old
*.bak
*.BAK
*.orig
*.rej
.del-*
*.a
*.olb
*.o
*.obj
*.so
*.exe
*.Z
*.elc
*.ln
core
# CVS default ignores end
".

Definition cat (l : list string) : string := fold_right String.append EmptyString l.

(** The bytes an event puts on standard output. *)
Definition render (e : event) : string :=
  match e with
  | EBlobMark m => cat ["blob"; newline; "mark :"; print_decimal m; newline]
  | EData len => cat ["data "; print_decimal len; newline]
  | ERaw bytes => bytes
  | ECommit prefix branch => cat ["commit "; prefix; branch; newline]
  | EMark m => cat ["mark :"; print_decimal m; newline]
  | ECommitter who mail ts => cat ["committer "; who; " <"; mail; "> "; ts; newline]
  | ELog len text => cat ["data "; print_decimal len; newline; text; newline]
  | ELogIds len text revpairs =>
      cat ["data "; print_decimal len; newline; text; newline; revpairs; newline]
  | EFrom m => cat ["from :"; print_decimal m; newline]
  | EModify perm m path =>
      cat ["M 100"; print_octal perm; " :"; print_decimal m; " "; path; newline]
  | EDelete path => cat ["D "; path; newline]
  | EIgnores =>
      cat ["M 100644 inline .gitignore"; newline;
           "data "; print_decimal (strlen CVS_IGNORES); newline; CVS_IGNORES; newline]
  | EProperty len revpairs =>
      cat ["property cvs-revision "; print_decimal len; " "; revpairs]
  | ENewline => newline
  | EAnchor prefix branch => cat ["from "; prefix; branch; "^0"; newline; newline]
  | ETagReset tag m =>
      cat ["reset refs/tags/"; tag; newline; "from :"; print_decimal m; newline; newline]
  | EReset prefix branch m =>
      cat ["reset "; prefix; branch; newline; "from :"; print_decimal m; newline; newline]
  | EDone => cat ["done"; newline]
  end.

(** ** The state of one export run *)

(** - [markmap], [mark], [seqno]: the static variables of the source;
    - [serial_f], [other], [emitted]: the mutable fields of file
      revisions, by address; an absent [serial] is 0, an absent [other]
      is the null pointer;
    - [serial_c]: the [serial] field of commits, by address;
    - [blobs]: the files of the blob directory, by serial ([blobfile]
      maps each serial to a path of its own);
    - [need_ignores]: the static flag of [export_commit];
    - [out], [revmap], [err]: standard output, the revision map sink and
      the error channel;
    - [snapsize], [export_total_commits]: the statistics accumulator;
    - [idx]: the indices at which [markmap] was read or written, in
      order (a record of the run, not a variable of the source). *)
Record state : Type := {
  markmap : list Z;
  mark : Z;
  seqno : Z;
  serial_f : gmap nat Z;
  other : gmap nat nat;
  emitted : gset nat;
  serial_c : gmap nat Z;
  blobs : gmap Z string;
  need_ignores : bool;
  out : list event;
  revmap : list string;
  err : list string;
  snapsize : Z;
  export_total_commits : Z;
  idx : list Z
}.

Definition init_state : state :=
  {| markmap := []; mark := 0; seqno := 0; serial_f := ∅; other := ∅;
     emitted := ∅; serial_c := ∅; blobs := ∅; need_ignores := true;
     out := []; revmap := []; err := []; snapsize := 0;
     export_total_commits := 0; idx := [] |}.

Definition with_markmap (v : list Z) (s : state) : state :=
  {| markmap := v; mark := mark s; seqno := seqno s; serial_f := serial_f s;
     other := other s; emitted := emitted s; serial_c := serial_c s;
     blobs := blobs s; need_ignores := need_ignores s; out := out s;
     revmap := revmap s; err := err s; snapsize := snapsize s;
     export_total_commits := export_total_commits s; idx := idx s |}.

Definition with_mark (v : Z) (s : state) : state :=
  {| markmap := markmap s; mark := v; seqno := seqno s; serial_f := serial_f s;
     other := other s; emitted := emitted s; serial_c := serial_c s;
     blobs := blobs s; need_ignores := need_ignores s; out := out s;
     revmap := revmap s; err := err s; snapsize := snapsize s;
     export_total_commits := export_total_commits s; idx := idx s |}.

Definition with_seqno (v : Z) (s : state) : state :=
  {| markmap := markmap s; mark := mark s; seqno := v; serial_f := serial_f s;
     other := other s; emitted := emitted s; serial_c := serial_c s;
     blobs := blobs s; need_ignores := need_ignores s; out := out s;
     revmap := revmap s; err := err s; snapsize := snapsize s;
     export_total_commits := export_total_commits s; idx := idx s |}.

Definition with_serial_f (v : gmap nat Z) (s : state) : state :=
  {| markmap := markmap s; mark := mark s; seqno := seqno s; serial_f := v;
     other := other s; emitted := emitted s; serial_c := serial_c s;
     blobs := blobs s; need_ignores := need_ignores s; out := out s;
     revmap := revmap s; err := err s; snapsize := snapsize s;
     export_total_commits := export_total_commits s; idx := idx s |}.

Definition with_other (v : gmap nat nat) (s : state) : state :=
  {| markmap := markmap s; mark := mark s; seqno := seqno s; serial_f := serial_f s;
     other := v; emitted := emitted s; serial_c := serial_c s;
     blobs := blobs s; need_ignores := need_ignores s; out := out s;
     revmap := revmap s; err := err s; snapsize := snapsize s;
     export_total_commits := export_total_commits s; idx := idx s |}.

Definition with_emitted (v : gset nat) (s : state) : state :=
  {| markmap := markmap s; mark := mark s; seqno := seqno s; serial_f := serial_f s;
     other := other s; emitted := v; serial_c := serial_c s;
     blobs := blobs s; need_ignores := need_ignores s; out := out s;
     revmap := revmap s; err := err s; snapsize := snapsize s;
     export_total_commits := export_total_commits s; idx := idx s |}.

Definition with_serial_c (v : gmap nat Z) (s : state) : state :=
  {| markmap := markmap s; mark := mark s; seqno := seqno s; serial_f := serial_f s;
     other := other s; emitted := emitted s; serial_c := v;
     blobs := blobs s; need_ignores := need_ignores s; out := out s;
     revmap := revmap s; err := err s; snapsize := snapsize s;
     export_total_commits := export_total_commits s; idx := idx s |}.

Definition with_blobs (v : gmap Z string) (s : state) : state :=
  {| markmap := markmap s; mark := mark s; seqno := seqno s; serial_f := serial_f s;
     other := other s; emitted := emitted s; serial_c := serial_c s;
     blobs := v; need_ignores := need_ignores s; out := out s;
     revmap := revmap s; err := err s; snapsize := snapsize s;
     export_total_commits := export_total_commits s; idx := idx s |}.

Definition with_need_ignores (v : bool) (s : state) : state :=
  {| markmap := markmap s; mark := mark s; seqno := seqno s; serial_f := serial_f s;
     other := other s; emitted := emitted s; serial_c := serial_c s;
     blobs := blobs s; need_ignores := v; out := out s;
     revmap := revmap s; err := err s; snapsize := snapsize s;
     export_total_commits := export_total_commits s; idx := idx s |}.

Definition with_out (v : list event) (s : state) : state :=
  {| markmap := markmap s; mark := mark s; seqno := seqno s; serial_f := serial_f s;
     other := other s; emitted := emitted s; serial_c := serial_c s;
     blobs := blobs s; need_ignores := need_ignores s; out := v;
     revmap := revmap s; err := err s; snapsize := snapsize s;
     export_total_commits := export_total_commits s; idx := idx s |}.

Definition with_revmap (v : list string) (s : state) : state :=
  {| markmap := markmap s; mark := mark s; seqno := seqno s; serial_f := serial_f s;
     other := other s; emitted := emitted s; serial_c := serial_c s;
     blobs := blobs s; need_ignores := need_ignores s; out := out s;
     revmap := v; err := err s; snapsize := snapsize s;
     export_total_commits := export_total_commits s; idx := idx s |}.

Definition with_err (v : list string) (s : state) : state :=
  {| markmap := markmap s; mark := mark s; seqno := seqno s; serial_f := serial_f s;
     other := other s; emitted := emitted s; serial_c := serial_c s;
     blobs := blobs s; need_ignores := need_ignores s; out := out s;
     revmap := revmap s; err := v; snapsize := snapsize s;
     export_total_commits := export_total_commits s; idx := idx s |}.

Definition with_snapsize (v : Z) (s : state) : state :=
  {| markmap := markmap s; mark := mark s; seqno := seqno s; serial_f := serial_f s;
     other := other s; emitted := emitted s; serial_c := serial_c s;
     blobs := blobs s; need_ignores := need_ignores s; out := out s;
     revmap := revmap s; err := err s; snapsize := v;
     export_total_commits := export_total_commits s; idx := idx s |}.

Definition with_export_total_commits (v : Z) (s : state) : state :=
  {| markmap := markmap s; mark := mark s; seqno := seqno s; serial_f := serial_f s;
     other := other s; emitted := emitted s; serial_c := serial_c s;
     blobs := blobs s; need_ignores := need_ignores s; out := out s;
     revmap := revmap s; err := err s; snapsize := snapsize s;
     export_total_commits := v; idx := idx s |}.

Definition with_idx (v : list Z) (s : state) : state :=
  {| markmap := markmap s; mark := mark s; seqno := seqno s; serial_f := serial_f s;
     other := other s; emitted := emitted s; serial_c := serial_c s;
     blobs := blobs s; need_ignores := need_ignores s; out := out s;
     revmap := revmap s; err := err s; snapsize := snapsize s;
     export_total_commits := export_total_commits s; idx := v |}.

(** ** The monad: state, and the ways a run stops early *)

Inductive error : Type :=
  | SerialOverflow      (* fatal_error of seqno_next *)
  | OutOfBounds         (* markmap indexed outside its extent *)
  | NullPointer.        (* a null pointer dereferenced *)

Inductive outcome (A : Type) : Type :=
  | Ok (a : A) (s : state)
  | Err (e : error) (s : state).

Arguments Ok {A} a s.
Arguments Err {A} e s.

Definition M (A : Type) : Type := state -> outcome A.

Definition ret {A : Type} (a : A) : M A := fun s => Ok a s.

Definition bind {A B : Type} (m : M A) (k : A -> M B) : M B :=
  fun s => match m s with
           | Ok a s' => k a s'
           | Err e s' => Err e s'
           end.

Notation "'do' x <- m ; k" := (bind m (fun x => k))
  (at level 10, x name, m at level 100, k at level 200).
Notation "m ;; k" := (bind m (fun _ => k))
  (at level 100, k at level 200, right associativity).

Definition fail {A : Type} (e : error) : M A := fun s => Err e s.
Definition get : M state := fun s => Ok s s.
Definition modify (f : state -> state) : M unit := fun s => Ok tt (f s).
Definition when (b : bool) (m : M unit) : M unit := if b then m else ret tt.

Fixpoint for_each {A : Type} (l : list A) (body : A -> M unit) : M unit :=
  match l with
  | [] => ret tt
  | x :: l' => body x ;; for_each l' body
  end.

(** The state an outcome ends in. *)
Definition final {A : Type} (o : outcome A) : state :=
  match o with
  | Ok _ s => s
  | Err _ s => s
  end.

(** [printf] and friends on standard output. *)
Definition emit (e : event) : M unit := modify (fun s => with_out (out s ++ [e]) s).

(** [announce]: a message on the error channel. *)
Definition announce (msg : string) : M unit := modify (fun s => with_err (err s ++ [msg]) s).

(** [markmap[i]] as an rvalue. *)
Definition markmap_get (i : Z) : M Z :=
  fun s =>
    let s' := with_idx (idx s ++ [i]) s in
    if (0 <=? i) && (i <? Z.of_nat (length (markmap s)))
    then Ok (default 0 (markmap s !! Z.to_nat i)) s'
    else Err OutOfBounds s'.

(** [markmap[i] = v]. *)
Definition markmap_set (i v : Z) : M unit :=
  fun s =>
    let s' := with_idx (idx s ++ [i]) s in
    if (0 <=? i) && (i <? Z.of_nat (length (markmap s)))
    then Ok tt (with_markmap (<[Z.to_nat i := v]> (markmap s)) s')
    else Err OutOfBounds s'.

(** [++mark]. *)
Definition next_mark : M Z :=
  fun s => Ok (mark s + 1) (with_mark (mark s + 1) s).

(** [cf->serial] and [c->serial]. *)
Definition file_serial (s : state) (f : cvs_commit) : Z :=
  default 0 (serial_f s !! f_addr f).
Definition commit_serial (s : state) (c : git_commit) : Z :=
  default 0 (serial_c s !! c_addr c).

(** ** The engine *)

Section Engine.

Context `{Collaborators}.

Definition SMALL_REPOSITORY : Z := 1000000.

(** Octal constants of the source. *)
Definition S_IXUSR : Z := 64.       (* 0100 *)
Definition MODE_0755 : Z := 493.    (* 0755 *)
Definition MODE_0644 : Z := 420.    (* 0644 *)

(** [seqno_next]: the next sequence number, starting with 1.  [seqno]
    is an [int] that is not negative, so the comparison is that of the
    values whatever the type of [MAX_SERIAL_T]. *)
Definition seqno_next : M Z :=
  fun s =>
    let s' := with_seqno (seqno s + 1) s in
    if MAX_SERIAL_T <=? seqno s' then Err SerialOverflow s' else Ok (seqno s') s'.

(** [fileop_name]: a name that ends in [.cvsignore] has the three bytes
    after the dot overwritten by [git].  The source copies the name
    with [strncpy] into a buffer of [PATH_MAX] bytes: this is the
    function on names of fewer than [PATH_MAX - 1] bytes, the ones that
    the buffer holds with their terminator. *)
Definition fileop_name (rectified : string) : string :=
  let rlen := String.length rectified in
  if (10 <=? rlen)%nat && String.eqb (substring (rlen - 10) 10 rectified) ".cvsignore"
  then cat [substring 0 (rlen - 9) rectified; "git"; substring (rlen - 6) 6 rectified]
  else rectified.

(** The text [export_blob] stores in a blob file. *)
Definition blob_text (buf : string) (len extralen : Z) : string :=
  cat ["data "; print_decimal (len + extralen); newline;
       (if 0 <? extralen then CVS_IGNORES else EmptyString); buf; newline].

(** [export_blob]: output the blob, or save it where it will be
    available for random access.  The blob file of a serial is the
    entry of [blobs] at that serial; that [mkdir] and [fopen] succeed
    is taken for granted. *)
Definition export_blob (node : node_t) (buf : string) (len : Z)
    (opts : export_options_t) : M unit :=
  modify (fun s => with_snapsize (snapsize s + len) s) ;;
  let extralen :=
    if String.eqb (name (master (node_commit node))) ".cvsignore"
    then strlen CVS_IGNORES else 0 in
  do serial <- seqno_next;
  modify (fun s => with_serial_f (<[f_addr (node_commit node) := serial]> (serial_f s)) s) ;;
  if reportmode_eqb (reportmode opts) fast then
    do m <- next_mark;
    markmap_set serial m ;;
    emit (EBlobMark m) ;;
    emit (EData (len + extralen)) ;;
    when (0 <? extralen) (emit (ERaw CVS_IGNORES)) ;;
    emit (ERaw buf) ;;
    emit (ERaw newline)
  else
    modify (fun s => with_blobs (<[serial := blob_text buf len extralen]> (blobs s)) s).

(** Modelled from the spec: [generate_files] is defined outside the
    given sources.  A content generator, when driven, invokes the
    supplied callback once per file revision, in order, passing the node
    and its payload. *)
Definition generate_files (gp : generator_t) (opts : export_options_t)
    (hook : node_t -> string -> Z -> export_options_t -> M unit) : M unit :=
  for_each gp (fun node => hook node (node_buf node) (strlen (node_buf node)) opts).

(** ** Iterating over the files of a commit *)

(** [file_iter]: the directories from the current one on, and what is
    left of the current directory. *)
Record file_iter : Type := {
  it_dirs : list rev_dir;
  it_files : list cvs_commit
}.

Definition file_iter_start (c : git_commit) : file_iter :=
  match dirs c with
  | d :: _ => {| it_dirs := dirs c; it_files := files d |}
  | [] => {| it_dirs := []; it_files := [] |}
  end.

(** The step after [++pos->dir] of [file_iter_next]. *)
Fixpoint file_iter_advance (ds : list rev_dir) : option (cvs_commit * file_iter) :=
  match ds with
  | [] => None
  | d :: ds' =>
      match files d with
      | f :: fs => Some (f, {| it_dirs := d :: ds'; it_files := fs |})
      | [] => file_iter_advance ds'
      end
  end.

Definition file_iter_next (pos : file_iter) : option (cvs_commit * file_iter) :=
  match it_dirs pos with
  | [] => None
  | d :: ds =>
      match it_files pos with
      | f :: fs => Some (f, {| it_dirs := d :: ds; it_files := fs |})
      | [] => file_iter_advance ds
      end
  end.

(** The files an iterator started on [c] yields, in order. *)
Definition file_list (c : git_commit) : list cvs_commit :=
  flat_map files (dirs c).

(** ** The parent-link oracle *)

(** The loop over [k < BLOOMLENGTH]: some word of the name's
    fingerprint shares a bit with the same word of the parent's filter. *)
Definition bloom_overlap (b p : bloom_t) : bool :=
  existsb (fun w => negb (Z.land (fst w) (snd w) =? 0)) (combine (el b) (el p)).

(** The scan of the parent from a copy of the cursor: the first file
    with the same interned master name, and the cursor after it.  A
    cursor is kept as the files the iterator has left to yield. *)
Fixpoint scan_parent (cf : cvs_commit) (it : list cvs_commit)
    : option (cvs_commit * list cvs_commit) :=
  match it with
  | [] => None
  | pf :: it' =>
      if atom_eqb (name (master cf)) (name (master pf))
      then Some (pf, it')
      else scan_parent cf it'
  end.

(** The main loop of [compute_parent_links] over the files of the
    commit; [maxmatch] is unsigned. *)
Fixpoint link_files (pbloom : bloom_t) (cfs parent_iter : list cvs_commit)
    (maxmatch : Z) (oth : gmap nat nat) : gmap nat nat :=
  match cfs with
  | [] => oth
  | cf :: cfs' =>
      if bloom_overlap (atom_bloom (name (master cf))) pbloom
      then link_files pbloom cfs' parent_iter maxmatch oth
      else
        match scan_parent cf parent_iter with
        | Some (pf, it) =>
            let oth' := <[f_addr pf := f_addr cf]> (<[f_addr cf := f_addr pf]> oth) in
            let maxmatch' := (maxmatch - 1) mod 2 ^ int_bits in
            if maxmatch' =? 0 then oth'
            else link_files pbloom cfs' it maxmatch' oth'
        | None => link_files pbloom cfs' parent_iter maxmatch oth
        end
  end.

Definition clear_links (fs : list cvs_commit) (oth : gmap nat nat) : gmap nat nat :=
  fold_left (fun m f => delete (f_addr f) m) fs oth.

(** [compute_parent_links]: create reciprocal link pairs between file
    refs in a commit and its parent. *)
Definition compute_parent_links (commit p : git_commit) (oth : gmap nat nat)
    : gmap nat nat :=
  let ncommit := Z.of_nat (length (file_list commit)) in
  let oth1 := clear_links (file_list commit) oth in
  let nparent := Z.of_nat (length (file_list p)) in
  let oth2 := clear_links (file_list p) oth1 in
  let maxmatch := if nparent <? ncommit then nparent else ncommit in
  link_files (bloom p) (file_list commit) (file_list p) maxmatch oth2.

(** ** The file-operation builder *)

Inductive fileop : Type :=
  | Modify (perm : Z) (rev : cvs_commit) (path : atom_t)   (* op = 'M' *)
  | Delete (path : atom_t).                                (* op = 'D' *)

Definition op_path (o : fileop) : atom_t :=
  match o with
  | Modify _ _ path => path
  | Delete path => path
  end.

(** Modelled from the spec: [path_deep_compare] is defined outside the
    given sources.  Paths are compared segment by segment; at the first
    position where they differ, a path that has ended (a prefix of the
    other) sorts after the longer one, so that files inside a directory
    come before the directory itself. *)
Fixpoint split_segments (p : string) (cur : string) : list string :=
  match p with
  | EmptyString => [cur]
  | String c p' =>
      if Ascii.eqb c "/"%char
      then cur :: split_segments p' EmptyString
      else split_segments p' (String.append cur (String c EmptyString))
  end.

Fixpoint compare_segments (a b : list string) : Z :=
  match a, b with
  | [], [] => 0
  | [], _ :: _ => 1
  | _ :: _, [] => -1
  | x :: a', y :: b' =>
      let c := strcmp x y in
      if c =? 0 then compare_segments a' b' else c
  end.

Definition path_deep_compare (a b : string) : Z :=
  compare_segments (split_segments a EmptyString) (split_segments b EmptyString).

(** [fileop_sort]: sort fileops as git fast-export does. *)
Definition fileop_sort (oa ob : fileop) : Z :=
  path_deep_compare (op_path oa) (op_path ob).

(** The mode of an [M] operation: git fast-import only supports 644
    and 755 file modes. *)
Definition fileop_mode (m : Z) : Z :=
  if negb (Z.land m S_IXUSR =? 0) then MODE_0755 else MODE_0644.

(** The first pair of loops of [export_commit]: the operations for the
    files of the commit. *)
Definition commit_fileops (s : state) (commit : git_commit) : list fileop :=
  flat_map (fun dir =>
    flat_map (fun cc =>
      let present :=
        match parent commit with
        | Some _ => bool_decide (is_Some (other s !! f_addr cc))
        | None => false
        end in
      let changed :=
        match parent commit, other s !! f_addr cc with
        | Some _, Some o => negb (file_serial s cc =? default 0 (serial_f s !! o))
        | _, _ => false
        end in
      if negb present || changed
      then [Modify (fileop_mode (mode (master cc))) cc (atom (fileop_name (name (master cc))))]
      else [])
      (files dir))
    (dirs commit).

(** The second pair of loops: a delete for each file of the parent that
    has no link. *)
Definition parent_fileops (s : state) (commit : git_commit) : list fileop :=
  match parent commit with
  | Some p =>
      flat_map (fun dir =>
        flat_map (fun cc =>
          if bool_decide (is_Some (other s !! f_addr cc))
          then []
          else [Delete (atom (fileop_name (name (master cc))))])
          (files dir))
        (dirs p)
  | None => []
  end.

Definition wants_revpairs (opts : export_options_t) : bool :=
  reposurgeon opts || revision_map opts || embed_ids opts.

(** The revision pairs collected while the [M] operations are built. *)
Definition revpairs_of (opts : export_options_t) (ops : list fileop) : string :=
  cat (flat_map (fun o =>
    match o with
    | Modify _ cc _ =>
        [if embed_ids opts then "CVS-ID: " else EmptyString;
         stringify_revision (name (master cc)) " " (number cc); newline]
    | Delete _ => []
    end) ops).

(** The loop that ships the blobs a commit is the first to reference. *)
Definition ship_blob (report : bool) (opts : export_options_t) (o : fileop) : M unit :=
  match o with
  | Modify _ rev _ =>
      do s <- get;
      if bool_decide (f_addr rev ∈ emitted s) then ret tt
      else
        when (reportmode_eqb (reportmode opts) canonical)
          (do m <- next_mark; markmap_set (file_serial s rev) m) ;;
        when (report && reportmode_eqb (reportmode opts) canonical)
          (do s1 <- get;
           match blobs s1 !! file_serial s1 rev with
           | Some text =>
               emit (EBlobMark (mark s1)) ;;
               emit (ERaw text) ;;
               modify (fun s2 => with_blobs (delete (file_serial s2 rev) (blobs s2)) s2) ;;
               modify (fun s2 => with_emitted ({[f_addr rev]} ∪ emitted s2) s2)
           | None => ret tt
           end)
  | Delete _ => ret tt
  end.

Definition s_gitignore : atom_t := atom ".gitignore".

(** One round of the loop that prints the operations. *)
Definition print_fileop (o : fileop) : M unit :=
  match o with
  | Modify perm rev path =>
      do s <- get;
      do m <- markmap_get (file_serial s rev);
      emit (EModify perm m path)
  | Delete path => emit (EDelete path)
  end ;;
  do s <- get;
  when (need_ignores s && atom_eqb (op_path o) s_gitignore)
    (modify (with_need_ignores false)).

(** [display_date]: the magic number 100000 avoids generating forced UTC
    times that might be negative in some timezone. *)
Definition display_date (c : git_commit) (m : Z) (f : bool) : Z :=
  if f then 100000 + m * commit_time_window * 2 else date c + RCS_EPOCH.

(** [display_date(c, markmap[c->serial], f)]: the macro reads the slot
    only when [f] holds. *)
Definition display_date_marked (c : git_commit) (f : bool) : M Z :=
  if f then
    do s <- get;
    do m <- markmap_get (commit_serial s c);
    ret (display_date c m true)
  else ret (display_date c 0 false).

(** [utc_offset_timestamp]: the time formatted as "%s %z" in the zone. *)
Definition utc_offset_timestamp (timep : Z) (tz : string) : string :=
  strftime_s_z timep tz.

(** The text written to the revision map: " :<mark>" before each newline. *)
Fixpoint revmap_text (here : Z) (revpairs : string) : string :=
  match revpairs with
  | EmptyString => EmptyString
  | String c rest =>
      if Ascii.eqb c "010"%char
      then String.append (String.append " :" (print_decimal here))
             (String c (revmap_text here rest))
      else String c (revmap_text here rest)
  end.

(** [export_commit]: export a commit (and the blobs it is the first to
    reference). *)
Definition export_commit (commit : git_commit) (branch : string) (report : bool)
    (opts : export_options_t) : M unit :=
  (match parent commit with
   | Some p => modify (fun s => with_other (compute_parent_links commit p (other s)) s)
   | None => ret tt
   end) ;;
  do s0 <- get;
  let operations := commit_fileops s0 commit ++ parent_fileops s0 commit in
  let revpairs := revpairs_of opts (commit_fileops s0 commit) in
  for_each operations (ship_blob report opts) ;;
  let operations := qsort fileop_sort operations in
  let '(who, mail, tz) :=
    match fullname (author commit) with
    | None => (author commit, author commit, "UTC")
    | Some a => (full a, email a, default "UTC" (timezone a))
    end in
  when report (emit (ECommit (branch_prefix opts) branch)) ;;
  modify (fun s => with_seqno (seqno s + 1) s) ;;
  modify (fun s => with_serial_c (<[c_addr commit := seqno s]> (serial_c s)) s) ;;
  do here <- next_mark;
  do s1 <- get;
  markmap_set (commit_serial s1 commit) here ;;
  when report (emit (EMark here)) ;;
  when report
    (let ct := display_date commit here (force_dates opts) in
     let ts := utc_offset_timestamp ct tz in
     emit (ECommitter who mail ts) ;;
     (if negb (embed_ids opts)
      then emit (ELog (strlen (log commit)) (log commit))
      else emit (ELogIds (strlen (log commit) + strlen revpairs + 1) (log commit) revpairs)) ;;
     (match parent commit with
      | Some p =>
          do s2 <- get;
          do m <- markmap_get (commit_serial s2 p);
          emit (EFrom m)
      | None => ret tt
      end) ;;
     for_each operations print_fileop ;;
     do s3 <- get;
     when (need_ignores s3)
       (modify (with_need_ignores false) ;; emit EIgnores) ;;
     when (wants_revpairs opts && (0 <? strlen revpairs))
       (when (revision_map opts)
          (modify (fun s => with_revmap (revmap s ++ [revmap_text here revpairs]) s)) ;;
        when (reposurgeon opts)
          (when report (emit (EProperty (strlen revpairs) revpairs))))) ;;
  when report (emit ENewline).

(** ** Counting and ordering commits *)

(** The walk [for (c = h->commit; c; c = (c->tail ? NULL : c->parent))]
    from a non-null commit. *)
Fixpoint chain (c : git_commit) : list git_commit :=
  match c with
  | GitCommit _ p _ _ _ tl _ _ =>
      c :: (if tl then []
            else match p with
                 | Some q => chain q
                 | None => []
                 end)
  end.

Definition branch (h : rev_ref) : list git_commit :=
  match ref_commit h with
  | Some c => chain c
  | None => []
  end.

(** The inner loop of [export_ncommit]. *)
Fixpoint count_commits (c : git_commit) (n : Z) : Z :=
  match c with
  | GitCommit _ p _ _ _ tl _ _ =>
      if tl then n + 1
      else match p with
           | Some q => count_commits q (n + 1)
           | None => n + 1
           end
  end.

(** [export_ncommit]: a count of converted commits. *)
Definition export_ncommit (rl : git_repo) : Z :=
  fold_left (fun n h =>
    if ref_tail h then n
    else match ref_commit h with
         | Some c => count_commits c n
         | None => n
         end) (heads rl) 0.

Record commit_seq : Type := {
  seq_commit : git_commit;
  seq_head : rev_ref;
  realized : bool
}.

(** [compare_commit]: attempt the mathematically impossible total
    ordering on the DAG.  The comparison of the dates is made in
    [time_t] and returned as [int]. *)
Definition compare_commit (ac bc : git_commit) : Z :=
  let timediff := date ac - date bc in
  if negb (timediff =? 0) then to_int timediff
  else
    let timediff := date ac - date bc in
    if negb (timediff =? 0) then to_int timediff
    else if commit_is bc (parent ac)
            || match parent ac with
               | Some pa => commit_is bc (parent pa)
               | None => false
               end
    then 1
    else if commit_is ac (parent bc)
            || match parent bc with
               | Some pb => commit_is ac (parent pb)
               | None => false
               end
    then -1
    else
      let cmp := strcmp (author ac) (author bc) in
      if negb (cmp =? 0) then cmp
      else
        let cmp := strcmp (log ac) (log bc) in
        if negb (cmp =? 0) then cmp
        else 0.

(** The loop of [sort_by_date]: older parents drag tied commits back in
    time. *)
Fixpoint sort_by_date_loop (ac bc : git_commit) : Z :=
  match ac with
  | GitCommit _ pa _ _ _ _ _ _ =>
      if commit_eqb ac bc then 0
      else
        let cmp := compare_commit ac bc in
        if negb (cmp =? 0) then cmp
        else
          match pa, parent bc with
          | Some a', Some b' => sort_by_date_loop a' b'
          | _, _ => 0
          end
  end.

Definition sort_by_date (ap bp : commit_seq) : Z :=
  sort_by_date_loop (seq_commit ap) (seq_commit bp).

(** [canonicalize]: each branch that is not a tail fills its span of
    the array from the back, so the spans follow the order of the heads
    and each span runs from the root of the branch to its head.  The
    array is kept as the list of its entries; [canonicalize_loops] below
    fills it index by index. *)
Definition canonicalize (rl : git_repo) : list commit_seq :=
  flat_map (fun h =>
    if ref_tail h then []
    else map (fun c => {| seq_commit := c; seq_head := h; realized := false |})
             (rev (branch h)))
    (heads rl).

(** The same, loop by loop.  The array is [xcalloc]-ed, so an entry
    that was never written holds null pointers; the second loop over a
    branch writes entry [branchbase + branchlength - (i + 1)]. *)
Fixpoint fill_span (h : rev_ref) (branchbase branchlength i : nat)
    (cs : list git_commit) (history : list (option commit_seq))
    : list (option commit_seq) :=
  match cs with
  | [] => history
  | c :: cs' =>
      let n := (branchbase + branchlength - (i + 1))%nat in
      fill_span h branchbase branchlength (S i) cs'
        (<[n := Some {| seq_commit := c; seq_head := h; realized := false |}]> history)
  end.

Definition canonicalize_loops (total : nat) (rl : git_repo)
    : list (option commit_seq) :=
  snd (fold_left (fun st h =>
         let '(branchbase, history) := st in
         if ref_tail h then (branchbase, history)
         else
           let branchlength := length (branch h) in
           ((branchbase + branchlength)%nat,
            fill_span h branchbase branchlength 0 (branch h) history))
       (heads rl) (0%nat, replicate total None)).

(** ** The export driver *)

(** The choice of the report mode at the head of [export_commits]. *)
Definition select_reportmode (forest : forest_t) (opts : export_options_t)
    : export_options_t :=
  if 0 <? fromtime opts then set_reportmode opts canonical
  else if reportmode_eqb (reportmode opts) adaptive then
    if textsize forest <=? SMALL_REPOSITORY
    then set_reportmode opts canonical
    else set_reportmode opts fast
  else opts.

(** The loop over [all_tags] that follows each exported commit. *)
Definition tag_resets (all_tags : list tag_t) (c : git_commit)
    (opts : export_options_t) : M unit :=
  for_each all_tags (fun t =>
    if commit_eqb (tag_commit t) c then
      do d <- display_date_marked c (force_dates opts);
      when (fromtime opts <? d)
        (do s <- get;
         do m <- markmap_get (commit_serial s c);
         emit (ETagReset (tag_name t) m))
    else ret tt).

(** Fast mode: dump by branch order, not by commit date.  The chain of
    each head is copied to an array and walked from its last entry. *)
Definition export_fast (rl : git_repo) (all_tags : list tag_t)
    (opts : export_options_t) : M unit :=
  for_each (heads rl) (fun h =>
    when (negb (ref_tail h))
      (let history := branch h in
       for_each (rev history) (fun c =>
         export_commit c (ref_name h) true opts ;;
         tag_resets all_tags c opts))).

Definition younger_parent (hp : commit_seq) : bool :=
  match parent (seq_commit hp) with
  | Some p => date (seq_commit hp) <? date p
  | None => false
  end.

(** The check that the topo order is consistent with time order; the
    loop stops at the first commit whose parent is younger. *)
Fixpoint check_sortable (history : list commit_seq) : M bool :=
  match history with
  | [] => ret true
  | hp :: rest =>
      if younger_parent hp
      then announce (String.append "some parent commits are younger than children." newline) ;;
           ret false
      else check_sortable rest
  end.

(** [lp->realized = true] for every entry of the same head. *)
Definition realize (h : rev_ref) (history : list commit_seq) : list commit_seq :=
  map (fun lp =>
    if ref_eqb (seq_head lp) h
    then {| seq_commit := seq_commit lp; seq_head := seq_head lp; realized := true |}
    else lp) history.

(** The export loop of canonical mode over what is left of the array;
    [n] is the number of entries left. *)
Fixpoint export_history (n : nat) (history : list commit_seq)
    (all_tags : list tag_t) (opts : export_options_t) : M unit :=
  match n, history with
  | S n', hp :: rest =>
      do s <- get;
      let cut := 0 <? fromtime opts in
      let late :=
        display_date (seq_commit hp) (mark s + 1) (force_dates opts) <=? fromtime opts in
      let report := negb (cut && late) in
      let first := cut && negb late && negb (realized hp) in
      when first
        (match parent (seq_commit hp) with
         | Some p =>
             do d <- display_date_marked p (force_dates opts);
             when (d <? fromtime opts)
               (emit (EAnchor (branch_prefix opts) (ref_name (seq_head hp))))
         | None => ret tt
         end) ;;
      let rest' := if first then realize (seq_head hp) rest else rest in
      export_commit (seq_commit hp) (ref_name (seq_head hp)) report opts ;;
      tag_resets all_tags (seq_commit hp) opts ;;
      export_history n' rest' all_tags opts
  | _, _ => ret tt
  end.

(** Canonical mode: the array of [canonicalize], sorted by date when
    the topo order is consistent with time order, then exported. *)
Definition export_canonical (rl : git_repo) (all_tags : list tag_t)
    (opts : export_options_t) : M unit :=
  let history := canonicalize rl in
  do sortable <- check_sortable history;
  let history := if sortable then qsort sort_by_date history else history in
  export_history (length history) history all_tags opts.

(** The closing loop over the heads. *)
Definition reset_heads (rl : git_repo) (opts : export_options_t) : M unit :=
  for_each (heads rl) (fun h =>
    match ref_commit h with
    | None => fail NullPointer
    | Some c =>
        do d <- display_date_marked c (force_dates opts);
        when (fromtime opts <? d)
          (do s <- get;
           do m <- markmap_get (commit_serial s c);
           emit (EReset (branch_prefix opts) (ref_name h) m))
    end).

(** [export_commits]: export a revision list as a git fast-import
    stream. *)
Definition export_commits (forest : forest_t) (all_tags : list tag_t)
    (opts : export_options_t) : M unit :=
  let rl := head forest in
  let opts := select_reportmode forest opts in
  when (reportmode_eqb (reportmode opts) canonical)
    (modify (fun s => with_mark 0 (with_seqno 0 s)) ;;
     modify (with_blobs ∅)) ;;
  modify (with_export_total_commits (export_ncommit rl)) ;;
  do s <- get;
  modify (with_markmap
    (replicate (Z.to_nat (total_revisions forest + export_total_commits s + 1)) 0)) ;;
  for_each (generators forest) (fun gp => generate_files gp opts export_blob) ;;
  (if reportmode_eqb (reportmode opts) fast
   then export_fast rl all_tags opts
   else export_canonical rl all_tags opts) ;;
  reset_heads rl opts ;;
  emit EDone ;;
  modify (with_blobs ∅) ;;
  when ((0 <? skew_vulnerable forest) && (1 <? filecount forest)
        && negb (force_dates opts))
    (announce (cat ["no commitids before "; cvstime2rfc3339 (skew_vulnerable forest);
                    "."; newline])).

(** The stream a run has written: standard output of the state the run
    ends in, whether it ran to completion or stopped. *)
Definition stream (forest : forest_t) (all_tags : list tag_t)
    (opts : export_options_t) : list event :=
  out (final (export_commits forest all_tags opts init_state)).

End Engine.

(** ** Sample inputs

    A small repository and the collaborators it is run with; the
    examples, witnesses and counterexamples below are evaluated on
    these. *)
Module Demo.

(** A one-bit fingerprint per name, in a filter of two words. *)
Definition name_bloom (s : string) : bloom_t :=
  {| el := [Z.shiftl 1 (Z.of_nat (String.length s) mod 64); 0] |}.

(** The [qsort] of the sample runs: a stable insertion sort. *)
Fixpoint insert {A : Type} (cmp : A -> A -> Z) (x : A) (l : list A) : list A :=
  match l with
  | [] => [x]
  | y :: l' => if cmp x y <=? 0 then x :: y :: l' else y :: insert cmp x l'
  end.

Fixpoint sort {A : Type} (cmp : A -> A -> Z) (l : list A) : list A :=
  match l with
  | [] => []
  | x :: l' => insert cmp x (sort cmp l')
  end.

Definition collaborators : Collaborators.
Proof.
  assert (Hinsert : forall (A : Type) (cmp : A -> A -> Z) (x : A) (l : list A),
            Permutation (x :: l) (insert cmp x l)).
  { intros A cmp x l. induction l as [| y l IH]; simpl.
    - apply Permutation_refl.
    - destruct (cmp x y <=? 0).
      + apply Permutation_refl.
      + eapply perm_trans; [apply perm_swap |]. apply perm_skip. exact IH. }
  assert (Hsort : forall (A : Type) (cmp : A -> A -> Z) (l : list A),
            Permutation l (sort cmp l)).
  { intros A cmp l. induction l as [| x l IH]; simpl.
    - apply perm_nil.
    - eapply perm_trans; [apply perm_skip; exact IH |]. apply Hinsert. }
  refine {| atom_bloom := name_bloom;
            fullname := fun _ => None;
            strftime_s_z := fun t _ => String.append (print_decimal t) " +0000";
            stringify_revision := fun n sep _ => String.append n (String.append sep "1.1");
            RCS_EPOCH := 1000;
            cvstime2rfc3339 := print_decimal;
            commit_time_window := 300;
            MAX_SERIAL_T := 65535;
            qsort := @sort;
            qsort_rearranges := Hsort;
            qsort_orders := _ |}.
  intros A cmp l [Hanti Htrans].
  assert (Hin : forall k x, (forall y, In y (x :: k) -> In y l) ->
            StronglySorted (fun a b => cmp a b <= 0) k ->
            StronglySorted (fun a b => cmp a b <= 0) (insert cmp x k)).
  { intros k x Hsub Hk. induction Hk as [| y k Hk IH Hy]; simpl.
    - constructor; constructor.
    - destruct (Z.leb_spec (cmp x y) 0) as [Hxy | Hxy].
      + constructor; [constructor; assumption |].
        constructor; [exact Hxy |].
        apply List.Forall_forall. intros z Hz.
        apply (Htrans x y z);
          [apply Hsub; left; reflexivity
          | apply Hsub; right; left; reflexivity
          | apply Hsub; right; right; exact Hz
          | exact Hxy
          | exact (proj1 (List.Forall_forall _ _) Hy z Hz)].
      + constructor.
        * apply IH. intros z [<- | Hz]; apply Hsub; [left | right; right]; auto.
        * eapply Permutation_Forall; [apply Hinsert |].
          constructor; [| exact Hy].
          assert (Hyx : cmp y x < 0)
            by (apply Hanti; [apply Hsub; right; left; reflexivity
                             | apply Hsub; left; reflexivity | lia]).
          lia. }
  assert (Hsub : forall k, (forall y, In y k -> In y l) ->
            StronglySorted (fun a b => cmp a b <= 0) (sort cmp k)).
  { induction k as [| x k IH]; intros Hk; simpl; [constructor |].
    apply Hin.
    - intros y [<- | Hy]; [apply Hk; left; reflexivity |].
      apply Hk. right. eapply Permutation_in; [apply Permutation_sym, Hsort | exact Hy].
    - apply IH. intros y Hy. apply Hk. right. exact Hy. }
  apply Hsub. auto.
Defined.

Definition bloom_or (a b : bloom_t) : bloom_t :=
  {| el := map (fun w => Z.lor (fst w) (snd w)) (combine (el a) (el b)) |}.

(** The filter of a commit: the union of the fingerprints of its files. *)
Definition bloom_files (fs : list cvs_commit) : bloom_t :=
  fold_right (fun f b => bloom_or (name_bloom (name (master f))) b) {| el := [0; 0] |} fs.

Definition mkfile (a : nat) (n : string) (m : Z) : cvs_commit :=
  {| f_addr := a; master := {| name := n; mode := m |}; number := [1; 1] |}.

Definition mkcommit (a : nat) (p : option git_commit) (d : Z) (fs : list cvs_commit)
    : git_commit :=
  GitCommit a p d "esr" "log message" false [ {| files := fs |} ] (bloom_files fs).

Definition mknode (f : cvs_commit) (text : string) : node_t :=
  {| node_commit := f; node_buf := text |}.

Definition mkopts (m : reportmode_t) (cutoff : Z) : export_options_t :=
  {| reportmode := m; branch_prefix := "refs/heads/"; force_dates := false;
     embed_ids := false; reposurgeon := false; revision_map := false;
     fromtime := cutoff |}.

(** Two commits on [master]: the first has [README]; the second has a
    new revision of [README] and adds [src/main.c]; tag [v1] is on the
    first. *)
Definition readme1 : cvs_commit := mkfile 1 "README" 420.
Definition readme2 : cvs_commit := mkfile 2 "README" 420.
Definition main_c : cvs_commit := mkfile 3 "src/main.c" 493.
Definition c1 : git_commit := mkcommit 10 None 100 [readme1].
Definition c2 : git_commit := mkcommit 11 (Some c1) 200 [readme2; main_c].

Definition master : rev_ref :=
  {| r_addr := 20; ref_name := "master"; ref_commit := Some c2; ref_tail := false |}.

Definition forest : forest_t :=
  {| head := {| heads := [master] |};
     textsize := 50;
     total_revisions := 3;
     generators := [ [mknode readme1 "hello"; mknode readme2 "hello2"];
                     [mknode main_c "int main;"] ];
     skew_vulnerable := 0 |}.

Definition tags : list tag_t := [ {| tag_name := "v1"; tag_commit := c1 |} ].


(** A repository whose masters hold exactly [SMALL_REPOSITORY] bytes. *)
Definition threshold_forest : forest_t :=
  {| head := {| heads := [master] |};
     textsize := 1000000;
     total_revisions := 3;
     generators := generators forest;
     skew_vulnerable := 0 |}.

(** A script that its group may execute and its owner may not
    (mode 0654), in a repository of its own. *)
Definition group_exec : cvs_commit := mkfile 40 "run.sh" 428.
Definition script_commit : git_commit := mkcommit 41 None 100 [group_exec].

Definition script_forest : forest_t :=
  {| head := {| heads := [ {| r_addr := 42; ref_name := "master";
                              ref_commit := Some script_commit;
                              ref_tail := false |} ] |};
     textsize := 9;
     total_revisions := 1;
     generators := [ [mknode group_exec "#!/bin/sh"] ];
     skew_vulnerable := 0 |}.

(** A branch whose head is older than its parent. *)
Definition early : git_commit := mkcommit 50 (Some c1) 50 [readme2].

Definition skewed : git_repo :=
  {| heads := [ {| r_addr := 51; ref_name := "master"; ref_commit := Some early;
                   ref_tail := false |} ] |}.

(** A side branch grafted on the first commit of [master], whose head
    comes before [master] in the list of heads. *)
Definition side_c : cvs_commit := mkfile 60 "side.c" 420.

Definition graft : git_commit :=
  GitCommit 61 (Some c1) 150 "esr" "side work" true
    [ {| files := [readme1; side_c] |} ] (bloom_files [readme1; side_c]).

Definition side : rev_ref :=
  {| r_addr := 62; ref_name := "side"; ref_commit := Some graft; ref_tail := false |}.

Definition grafted : forest_t :=
  {| head := {| heads := [side; master] |};
     textsize := 60;
     total_revisions := 4;
     generators := generators forest ++ [ [mknode side_c "side"] ];
     skew_vulnerable := 0 |}.

(** Two commits more than [2^31] seconds apart. *)
Definition late : git_commit := mkcommit 70 (Some c1) 2147483749 [readme2].

Definition long_lived : forest_t :=
  {| head := {| heads := [ {| r_addr := 71; ref_name := "master";
                              ref_commit := Some late; ref_tail := false |} ] |};
     textsize := 20;
     total_revisions := 2;
     generators := [ [mknode readme1 "hello"; mknode readme2 "hello2"] ];
     skew_vulnerable := 0 |}.

(** The sample repository with generators that never call back for
    [src/main.c]. *)
Definition unsaved : forest_t :=
  {| head := head forest;
     textsize := 50;
     total_revisions := 2;
     generators := [ [mknode readme1 "hello"; mknode readme2 "hello2"] ];
     skew_vulnerable := 0 |}.

(** A head that is a tail and whose commit is on no exported branch. *)
Definition stray : git_commit := mkcommit 80 None 50 [readme1].

Definition vendor : rev_ref :=
  {| r_addr := 81; ref_name := "vendor"; ref_commit := Some stray; ref_tail := true |}.

Definition dangling : forest_t :=
  {| head := {| heads := [master; vendor] |};
     textsize := 50;
     total_revisions := 3;
     generators := generators forest;
     skew_vulnerable := 0 |}.

(** Canonical mode with a revision map. *)
Definition mapped : export_options_t :=
  {| reportmode := canonical; branch_prefix := "refs/heads/"; force_dates := false;
     embed_ids := false; reposurgeon := false; revision_map := true;
     fromtime := 0 |}.

End Demo.

(** ** Reasoning about runs

    [wp m Q E s]: the run of [m] from [s] ends in a state that satisfies
    [Q] (with the value returned) when it completes, and [E] when it
    stops early. *)
Definition wp {A : Type} (m : M A) (Q : A -> state -> Prop) (E : state -> Prop)
    (s : state) : Prop :=
  match m s with
  | Ok a s' => Q a s'
  | Err _ s' => E s'
  end.

(** *** Effects that compose

    [keeps R m]: whatever state [m] is run from, the state it ends in
    (completed or not) is related to it by [R].  For a reflexive and
    transitive [R] this passes through every construct of the monad. *)
Definition keeps {A : Type} (R : state -> state -> Prop) (m : M A) : Prop :=
  forall s, wp m (fun _ s' => R s s') (R s) s.

(** The runs that only add events of a given kind to standard output. *)
Definition writes (P : event -> Prop) (s s' : state) : Prop :=
  exists evs, out s' = out s ++ evs /\ Forall P evs.

(** The runs that leave the error channel alone. *)
Definition quiet (s s' : state) : Prop := err s' = err s.

(** What [export_commit] can write for a commit: the operations name
    files of the commit (for [M]) or of its parent (for [D]), and
    nothing of what only the driver writes. *)
Definition commit_event (commit : git_commit) (branch : string)
    (opts : export_options_t) (e : event) : Prop :=
  match e with
  | ECommit prefix b => prefix = branch_prefix opts /\ b = branch
  | EFrom _ => parent commit <> None
  | EModify perm _ path =>
      exists cc, In cc (file_list commit)
        /\ perm = fileop_mode (mode (master cc))
        /\ path = atom (fileop_name (name (master cc)))
  | EDelete path =>
      exists p pf, parent commit = Some p /\ In pf (file_list p)
        /\ path = atom (fileop_name (name (master pf)))
  | EData _ | EAnchor _ _ | ETagReset _ _ | EReset _ _ _ | EDone => False
  | _ => True
  end.

(** What only the driver and [export_blob] write. *)
Definition driver_only (e : event) : Prop :=
  match e with
  | EBlobMark _ | EData _ | ERaw _ | EAnchor _ _ | ETagReset _ _ | EReset _ _ _ | EDone => True
  | _ => False
  end.

(** What a whole run can write: the events of the driver, and the
    events of the commits of the branches that are not tails. *)
Definition driver_event (rl : git_repo) (opts : export_options_t) (e : event) : Prop :=
  driver_only e
  \/ exists hp, In hp (canonicalize rl)
       /\ commit_event (seq_commit hp) (ref_name (seq_head hp)) opts e.

(** An entry of the history array, whatever its [realized] flag. *)
Definition same_entry (hp hp0 : commit_seq) : Prop :=
  seq_commit hp = seq_commit hp0 /\ seq_head hp = seq_head hp0.

(** The topo order agrees with the time order at an entry: its commit is
    not older than its parent. *)
Definition in_time_order (hp : commit_seq) : Prop :=
  forall p, parent (seq_commit hp) = Some p -> date p <= date (seq_commit hp).

(** The dates of an array tell its commits apart: two entries hold the
    same commit, or commits whose dates differ by less than [2^31]
    seconds. *)
Definition dates_apart (l : list commit_seq) : Prop :=
  forall a b, In a l -> In b l ->
    (c_addr (seq_commit a) = c_addr (seq_commit b)
     /\ date (seq_commit a) = date (seq_commit b))
    \/ (c_addr (seq_commit a) <> c_addr (seq_commit b)
        /\ 0 < Z.abs (date (seq_commit a) - date (seq_commit b)) < 2 ^ (int_bits - 1)).

(** Two entries in the order of their dates. *)
Definition date_le (a b : commit_seq) : Prop :=
  date (seq_commit a) <= date (seq_commit b).

(** The state after the warning of [check_sortable]. *)
Definition announced (s : state) : state :=
  with_err (err s ++ [String.append "some parent commits are younger than children." newline]) s.

(** The order of paths that [fileop_sort] sorts by. *)
Definition path_le (a b : string) : Prop := path_deep_compare a b <= 0.




Definition is_anchor (e : event) : bool :=
  match e with
  | EAnchor _ _ => true
  | _ => false
  end.









(** The entries of the history array that a head contributes. *)
Definition entries (h : rev_ref) : list commit_seq :=
  if ref_tail h then []
  else map (fun c => {| seq_commit := c; seq_head := h; realized := false |})
           (rev (branch h)).



(** A run that completed. *)
Definition completed {A : Type} (o : outcome A) : bool :=
  match o with
  | Ok _ _ => true
  | Err _ _ => false
  end.

(** ** Well-formed inputs *)

(** The file revisions the content generators call back with, in order. *)
Definition generated (forest : forest_t) : list cvs_commit :=
  map node_commit (concat (generators forest)).

(** Every file revision of an exported commit is one the generators
    call back with. *)
Definition files_generated (forest : forest_t) : Prop :=
  forall hp f, In hp (canonicalize (head forest)) ->
    In f (file_list (seq_commit hp)) ->
    In (f_addr f) (map f_addr (generated forest)).

(** The result of the loop of [check_sortable]. *)
Definition sortable (history : list commit_seq) : bool :=
  forallb (fun hp => negb (younger_parent hp)) history.

(** The order in which a run exports the commits: in canonical mode
    it is what the library's [qsort] makes of the array. *)
Definition export_order `{Collaborators} (rl : git_repo) (opts : export_options_t)
    : list commit_seq :=
  if reportmode_eqb (reportmode opts) fast then canonicalize rl
  else if sortable (canonicalize rl) then qsort sort_by_date (canonicalize rl)
  else canonicalize rl.

(** Every commit of the list comes after its parent; [seen] holds the
    addresses of the commits in front of the list. *)
Fixpoint parents_first (seen : list nat) (l : list git_commit) : Prop :=
  match l with
  | [] => True
  | c :: l' =>
      match parent c with
      | Some p => In (c_addr p) seen
      | None => True
      end
      /\ parents_first (c_addr c :: seen) l'
  end.

(** The commit of every head is among the exported commits. *)
Definition heads_exported (rl : git_repo) : Prop :=
  forall h c, In h (heads rl) -> ref_commit h = Some c ->
    In (c_addr c) (map (fun hp => c_addr (seq_commit hp)) (canonicalize rl)).

(** ** The indices of [markmap] *)

(** What holds of the indices at every point of a run: [markmap] has its
    extent of [R + C + 1] slots, every index used so far lies between 1
    and [R + C], and slot 0 is as [xcalloc] left it. *)
Record index_base (R C : Z) (s : state) : Prop := {
  base_len : Z.of_nat (length (markmap s)) = R + C + 1;
  base_idx : Forall (fun i => 1 <= i <= R + C) (idx s);
  base_slot0 : markmap s !! 0%nat = Some 0
}.

(** While the blobs are generated: the serials handed out so far are
    those of the file revisions called back with. *)
Record blob_inv (R C : Z) (s : state) : Prop := {
  blob_base : index_base R C s;
  blob_seqno : 0 <= seqno s <= R;
  blob_files : forall a v, serial_f s !! a = Some v -> 1 <= v <= seqno s
}.

(** While the commits are exported: the generated file revisions
    ([gen], by address) have serials up to [R], and the commits exported
    so far ([seen], by address) have the serials after them. *)
Record index_inv (R C : Z) (gen seen : list nat) (s : state) : Prop := {
  inv_base : index_base R C s;
  inv_files : forall a, In a gen -> 1 <= default 0 (serial_f s !! a) <= R;
  inv_seqno : seqno s = R + Z.of_nat (length seen);
  inv_commits : forall a, In a seen -> 1 <= default 0 (serial_c s !! a) <= R + C
}.

(** The steps that touch neither [markmap] nor the serials. *)
Definition index_frame (s s' : state) : Prop :=
  markmap s' = markmap s /\ idx s' = idx s /\ serial_f s' = serial_f s
  /\ serial_c s' = serial_c s /\ seqno s' = seqno s.

(** The steps that leave the serials alone and keep the indices in
    range. *)
Definition idx_step (R C : Z) (s s' : state) : Prop :=
  serial_f s' = serial_f s /\ serial_c s' = serial_c s /\ seqno s' = seqno s
  /\ (index_base R C s -> index_base R C s').

(** ** Marks and the lines that refer to them *)

(** The mark that a [blob] or [commit] record defines. *)
Definition defines (e : event) : list Z :=
  match e with
  | EBlobMark m => [m]
  | EMark m => [m]
  | _ => []
  end.

(** The marks defined in a stretch of the stream. *)
Definition defined (l : list event) : list Z := flat_map defines l.

(** The mark a line refers to: the [:N] of an [M] line and, when
    [with_from] holds, that of the [from] line of a commit record. *)
Definition reference (with_from : bool) (e : event) : list Z :=
  match e with
  | EModify _ m _ => [m]
  | EFrom m => if with_from then [m] else []
  | _ => []
  end.

(** Every reference comes strictly after a record that defines its
    mark. *)
Definition defined_before_use (with_from : bool) (l : list event) : Prop :=
  forall pre e post n,
    l = pre ++ e :: post -> In n (reference with_from e) -> In n (defined pre).

(** Slot [i] of [markmap] holds a mark that the stream has defined. *)
Definition marked (s : state) (i : Z) : Prop :=
  In (default 0 (markmap s !! Z.to_nat i)) (defined (out s)).

(** What holds of the marks at every point of a run.  [R] is the last
    serial of a file revision; [gen] holds the file revisions called
    back with and [seen] the commits exported so far, by address;
    [canon] tells canonical mode from fast mode, and [strict] whether
    the [from] lines are looked at. *)
Record mark_inv (strict canon : bool) (R : Z) (gen seen : list nat) (s : state)
    : Prop := {
  mi_out : defined_before_use strict (out s);
  mi_nonneg : 0 <= R;
  mi_seqno : R <= seqno s;
  mi_gen : forall a, In a gen -> is_Some (serial_f s !! a);
  mi_range : forall a v, serial_f s !! a = Some v -> 1 <= v <= R;
  mi_inj : forall a b v,
    serial_f s !! a = Some v -> serial_f s !! b = Some v -> a = b;
  mi_marked : forall a v,
    serial_f s !! a = Some v -> canon = false \/ a ∈ emitted s -> marked s v;
  mi_stored : forall a v,
    canon = true -> serial_f s !! a = Some v -> a ∉ emitted s ->
    is_Some (blobs s !! v);
  mi_commits : forall a,
    strict = true -> In a seen ->
    R < default 0 (serial_c s !! a) <= seqno s
    /\ marked s (default 0 (serial_c s !! a))
}.

(** A line that refers to no mark. *)
Definition free (e : event) : Prop := reference true e = [].

(** The steps that leave the marks, the serials and the blobs alone and
    write only lines that refer to no mark. *)
Definition mark_frame (s s' : state) : Prop :=
  markmap s' = markmap s /\ serial_f s' = serial_f s /\ serial_c s' = serial_c s
  /\ seqno s' = seqno s /\ emitted s' = emitted s /\ blobs s' = blobs s
  /\ exists evs, out s' = out s ++ evs /\ Forall free evs.

(** The [M] operations among a list of operations, by address of the
    file revision. *)
Definition modified (ops : list fileop) : list nat :=
  flat_map (fun o =>
    match o with
    | Modify _ rev _ => [f_addr rev]
    | Delete _ => []
    end) ops.

(** While the blobs are generated no blob has been shipped by a commit,
    and the last serial of a file revision is the current one. *)
Definition blob_marks (strict canon : bool) (gen : list nat) (s : state) : Prop :=
  mark_inv strict canon (seqno s) gen [] s /\ emitted s = ∅.

(** ** The file iterator *)

(** What an iterator has left to yield. *)
Definition file_iter_rest (pos : file_iter) : list cvs_commit :=
  match it_dirs pos with
  | [] => []
  | _ :: ds => it_files pos ++ flat_map files ds
  end.

(** * The rest of the engine

    The functions of the export engine that the run of [export_commits]
    calls through a wrapper of the model, or not at all: the drain of a
    file iterator, the path of a blob file, and the list of authors. *)

(** ** Draining a file iterator *)

(** The loop [while ((cf = file_iter_next(&it)))]: the files returned,
    in order, until [NULL]; that [NULL] was reached within [fuel] calls
    is the second component. *)
Fixpoint file_iter_drain (fuel : nat) (pos : file_iter) : list cvs_commit * bool :=
  match fuel with
  | O => ([], false)
  | S fuel' =>
      match file_iter_next pos with
      | None => ([], true)
      | Some (f, pos') =>
          let '(l, done) := file_iter_drain fuel' pos' in (f :: l, done)
      end
  end.

(** ** Blob files *)

(** [PATH_MAX] of [limits.h]. *)
Definition PATH_MAX : nat := 4096.

Definition FANOUT : Z := 256.

(** A digit of [%x]. *)
Definition hex_digit (d : Z) : ascii :=
  if d <? 10 then ascii_of_nat (48 + Z.to_nat d) else ascii_of_nat (87 + Z.to_nat d).

Fixpoint hex_digits (fuel : nat) (n : Z) (acc : string) : string :=
  match fuel with
  | O => acc
  | S fuel' =>
      let acc' := String (hex_digit (n mod 16)) acc in
      if n / 16 =? 0 then acc' else hex_digits fuel' (n / 16) acc'
  end.

(** [%x] of an [int]: the argument is read as unsigned. *)
Definition print_hex (n : Z) : string :=
  let u := n mod 2 ^ int_bits in
  hex_digits (S (Z.to_nat (Z.log2 u))) u EmptyString.

(** [snprintf(path + strlen(path), PATH_MAX - strlen(path), ...)]: the
    text is appended as far as the buffer has room for it and its
    closing byte 0. *)
Definition snprintf_cat (path text : string) : string :=
  substring 0 (PATH_MAX - 1) (String.append path text).

(** The loop of [blobfile] from [m], with [path] holding what has been
    written so far: the path of the blob file and, in order, the
    directories on the way (the ones that [create] has made when they
    were not there).  [%] and [/] of C truncate towards zero. *)
Fixpoint blobfile_loop (fuel : nat) (m : Z) (path : string) : string * list string :=
  match fuel with
  | O => (path, [])
  | S fuel' =>
      let digit := Z.rem m FANOUT in
      let m' := Z.quot (m - digit) FANOUT in
      if m' =? 0
      then (snprintf_cat path (String.append "/=" (print_hex digit)), [])
      else
        let path' := snprintf_cat path (String.append "/" (print_hex digit)) in
        let '(file, dirs) := blobfile_loop fuel' m' path' in
        (file, path' :: dirs)
  end.

(** [blobfile]: random-access location of the blob corresponding to the
    specified serial, under the blob directory.  The loop makes one
    round per base-[FANOUT] digit of the serial. *)
Definition blobfile (blobdir : string) (serial : Z) : string * list string :=
  blobfile_loop (S (Z.to_nat (Z.log2 (Z.abs serial)))) serial (snprintf_cat EmptyString blobdir).

(** The part of the path after the blob directory, digit by digit. *)
Fixpoint blob_suffix (fuel : nat) (m : Z) : string :=
  match fuel with
  | O => EmptyString
  | S fuel' =>
      if m / FANOUT =? 0
      then String.append "/=" (print_hex (m mod FANOUT))
      else String.append (String.append "/" (print_hex (m mod FANOUT)))
             (blob_suffix fuel' (m / FANOUT))
  end.

(** The values of a digit of the serial. *)
Definition fanout_digits : list Z := map Z.of_nat (seq 0 256).

(** A string without [/]. *)
Definition slashless (u : string) : bool :=
  forallb (fun c => negb (Ascii.eqb c "/"%char)) (list_ascii_of_string u).

(** ** The list of authors *)

(** The first loop of [export_authors]: an author that is not yet in
    the array is added at its end.  Authors are interned, so the
    comparison of pointers is the comparison of names. *)
Definition add_author (authors : list atom_t) (hp : commit_seq) : list atom_t :=
  if existsb (atom_eqb (author (seq_commit hp))) authors
  then authors
  else authors ++ [author (seq_commit hp)].

Definition collect_authors (history : list commit_seq) : list atom_t :=
  fold_left add_author history [].

(** [export_authors]: dump a list of author IDs in the repository, one
    [printf("%s\n")] each. *)
Definition export_authors (forest : forest_t) (opts : export_options_t) : M unit :=
  modify (with_export_total_commits (export_ncommit (head forest))) ;;
  let history := canonicalize (head forest) in
  for_each (collect_authors history)
    (fun a => emit (ERaw (String.append a newline))).

(** ** A suppressed commit *)

(** What the loop that ships blobs leaves alone: the serials, and the
    extent of [markmap]; the mark can only grow. *)
Definition ship_step (s s' : state) : Prop :=
  seqno s' = seqno s /\ serial_c s' = serial_c s /\ mark s <= mark s'
  /\ length (markmap s') = length (markmap s).

(** ** Marks in the order they are given *)

(** The lines added from [s] to [s'] define marks in increasing order,
    all of them between [lo] and [hi]. *)
Definition adds_marks (lo hi : Z) (s s' : state) : Prop :=
  exists evs, out s' = out s ++ evs
    /\ StronglySorted Z.lt (defined evs)
    /\ Forall (fun m => lo < m < hi) (defined evs).

(** A stretch of a run: [mark] only grows, and the marks defined in the
    stretch are later than the mark it started from and no later than
    the mark it ends with. *)
Definition mark_step (s s' : state) : Prop :=
  mark s <= mark s' /\ adds_marks (mark s) (mark s' + 1) s s'.

(** The same at a point where [mark] has been advanced and the record
    that defines it is still to be written. *)
Definition mark_pending (s s' : state) : Prop :=
  mark s < mark s' /\ adds_marks (mark s) (mark s') s s'.

(** ** The default ignore patterns *)

Definition is_commit_line (e : event) : bool :=
  match e with ECommit _ _ => true | _ => false end.

Definition is_ignores (e : event) : bool :=
  match e with EIgnores => true | _ => false end.

(** An [M] or [D] line for the path [.gitignore]. *)
Definition names_gitignore (e : event) : bool :=
  match e with
  | EModify _ _ path => atom_eqb path s_gitignore
  | EDelete path => atom_eqb path s_gitignore
  | _ => false
  end.

(** The number of [commit] lines in a stretch of the stream. *)
Definition commit_lines (l : list event) : nat := length (List.filter is_commit_line l).

(** No default ignore patterns and no operation on [.gitignore]. *)
Definition ignore_free (l : list event) : Prop :=
  Forall (fun e => is_ignores e = false /\ names_gitignore e = false) l.

(** Wherever the default ignore patterns are written, they are in the
    first commit record of the stream, and neither they nor an
    operation on [.gitignore] have been written before. *)
Definition ignores_first (l : list event) : Prop :=
  forall pre post, l = pre ++ EIgnores :: post ->
    commit_lines pre = 1%nat /\ ignore_free pre.

(** What holds of [need_ignores] between the commit records
    ([inside = false]) and within one ([inside = true]). *)
Definition ign_inv (inside : bool) (s : state) : Prop :=
  ignores_first (out s)
  /\ (need_ignores s = true ->
      ignore_free (out s) /\ commit_lines (out s) = if inside then 1%nat else 0%nat).

(** A line that is neither a [commit] line, nor the default ignore
    patterns, nor an operation on [.gitignore]. *)
Definition neutral (e : event) : bool :=
  negb (is_commit_line e || is_ignores e || names_gitignore e).

(** The steps that leave [need_ignores] alone and write such lines
    only. *)
Definition ign_frame (s s' : state) : Prop :=
  need_ignores s' = need_ignores s
  /\ exists evs, out s' = out s ++ evs /\ Forall (fun e => neutral e = true) evs.

(** ** The resets of the tags *)

(** Every [reset refs/tags/...] block comes strictly after a record
    that defines the mark of its [from] line. *)
Definition tags_defined (l : list event) : Prop :=
  forall pre t m post, l = pre ++ ETagReset t m :: post -> In m (defined pre).

(** A line other than the reset of a tag. *)
Definition untagged (e : event) : Prop :=
  match e with
  | ETagReset _ _ => False
  | _ => True
  end.

(** The steps that leave [markmap] and the serials of the commits
    alone; standard output only grows. *)
Definition tag_frame (s s' : state) : Prop :=
  markmap s' = markmap s /\ serial_c s' = serial_c s
  /\ exists evs, out s' = out s ++ evs.

(** What [tag_resets] needs of the commit just exported: the slot of
    its serial holds a mark that the stream defines; or the commit is
    no later than the cutoff, by its own date. *)
Definition tag_ready `{Collaborators} (c : git_commit) (opts : export_options_t)
    (s : state) : Prop :=
  marked s (commit_serial s c)
  \/ (force_dates opts = false /\ date c + RCS_EPOCH <= fromtime opts).

(** ** The revision map *)

(** A string without a newline. *)
Fixpoint one_line (s : string) : bool :=
  match s with
  | EmptyString => true
  | String c rest => negb (Ascii.eqb c "010"%char) && one_line rest
  end.

(** The file revisions of the [M] operations of a list. *)
Definition op_revs (ops : list fileop) : list cvs_commit :=
  flat_map (fun o =>
    match o with
    | Modify _ cc _ => [cc]
    | Delete _ => []
    end) ops.

(** One line for each file revision: the revision pair, then the mark
    of the commit. *)
Definition revmap_lines `{Collaborators} (opts : export_options_t) (here : Z)
    (revs : list cvs_commit) : string :=
  cat (flat_map (fun cc =>
    [if embed_ids opts then "CVS-ID: " else EmptyString;
     stringify_revision (name (master cc)) " " (number cc);
     " :"; print_decimal here; newline]) revs).

(** The state in which [export_commit] collects its operations: the
    links between the files of the commit and of its parent are
    made. *)
Definition linked `{Collaborators} (commit : git_commit) (s : state) : state :=
  match parent commit with
  | Some p => with_other (compute_parent_links commit p (other s)) s
  | None => s
  end.

(** The file revisions that a commit has an [M] operation for, in the
    order in which [export_commit] collects the operations. *)
Definition modified_revs `{Collaborators} (commit : git_commit) (s : state)
    : list cvs_commit :=
  op_revs (commit_fileops (linked commit s) commit).

(** The steps that leave the revision map and [mark] alone. *)
Definition revmap_frame (s s' : state) : Prop :=
  revmap s' = revmap s /\ mark s' = mark s.

(** ** The content of the blobs *)

(** What a blob record holds for a file revision that a generator
    called back with: the [data] header, the default ignore patterns in
    front of a [.cvsignore] file, the content, and a newline. *)
Definition node_text (nd : node_t) : string :=
  blob_text (node_buf nd) (strlen (node_buf nd))
    (if String.eqb (name (master (node_commit nd))) ".cvsignore"
     then strlen CVS_IGNORES else 0).

(** The stream has a blob record with mark [m] whose bytes after the
    [mark] line start with [t]. *)
Definition has_blob (l : list event) (m : Z) (t : string) : Prop :=
  exists pre body post, l = pre ++ EBlobMark m :: body ++ post
    /\ cat (map render body) = t.

(** Slot [v] of [markmap] holds the mark of a blob record with the
    bytes [t]. *)
Definition holds (s : state) (v : Z) (t : string) : Prop :=
  has_blob (out s) (default 0 (markmap s !! Z.to_nat v)) t.

(** Every file revision with a serial is one of [nodes]; its text is in
    its blob file until it is shipped (canonical mode), and in a blob
    record whose mark is in the slot of its serial once it is. *)
Definition content_inv (canon : bool) (nodes : list node_t) (s : state) : Prop :=
  forall a v, serial_f s !! a = Some v ->
    exists nd, In nd nodes /\ f_addr (node_commit nd) = a
      /\ (canon = true -> a ∉ emitted s -> blobs s !! v = Some (node_text nd))
      /\ (canon = false \/ a ∈ emitted s -> holds s v (node_text nd)).

(** Every [M] line is the mode, the path and the text of one file
    revision of [nodes] that is [exported]: the line refers to a blob
    record, written strictly earlier, that holds the text of that file
    revision. *)
Definition contents_ok (nodes : list node_t) (exported : cvs_commit -> Prop)
    (l : list event) : Prop :=
  forall pre perm m path post, l = pre ++ EModify perm m path :: post ->
    exists nd, In nd nodes /\ exported (node_commit nd)
      /\ perm = fileop_mode (mode (master (node_commit nd)))
      /\ path = fileop_name (name (master (node_commit nd)))
      /\ has_blob pre m (node_text nd).

Definition content_ok (canon : bool) (nodes : list node_t)
    (exported : cvs_commit -> Prop) (s : state) : Prop :=
  contents_ok nodes exported (out s) /\ content_inv canon nodes s.

(** The file revisions of the exported commits. *)
Definition exported_file (forest : forest_t) (f : cvs_commit) : Prop :=
  exists hp, In hp (canonicalize (head forest)) /\ In f (file_list (seq_commit hp)).

(** A line other than an [M] line. *)
Definition unmodifying (e : event) : Prop :=
  match e with
  | EModify _ _ _ => False
  | _ => True
  end.

(** An address holds one file revision: a file revision of an exported
    commit is the one that the generators call back with at its
    address. *)
Definition addresses_identify (forest : forest_t) : Prop :=
  forall hp f nd, In hp (canonicalize (head forest)) ->
    In f (file_list (seq_commit hp)) ->
    In nd (concat (generators forest)) ->
    f_addr (node_commit nd) = f_addr f -> node_commit nd = f.

(** ** The resets of the branches *)

(** Every [reset <branch>] block comes strictly after a record that
    defines the mark of its [from] line. *)
Definition resets_defined (l : list event) : Prop :=
  forall pre prefix b m post, l = pre ++ EReset prefix b m :: post -> In m (defined pre).

(** A line other than the reset of a branch. *)
Definition unreset (e : event) : Prop :=
  match e with
  | EReset _ _ _ => False
  | _ => True
  end.

(** The steps that leave the slots and the serials alone and write no
    reset of a branch. *)
Definition reset_frame (s s' : state) : Prop :=
  markmap s' = markmap s /\ serial_f s' = serial_f s /\ serial_c s' = serial_c s
  /\ seqno s' = seqno s
  /\ exists evs, out s' = out s ++ evs /\ Forall unreset evs.

(** While the commits are exported: the file revisions have the
    serials up to [R], and each commit exported so far has a serial
    after them whose slot is as [tag_ready] wants it. *)
Definition ready `{Collaborators} (opts : export_options_t) (R : Z)
    (seen : list git_commit) (s : state) : Prop :=
  resets_defined (out s)
  /\ 0 <= R <= seqno s
  /\ (forall a v, serial_f s !! a = Some v -> 0 <= v <= R)
  /\ forall c, In c seen -> R < commit_serial s c <= seqno s /\ tag_ready c opts s.

(** An address holds one commit. *)
Definition commits_identified (rl : git_repo) : Prop :=
  forall hp hp', In hp (canonicalize rl) -> In hp' (canonicalize rl) ->
    c_addr (seq_commit hp) = c_addr (seq_commit hp') -> seq_commit hp = seq_commit hp'.

(** The commit of every head is one of the exported commits. *)
Definition heads_converted (rl : git_repo) : Prop :=
  forall h c, In h (heads rl) -> ref_commit h = Some c ->
    In c (map seq_commit (canonicalize rl)).

(** * The file names of the older export engine

    [export.c], the engine before blobs were shipped on demand, turns
    the name of an RCS master into the path of the file operation
    itself: [export_filename] and [drop_path_component]. *)

(** [strstr]: where the first occurrence of [needle] starts. *)
Definition strstr (haystack needle : string) : option nat := String.index 0 needle haystack.

(** [memmove (c, c + m, l - m + 1)] with [l = strlen (c)]: the [m]
    bytes at [c] are cut out of the string. *)
Definition cut_out (str : string) (c m : nat) : string :=
  String.append (substring 0 c str)
    (substring (c + m)%nat (String.length str - (c + m))%nat str).

(** The byte in front of position [c] is a slash. *)
Definition after_slash (str : string) (c : nat) : bool :=
  match String.get (c - 1)%nat str with
  | Some ch => Ascii.eqb ch "/"%char
  | None => false
  end.

(** The loop of [drop_path_component]: while the first occurrence of
    [drop] starts the string or follows a slash, it is cut out.  [None]
    stands for a loop that has not ended within [fuel] rounds. *)
Fixpoint drop_path_component_loop (fuel : nat) (str drop : string) : option string :=
  match fuel with
  | O => None
  | S fuel' =>
      match strstr str drop with
      | Some c =>
          if (c =? 0)%nat || after_slash str c
          then drop_path_component_loop fuel' (cut_out str c (String.length drop)) drop
          else Some str
      | None => Some str
      end
  end.

Definition drop_path_component (str drop : string) : option string :=
  drop_path_component_loop (S (String.length str)) str drop.

(** [MAXPATHLEN] of [sys/param.h], which is [PATH_MAX]. *)
Definition MAXPATHLEN : Z := Z.of_nat PATH_MAX.

(** [size_t] has 64 bits on the platforms the program is built for. *)
Definition size_bits : Z := 64.

(** [export_filename]: the name from [strip] on, without its [Attic/]
    and [RCS/] components and its [,v] suffix; [.cvsignore] becomes
    [.gitignore].  [None] stands for [exit (1)] on a name that is too
    long.  The difference [strlen (file->name) - strip] is taken in
    [size_t]. *)
Definition export_filename (file_name : string) (strip : Z) : option string :=
  let len := Z.of_nat (String.length file_name) in
  if MAXPATHLEN <=? (len - strip) mod 2 ^ size_bits then None
  else
    let name := substring (Z.to_nat strip) (String.length file_name - Z.to_nat strip)%nat
                  file_name in
    match drop_path_component name "Attic/" with
    | None => None
    | Some name =>
        match drop_path_component name "RCS/" with
        | None => None
        | Some name =>
            let len := String.length name in
            let name :=
              if (2 <? len)%nat && String.eqb (substring (len - 2)%nat 2 name) ",v"
              then substring 0 (len - 2)%nat name
              else name in
            Some (if String.eqb name ".cvsignore" then ".gitignore" else name)
        end
    end.

(** ** The extent of [markmap] *)

(** [markmap] has [L] slots and every index used so far is one of
    them. *)
Definition within (L : Z) (s : state) : Prop :=
  Z.of_nat (length (markmap s)) = L /\ Forall (fun i => 0 <= i < L) (idx s).

(** A step that leaves the extent of [markmap], the serials and the
    sequence number as they are, and whose indices are among the first
    [L]. *)
Definition still (L : Z) (s s' : state) : Prop :=
  length (markmap s') = length (markmap s)
  /\ serial_f s' = serial_f s
  /\ serial_c s' = serial_c s
  /\ seqno s' = seqno s
  /\ (Forall (fun i => 0 <= i < L) (idx s) -> Forall (fun i => 0 <= i < L) (idx s')).

(** [markmap] has [L] slots, the indices used so far are among them,
    the sequence number is at most [k], and every serial handed out is
    the index of a slot. *)
Record bounded (L k : Z) (s : state) : Prop := {
  bd_within : within L s;
  bd_seqno : 0 <= seqno s <= k;
  bd_files : forall a v, serial_f s !! a = Some v -> 0 <= v < L;
  bd_commits : forall a v, serial_c s !! a = Some v -> 0 <= v < L
}.

(** * Properties *)

(** ** Integer conversion *)

Lemma int_modulus : 2 ^ int_bits = 4294967296.
Proof. reflexivity. Qed.

Lemma int_half_modulus : 2 ^ (int_bits - 1) = 2147483648.
Proof. reflexivity. Qed.

Lemma to_int_range z : - 2 ^ (int_bits - 1) <= to_int z < 2 ^ (int_bits - 1).
Proof.
  unfold to_int. rewrite int_modulus, int_half_modulus.
  pose proof (Z.mod_pos_bound (z + 2147483648) 4294967296 ltac:(lia)). lia.
Qed.

Lemma to_int_fits z :
  - 2 ^ (int_bits - 1) <= z < 2 ^ (int_bits - 1) -> to_int z = z.
Proof.
  unfold to_int. rewrite int_modulus, int_half_modulus. intros Hz.
  rewrite Z.mod_small by lia. lia.
Qed.




(** ** The timestamp step of [compare_commit] *)

Lemma compare_commit_dates ac bc :
  date ac <> date bc -> compare_commit ac bc = to_int (date ac - date bc).
Proof.
  intros Hne. unfold compare_commit.
  destruct (Z.eqb_spec (date ac - date bc) 0) as [E | E]; [lia | reflexivity].
Qed.

(** ** The loop of [sort_by_date] *)

Lemma commit_eqb_refl c : commit_eqb c c = true.
Proof. unfold commit_eqb. apply Nat.eqb_refl. Qed.

Lemma sort_by_date_loop_unfold ac bc :
  sort_by_date_loop ac bc
  = if commit_eqb ac bc then 0
    else
      let cmp := compare_commit ac bc in
      if negb (cmp =? 0) then cmp
      else
        match parent ac, parent bc with
        | Some a', Some b' => sort_by_date_loop a' b'
        | _, _ => 0
        end.
Proof. destruct ac; reflexivity. Qed.



(** ** The choice of the report mode *)

(** C7, as stated, fails where the masters hold exactly the threshold:
    the total is not below the threshold, and the mode chosen is
    canonical all the same. *)
Lemma adaptive_at_threshold_counterexample :
  ~ (reportmode (select_reportmode Demo.threshold_forest (Demo.mkopts adaptive 0))
       = canonical
     <-> textsize Demo.threshold_forest < SMALL_REPOSITORY).
Proof.
  intros [Hcanon _]. specialize (Hcanon eq_refl).
  vm_compute in Hcanon. discriminate Hcanon.
Qed.

(** C7, amended.  The driver selects canonical mode whenever the cutoff
    is set; otherwise, when the mode asked for is adaptive, it selects
    canonical when the total of source bytes is at most the threshold of
    1000000 bytes, and fast when the total is above it; a mode asked for
    explicitly is kept. *)
Theorem select_reportmode_rule (forest : forest_t) (opts : export_options_t) :
  (0 < fromtime opts ->
     reportmode (select_reportmode forest opts) = canonical)
  /\ (fromtime opts <= 0 -> reportmode opts = adaptive ->
      (reportmode (select_reportmode forest opts) = canonical
         <-> textsize forest <= 1000000)
      /\ (reportmode (select_reportmode forest opts) = fast
         <-> 1000000 < textsize forest))
  /\ (fromtime opts <= 0 -> reportmode opts <> adaptive ->
      select_reportmode forest opts = opts).
Proof.
  unfold select_reportmode, SMALL_REPOSITORY.
  destruct (Z.ltb_spec 0 (fromtime opts)) as [Hcut | Hcut].
  - split; [reflexivity |]. split; intros; lia.
  - split; [intros; lia |]. split.
    + intros _ Hmode. rewrite Hmode. simpl.
      destruct (Z.leb_spec (textsize forest) 1000000); simpl;
        (split; split; intros; try lia; try reflexivity; try discriminate).
    + intros _ Hmode. destruct (reportmode opts); simpl; congruence.
Qed.

Lemma select_reportmode_rule_witness :
  fromtime (Demo.mkopts adaptive 0) <= 0
  /\ reportmode (Demo.mkopts adaptive 0) = adaptive
  /\ reportmode (select_reportmode Demo.threshold_forest (Demo.mkopts adaptive 0))
       = canonical.
Proof.
  assert (Hcut : fromtime (Demo.mkopts adaptive 0) <= 0) by (vm_compute; discriminate).
  split; [exact Hcut |]. split; [reflexivity |].
  destruct (select_reportmode_rule Demo.threshold_forest (Demo.mkopts adaptive 0))
    as (_ & Hadaptive & _).
  destruct (Hadaptive Hcut eq_refl) as [[_ Hcanon] _].
  apply Hcanon. vm_compute. discriminate.
Defined.

(** ** Reasoning about runs: composition *)
Lemma wp_bind {A B : Type} (m : M A) (k : A -> M B) Q E s :
  wp (bind m k) Q E s <-> wp m (fun a s' => wp (k a) Q E s') E s.
Proof. unfold wp, bind. destruct (m s); reflexivity. Qed.

Lemma wp_mono {A : Type} (m : M A) (Q Q' : A -> state -> Prop) (E E' : state -> Prop) s :
  wp m Q E s ->
  (forall a s', Q a s' -> Q' a s') ->
  (forall s', E s' -> E' s') ->
  wp m Q' E' s.
Proof. unfold wp. destruct (m s); auto. Qed.

(** Use of a property already proved for [m] in front of a continuation. *)
Lemma wp_seq {A B : Type} (m : M A) (k : A -> M B) Q1 E1 Q E s :
  wp m Q1 E1 s ->
  (forall a s', Q1 a s' -> wp (k a) Q E s') ->
  (forall s', E1 s' -> E s') ->
  wp (bind m k) Q E s.
Proof. intros Hm Hk He. apply wp_bind. eapply wp_mono; eauto. Qed.

Lemma wp_when (b : bool) (m : M unit) Q E s :
  (b = true -> wp m Q E s) ->
  (b = false -> Q tt s) ->
  wp (when b m) Q E s.
Proof. destruct b; simpl; intros Ht Hf; [apply Ht | apply Hf]; reflexivity. Qed.

(** A loop keeps what each of its rounds keeps. *)
Lemma wp_for_each {A : Type} (I E : state -> Prop) (l : list A) (body : A -> M unit) :
  (forall x s, In x l -> I s -> wp (body x) (fun _ => I) E s) ->
  forall s, I s -> wp (for_each l body) (fun _ => I) E s.
Proof.
  induction l as [| x l IH]; intros Hbody s Hs.
  - exact Hs.
  - simpl. eapply wp_seq.
    + apply Hbody; [left; reflexivity | exact Hs].
    + intros a s' Hs'. apply IH; [| exact Hs'].
      intros y s'' Hy. apply Hbody. right. exact Hy.
    + auto.
Qed.

(** The same, when what is kept relates each state to the one the loop
    started from. *)
Lemma wp_for_each_rel {A : Type} (R : state -> state -> Prop)
    (l : list A) (body : A -> M unit) :
  (forall s, R s s) ->
  (forall s1 s2 s3, R s1 s2 -> R s2 s3 -> R s1 s3) ->
  (forall x s, In x l -> wp (body x) (fun _ => R s) (R s) s) ->
  forall s, wp (for_each l body) (fun _ => R s) (R s) s.
Proof.
  intros Hrefl Htrans Hbody s.
  apply (wp_for_each (R s) (R s)); [| apply Hrefl].
  intros x s' Hx Hs'.
  eapply wp_mono; [apply Hbody; exact Hx | |]; simpl; eauto.
Qed.

(** A run that completes. *)
Lemma wp_ok {A : Type} (m : M A) Q E s a s' :
  wp m Q E s -> m s = Ok a s' -> Q a s'.
Proof. unfold wp. intros Hwp Hrun. rewrite Hrun in Hwp. exact Hwp. Qed.

Lemma wp_final {A : Type} (m : M A) (I : state -> Prop) s :
  wp m (fun _ => I) I s <-> I (final (m s)).
Proof. unfold wp, final. destruct (m s); reflexivity. Qed.

Lemma wp_conj {A : Type} (m : M A) (Q1 Q2 : A -> state -> Prop) (E1 E2 : state -> Prop) s :
  wp m Q1 E1 s -> wp m Q2 E2 s ->
  wp m (fun a s' => Q1 a s' /\ Q2 a s') (fun s' => E1 s' /\ E2 s') s.
Proof. unfold wp. destruct (m s); auto. Qed.

Lemma bind_ok {A B : Type} (m : M A) (k : A -> M B) s b s2 :
  bind m k s = Ok b s2 -> exists a s1, m s = Ok a s1 /\ k a s1 = Ok b s2.
Proof. unfold bind. destruct (m s) as [a s1 | e s1]; [eauto | discriminate]. Qed.

Lemma for_each_app {A : Type} (l1 l2 : list A) (body : A -> M unit) s :
  for_each (l1 ++ l2) body s = (for_each l1 body ;; for_each l2 body) s.
Proof.
  revert s. induction l1 as [| x l1 IH]; intros s; simpl.
  - reflexivity.
  - unfold bind in *. destruct (body x s) as [[] s1 | e s1]; [apply IH | reflexivity].
Qed.


Section Keeps.

Variable R : state -> state -> Prop.
Hypothesis R_refl : forall s, R s s.
Hypothesis R_trans : forall s1 s2 s3, R s1 s2 -> R s2 s3 -> R s1 s3.

Lemma keeps_ret {A : Type} (a : A) : keeps R (ret a).
Proof. intros s. apply R_refl. Qed.

Lemma keeps_get : keeps R get.
Proof. intros s. apply R_refl. Qed.

Lemma keeps_fail {A : Type} (e : error) : keeps R (@fail A e).
Proof. intros s. apply R_refl. Qed.

Lemma keeps_bind {A B : Type} (m : M A) (k : A -> M B) :
  keeps R m -> (forall a, keeps R (k a)) -> keeps R (bind m k).
Proof.
  intros Hm Hk s. eapply wp_seq; [apply Hm | |].
  - intros a s' Hs'. eapply wp_mono; [apply Hk | |]; simpl.
    + intros b s'' Hs''. exact (R_trans _ _ _ Hs' Hs'').
    + intros s'' Hs''. exact (R_trans _ _ _ Hs' Hs'').
  - auto.
Qed.

Lemma keeps_modify (f : state -> state) :
  (forall s, R s (f s)) -> keeps R (modify f).
Proof. intros Hf s. apply Hf. Qed.

Lemma keeps_when (b : bool) (m : M unit) : keeps R m -> keeps R (when b m).
Proof. intros Hm. destruct b; [exact Hm | apply keeps_ret]. Qed.

Lemma keeps_for_each {A : Type} (l : list A) (body : A -> M unit) :
  (forall x, In x l -> keeps R (body x)) -> keeps R (for_each l body).
Proof.
  intros Hbody s. apply wp_for_each_rel; auto.
  intros x s' Hx. apply Hbody. exact Hx.
Qed.

Lemma keeps_next_mark :
  (forall s v, R s (with_mark v s)) -> keeps R next_mark.
Proof. intros Hf s. apply Hf. Qed.

Lemma keeps_markmap_get (i : Z) :
  (forall s, R s (with_idx (idx s ++ [i]) s)) -> keeps R (markmap_get i).
Proof.
  intros Hf s. unfold wp, markmap_get.
  destruct (_ && _); apply Hf.
Qed.

Lemma keeps_markmap_set (i v : Z) :
  (forall s, R s (with_idx (idx s ++ [i]) s)) ->
  (forall s w, R s (with_markmap w s)) ->
  keeps R (markmap_set i v).
Proof.
  intros Hidx Hmap s. unfold wp, markmap_set.
  destruct (_ && _); [| apply Hidx].
  eapply R_trans; [apply Hidx | apply Hmap].
Qed.

Lemma keeps_if {A : Type} (b : bool) (m1 m2 : M A) :
  keeps R m1 -> keeps R m2 -> keeps R (if b then m1 else m2).
Proof. destruct b; auto. Qed.

End Keeps.


Lemma writes_refl P s : writes P s s.
Proof. exists []. rewrite app_nil_r. auto. Qed.

Lemma writes_trans P s1 s2 s3 : writes P s1 s2 -> writes P s2 s3 -> writes P s1 s3.
Proof.
  intros (ev1 & Ho1 & Hf1) (ev2 & Ho2 & Hf2).
  exists (ev1 ++ ev2). rewrite Ho2, Ho1, app_assoc. split; [reflexivity |].
  apply Forall_app. auto.
Qed.

Lemma writes_impl (P Q : event -> Prop) s s' :
  (forall e, P e -> Q e) -> writes P s s' -> writes Q s s'.
Proof.
  intros Himp (evs & Ho & Hf).
  exists evs. split; [exact Ho |]. eapply Forall_impl; eauto.
Qed.

(** A step that leaves standard output alone. *)
Lemma writes_silent P s s' : out s' = out s -> writes P s s'.
Proof. intros Ho. exists []. rewrite app_nil_r. auto. Qed.

Lemma keeps_emit P e : P e -> keeps (writes P) (emit e).
Proof.
  intros He s. exists [e]. split; [reflexivity |].
  constructor; [exact He | constructor].
Qed.

Lemma keeps_impl {A : Type} (R R' : state -> state -> Prop) (m : M A) :
  (forall s s', R s s' -> R' s s') -> keeps R m -> keeps R' m.
Proof. intros Himp Hm s. eapply wp_mono; [apply Hm | |]; simpl; auto. Qed.

Lemma quiet_refl s : quiet s s.
Proof. reflexivity. Qed.

Lemma quiet_trans s1 s2 s3 : quiet s1 s2 -> quiet s2 s3 -> quiet s1 s3.
Proof. unfold quiet. congruence. Qed.

(** One step of a proof that a run keeps a relation; [refl] and [trans]
    are the proofs that the relation is reflexive and transitive, and
    [silent] closes the goals left by assignments to the state. *)
Ltac keeps_step refl trans silent :=
  lazymatch goal with
  | |- keeps _ (bind _ _) => apply (keeps_bind _ trans); [| intros ?]
  | |- keeps _ (ret _) => apply (keeps_ret _ refl)
  | |- keeps _ get => apply (keeps_get _ refl)
  | |- keeps _ (fail _) => apply (keeps_fail _ refl)
  | |- keeps _ (when _ _) => apply (keeps_when _ refl)
  | |- keeps _ (modify _) => apply keeps_modify; intros ?; silent
  | |- keeps _ (announce _) => apply keeps_modify; intros ?; silent
  | |- keeps _ next_mark => apply keeps_next_mark; intros ? ?; silent
  | |- keeps _ (markmap_get _) => apply keeps_markmap_get; intros ?; silent
  | |- keeps _ (markmap_set _ _) => apply (keeps_markmap_set _ trans); intros; silent
  | |- keeps _ (for_each _ _) => apply (keeps_for_each _ refl trans); intros ? ?
  | |- keeps _ (if _ then _ else _) => apply keeps_if
  | |- keeps _ (match ?x with _ => _ end) => destruct x eqn:?
  | |- keeps _ (let '(_, _) := ?x in _) => destruct x eqn:?
  end.

Ltac writes_step :=
  lazymatch goal with
  | |- keeps (writes _) (emit _) => apply keeps_emit
  | |- keeps (writes ?P) _ =>
      keeps_step (writes_refl P) (writes_trans P)
        ltac:(apply writes_silent; reflexivity)
  end.

Ltac quiet_step :=
  lazymatch goal with
  | |- keeps quiet (emit _) => apply keeps_modify; intros ?; reflexivity
  | |- _ => keeps_step quiet_refl quiet_trans ltac:(reflexivity)
  end.

(** ** Stepping through a run *)

Lemma wp_get_bind {B : Type} (k : state -> M B) Q E s :
  wp (k s) Q E s -> wp (bind get k) Q E s.
Proof. intros Hk. exact Hk. Qed.

Lemma wp_modify_bind {B : Type} (f : state -> state) (k : unit -> M B) Q E s :
  wp (k tt) Q E (f s) -> wp (bind (modify f) k) Q E s.
Proof. intros Hk. exact Hk. Qed.

Lemma wp_assoc {A B C : Type} (m : M A) (f : A -> M B) (k : B -> M C) Q E s :
  wp (bind m (fun a => bind (f a) k)) Q E s -> wp (bind (bind m f) k) Q E s.
Proof. unfold wp, bind. destruct (m s); auto. Qed.

Lemma wp_when_bind {B : Type} (b : bool) (m : M unit) (k : unit -> M B) Q E s :
  (b = true -> wp (bind m k) Q E s) ->
  (b = false -> wp (k tt) Q E s) ->
  wp (bind (when b m) k) Q E s.
Proof. destruct b; simpl; intros Ht Hf; [apply Ht | apply Hf]; reflexivity. Qed.

Lemma wp_markmap_get_bind {B : Type} (i : Z) (k : Z -> M B) Q E s :
  0 <= i < Z.of_nat (length (markmap s)) ->
  wp (k (default 0 (markmap s !! Z.to_nat i))) Q E (with_idx (idx s ++ [i]) s) ->
  wp (bind (markmap_get i) k) Q E s.
Proof.
  intros Hi Hk. unfold wp, bind, markmap_get.
  destruct (Z.leb_spec 0 i); [| lia].
  destruct (Z.ltb_spec i (Z.of_nat (length (markmap s)))); [| lia].
  exact Hk.
Qed.

Lemma wp_markmap_set_bind {B : Type} (i v : Z) (k : unit -> M B) Q E s :
  0 <= i < Z.of_nat (length (markmap s)) ->
  wp (k tt) Q E (with_markmap (<[Z.to_nat i := v]> (markmap s))
                              (with_idx (idx s ++ [i]) s)) ->
  wp (bind (markmap_set i v) k) Q E s.
Proof.
  intros Hi Hk. unfold wp, bind, markmap_set.
  destruct (Z.leb_spec 0 i); [| lia].
  destruct (Z.ltb_spec i (Z.of_nat (length (markmap s)))); [| lia].
  exact Hk.
Qed.

Lemma wp_ret_unit Q E s : Q tt s -> wp (ret tt) Q E s.
Proof. intros Hq. exact Hq. Qed.

(** A step that an invariant does not see, in front of a continuation. *)
Lemma wp_frame_bind {A B : Type} (F : state -> state -> Prop) (I : state -> Prop)
    (m : M A) (k : A -> M B) Q E s :
  (forall s1 s2, F s1 s2 -> I s1 -> I s2) ->
  keeps F m -> I s ->
  (forall a s', I s' -> wp (k a) Q E s') ->
  (forall s', I s' -> E s') ->
  wp (bind m k) Q E s.
Proof.
  intros Hresp Hm Hs Hk He. eapply wp_seq; [apply Hm | |]; simpl.
  - intros a s' Hs'. apply Hk. eapply Hresp; eauto.
  - intros s' Hs'. apply He. eapply Hresp; eauto.
Qed.

Lemma wp_frame_last {A : Type} (F : state -> state -> Prop) (I : state -> Prop)
    (m : M A) (Q : A -> state -> Prop) E s :
  (forall s1 s2, F s1 s2 -> I s1 -> I s2) ->
  keeps F m -> I s ->
  (forall a s', I s' -> Q a s') ->
  (forall s', I s' -> E s') ->
  wp m Q E s.
Proof.
  intros Hresp Hm Hs Hq He. eapply wp_mono; [apply Hm | |]; simpl.
  - intros a s' Hs'. apply Hq. eapply Hresp; eauto.
  - intros s' Hs'. apply He. eapply Hresp; eauto.
Qed.

Lemma for_each_flat_map {A B : Type} (f : A -> list B) (body : B -> M unit) (l : list A) s :
  for_each (flat_map f l) body s = for_each l (fun x => for_each (f x) body) s.
Proof.
  revert s. induction l as [| x l IH]; intros s; simpl; [reflexivity |].
  rewrite for_each_app. unfold bind.
  destruct (for_each (f x) body s) as [[] s1 | e s1]; [apply IH | reflexivity].
Qed.

Lemma for_each_map {A B : Type} (f : A -> B) (body : B -> M unit) (l : list A) s :
  for_each (map f l) body s = for_each l (fun x => body (f x)) s.
Proof.
  revert s. induction l as [| x l IH]; intros s; simpl; [reflexivity |].
  unfold bind. destruct (body (f x) s) as [[] s1 | e s1]; [apply IH | reflexivity].
Qed.

Lemma for_each_ext {A : Type} (body1 body2 : A -> M unit) (l : list A) :
  (forall x s, body1 x s = body2 x s) ->
  forall s, for_each l body1 s = for_each l body2 s.
Proof.
  intros Hext. induction l as [| x l IH]; intros s; simpl; [reflexivity |].
  unfold bind. rewrite Hext. destruct (body2 x s) as [[] s1 | e s1]; [apply IH | reflexivity].
Qed.

Lemma wp_ext {A : Type} (m1 m2 : M A) Q E s : m1 s = m2 s -> wp m2 Q E s -> wp m1 Q E s.
Proof. unfold wp. intros ->. auto. Qed.

Lemma wp_run_eq {A : Type} (m1 m2 : M A) Q E s1 s2 :
  m1 s1 = m2 s2 -> wp m2 Q E s2 -> wp m1 Q E s1.
Proof. unfold wp. intros ->. auto. Qed.

Lemma index_frame_refl s : index_frame s s.
Proof. repeat split; reflexivity. Qed.

Lemma index_frame_trans s1 s2 s3 :
  index_frame s1 s2 -> index_frame s2 s3 -> index_frame s1 s3.
Proof. unfold index_frame. intuition congruence. Qed.

Ltac frame_step :=
  lazymatch goal with
  | |- keeps index_frame (emit _) => apply keeps_modify; intros ?; repeat split; reflexivity
  | |- keeps index_frame _ =>
      keeps_step index_frame_refl index_frame_trans ltac:(repeat split; reflexivity)
  end.

Lemma wp_next_mark_bind {B : Type} (k : Z -> M B) Q E s :
  wp (k (mark s + 1)) Q E (with_mark (mark s + 1) s) -> wp (bind next_mark k) Q E s.
Proof. intros Hk. exact Hk. Qed.

Lemma wp_emit_bind {B : Type} (e : event) (k : unit -> M B) Q E s :
  wp (k tt) Q E (with_out (out s ++ [e]) s) -> wp (bind (emit e) k) Q E s.
Proof. intros Hk. exact Hk. Qed.

(** An assignment to [markmap], in range or not. *)
Lemma wp_markmap_set_any {B : Type} (i v : Z) (k : unit -> M B) Q E s :
  (0 <= i < Z.of_nat (length (markmap s)) ->
   wp (k tt) Q E (with_markmap (<[Z.to_nat i := v]> (markmap s))
                               (with_idx (idx s ++ [i]) s))) ->
  E (with_idx (idx s ++ [i]) s) ->
  wp (bind (markmap_set i v) k) Q E s.
Proof.
  intros Hk He. unfold wp, bind, markmap_set.
  destruct (Z.leb_spec 0 i); simpl; [| exact He].
  destruct (Z.ltb_spec i (Z.of_nat (length (markmap s)))); [| exact He].
  apply Hk. lia.
Qed.

Lemma wp_markmap_get_any {B : Type} (i : Z) (k : Z -> M B) Q E s :
  wp (k (default 0 (markmap s !! Z.to_nat i))) Q E (with_idx (idx s ++ [i]) s) ->
  E (with_idx (idx s ++ [i]) s) ->
  wp (bind (markmap_get i) k) Q E s.
Proof.
  intros Hk He. unfold wp, bind, markmap_get.
  destruct (_ && _); [exact Hk | exact He].
Qed.

(** A loop whose invariant knows the rounds already made. *)

Lemma wp_modify_last (f : state -> state) (Q : unit -> state -> Prop) E s :
  Q tt (f s) -> wp (modify f) Q E s.
Proof. intros Hq. exact Hq. Qed.

Lemma wp_ret_bind {A B : Type} (a : A) (k : A -> M B) Q E s :
  wp (k a) Q E s -> wp (bind (ret a) k) Q E s.
Proof. intros Hk. exact Hk. Qed.

(** ** [qsort] rearranges *)

Lemma qsort_perm `{Collaborators} {A : Type} (cmp : A -> A -> Z) (l : list A) :
  Permutation l (qsort cmp l).
Proof. apply qsort_rearranges. Qed.

Lemma qsort_In `{Collaborators} {A : Type} (cmp : A -> A -> Z) (l : list A) (x : A) :
  In x (qsort cmp l) <-> In x l.
Proof.
  split; apply Permutation_in; [apply Permutation_sym |]; apply qsort_perm.
Qed.

Lemma qsort_length `{Collaborators} {A : Type} (cmp : A -> A -> Z) (l : list A) :
  length (qsort cmp l) = length l.
Proof. symmetry. apply Permutation_length, qsort_perm. Qed.

Lemma qsort_sorted `{Collaborators} {A : Type} (cmp : A -> A -> Z) (l : list A) :
  consistent cmp l -> StronglySorted (fun a b => cmp a b <= 0) (qsort cmp l).
Proof. apply qsort_orders. Qed.

(** ** What [export_commit] writes *)

Section CommitEvents.

Context `{Collaborators}.

Lemma commit_fileops_In s commit o :
  In o (commit_fileops s commit) ->
  exists cc, In cc (file_list commit)
    /\ o = Modify (fileop_mode (mode (master cc))) cc
                  (atom (fileop_name (name (master cc)))).
Proof.
  unfold commit_fileops, file_list. intros Ho.
  apply in_flat_map in Ho as (dir & Hdir & Ho).
  apply in_flat_map in Ho as (cc & Hcc & Ho).
  exists cc. split; [apply in_flat_map; eauto |].
  destruct (negb _ || _); simpl in Ho; [| contradiction].
  destruct Ho as [Ho | []]. symmetry. exact Ho.
Qed.

Lemma parent_fileops_In s commit o :
  In o (parent_fileops s commit) ->
  exists p pf, parent commit = Some p /\ In pf (file_list p)
    /\ o = Delete (atom (fileop_name (name (master pf)))).
Proof.
  unfold parent_fileops, file_list. destruct (parent commit) as [p |]; [| intros []].
  intros Ho. exists p.
  apply in_flat_map in Ho as (dir & Hdir & Ho).
  apply in_flat_map in Ho as (pf & Hpf & Ho).
  exists pf. split; [reflexivity |]. split; [apply in_flat_map; eauto |].
  destruct (bool_decide _); simpl in Ho; [contradiction |].
  destruct Ho as [Ho | []]. symmetry. exact Ho.
Qed.

Lemma ship_blob_writes P report opts o :
  (forall m, P (EBlobMark m)) -> (forall t, P (ERaw t)) ->
  keeps (writes P) (ship_blob report opts o).
Proof.
  intros Hblob Hraw. unfold ship_blob.
  repeat (writes_step; auto).
Qed.

Lemma print_fileop_writes P o :
  (forall perm rev path m, o = Modify perm rev path -> P (EModify perm m path)) ->
  (forall path, o = Delete path -> P (EDelete path)) ->
  keeps (writes P) (print_fileop o).
Proof.
  intros Hmod Hdel. unfold print_fileop.
  repeat (writes_step; eauto).
Qed.

Lemma display_date_marked_writes P c f : keeps (writes P) (display_date_marked c f).
Proof. unfold display_date_marked. repeat (writes_step; auto). Qed.

(** [export_commit] writes only events of its commit. *)
Lemma export_commit_writes commit branch report opts :
  keeps (writes (commit_event commit branch opts))
        (export_commit commit branch report opts).
Proof.
  unfold export_commit.
  writes_step; [repeat (writes_step; auto) |].
  writes_step; [writes_step |].
  writes_step.
  { writes_step. apply ship_blob_writes; intros; exact I. }
  repeat (writes_step; simpl; auto).
  all: try congruence.
  match goal with Hx : In _ (qsort _ _) |- _ => apply qsort_In, in_app_or in Hx; rename Hx into Hop end.
  apply print_fileop_writes.
  - intros perm rev path m ->. destruct Hop as [Hop | Hop].
    + apply commit_fileops_In in Hop as (cc & Hcc & Heq). inversion Heq; subst.
      exists cc. auto.
    + apply parent_fileops_In in Hop as (p' & pf & _ & _ & Heq). discriminate Heq.
  - intros path ->. destruct Hop as [Hop | Hop].
    + apply commit_fileops_In in Hop as (cc & _ & Heq). discriminate Heq.
    + apply parent_fileops_In in Hop as (p' & pf & Hp & Hpf & Heq). inversion Heq; subst.
      exists p', pf. auto.
Qed.

End CommitEvents.

(** ** What a whole run writes *)

Section DriverEvents.

Context `{Collaborators}.

Lemma keeps_seqno_next (R : state -> state -> Prop) :
  (forall s v, R s (with_seqno v s)) -> keeps R seqno_next.
Proof.
  intros Hf s. unfold wp, seqno_next. simpl.
  destruct (MAX_SERIAL_T <=? seqno s + 1); apply Hf.
Qed.

Lemma export_blob_writes P node buf len opts :
  (forall m, P (EBlobMark m)) -> (forall n, P (EData n)) -> (forall t, P (ERaw t)) ->
  keeps (writes P) (export_blob node buf len opts).
Proof.
  intros Hblob Hdata Hraw. unfold export_blob.
  writes_step; [writes_step |].
  writes_step; [apply keeps_seqno_next; intros; apply writes_silent; reflexivity |].
  repeat (writes_step; auto).
Qed.

Lemma generate_files_writes P gp opts :
  (forall m, P (EBlobMark m)) -> (forall n, P (EData n)) -> (forall t, P (ERaw t)) ->
  keeps (writes P) (generate_files gp opts export_blob).
Proof.
  intros Hblob Hdata Hraw. unfold generate_files.
  writes_step. apply export_blob_writes; assumption.
Qed.

Lemma tag_resets_writes P all_tags c opts :
  (forall t m, In t all_tags -> commit_eqb (tag_commit t) c = true ->
     P (ETagReset (tag_name t) m)) ->
  keeps (writes P) (tag_resets all_tags c opts).
Proof.
  intros Htag. unfold tag_resets.
  writes_step. destruct (commit_eqb (tag_commit x) c) eqn:Hc; [| writes_step].
  writes_step; [apply display_date_marked_writes |].
  repeat (writes_step; auto).
Qed.

Lemma canonicalize_In rl h c :
  In h (heads rl) -> ref_tail h = false -> In c (branch h) ->
  In {| seq_commit := c; seq_head := h; realized := false |} (canonicalize rl).
Proof.
  intros Hh Htail Hc. unfold canonicalize. apply in_flat_map.
  exists h. split; [exact Hh |]. rewrite Htail.
  apply in_map_iff. exists c. split; [reflexivity |].
  apply -> in_rev. exact Hc.
Qed.

Lemma commit_event_driver rl opts hp e :
  In hp (canonicalize rl) ->
  commit_event (seq_commit hp) (ref_name (seq_head hp)) opts e ->
  driver_event rl opts e.
Proof. intros Hhp He. right. exists hp. auto. Qed.

Lemma export_fast_writes rl all_tags opts :
  keeps (writes (driver_event rl opts)) (export_fast rl all_tags opts).
Proof.
  unfold export_fast.
  apply (keeps_for_each _ (writes_refl _) (writes_trans _)). intros h Hh.
  destruct (ref_tail h) eqn:Htail; simpl; [writes_step |].
  apply (keeps_for_each _ (writes_refl _) (writes_trans _)). intros c Hc.
  apply in_rev in Hc.
  writes_step.
  - eapply keeps_impl; [| apply export_commit_writes].
    intros s s'. apply writes_impl. intros e He.
    apply (commit_event_driver rl opts
             {| seq_commit := c; seq_head := h; realized := false |});
      [apply canonicalize_In; assumption | exact He].
  - apply tag_resets_writes. intros. left. exact I.
Qed.

Lemma realize_same h history hp :
  In hp (realize h history) -> exists hp0, In hp0 history /\ same_entry hp hp0.
Proof.
  unfold realize. intros Hin. apply in_map_iff in Hin as (hp0 & Heq & Hin).
  exists hp0. split; [exact Hin |].
  destruct (ref_eqb (seq_head hp0) h); subst hp; split; reflexivity.
Qed.

Lemma export_history_writes rl all_tags opts n :
  forall history,
    (forall hp, In hp history -> exists hp0, In hp0 (canonicalize rl) /\ same_entry hp hp0) ->
    keeps (writes (driver_event rl opts)) (export_history n history all_tags opts).
Proof.
  induction n as [| n IH]; intros history Hhist; simpl.
  - writes_step.
  - destruct history as [| hp rest]; [writes_step |].
    destruct (Hhist hp (or_introl eq_refl)) as (hp0 & Hhp0 & Hc & Hh).
    writes_step; [writes_step |].
    writes_step.
    { writes_step. destruct (parent (seq_commit hp)); [| writes_step].
      writes_step; [apply display_date_marked_writes |].
      repeat (writes_step; auto). left. exact I. }
    writes_step.
    { eapply keeps_impl; [| apply export_commit_writes].
      intros s s'. apply writes_impl. intros e He.
      apply (commit_event_driver rl opts hp0); [exact Hhp0 |].
      rewrite <- Hc, <- Hh. exact He. }
    writes_step.
    { apply tag_resets_writes. intros. left. exact I. }
    apply IH. intros hp' Hhp'.
    destruct (_ && _ && _).
    + apply realize_same in Hhp' as (hp1 & Hhp1 & Hc1 & Hh1).
      destruct (Hhist hp1 (or_intror Hhp1)) as (hp2 & Hhp2 & Hc2 & Hh2).
      exists hp2. split; [exact Hhp2 |]. split; congruence.
    + apply Hhist. right. exact Hhp'.
Qed.

Lemma check_sortable_writes P history : keeps (writes P) (check_sortable history).
Proof.
  induction history as [| hp rest IH]; simpl.
  - writes_step.
  - destruct (younger_parent hp); [| exact IH].
    repeat writes_step.
Qed.

Lemma export_canonical_writes rl all_tags opts :
  keeps (writes (driver_event rl opts)) (export_canonical rl all_tags opts).
Proof.
  unfold export_canonical. writes_step; [apply check_sortable_writes |].
  apply export_history_writes. intros hp Hhp.
  exists hp. split; [| split; reflexivity].
  destruct a; [apply qsort_In in Hhp |]; exact Hhp.
Qed.

Lemma reset_heads_writes P rl opts :
  (forall h m, In h (heads rl) -> P (EReset (branch_prefix opts) (ref_name h) m)) ->
  keeps (writes P) (reset_heads rl opts).
Proof.
  intros Hreset. unfold reset_heads. writes_step.
  destruct (ref_commit x); [| writes_step].
  writes_step; [apply display_date_marked_writes |].
  repeat (writes_step; auto).
Qed.

(** The driver was given [opts]; the engine runs with the options that
    [select_reportmode] returns. *)
Lemma export_commits_writes forest all_tags opts :
  keeps (writes (driver_event (head forest) (select_reportmode forest opts)))
        (export_commits forest all_tags opts).
Proof.
  unfold export_commits.
  set (opts' := select_reportmode forest opts).
  writes_step; [repeat writes_step |].
  writes_step; [writes_step |].
  writes_step; [writes_step |].
  writes_step; [writes_step |].
  writes_step.
  { writes_step. apply generate_files_writes; intros; left; exact I. }
  writes_step.
  { destruct (reportmode_eqb (reportmode opts') fast);
      [apply export_fast_writes | apply export_canonical_writes]. }
  writes_step.
  { apply reset_heads_writes. intros. left. exact I. }
  writes_step; [writes_step; left; exact I |].
  repeat writes_step.
Qed.

End DriverEvents.

(** ** The mode of an [M] operation *)

Lemma keeps_final {A : Type} (R : state -> state -> Prop) (m : M A) s :
  keeps R m -> R s (final (m s)).
Proof. intros Hm. specialize (Hm s). unfold wp in Hm. destruct (m s); exact Hm. Qed.

Lemma fileop_mode_cases m :
  (Z.land m S_IXUSR <> 0 /\ fileop_mode m = MODE_0755)
  \/ (Z.land m S_IXUSR = 0 /\ fileop_mode m = MODE_0644).
Proof.
  unfold fileop_mode. destruct (Z.eqb_spec (Z.land m S_IXUSR) 0); simpl; auto.
Qed.

(** C5, as stated, fails for a file that has an execute bit other than
    the owner's: mode 0654 has the group's execute bit, and the [M]
    line of the file carries 100644. *)
Lemma group_execute_bit_counterexample :
  Z.land (mode (master Demo.group_exec)) 73 <> 0
  /\ In (EModify MODE_0644 1 "run.sh")
        (@stream Demo.collaborators Demo.script_forest [] (Demo.mkopts fast 0))
  /\ ~ In (EModify MODE_0755 1 "run.sh")
        (@stream Demo.collaborators Demo.script_forest [] (Demo.mkopts fast 0))
  /\ render (EModify MODE_0644 1 "run.sh")
     = String.append "M 100644 :1 run.sh" newline.
Proof.
  split; [vm_compute; discriminate |].
  split; [vm_compute; tauto |].
  split; [| reflexivity].
  vm_compute. intuition discriminate.
Qed.

(** C5, amended.  Every [M] line written for a file revision carries
    mode 100755 when the mode of the source master has the owner's
    execute bit (0100) set, and mode 100644 otherwise, whatever the
    execute bits of group and others; so the mode of every [M] line is
    100644 or 100755 (the synthetic [.gitignore] line is written with
    100644). *)
Theorem modify_mode_owner_execute `{Collaborators}
    (forest : forest_t) (all_tags : list tag_t) (opts : export_options_t)
    (perm m : Z) (path : string) :
  In (EModify perm m path) (stream forest all_tags opts) ->
  exists hp cc,
    In hp (canonicalize (head forest))
    /\ In cc (file_list (seq_commit hp))
    /\ path = fileop_name (name (master cc))
    /\ ((Z.land (mode (master cc)) S_IXUSR <> 0
         /\ String.append "100" (print_octal perm) = "100755")
        \/ (Z.land (mode (master cc)) S_IXUSR = 0
            /\ String.append "100" (print_octal perm) = "100644")).
Proof.
  intros Hin. unfold stream in Hin.
  destruct (keeps_final _ _ init_state (export_commits_writes forest all_tags opts))
    as (evs & Hout & Hall).
  rewrite Hout in Hin. simpl in Hin.
  rewrite List.Forall_forall in Hall. specialize (Hall _ Hin).
  destruct Hall as [[] | (hp & Hhp & cc & Hcc & Hperm & Hpath)].
  exists hp, cc. repeat split; try assumption.
  destruct (fileop_mode_cases (mode (master cc))) as [[Hbit Hmode] | [Hbit Hmode]];
    [left | right]; (split; [exact Hbit |]); rewrite Hperm, Hmode; reflexivity.
Qed.

Lemma modify_mode_owner_execute_witness :
  In (EModify MODE_0644 1 "run.sh")
     (@stream Demo.collaborators Demo.script_forest [] (Demo.mkopts fast 0))
  /\ exists hp cc,
       In hp (canonicalize (head Demo.script_forest))
       /\ In cc (file_list (seq_commit hp))
       /\ "run.sh" = fileop_name (name (master cc))
       /\ ((Z.land (mode (master cc)) S_IXUSR <> 0
            /\ String.append "100" (print_octal MODE_0644) = "100755")
           \/ (Z.land (mode (master cc)) S_IXUSR = 0
               /\ String.append "100" (print_octal MODE_0644) = "100644")).
Proof.
  assert (Hin : In (EModify MODE_0644 1 "run.sh")
                   (@stream Demo.collaborators Demo.script_forest []
                            (Demo.mkopts fast 0)))
    by (vm_compute; tauto).
  split; [exact Hin |].
  exact (@modify_mode_owner_execute Demo.collaborators Demo.script_forest []
           (Demo.mkopts fast 0) MODE_0644 1 "run.sh" Hin).
Defined.

(** ** The topological check of canonical mode *)

Section Sortable.

Context `{Collaborators}.

Lemma younger_parent_spec hp : younger_parent hp = false <-> in_time_order hp.
Proof.
  unfold younger_parent, in_time_order.
  destruct (parent (seq_commit hp)) as [p |].
  - destruct (Z.ltb_spec (date (seq_commit hp)) (date p)); split; intros Hx.
    + discriminate.
    + specialize (Hx p eq_refl). lia.
    + intros q [= <-]. lia.
    + reflexivity.
  - split; [intros _ q; discriminate | reflexivity].
Qed.

Lemma check_sortable_true history s :
  Forall in_time_order history -> check_sortable history s = Ok true s.
Proof.
  induction 1 as [| hp rest Hhp _ IH]; simpl; [reflexivity |].
  apply younger_parent_spec in Hhp. rewrite Hhp. exact IH.
Qed.

Lemma check_sortable_false history s :
  ~ Forall in_time_order history -> check_sortable history s = Ok false (announced s).
Proof.
  induction history as [| hp rest IH]; simpl; intros Hnot.
  - exfalso. apply Hnot. constructor.
  - destruct (younger_parent hp) eqn:Hy; [reflexivity |].
    apply IH. intros Hrest. apply Hnot. constructor; [| exact Hrest].
    apply younger_parent_spec. exact Hy.
Qed.

Lemma ship_blob_quiet report opts o : keeps quiet (ship_blob report opts o).
Proof. unfold ship_blob. repeat quiet_step. Qed.

Lemma print_fileop_quiet o : keeps quiet (print_fileop o).
Proof. unfold print_fileop. repeat quiet_step. Qed.

Lemma display_date_marked_quiet c f : keeps quiet (display_date_marked c f).
Proof. unfold display_date_marked. repeat quiet_step. Qed.

Lemma export_commit_quiet commit branch report opts :
  keeps quiet (export_commit commit branch report opts).
Proof.
  unfold export_commit.
  quiet_step; [repeat quiet_step |].
  quiet_step; [quiet_step |].
  quiet_step; [quiet_step; apply ship_blob_quiet |].
  repeat (quiet_step; try apply print_fileop_quiet).
Qed.

Lemma tag_resets_quiet all_tags c opts : keeps quiet (tag_resets all_tags c opts).
Proof.
  unfold tag_resets. quiet_step.
  quiet_step; [| quiet_step].
  quiet_step; [apply display_date_marked_quiet |].
  repeat quiet_step.
Qed.

Lemma export_history_quiet all_tags opts n :
  forall history, keeps quiet (export_history n history all_tags opts).
Proof.
  induction n as [| n IH]; intros history; simpl; [quiet_step |].
  destruct history as [| hp rest]; [quiet_step |].
  quiet_step; [quiet_step |].
  quiet_step.
  { quiet_step. destruct (parent (seq_commit hp)); [| quiet_step].
    quiet_step; [apply display_date_marked_quiet |]. repeat quiet_step. }
  quiet_step; [apply export_commit_quiet |].
  quiet_step; [apply tag_resets_quiet |].
  apply IH.
Qed.

(** ** The order of the export *)

Lemma check_sortable_run history s :
  check_sortable history s
  = Ok (sortable history) (if sortable history then s else announced s).
Proof.
  induction history as [| hp rest IH]; simpl; [reflexivity |].
  destruct (younger_parent hp); simpl; [reflexivity | exact IH].
Qed.

Lemma export_canonical_order rl all_tags opts s :
  reportmode_eqb (reportmode opts) fast = false ->
  export_canonical rl all_tags opts s
  = export_history (length (export_order rl opts)) (export_order rl opts) all_tags opts
      (if sortable (canonicalize rl) then s else announced s).
Proof.
  intros Hmode. unfold export_canonical, export_order, bind.
  rewrite check_sortable_run, Hmode. reflexivity.
Qed.

Lemma export_order_commits rl opts :
  Permutation (map seq_commit (export_order rl opts)) (map seq_commit (canonicalize rl)).
Proof.
  unfold export_order.
  destruct (reportmode_eqb _ _); [apply Permutation_refl |].
  destruct (sortable _); [| apply Permutation_refl].
  apply Permutation_map, Permutation_sym, qsort_perm.
Qed.

(** Where the dates tell the commits apart, [sort_by_date] is the
    difference of the dates. *)
Lemma sort_by_date_apart l a b :
  dates_apart l -> In a l -> In b l ->
  (sort_by_date a b <= 0 <-> date_le a b)
  /\ (sort_by_date a b < 0 <-> date (seq_commit a) < date (seq_commit b)).
Proof.
  intros Hl Ha Hb. unfold sort_by_date, date_le.
  rewrite sort_by_date_loop_unfold. cbv zeta.
  assert (Hhalf : 2 ^ (int_bits - 1) = 2147483648) by reflexivity.
  destruct (Hl a b Ha Hb) as [[Haddr Hdate] | [Haddr Hdate]].
  - unfold commit_eqb. rewrite Haddr, Nat.eqb_refl. lia.
  - unfold commit_eqb. destruct (Nat.eqb_spec (c_addr (seq_commit a)) (c_addr (seq_commit b)));
      [contradiction |].
    rewrite compare_commit_dates by lia.
    rewrite to_int_fits by lia.
    destruct (Z.eqb_spec (date (seq_commit a) - date (seq_commit b)) 0); [lia |].
    simpl. lia.
Qed.

Lemma dates_apart_consistent l : dates_apart l -> consistent sort_by_date l.
Proof.
  intros Hl. split.
  - intros x y Hx Hy.
    pose proof (proj2 (sort_by_date_apart l x y Hl Hx Hy)) as Hxy.
    pose proof (proj1 (sort_by_date_apart l y x Hl Hy Hx)) as Hyx.
    unfold date_le in Hyx. lia.
  - intros x y z Hx Hy Hz Hxy Hyz.
    apply (sort_by_date_apart l x y Hl Hx Hy) in Hxy.
    apply (sort_by_date_apart l y z Hl Hy Hz) in Hyz.
    apply (sort_by_date_apart l x z Hl Hx Hz). unfold date_le in *. lia.
Qed.

(** An array that [sort_by_date] accepts as ordered is in the order of
    its dates, where the dates tell the commits apart. *)
Lemma sorted_by_date_dates l order :
  dates_apart l -> (forall a, In a order -> In a l) ->
  StronglySorted (fun a b => sort_by_date a b <= 0) order ->
  StronglySorted date_le order.
Proof.
  intros Hl Hsub Hsorted.
  induction Hsorted as [| a order Hrest IH Ha]; constructor.
  - apply IH. intros b Hb. apply Hsub. right. exact Hb.
  - apply List.Forall_forall. intros b Hb.
    apply (sort_by_date_apart l a b Hl);
      [apply Hsub; left; reflexivity | apply Hsub; right; exact Hb |].
    exact (proj1 (List.Forall_forall _ _) Ha b Hb).
Qed.

(** C6.  In canonical mode the array of Phase A is sorted with the date
    comparator if and only if no commit is older than its parent.
    Then the check returns true without a word and what is exported is
    what [qsort] makes of the array with [sort_by_date]: a
    rearrangement of the array, which is in the order of the
    comparator when the comparator is consistent on the array, and in
    the order of the dates when the dates tell the commits apart.
    Otherwise the check returns false after one warning on the error
    channel, the array is exported as Phase A left it, and nothing
    more is announced. *)
Theorem canonical_sort_iff_time_order
    (rl : git_repo) (all_tags : list tag_t) (opts : export_options_t) (s : state) :
  (Forall in_time_order (canonicalize rl) ->
     check_sortable (canonicalize rl) s = Ok true s
     /\ export_canonical rl all_tags opts s
        = export_history (length (canonicalize rl))
            (qsort sort_by_date (canonicalize rl)) all_tags opts s
     /\ Permutation (canonicalize rl) (qsort sort_by_date (canonicalize rl))
     /\ (consistent sort_by_date (canonicalize rl) ->
         StronglySorted (fun a b => sort_by_date a b <= 0)
           (qsort sort_by_date (canonicalize rl)))
     /\ (dates_apart (canonicalize rl) ->
         StronglySorted date_le (qsort sort_by_date (canonicalize rl)))
     /\ err (final (export_canonical rl all_tags opts s)) = err s)
  /\ (~ Forall in_time_order (canonicalize rl) ->
     check_sortable (canonicalize rl) s = Ok false (announced s)
     /\ export_canonical rl all_tags opts s
        = export_history (length (canonicalize rl))
            (canonicalize rl) all_tags opts (announced s)
     /\ err (final (export_canonical rl all_tags opts s))
        = err s ++ [String.append "some parent commits are younger than children."
                      newline]).
Proof.
  split; intros Horder.
  - pose proof (check_sortable_true _ s Horder) as Hcheck.
    assert (Hrun : export_canonical rl all_tags opts s
                   = export_history (length (canonicalize rl))
                       (qsort sort_by_date (canonicalize rl)) all_tags opts s).
    { unfold export_canonical, bind. rewrite Hcheck, qsort_length. reflexivity. }
    split; [exact Hcheck |]. split; [exact Hrun |].
    split; [apply qsort_perm |].
    split; [apply qsort_sorted |].
    split.
    + intros Hapart.
      apply (sorted_by_date_dates (canonicalize rl)); [exact Hapart | |].
      * intros a Ha. apply qsort_In in Ha. exact Ha.
      * apply qsort_sorted, dates_apart_consistent, Hapart.
    + rewrite Hrun. apply (keeps_final quiet), export_history_quiet.
  - pose proof (check_sortable_false _ s Horder) as Hcheck.
    assert (Hrun : export_canonical rl all_tags opts s
                   = export_history (length (canonicalize rl))
                       (canonicalize rl) all_tags opts (announced s)).
    { unfold export_canonical, bind. rewrite Hcheck. reflexivity. }
    split; [exact Hcheck |]. split; [exact Hrun |].
    rewrite Hrun.
    pose proof (keeps_final quiet _ (announced s)
                  (export_history_quiet all_tags opts (length (canonicalize rl))
                     (canonicalize rl))) as Hq.
    unfold quiet in Hq. rewrite Hq. reflexivity.
Qed.

End Sortable.

Lemma canonical_sort_iff_time_order_witness :
  (Forall in_time_order (canonicalize (head Demo.grafted))
   /\ dates_apart (canonicalize (head Demo.grafted))
   /\ map (fun hp => c_addr (seq_commit hp)) (canonicalize (head Demo.grafted))
      = [61; 10; 11]%nat
   /\ map (fun hp => c_addr (seq_commit hp))
        (@qsort Demo.collaborators _ sort_by_date (canonicalize (head Demo.grafted)))
      = [10; 61; 11]%nat
   /\ StronglySorted date_le
        (@qsort Demo.collaborators _ sort_by_date (canonicalize (head Demo.grafted)))
   /\ err (final (@export_canonical Demo.collaborators (head Demo.grafted) Demo.tags
                    (Demo.mkopts canonical 0) init_state)) = [])
  /\ (~ Forall in_time_order (canonicalize Demo.skewed)
      /\ err (final (@export_canonical Demo.collaborators Demo.skewed Demo.tags
                       (Demo.mkopts canonical 0) init_state))
         = [String.append "some parent commits are younger than children." newline]).
Proof.
  assert (Hordered : Forall in_time_order (canonicalize (head Demo.grafted))).
  { repeat constructor; intros p [= <-]; vm_compute; discriminate. }
  assert (Hapart : dates_apart (canonicalize (head Demo.grafted))).
  { intros a b Ha Hb. vm_compute in Ha, Hb.
    destruct Ha as [<- | [<- | [<- | []]]]; destruct Hb as [<- | [<- | [<- | []]]];
      vm_compute;
      first [left; split; reflexivity
            | right; split; [discriminate | split; reflexivity]]. }
  assert (Hskewed : ~ Forall in_time_order (canonicalize Demo.skewed)).
  { intros Hall. apply Forall_inv_tail, Forall_inv in Hall.
    specialize (Hall Demo.c1 eq_refl). vm_compute in Hall. apply Hall. reflexivity. }
  split.
  - destruct (@canonical_sort_iff_time_order Demo.collaborators (head Demo.grafted)
                Demo.tags (Demo.mkopts canonical 0) init_state) as [Hsorted _].
    destruct (Hsorted Hordered) as (_ & _ & _ & _ & Hdates & Herr).
    split; [exact Hordered |]. split; [exact Hapart |].
    split; [vm_compute; reflexivity |]. split; [vm_compute; reflexivity |].
    split; [exact (Hdates Hapart) | exact Herr].
  - split; [exact Hskewed |].
    destruct (@canonical_sort_iff_time_order Demo.collaborators Demo.skewed
                Demo.tags (Demo.mkopts canonical 0) init_state) as [_ Hkept].
    apply (Hkept Hskewed).
Defined.

(** ** The file iterator *)

Lemma file_iter_start_rest c : file_iter_rest (file_iter_start c) = file_list c.
Proof.
  unfold file_iter_rest, file_iter_start, file_list.
  destruct (dirs c) as [| d ds]; reflexivity.
Qed.

Lemma file_iter_advance_rest ds :
  match file_iter_advance ds with
  | Some (f, pos') => flat_map files ds = f :: file_iter_rest pos'
  | None => flat_map files ds = []
  end.
Proof.
  induction ds as [| d ds IH]; simpl; [reflexivity |].
  destruct (files d) as [| f fs]; simpl; [exact IH | reflexivity].
Qed.

(** The iterator yields the files of the commit in order: each call
    gives the first file left and leaves the rest. *)
Lemma file_iter_next_rest pos :
  match file_iter_next pos with
  | Some (f, pos') => file_iter_rest pos = f :: file_iter_rest pos'
  | None => file_iter_rest pos = []
  end.
Proof.
  unfold file_iter_next, file_iter_rest.
  destruct (it_dirs pos) as [| d ds]; [reflexivity |].
  destruct (it_files pos) as [| f fs]; simpl; [| reflexivity].
  apply file_iter_advance_rest.
Qed.


(** ** The parent-link oracle *)

Section ParentLinks.

Context `{Collaborators}.

(** The test in front of the scan: a file is passed over exactly when
    some word of its fingerprint shares a bit with the parent's filter. *)
Lemma bloom_overlap_spec b p :
  bloom_overlap b p = true
  <-> exists x y, In (x, y) (combine (el b) (el p)) /\ Z.land x y <> 0.
Proof.
  unfold bloom_overlap. rewrite existsb_exists. split.
  - intros ([x y] & Hin & Hbit). exists x, y. split; [exact Hin |].
    simpl in Hbit. destruct (Z.eqb_spec (Z.land x y) 0); [discriminate | assumption].
  - intros (x & y & Hin & Hbit). exists (x, y). split; [exact Hin |].
    simpl. destruct (Z.eqb_spec (Z.land x y) 0); [contradiction | reflexivity].
Qed.

Lemma link_files_overlap pbloom cf cfs parent_iter maxmatch oth :
  bloom_overlap (atom_bloom (name (master cf))) pbloom = true ->
  link_files pbloom (cf :: cfs) parent_iter maxmatch oth
  = link_files pbloom cfs parent_iter maxmatch oth.
Proof. intros Hhit. simpl. rewrite Hhit. reflexivity. Qed.

Lemma scan_parent_found cf it pf rest :
  scan_parent cf it = Some (pf, rest) ->
  In pf it /\ name (master cf) = name (master pf).
Proof.
  induction it as [| x it IH]; simpl; [discriminate |].
  unfold atom_eqb. destruct (String.eqb_spec (name (master cf)) (name (master x))).
  - intros [= <- <-]. auto.
  - intros Hscan. destruct (IH Hscan). auto.
Qed.

(** When the filter of the parent covers the names of its files, which
    is what a Bloom filter is for, the loop links nothing: a name the
    parent has is passed over by the test, and a name that gets through
    the test is not in the parent. *)
Lemma link_files_links_nothing pbloom cfs :
  forall parent_iter all maxmatch oth,
    (forall pf, In pf all ->
       bloom_overlap (atom_bloom (name (master pf))) pbloom = true) ->
    (forall pf, In pf parent_iter -> In pf all) ->
    link_files pbloom cfs parent_iter maxmatch oth = oth.
Proof.
  induction cfs as [| cf cfs IH]; intros parent_iter all maxmatch oth Hcover Hsub; simpl.
  - reflexivity.
  - destruct (bloom_overlap (atom_bloom (name (master cf))) pbloom) eqn:Hhit.
    + eapply IH; eauto.
    + destruct (scan_parent cf parent_iter) as [[pf it] |] eqn:Hscan.
      * apply scan_parent_found in Hscan as [Hin Hname].
        rewrite Hname, (Hcover pf (Hsub pf Hin)) in Hhit. discriminate.
      * eapply IH; eauto.
Qed.

End ParentLinks.

(** C2, on the code.  The second commit of the sample repository and its
    parent both hold [README]: the fingerprint of the name and the
    filter of the parent intersect, a scan of the parent would find the
    name, and [compute_parent_links] leaves both files without a link;
    so the child is exported with an [M] and a [D] of [README]. *)
Theorem parent_link_skipped_on_bloom_overlap :
  bloom_overlap (@atom_bloom Demo.collaborators (name (master Demo.readme2)))
                (bloom Demo.c1) = true
  /\ scan_parent Demo.readme2 (file_list Demo.c1) = Some (Demo.readme1, [])
  /\ @compute_parent_links Demo.collaborators Demo.c2 Demo.c1 ∅
       !! f_addr Demo.readme2 = None
  /\ @compute_parent_links Demo.collaborators Demo.c2 Demo.c1 ∅
       !! f_addr Demo.readme1 = None
  /\ In (EDelete "README")
        (@stream Demo.collaborators Demo.forest Demo.tags (Demo.mkopts fast 0)).
Proof.
  split; [vm_compute; reflexivity |].
  split; [vm_compute; reflexivity |].
  split; [vm_compute; reflexivity |].
  split; [vm_compute; reflexivity |].
  vm_compute. tauto.
Qed.

(** ** The order of paths *)




Lemma strcmp_refl a : strcmp a a = 0.
Proof.
  induction a as [| x a IH]; simpl; [reflexivity |].
  rewrite Ascii.eqb_refl. destruct (byte_of x =? 0); [reflexivity | exact IH].
Qed.

Lemma strcmp_antisym a : forall b, strcmp b a = - strcmp a b.
Proof.
  induction a as [| x a IH]; intros [| y b]; simpl; try lia.
  rewrite (Ascii.eqb_sym y x).
  destruct (Ascii.eqb x y) eqn:Hxy; [| lia].
  apply Ascii.eqb_eq in Hxy. subst y.
  destruct (byte_of x =? 0); [reflexivity | apply IH].
Qed.


Lemma compare_segments_refl a : compare_segments a a = 0.
Proof.
  induction a as [| x a IH]; simpl; [reflexivity |].
  rewrite strcmp_refl. exact IH.
Qed.

Lemma compare_segments_antisym a :
  forall b, compare_segments b a = - compare_segments a b.
Proof.
  induction a as [| x a IH]; intros [| y b]; simpl; try reflexivity.
  rewrite (strcmp_antisym x y).
  destruct (Z.eqb_spec (strcmp x y) 0) as [E | E].
  - rewrite E. simpl. apply IH.
  - destruct (Z.eqb_spec (- strcmp x y) 0); [lia | reflexivity].
Qed.


Lemma path_le_total a b : path_le a b \/ path_le b a.
Proof.
  unfold path_le, path_deep_compare.
  rewrite (compare_segments_antisym (split_segments a "") (split_segments b "")). lia.
Qed.






(** ** [qsort] orders *)



(** ** The order of the lines of a commit record *)





Section FileopLines.

Context `{Collaborators}.







End FileopLines.


(** ** The layout of the stream *)

Section Layout.

Context `{Collaborators}.













Lemma canonicalize_entries rl : canonicalize rl = flat_map entries (heads rl).
Proof. reflexivity. Qed.











Lemma completed_final (m : M unit) s :
  completed (m s) = true -> m s = Ok tt (final (m s)).
Proof. destruct (m s) as [[] s' | e s']; [reflexivity | discriminate]. Qed.


End Layout.




(** ** The array of [canonicalize] *)

Lemma fill_span_spec (h : rev_ref) (pre : list (option commit_seq))
    (cs : list git_commit) :
  forall (i L : nat) (tl' : list (option commit_seq)),
    L = (i + length cs)%nat ->
    fill_span h (length pre) L i cs (pre ++ replicate (length cs) None ++ tl')
    = pre
      ++ map (fun c => Some {| seq_commit := c; seq_head := h; realized := false |})
           (rev cs)
      ++ tl'.
Proof.
  induction cs as [| c cs IH]; intros i L tl' HL; simpl; [reflexivity |].
  assert (Hn : (length pre + L - (i + 1) = length (pre ++ replicate (length cs) None) + 0)%nat).
  { rewrite length_app, length_replicate. simpl in HL. lia. }
  rewrite Hn.
  change (None :: replicate (length cs) None ++ tl')
    with ((None :: replicate (length cs) None) ++ tl').
  rewrite replicate_cons_app, <- !app_assoc, (app_assoc pre).
  rewrite insert_app_r. simpl.
  rewrite <- app_assoc.
  rewrite (IH (S i) L _); [| simpl in HL; lia].
  rewrite map_app, <- !app_assoc. reflexivity.
Qed.

Lemma canonicalize_loops_fold hs :
  forall (done : list commit_seq) (tl : list (option commit_seq)),
    fold_left (fun st h =>
         let '(branchbase, history) := st in
         if ref_tail h then (branchbase, history)
         else
           let branchlength := length (branch h) in
           ((branchbase + branchlength)%nat,
            fill_span h branchbase branchlength 0 (branch h) history))
       hs
       (length done,
        map Some done ++ replicate (length (flat_map entries hs)) None ++ tl)
    = ((length done + length (flat_map entries hs))%nat,
       map Some done ++ map Some (flat_map entries hs) ++ tl).
Proof.
  induction hs as [| h hs IH]; intros done tl.
  - simpl. rewrite Nat.add_0_r. reflexivity.
  - cbn [fold_left flat_map]. destruct (ref_tail h) eqn:Htail.
    + assert (He : entries h = []) by (unfold entries; rewrite Htail; reflexivity).
      rewrite He. apply IH.
    + assert (He : entries h
                   = map (fun c => {| seq_commit := c; seq_head := h; realized := false |})
                         (rev (branch h)))
        by (unfold entries; rewrite Htail; reflexivity).
      assert (Hlen : length (entries h) = length (branch h))
        by (rewrite He, length_map, length_rev; reflexivity).
      rewrite length_app, replicate_add, <- app_assoc, Hlen.
      pose proof (fill_span_spec h (map Some done) (branch h) 0 (length (branch h))
                    (replicate (length (flat_map entries hs)) None ++ tl) eq_refl)
        as Hfill.
      rewrite length_map in Hfill. rewrite Hfill. clear Hfill.
      pose proof (IH (done ++ entries h) tl) as IH'.
      rewrite length_app, Hlen, map_app, <- app_assoc in IH'.
      rewrite He, map_map in IH'. eapply eq_trans; [exact IH' |].
      rewrite map_app, He, map_map, <- !app_assoc.
      f_equal. lia.
Qed.

(** The array that the loops of [canonicalize] fill holds the entries of
    [canonicalize], in order, when it has one slot for each of them. *)
Lemma canonicalize_loops_spec rl :
  canonicalize_loops (length (canonicalize rl)) rl = map Some (canonicalize rl).
Proof.
  unfold canonicalize_loops. rewrite canonicalize_entries.
  pose proof (canonicalize_loops_fold (heads rl) [] []) as Hfold.
  simpl in Hfold. rewrite !app_nil_r in Hfold.
  rewrite Hfold. reflexivity.
Qed.

(** ** Incremental mode *)

(** C4, on the code.  The sample repository is exported with the cutoff
    at the display date of its first commit (date 100, plus the epoch
    1000).  The first commit is suppressed, the second is the first
    surviving commit of [master] and its parent was suppressed; but the
    anchor is tested with [<] where the suppression was tested with
    [>=], and no anchor is written.  One second later in the cutoff, the
    anchor is there. *)
Theorem anchor_missing_at_cutoff :
  @display_date Demo.collaborators Demo.c1 0 false = 1100
  /\ In (ECommitter "esr" "esr" "1200 +0000")
        (@stream Demo.collaborators Demo.forest Demo.tags (Demo.mkopts canonical 1100))
  /\ ~ In (ECommitter "esr" "esr" "1100 +0000")
        (@stream Demo.collaborators Demo.forest Demo.tags (Demo.mkopts canonical 1100))
  /\ existsb is_anchor
       (@stream Demo.collaborators Demo.forest Demo.tags (Demo.mkopts canonical 1100))
     = false
  /\ In (EAnchor "refs/heads/" "master")
        (@stream Demo.collaborators Demo.forest Demo.tags (Demo.mkopts canonical 1101)).
Proof.
  split; [reflexivity |].
  split; [vm_compute; tauto |].
  split; [vm_compute; intuition discriminate |].
  split; [vm_compute; reflexivity |].
  vm_compute. tauto.
Qed.

(** ** The indices of [markmap] stay in range *)

(** Induction along the parent chain of a commit. *)
Lemma git_commit_parent_ind (P : git_commit -> Prop) :
  (forall c, (forall q, parent c = Some q -> P q) -> P c) -> forall c, P c.
Proof.
  intros step. fix ind 1. intros [a p d au lg tl ds bl].
  apply step. simpl. intros q Hq.
  destruct p as [q0 |]; [| discriminate Hq].
  injection Hq as <-. apply ind.
Qed.

Lemma count_commits_chain c : forall n, count_commits c n = n + Z.of_nat (length (chain c)).
Proof.
  induction c as [c IH] using git_commit_parent_ind. intros n.
  destruct c as [a p d au lg tl ds bl]. simpl in *.
  destruct tl; simpl; [lia |].
  destruct p as [q |]; simpl; [| lia].
  rewrite (IH q eq_refl). lia.
Qed.

Lemma export_ncommit_length rl :
  export_ncommit rl = Z.of_nat (length (canonicalize rl)).
Proof.
  unfold export_ncommit, canonicalize.
  assert (Hgen : forall hs n,
    fold_left (fun n h =>
      if ref_tail h then n
      else match ref_commit h with
           | Some c => count_commits c n
           | None => n
           end) hs n
    = n + Z.of_nat (length (flat_map (fun h =>
          if ref_tail h then []
          else map (fun c => {| seq_commit := c; seq_head := h; realized := false |})
                   (rev (branch h))) hs))).
  { induction hs as [| h hs IH]; intros n; simpl; [lia |].
    rewrite IH, length_app. unfold branch.
    destruct (ref_tail h); simpl; [lia |].
    rewrite length_map, length_rev.
    destruct (ref_commit h) as [c |]; simpl; [| lia].
    rewrite count_commits_chain. lia. }
  rewrite Hgen. lia.
Qed.

(** The array of [canonicalize] has [export_total_commits] entries, and
    the loops fill every one of them. *)
Lemma canonicalize_loops_total rl :
  canonicalize_loops (Z.to_nat (export_ncommit rl)) rl = map Some (canonicalize rl).
Proof.
  rewrite export_ncommit_length, Nat2Z.id. apply canonicalize_loops_spec.
Qed.

Section IndexRange.

Context `{Collaborators}.
Variables R C : Z.
Hypothesis R_nonneg : 0 <= R.
Hypothesis C_nonneg : 0 <= C.

Lemma idx_step_refl s : idx_step R C s s.
Proof. unfold idx_step. tauto. Qed.

Lemma idx_step_trans s1 s2 s3 :
  idx_step R C s1 s2 -> idx_step R C s2 s3 -> idx_step R C s1 s3.
Proof. unfold idx_step. intuition congruence. Qed.

(** A step that touches neither [markmap], nor its log, nor a serial. *)
Lemma idx_step_frame s s' : index_frame s s' -> idx_step R C s s'.
Proof.
  intros (Hm & Hi & Hsf & Hsc & Hsq).
  split; [exact Hsf |]. split; [exact Hsc |]. split; [exact Hsq |].
  intros [Hlen Hidx H0]. constructor; rewrite ?Hm, ?Hi; assumption.
Qed.

Lemma index_base_log s i :
  index_base R C s -> 1 <= i <= R + C -> index_base R C (with_idx (idx s ++ [i]) s).
Proof.
  intros [Hlen Hidx H0] Hi. constructor; simpl; try assumption.
  apply Forall_app. split; [exact Hidx |]. constructor; [exact Hi | constructor].
Qed.

Lemma index_base_write s i v :
  index_base R C s -> 1 <= i <= R + C ->
  index_base R C (with_markmap (<[Z.to_nat i := v]> (markmap s))
                               (with_idx (idx s ++ [i]) s)).
Proof.
  intros [Hlen Hidx H0] Hi. constructor; simpl.
  - rewrite length_insert. exact Hlen.
  - apply Forall_app. split; [exact Hidx |]. constructor; [exact Hi | constructor].
  - rewrite list_lookup_insert_ne by lia. exact H0.
Qed.

Lemma markmap_get_idx_step i :
  1 <= i <= R + C -> keeps (idx_step R C) (markmap_get i).
Proof.
  intros Hi s. unfold wp, markmap_get.
  destruct (_ && _); (do 3 (split; [reflexivity |]));
    intros Hb; apply index_base_log; assumption.
Qed.

Lemma markmap_set_idx_step i v :
  1 <= i <= R + C -> keeps (idx_step R C) (markmap_set i v).
Proof.
  intros Hi s. unfold wp, markmap_set.
  destruct (_ && _); (do 3 (split; [reflexivity |])); intros Hb;
    [apply index_base_write | apply index_base_log]; assumption.
Qed.

Lemma blob_inv_step s s' : idx_step R C s s' -> blob_inv R C s -> blob_inv R C s'.
Proof.
  intros (Hsf & Hsc & Hsq & Hb) [Hbase Hseq Hfiles].
  constructor; rewrite ?Hsf, ?Hsq; auto.
Qed.

Lemma index_inv_step gen seen s s' :
  idx_step R C s s' -> index_inv R C gen seen s -> index_inv R C gen seen s'.
Proof.
  intros (Hsf & Hsc & Hsq & Hb) [Hbase Hfiles Hseq Hc].
  constructor; rewrite ?Hsf, ?Hsc, ?Hsq; auto.
Qed.

Ltac idx_step_tac :=
  lazymatch goal with
  | |- keeps (idx_step _ _) (emit _) =>
      apply keeps_modify; intros ?; apply idx_step_frame; repeat split; reflexivity
  | |- keeps (idx_step _ _) (markmap_get _) => apply markmap_get_idx_step
  | |- keeps (idx_step _ _) (markmap_set _ _) => apply markmap_set_idx_step
  | |- keeps (idx_step _ _) _ =>
      keeps_step idx_step_refl idx_step_trans
        ltac:(apply idx_step_frame; repeat split; reflexivity)
  end.

Lemma export_blob_inv node buf len opts s :
  blob_inv R C s -> seqno s < R ->
  wp (export_blob node buf len opts)
     (fun _ s' => blob_inv R C s' /\ seqno s' = seqno s + 1
        /\ is_Some (serial_f s' !! f_addr (node_commit node))
        /\ (forall a, is_Some (serial_f s !! a) -> is_Some (serial_f s' !! a)))
     (index_base R C) s.
Proof.
  intros [Hbase Hseq Hfiles] Hroom.
  unfold export_blob.
  apply wp_modify_bind.
  unfold wp at 1. unfold bind at 1. unfold seqno_next. simpl.
  destruct (MAX_SERIAL_T <=? seqno s + 1).
  { destruct Hbase. constructor; assumption. }
  apply wp_modify_bind.
  set (n := seqno s + 1).
  set (a := f_addr (node_commit node)).
  match goal with |- wp _ _ _ ?st => set (s1 := st) end.
  set (P := fun s' : state =>
              blob_inv R C s' /\ seqno s' = n
              /\ is_Some (serial_f s' !! a)
              /\ (forall a', is_Some (serial_f s !! a') -> is_Some (serial_f s' !! a'))).
  assert (HP1 : P s1).
  { subst P s1. simpl. split; [| split; [reflexivity | split]].
    - constructor; simpl.
      + destruct Hbase. constructor; assumption.
      + subst n. lia.
      + intros a' v. destruct (decide (a = a')) as [<- | Hne].
        * rewrite lookup_insert_eq. intros [= <-]. subst n. lia.
        * rewrite lookup_insert_ne by exact Hne. intros Hv.
          apply Hfiles in Hv. subst n. lia.
    - rewrite lookup_insert_eq. eauto.
    - intros a' Ha'. destruct (decide (a = a')) as [<- | Hne].
      + rewrite lookup_insert_eq. eauto.
      + rewrite lookup_insert_ne by exact Hne. exact Ha'. }
  assert (HPstep : forall sa sb, idx_step R C sa sb -> P sa -> P sb).
  { intros sa sb Hstep (Hinv & Hn & Hsome & Hkeep).
    pose proof (blob_inv_step _ _ Hstep Hinv) as Hinv'.
    destruct Hstep as (Hsf & _ & Hsq & _).
    unfold P. rewrite Hsf, Hsq. auto. }
  clearbody s1.
  eapply (wp_frame_last (idx_step R C) P); [exact HPstep | | exact HP1 | auto |].
  - assert (Hn : 1 <= n <= R + C) by (subst n; lia).
    repeat (idx_step_tac; try exact Hn).
  - intros s' (Hinv & _). apply Hinv.
Qed.

Lemma nodes_inv opts nodes :
  forall s,
    blob_inv R C s -> seqno s + Z.of_nat (length nodes) <= R ->
    wp (for_each nodes (fun node =>
          export_blob node (node_buf node) (strlen (node_buf node)) opts))
       (fun _ s' => blob_inv R C s'
          /\ seqno s' = seqno s + Z.of_nat (length nodes)
          /\ (forall node, In node nodes -> is_Some (serial_f s' !! f_addr (node_commit node)))
          /\ (forall a, is_Some (serial_f s !! a) -> is_Some (serial_f s' !! a)))
       (index_base R C) s.
Proof.
  induction nodes as [| node nodes IH]; intros s Hinv Hroom; simpl.
  - split; [exact Hinv |]. split; [lia |]. split; [intros node [] | auto].
  - simpl in Hroom.
    eapply wp_seq; [apply export_blob_inv; [exact Hinv | lia] | | auto].
    simpl. intros _ s1 (Hinv1 & Hseq1 & Hsome1 & Hkeep1).
    eapply wp_mono; [apply IH; [exact Hinv1 | lia] | | auto].
    simpl. intros _ s2 (Hinv2 & Hseq2 & Hsome2 & Hkeep2).
    split; [exact Hinv2 |]. split; [lia |]. split.
    + intros node' [<- | Hin]; [apply Hkeep2, Hsome1 | apply Hsome2, Hin].
    + intros a Ha. apply Hkeep2, Hkeep1, Ha.
Qed.

Lemma generators_inv opts gens :
  forall s,
    blob_inv R C s -> seqno s + Z.of_nat (length (concat gens)) <= R ->
    wp (for_each gens (fun gp => generate_files gp opts export_blob))
       (fun _ s' => blob_inv R C s'
          /\ seqno s' = seqno s + Z.of_nat (length (concat gens))
          /\ (forall node, In node (concat gens) ->
                is_Some (serial_f s' !! f_addr (node_commit node)))
          /\ (forall a, is_Some (serial_f s !! a) -> is_Some (serial_f s' !! a)))
       (index_base R C) s.
Proof.
  induction gens as [| gp gens IH]; intros s Hinv Hroom; simpl.
  - split; [exact Hinv |]. split; [lia |]. split; [intros node [] | auto].
  - simpl in Hroom. rewrite length_app in Hroom.
    eapply wp_seq; [apply nodes_inv; [exact Hinv | lia] | | auto].
    simpl. intros _ s1 (Hinv1 & Hseq1 & Hsome1 & Hkeep1).
    eapply wp_mono; [apply IH; [exact Hinv1 | lia] | | auto].
    simpl. intros _ s2 (Hinv2 & Hseq2 & Hsome2 & Hkeep2).
    split; [exact Hinv2 |]. split; [rewrite length_app; lia |]. split.
    + intros node Hin. apply in_app_or in Hin as [Hin | Hin];
        [apply Hkeep2, Hsome1, Hin | apply Hsome2, Hin].
    + intros a Ha. apply Hkeep2, Hkeep1, Ha.
Qed.

Lemma index_inv_range_file gen seen s f :
  index_inv R C gen seen s -> In (f_addr f) gen -> 1 <= file_serial s f <= R + C.
Proof.
  intros [_ Hfiles _ _] Hf. specialize (Hfiles _ Hf). unfold file_serial. lia.
Qed.

Lemma index_inv_range_commit gen seen s c :
  index_inv R C gen seen s -> In (c_addr c) seen -> 1 <= commit_serial s c <= R + C.
Proof. intros [_ _ _ Hc] Hin. apply Hc, Hin. Qed.

Lemma ship_blob_inv gen seen report opts o s :
  index_inv R C gen seen s ->
  (forall perm rev path, o = Modify perm rev path -> In (f_addr rev) gen) ->
  wp (ship_blob report opts o) (fun _ => index_inv R C gen seen) (index_base R C) s.
Proof.
  intros Hinv Hgen. unfold ship_blob.
  destruct o as [perm rev path | path]; [| exact Hinv].
  apply wp_get_bind.
  destruct (bool_decide _); [exact Hinv |].
  pose proof (index_inv_range_file _ _ _ rev Hinv (Hgen _ _ _ eq_refl)) as Hrange.
  eapply (wp_frame_last (idx_step R C) (index_inv R C gen seen));
    [apply index_inv_step | | exact Hinv | auto | intros s' Hs'; apply Hs'].
  repeat (idx_step_tac; try exact Hrange).
Qed.

Lemma print_fileop_inv gen seen o s :
  index_inv R C gen seen s ->
  (forall perm rev path, o = Modify perm rev path -> In (f_addr rev) gen) ->
  wp (print_fileop o) (fun _ => index_inv R C gen seen) (index_base R C) s.
Proof.
  intros Hinv Hgen. unfold print_fileop.
  destruct o as [perm rev path | path].
  - apply wp_assoc. apply wp_get_bind.
    pose proof (index_inv_range_file _ _ _ rev Hinv (Hgen _ _ _ eq_refl)) as Hrange.
    eapply (wp_frame_last (idx_step R C) (index_inv R C gen seen));
      [apply index_inv_step | | exact Hinv | auto | intros s' Hs'; apply Hs'].
    repeat (idx_step_tac; try exact Hrange).
  - eapply (wp_frame_last (idx_step R C) (index_inv R C gen seen));
      [apply index_inv_step | | exact Hinv | auto | intros s' Hs'; apply Hs'].
    repeat idx_step_tac.
Qed.

Lemma display_date_marked_inv gen seen c f s :
  index_inv R C gen seen s -> In (c_addr c) seen ->
  wp (display_date_marked c f) (fun _ => index_inv R C gen seen) (index_base R C) s.
Proof.
  intros Hinv Hc. unfold display_date_marked. destruct f; [| exact Hinv].
  apply wp_get_bind.
  pose proof (index_inv_range_commit _ _ _ c Hinv Hc) as Hrange.
  eapply (wp_frame_last (idx_step R C) (index_inv R C gen seen));
    [apply index_inv_step | | exact Hinv | auto | intros s' Hs'; apply Hs'].
  repeat (idx_step_tac; try exact Hrange).
Qed.

Lemma tag_resets_inv gen seen all_tags c opts s :
  index_inv R C gen seen s -> In (c_addr c) seen ->
  wp (tag_resets all_tags c opts) (fun _ => index_inv R C gen seen) (index_base R C) s.
Proof.
  intros Hinv Hc. unfold tag_resets. revert s Hinv.
  apply wp_for_each. intros t s _ Hinv.
  destruct (commit_eqb (tag_commit t) c); [| exact Hinv].
  eapply wp_seq; [apply display_date_marked_inv; eassumption | | auto].
  simpl. intros d s1 Hinv1.
  destruct (fromtime opts <? d); simpl; [| exact Hinv1].
  apply wp_get_bind.
  pose proof (index_inv_range_commit _ _ _ c Hinv1 Hc) as Hrange.
  eapply (wp_frame_last (idx_step R C) (index_inv R C gen seen));
    [apply index_inv_step | | exact Hinv1 | auto | intros s' Hs'; apply Hs'].
  repeat (idx_step_tac; try exact Hrange).
Qed.

(** A step that the invariant does not see, in front of the rest. *)
Ltac frame_bind :=
  lazymatch goal with
  | Hinv : index_inv ?R ?C ?gen ?seen ?s |- wp (bind _ _) _ _ ?s =>
      eapply (wp_frame_bind (idx_step R C) (index_inv R C gen seen));
      [apply index_inv_step
      | repeat idx_step_tac
      | exact Hinv
      | clear Hinv; intros ? ? Hinv
      | intros ? Hfin; apply Hfin]
  end.

Ltac frame_last :=
  lazymatch goal with
  | Hinv : index_inv ?R ?C ?gen ?seen ?s |- wp _ _ _ ?s =>
      eapply (wp_frame_last (idx_step R C) (index_inv R C gen seen));
      [apply index_inv_step
      | repeat idx_step_tac
      | exact Hinv
      | auto
      | intros ? Hfin; apply Hfin]
  end.

Lemma export_commit_inv gen seen commit branch report opts s :
  index_inv R C gen seen s ->
  Z.of_nat (length seen) < C ->
  (forall f, In f (file_list commit) -> In (f_addr f) gen) ->
  (forall p, parent commit = Some p -> In (c_addr p) seen) ->
  wp (export_commit commit branch report opts)
     (fun _ => index_inv R C gen (c_addr commit :: seen)) (index_base R C) s.
Proof.
  intros Hinv Hroom Hfiles Hparent. unfold export_commit.
  frame_bind.
  apply wp_get_bind.
  match goal with |- wp _ _ _ ?st => rename st into s0 end.
  assert (Hops : forall o, In o (commit_fileops s0 commit ++ parent_fileops s0 commit) ->
                   forall perm rev path, o = Modify perm rev path -> In (f_addr rev) gen).
  { intros o Ho perm rev path ->. apply in_app_or in Ho as [Ho | Ho].
    - apply commit_fileops_In in Ho as (cc & Hcc & Heq). inversion Heq; subst.
      apply Hfiles, Hcc.
    - apply parent_fileops_In in Ho as (p & pf & _ & _ & Heq). discriminate Heq. }
  eapply wp_seq with (Q1 := fun _ => index_inv R C gen seen) (E1 := index_base R C);
    [| | auto].
  { apply wp_for_each with (I := index_inv R C gen seen); [| exact Hinv].
    intros o st Ho Hst. apply ship_blob_inv; [exact Hst | apply Hops, Ho]. }
  clear Hinv. intros _ s1 Hinv.
  destruct (match fullname (author commit) with
            | Some a => (full a, email a, default "UTC" (timezone a))
            | None => (author commit, author commit, "UTC")
            end) as [[who mail] tz].
  frame_bind.
  apply wp_modify_bind. apply wp_modify_bind.
  match goal with |- wp _ _ _ ?st => set (s2 := st) end.
  assert (Hinv2 : index_inv R C gen (c_addr commit :: seen) s2).
  { destruct Hinv as [Hbase Hf Hseq Hc]. subst s2. constructor; simpl.
    - destruct Hbase. constructor; assumption.
    - exact Hf.
    - rewrite Hseq. lia.
    - intros x [<- | Hx].
      + rewrite lookup_insert_eq. simpl. lia.
      + destruct (decide (c_addr commit = x)) as [<- | Hne].
        * rewrite lookup_insert_eq. simpl. lia.
        * rewrite lookup_insert_ne by exact Hne. apply Hc, Hx. }
  clearbody s2. clear Hinv. rename Hinv2 into Hinv.
  frame_bind.
  apply wp_get_bind.
  assert (Hself : In (c_addr commit) (c_addr commit :: seen)) by (left; reflexivity).
  pose proof (index_inv_range_commit _ _ _ commit Hinv Hself) as Hrange.
  frame_bind; [exact Hrange |]. clear Hrange.
  frame_bind.
  destruct report; simpl.
  2: { exact Hinv. }
  apply wp_assoc. frame_bind.
  apply wp_assoc. frame_bind.
  apply wp_assoc.
  eapply wp_seq with (Q1 := fun _ => index_inv R C gen (c_addr commit :: seen))
                     (E1 := index_base R C); [| | auto].
  { destruct (parent commit) as [p |] eqn:Hp; [| exact Hinv].
    apply wp_get_bind.
    assert (Hp' : In (c_addr p) (c_addr commit :: seen))
      by (right; apply Hparent; reflexivity).
    pose proof (index_inv_range_commit _ _ _ p Hinv Hp') as Hrange.
    frame_last. exact Hrange. }
  clear Hinv. intros _ s3 Hinv.
  apply wp_assoc.
  eapply wp_seq with (Q1 := fun _ => index_inv R C gen (c_addr commit :: seen))
                     (E1 := index_base R C); [| | auto].
  { apply wp_for_each with (I := index_inv R C gen (c_addr commit :: seen));
      [| exact Hinv].
    intros o st Ho Hst. apply print_fileop_inv; [exact Hst |].
    apply qsort_In in Ho. apply Hops, Ho. }
  clear Hinv. intros _ s4 Hinv.
  apply wp_assoc. apply wp_get_bind.
  apply wp_assoc. frame_bind.
  frame_bind.
  frame_last.
Qed.

Lemma export_fast_flat rl all_tags opts s :
  export_fast rl all_tags opts s
  = for_each (canonicalize rl) (fun hp =>
      export_commit (seq_commit hp) (ref_name (seq_head hp)) true opts ;;
      tag_resets all_tags (seq_commit hp) opts) s.
Proof.
  unfold export_fast, canonicalize. rewrite for_each_flat_map.
  apply for_each_ext. intros h s'.
  destruct (ref_tail h); simpl; [reflexivity |].
  rewrite for_each_map. reflexivity.
Qed.

(** The addresses of the commits of a list, the last one first. *)
Lemma rounds_inv gen all_tags opts l :
  forall seen s,
    index_inv R C gen seen s ->
    Z.of_nat (length seen) + Z.of_nat (length l) <= C ->
    parents_first seen (map seq_commit l) ->
    (forall hp f, In hp l -> In f (file_list (seq_commit hp)) -> In (f_addr f) gen) ->
    wp (for_each l (fun hp =>
          export_commit (seq_commit hp) (ref_name (seq_head hp)) true opts ;;
          tag_resets all_tags (seq_commit hp) opts))
       (fun _ s' => index_inv R C gen
                      (rev (map (fun hp => c_addr (seq_commit hp)) l) ++ seen) s')
       (index_base R C) s.
Proof.
  induction l as [| hp l IH]; intros seen s Hinv Hroom Hfirst Hfiles; simpl.
  - exact Hinv.
  - simpl in Hroom, Hfirst. destruct Hfirst as [Hparent Hfirst].
    apply wp_assoc.
    eapply wp_seq; [apply export_commit_inv; [exact Hinv | lia | |] | | auto].
    { intros f Hf. apply (Hfiles hp); [left; reflexivity | exact Hf]. }
    { intros p Hp. rewrite Hp in Hparent. exact Hparent. }
    simpl. intros _ s1 Hinv1.
    eapply wp_seq; [apply tag_resets_inv; [exact Hinv1 | left; reflexivity] | | auto].
    simpl. intros _ s2 Hinv2.
    eapply wp_mono; [apply IH; [exact Hinv2 | simpl; lia | exact Hfirst |] | | auto].
    + intros hp' f Hhp'. apply Hfiles. right. exact Hhp'.
    + simpl. intros _ s3 Hinv3. rewrite <- app_assoc. exact Hinv3.
Qed.

Lemma realize_commits h history : map seq_commit (realize h history) = map seq_commit history.
Proof.
  unfold realize. rewrite map_map. apply map_ext. intros hp.
  destruct (ref_eqb (seq_head hp) h); reflexivity.
Qed.

Lemma export_history_inv gen all_tags opts n :
  forall history seen s,
    n = length history ->
    index_inv R C gen seen s ->
    Z.of_nat (length seen) + Z.of_nat (length history) <= C ->
    parents_first seen (map seq_commit history) ->
    (forall f, In f (flat_map file_list (map seq_commit history)) -> In (f_addr f) gen) ->
    wp (export_history n history all_tags opts)
       (fun _ s' => index_inv R C gen
                      (rev (map c_addr (map seq_commit history)) ++ seen) s')
       (index_base R C) s.
Proof.
  induction n as [| n IH]; intros history seen s Hlen Hinv Hroom Hfirst Hfiles;
    destruct history as [| hp rest]; try discriminate; simpl.
  - exact Hinv.
  - simpl in Hroom, Hfirst, Hfiles. destruct Hfirst as [Hparent Hfirst].
    apply wp_get_bind.
    eapply wp_seq with (Q1 := fun _ => index_inv R C gen seen) (E1 := index_base R C);
      [| | auto].
    { destruct (_ && _ && _); simpl; [| exact Hinv].
      destruct (parent (seq_commit hp)) as [p |]; [| exact Hinv].
      eapply wp_seq; [apply display_date_marked_inv; [exact Hinv | exact Hparent] | | auto].
      simpl. intros d s1 Hinv1. frame_last. }
    clear Hinv. intros _ s1 Hinv.
    eapply wp_seq; [apply export_commit_inv; [exact Hinv | lia | |] | | auto].
    { intros f Hf. apply Hfiles, in_or_app. left. exact Hf. }
    { intros p Hp. rewrite Hp in Hparent. exact Hparent. }
    simpl. intros _ s2 Hinv2.
    eapply wp_seq; [apply tag_resets_inv; [exact Hinv2 | left; reflexivity] | | auto].
    simpl. intros _ s3 Hinv3.
    match goal with |- context [export_history n ?r] => set (rest' := r) end.
    assert (Hrest : map seq_commit rest' = map seq_commit rest).
    { subst rest'. destruct (_ && _ && _); [apply realize_commits | reflexivity]. }
    eapply wp_mono; [apply (IH rest' (c_addr (seq_commit hp) :: seen));
                     [| exact Hinv3 | | |] | | auto].
    + apply (f_equal (@length _)) in Hrest. rewrite !length_map in Hrest.
      simpl in Hlen. lia.
    + apply (f_equal (@length _)) in Hrest. rewrite !length_map in Hrest.
      simpl. lia.
    + rewrite Hrest. exact Hfirst.
    + rewrite Hrest. intros f Hf. apply Hfiles, in_or_app. right. exact Hf.
    + simpl. intros _ s4 Hinv4. rewrite Hrest in Hinv4.
      rewrite <- app_assoc. exact Hinv4.
Qed.

Lemma reset_heads_inv gen seen rl opts s :
  index_inv R C gen seen s ->
  (forall h c, In h (heads rl) -> ref_commit h = Some c -> In (c_addr c) seen) ->
  wp (reset_heads rl opts) (fun _ => index_inv R C gen seen) (index_base R C) s.
Proof.
  intros Hinv Hheads. unfold reset_heads.
  apply wp_for_each with (I := index_inv R C gen seen); [| exact Hinv].
  intros h st Hh Hst.
  destruct (ref_commit h) as [c |] eqn:Hc; [| apply Hst].
  pose proof (Hheads h c Hh Hc) as Hin.
  eapply wp_seq; [apply display_date_marked_inv; [exact Hst | exact Hin] | | auto].
  simpl. intros d s1 Hinv1.
  destruct (fromtime opts <? d); simpl; [| exact Hinv1].
  apply wp_get_bind.
  pose proof (index_inv_range_commit _ _ _ c Hinv1 Hin) as Hrange.
  frame_last. exact Hrange.
Qed.

End IndexRange.

Section IndexTheorem.

Context `{Collaborators}.

Lemma export_phase_inv R C gen forest all_tags opts s :
  0 <= R -> 0 <= C ->
  C = Z.of_nat (length (canonicalize (head forest))) ->
  index_inv R C gen [] s ->
  parents_first [] (map seq_commit (export_order (head forest) opts)) ->
  (forall hp f, In hp (canonicalize (head forest)) ->
     In f (file_list (seq_commit hp)) -> In (f_addr f) gen) ->
  wp (if reportmode_eqb (reportmode opts) fast
      then export_fast (head forest) all_tags opts
      else export_canonical (head forest) all_tags opts)
     (fun _ s' => index_inv R C gen
        (rev (map c_addr (map seq_commit (export_order (head forest) opts)))) s')
     (index_base R C) s.
Proof.
  intros HR HC Hcount Hinv Hfirst Hfiles.
  pose proof (export_order_commits (head forest) opts) as Hperm.
  destruct (reportmode_eqb (reportmode opts) fast) eqn:Hmode.
  - eapply wp_ext; [apply export_fast_flat |].
    unfold export_order in *. rewrite Hmode in *.
    eapply wp_mono; [apply (rounds_inv R C HR HC gen); [exact Hinv | | exact Hfirst | exact Hfiles] | | auto].
    + simpl. lia.
    + simpl. intros _ s' Hs'. rewrite app_nil_r, <- map_map in Hs'. exact Hs'.
  - eapply wp_run_eq; [apply export_canonical_order; exact Hmode |].
    eapply wp_mono;
      [apply (export_history_inv R C HR HC gen all_tags opts _ _ []); [reflexivity | | | exact Hfirst |] | | auto].
    + destruct (sortable _); [exact Hinv |].
      eapply index_inv_step; [| exact Hinv].
      apply idx_step_frame. repeat split; reflexivity.
    + apply Permutation_length in Hperm. rewrite !length_map in Hperm.
      simpl. lia.
    + intros f Hf. apply in_flat_map in Hf as (c & Hc & Hf).
      eapply Permutation_in in Hc; [| exact Hperm].
      apply in_map_iff in Hc as (hp & <- & Hhp). eapply Hfiles; eauto.
    + simpl. intros _ s' Hs'. rewrite app_nil_r in Hs'. exact Hs'.
Qed.

End IndexTheorem.

(** Slot 0 stays empty when the commits are exported parents first.
    When the generators call back once for each file revision (so that
    [total_revisions] counts the callbacks and every file revision of
    an exported commit has been called back with), every commit is
    exported after its parent, and the commit of every head is
    exported, then every index at which [markmap] is read or written is
    at least 1 and at most [total_revisions + total_commits], within
    the extent of [total_revisions + total_commits + 1] slots, and slot
    0 still holds the 0 that [xcalloc] put there.  An [int] holds the
    number of file revisions and commits. *)
Theorem markmap_indices_in_range `{Collaborators}
    (forest : forest_t) (all_tags : list tag_t) (opts : export_options_t) :
  Z.of_nat (length (generated forest)) = total_revisions forest ->
  total_revisions forest + export_ncommit (head forest) < 2 ^ (int_bits - 1) ->
  files_generated forest ->
  parents_first []
    (map seq_commit (export_order (head forest) (select_reportmode forest opts))) ->
  heads_exported (head forest) ->
  index_base (total_revisions forest) (export_ncommit (head forest))
    (final (export_commits forest all_tags opts init_state)).
Proof.
  intros Hcount _ Hgen Hfirst Hheads.
  set (R := total_revisions forest) in *.
  set (C := export_ncommit (head forest)).
  assert (HR : 0 <= R) by lia.
  assert (HC : 0 <= C) by (subst C; rewrite export_ncommit_length; lia).
  apply (wp_final _ (index_base R C)).
  unfold export_commits.
  set (opts' := select_reportmode forest opts) in *.
  match goal with
  | |- wp (bind (when _ _) ?k) _ _ _ =>
      assert (Hrest : forall s0, seqno s0 = 0 -> serial_f s0 = ∅ -> idx s0 = [] ->
                wp (k tt) (fun _ => index_base R C) (index_base R C) s0)
  end.
  2: { apply wp_when_bind; intros _.
       - apply wp_assoc. apply wp_modify_bind. apply wp_modify_bind.
         apply Hrest; reflexivity.
       - apply Hrest; reflexivity. }
  intros s0 Hseq0 Hfiles0 Hidx0. cbv beta.
  apply wp_modify_bind. apply wp_get_bind. apply wp_modify_bind.
  match goal with |- wp _ _ _ ?st => set (s1 := st) end.
  assert (Hblob : blob_inv R C s1).
  { subst s1. constructor; simpl.
    - fold C. constructor; simpl.
      + rewrite length_replicate. lia.
      + rewrite Hidx0. constructor.
      + apply lookup_replicate. split; [reflexivity | lia].
    - rewrite Hseq0. lia.
    - intros a v. rewrite Hfiles0, lookup_empty. discriminate. }
  assert (Hseq1 : seqno s1 = 0) by exact Hseq0.
  assert (Hsc1 : serial_c s1 = serial_c s0) by reflexivity.
  clearbody s1.
  eapply wp_seq;
    [apply (generators_inv R C HC); [exact Hblob |] | | auto].
  { unfold generated in Hcount. rewrite length_map in Hcount. lia. }
  simpl. intros _ s2 (Hblob2 & Hseq2 & Hsome2 & _).
  set (gen := map f_addr (generated forest)).
  assert (Hinv : index_inv R C gen [] s2).
  { destruct Hblob2 as [Hbase Hs Hf]. constructor.
    - exact Hbase.
    - intros a Ha. subst gen. unfold generated in Ha.
      rewrite map_map in Ha. apply in_map_iff in Ha as (node & <- & Hnode).
      destruct (Hsome2 node Hnode) as [v Hv]. rewrite Hv. simpl.
      apply Hf in Hv. unfold generated in Hcount. rewrite length_map in Hcount. lia.
    - unfold generated in Hcount. rewrite length_map in Hcount. simpl. lia.
    - intros a []. }
  eapply wp_seq;
    [apply (export_phase_inv R C gen); try eassumption | | auto].
  { subst C. apply export_ncommit_length. }
  simpl. intros _ s3 Hinv3.
  eapply wp_seq; [apply (reset_heads_inv R C); [exact Hinv3 |] | | auto].
  { intros h c Hh Hc. apply in_rev. rewrite rev_involutive.
    pose proof (Hheads h c Hh Hc) as Hin.
    rewrite <- map_map in Hin.
    eapply Permutation_in; [| exact Hin].
    apply Permutation_map, Permutation_sym, export_order_commits. }
  simpl. intros _ s4 Hinv4.
  eapply (wp_frame_last (idx_step R C) (index_inv R C gen _));
    [apply index_inv_step | | exact Hinv4 | intros _ s' Hs'; apply Hs'
    | intros s' Hs'; apply Hs'].
  repeat (lazymatch goal with
          | |- keeps (idx_step _ _) (emit _) =>
              apply keeps_modify; intros ?; apply idx_step_frame; repeat split; reflexivity
          | |- keeps (idx_step _ _) _ =>
              keeps_step (idx_step_refl R C) (idx_step_trans R C)
                ltac:(apply idx_step_frame; repeat split; reflexivity)
          end).
Qed.

Lemma markmap_indices_in_range_witness :
  (Z.of_nat (length (generated Demo.forest)) = total_revisions Demo.forest
   /\ total_revisions Demo.forest + export_ncommit (head Demo.forest) < 2 ^ (int_bits - 1)
   /\ files_generated Demo.forest
   /\ parents_first []
        (map seq_commit (@export_order Demo.collaborators (head Demo.forest)
                           (select_reportmode Demo.forest (Demo.mkopts canonical 0))))
   /\ heads_exported (head Demo.forest))
  /\ index_base (total_revisions Demo.forest) (export_ncommit (head Demo.forest))
       (final (@export_commits Demo.collaborators Demo.forest Demo.tags
                 (Demo.mkopts canonical 0) init_state)).
Proof.
  assert (Hcount : Z.of_nat (length (generated Demo.forest))
                   = total_revisions Demo.forest) by reflexivity.
  assert (Hint : total_revisions Demo.forest + export_ncommit (head Demo.forest)
                 < 2 ^ (int_bits - 1)) by (vm_compute; reflexivity).
  assert (Hgen : files_generated Demo.forest).
  { intros hp f Hhp Hf. vm_compute in Hhp.
    destruct Hhp as [<- | [<- | []]]; vm_compute in Hf;
      repeat (destruct Hf as [<- | Hf]; [vm_compute; tauto |]); destruct Hf. }
  assert (Hfirst : parents_first []
            (map seq_commit (@export_order Demo.collaborators (head Demo.forest)
                               (select_reportmode Demo.forest (Demo.mkopts canonical 0))))).
  { vm_compute. tauto. }
  assert (Hheads : heads_exported (head Demo.forest)).
  { intros h c Hh Hc. vm_compute in Hh. destruct Hh as [<- | []].
    injection Hc as <-. vm_compute. tauto. }
  split; [exact (conj Hcount (conj Hint (conj Hgen (conj Hfirst Hheads)))) |].
  exact (@markmap_indices_in_range Demo.collaborators Demo.forest Demo.tags
           (Demo.mkopts canonical 0) Hcount Hint Hgen Hfirst Hheads).
Defined.

(** Two elements that the comparator puts in one order come out of
    [qsort] in that order, whatever the library. *)
Lemma qsort_pair `{Collaborators} {A : Type} (cmp : A -> A -> Z) (a b : A) :
  consistent cmp [a; b] -> 0 < cmp a b -> qsort cmp [a; b] = [b; a].
Proof.
  intros Hcons Hab.
  pose proof (qsort_sorted cmp [a; b] Hcons) as Hsorted.
  pose proof (qsort_perm cmp [a; b]) as Hperm.
  apply Permutation_length_2_inv in Hperm as [Heq | Heq]; [| exact Heq].
  rewrite Heq in Hsorted. apply StronglySorted_inv in Hsorted as [_ Hhd].
  apply Forall_inv in Hhd. lia.
Qed.

(** The two commits of [long_lived] are on one branch, parent first, and
    their dates are in order but more than [2^31] seconds apart.
    [sort_by_date] is consistent on the array and puts the child first,
    so the child is exported first with every [qsort]. *)
Lemma long_lived_order `{Collaborators} :
  sortable (canonicalize (head Demo.long_lived)) = true
  /\ map (fun hp => c_addr (seq_commit hp))
       (export_order (head Demo.long_lived) (Demo.mkopts canonical 0))
     = [c_addr Demo.late; c_addr Demo.c1].
Proof.
  split; [reflexivity |].
  unfold export_order.
  change (reportmode_eqb (reportmode (Demo.mkopts canonical 0)) fast) with false.
  change (sortable (canonicalize (head Demo.long_lived))) with true. cbv iota.
  change (canonicalize (head Demo.long_lived))
    with [ {| seq_commit := Demo.c1;
              seq_head := {| r_addr := 71; ref_name := "master";
                             ref_commit := Some Demo.late; ref_tail := false |};
              realized := false |};
           {| seq_commit := Demo.late;
              seq_head := {| r_addr := 71; ref_name := "master";
                             ref_commit := Some Demo.late; ref_tail := false |};
              realized := false |} ].
  rewrite qsort_pair; [reflexivity | | vm_compute; reflexivity].
  split.
  - intros x y [<- | [<- | []]] [<- | [<- | []]]; vm_compute; split; intros Hx;
      first [reflexivity | discriminate Hx].
  - intros x y z [<- | [<- | []]] [<- | [<- | []]] [<- | [<- | []]]; vm_compute;
      intros Hxy Hyz; first [discriminate | exfalso; apply Hxy; reflexivity
                            | exfalso; apply Hyz; reflexivity].
Qed.

(** C9.  The claim holds of what the code sets out to do, and the code
    breaks it: the comment on the sort says that, the topo order being
    consistent with the time order, the commits can be sorted by date
    without shipping a mark before it is defined, and the comment on
    the allocation of [markmap] that slot 0 is always empty.  The two
    commits of [long_lived] pass the check, their dates being in order;
    they are more than [2^31] seconds apart, so that [compare_commit],
    which returns the difference of the dates as an [int], puts the
    child first.  The generator calls back once for each of the two
    file revisions.  In canonical mode the child is exported first and
    its [from] line reads slot 0, the serial of its parent being still
    unset: [from :0] is written. *)
Lemma parent_after_child_counterexample :
  Z.of_nat (length (generated Demo.long_lived)) = total_revisions Demo.long_lived
  /\ NoDup (map f_addr (generated Demo.long_lived))
  /\ files_generated Demo.long_lived
  /\ sortable (canonicalize (head Demo.long_lived)) = true
  /\ map (fun hp => c_addr (seq_commit hp))
         (@export_order Demo.collaborators (head Demo.long_lived) (Demo.mkopts canonical 0))
     = [c_addr Demo.late; c_addr Demo.c1]
  /\ In 0 (idx (final (@export_commits Demo.collaborators Demo.long_lived []
                          (Demo.mkopts canonical 0) init_state)))
  /\ In (EFrom 0) (@stream Demo.collaborators Demo.long_lived [] (Demo.mkopts canonical 0)).
Proof.
  split; [reflexivity |].
  split; [apply (bool_decide_unpack _); vm_compute; exact I |].
  split.
  { intros hp f Hhp Hf. vm_compute in Hhp.
    destruct Hhp as [<- | [<- | []]]; vm_compute in Hf;
      repeat (destruct Hf as [<- | Hf]; [vm_compute; tauto |]); destruct Hf. }
  split; [vm_compute; reflexivity |].
  split; [vm_compute; reflexivity |].
  split; vm_compute; tauto.
Qed.

(** Slot 0 is read in fast mode too, when the head of a side branch
    comes before the head of the branch it was grafted on. *)
Lemma grafted_head_first_example :
  Z.of_nat (length (generated Demo.grafted)) = total_revisions Demo.grafted
  /\ files_generated Demo.grafted
  /\ In 0 (idx (final (@export_commits Demo.collaborators Demo.grafted []
                          (Demo.mkopts fast 0) init_state)))
  /\ In (EFrom 0) (@stream Demo.collaborators Demo.grafted [] (Demo.mkopts fast 0)).
Proof.
  split; [reflexivity |].
  split.
  { intros hp f Hhp Hf. vm_compute in Hhp.
    destruct Hhp as [<- | [<- | [<- | []]]]; vm_compute in Hf;
      repeat (destruct Hf as [<- | Hf]; [vm_compute; tauto |]); destruct Hf. }
  split; vm_compute; tauto.
Qed.

(** Nor can the condition on the heads be dropped: the closing loop
    reads the slot of the commit of every head, exported or not. *)
Lemma unexported_head_example :
  Z.of_nat (length (generated Demo.dangling)) = total_revisions Demo.dangling
  /\ files_generated Demo.dangling
  /\ parents_first []
       (map seq_commit
          (@export_order Demo.collaborators (head Demo.dangling)
             (select_reportmode Demo.dangling (Demo.mkopts fast 0))))
  /\ In 0 (idx (final (@export_commits Demo.collaborators Demo.dangling []
                          (Demo.mkopts fast 0) init_state))).
Proof.
  split; [reflexivity |].
  split.
  { intros hp f Hhp Hf. vm_compute in Hhp.
    destruct Hhp as [<- | [<- | []]]; vm_compute in Hf;
      repeat (destruct Hf as [<- | Hf]; [vm_compute; tauto |]); destruct Hf. }
  split; vm_compute; tauto.
Qed.

(** ** Marks are defined before they are used *)

Lemma defined_app l1 l2 : defined (l1 ++ l2) = defined l1 ++ defined l2.
Proof. unfold defined. apply flat_map_app. Qed.

Lemma reference_free w e : free e -> reference w e = [].
Proof. unfold free. destruct e, w; simpl; auto; discriminate. Qed.

Lemma defined_before_use_nil w : defined_before_use w [].
Proof. intros [| x pre] e post n Heq; discriminate Heq. Qed.

(** One more line at the end of the stream. *)
Lemma defined_before_use_snoc w l e :
  defined_before_use w l ->
  (forall n, In n (reference w e) -> In n (defined l)) ->
  defined_before_use w (l ++ [e]).
Proof.
  intros Hl He pre e' post n Heq Hn.
  destruct (exists_last (l := e' :: post)) as (post' & x & Hlast); [discriminate |].
  rewrite Hlast, app_assoc in Heq.
  apply app_inj_tail in Heq as [Hpre ->].
  destruct post' as [| y post'].
  - simpl in Hlast. destruct post; [| destruct post; discriminate].
    injection Hlast as ->. rewrite app_nil_r in Hpre. subst pre.
    apply He, Hn.
  - simpl in Hlast. injection Hlast as <- Hpost.
    eapply Hl; [exact Hpre | exact Hn].
Qed.

Lemma defined_before_use_app w l evs :
  defined_before_use w l -> Forall free evs -> defined_before_use w (l ++ evs).
Proof.
  intros Hl Hfree. revert l Hl.
  induction Hfree as [| x evs Hx _ IH]; intros l Hl.
  - rewrite app_nil_r. exact Hl.
  - change (x :: evs) with ([x] ++ evs). rewrite app_assoc. apply IH.
    apply defined_before_use_snoc; [exact Hl |].
    rewrite (reference_free w x Hx). intros n [].
Qed.

Lemma mark_frame_refl s : mark_frame s s.
Proof.
  do 6 (split; [reflexivity |]). exists []. rewrite app_nil_r. split; constructor.
Qed.

Lemma mark_frame_trans s1 s2 s3 :
  mark_frame s1 s2 -> mark_frame s2 s3 -> mark_frame s1 s3.
Proof.
  intros (Hm1 & Hf1 & Hc1 & Hq1 & He1 & Hb1 & ev1 & Ho1 & Hfree1)
         (Hm2 & Hf2 & Hc2 & Hq2 & He2 & Hb2 & ev2 & Ho2 & Hfree2).
  unfold mark_frame. rewrite Hm2, Hf2, Hc2, Hq2, He2, Hb2.
  do 6 (split; [assumption |]).
  exists (ev1 ++ ev2). rewrite Ho2, Ho1, app_assoc. split; [reflexivity |].
  apply Forall_app. auto.
Qed.

(** A step that writes nothing and touches nothing of the marks. *)
Lemma mark_frame_quiet s s' :
  markmap s' = markmap s -> serial_f s' = serial_f s -> serial_c s' = serial_c s ->
  seqno s' = seqno s -> emitted s' = emitted s -> blobs s' = blobs s ->
  out s' = out s ->
  mark_frame s s'.
Proof.
  intros Hm Hf Hc Hq He Hb Ho. do 6 (split; [assumption |]).
  exists []. rewrite app_nil_r. split; [exact Ho | constructor].
Qed.

Lemma keeps_emit_free e : free e -> keeps mark_frame (emit e).
Proof.
  intros He s. do 6 (split; [reflexivity |]).
  exists [e]. split; [reflexivity | constructor; [exact He | constructor]].
Qed.

Lemma marked_frame s s' i : mark_frame s s' -> marked s i -> marked s' i.
Proof.
  intros (Hm & _ & _ & _ & _ & _ & evs & Ho & _). unfold marked.
  rewrite Hm, Ho, defined_app. intros Hin. apply in_or_app. left. exact Hin.
Qed.

Lemma mark_inv_frame strict canon R gen seen s s' :
  mark_frame s s' -> mark_inv strict canon R gen seen s ->
  mark_inv strict canon R gen seen s'.
Proof.
  intros Hframe [Hout Hnn Hseq Hgen Hrange Hinj Hmarked Hstored Hcommits].
  pose proof (marked_frame s s') as Hkeep.
  destruct Hframe as (Hm & Hf & Hc & Hq & He & Hb & evs & Ho & Hfree).
  assert (Hframe : mark_frame s s').
  { do 6 (split; [assumption |]). exists evs. auto. }
  constructor; rewrite ?Hf, ?Hc, ?Hq, ?He, ?Hb; auto.
  - rewrite Ho. apply defined_before_use_app; assumption.
  - intros a v Hv Hem. eapply Hkeep; eauto.
  - intros a Hs Ha. destruct (Hcommits a Hs Ha) as [Hr Hmk].
    split; [exact Hr | eapply Hkeep; eauto].
Qed.

Lemma mark_inv_out strict canon R gen seen s :
  mark_inv strict canon R gen seen s -> defined_before_use strict (out s).
Proof. intros Hinv. apply Hinv. Qed.

Ltac mark_frame_step :=
  lazymatch goal with
  | |- keeps mark_frame (emit _) => apply keeps_emit_free; reflexivity
  | |- keeps mark_frame _ =>
      keeps_step mark_frame_refl mark_frame_trans
        ltac:(apply mark_frame_quiet; reflexivity)
  end.

Lemma wp_for_each_prefix {A : Type} (I : list A -> state -> Prop) (E : state -> Prop)
    (body : A -> M unit) (l : list A) :
  (forall pre x post s, l = pre ++ x :: post -> I pre s ->
     wp (body x) (fun _ => I (pre ++ [x])) E s) ->
  forall s, I [] s -> wp (for_each l body) (fun _ => I l) E s.
Proof.
  intros Hbody.
  assert (Hgen : forall rest pre s, l = pre ++ rest -> I pre s ->
            wp (for_each rest body) (fun _ => I l) E s).
  { induction rest as [| x rest IH]; intros pre s Heq Hs; simpl.
    - rewrite app_nil_r in Heq. subst pre. exact Hs.
    - eapply wp_seq; [eapply Hbody; eauto | | auto].
      simpl. intros _ s' Hs'. apply (IH (pre ++ [x])); [| exact Hs'].
      rewrite <- app_assoc. exact Heq. }
  intros s Hs. apply (Hgen l []); [reflexivity | exact Hs].
Qed.

(** The slot just assigned, and the other slots. *)
Lemma marked_set s i v evs :
  0 <= i < Z.of_nat (length (markmap s)) ->
  In v (defined (out s ++ evs)) ->
  In (default 0 (<[Z.to_nat i := v]> (markmap s) !! Z.to_nat i)) (defined (out s ++ evs)).
Proof.
  intros Hi Hv. rewrite list_lookup_insert_eq by lia. exact Hv.
Qed.

Lemma marked_other s i j v evs :
  0 <= i -> 0 <= j -> i <> j ->
  marked s j ->
  In (default 0 (<[Z.to_nat i := v]> (markmap s) !! Z.to_nat j)) (defined (out s ++ evs)).
Proof.
  intros Hi Hj Hne Hm. rewrite list_lookup_insert_ne by lia.
  rewrite defined_app. apply in_or_app. left. exact Hm.
Qed.

(** ** The marks during a run *)

Lemma blob_marks_frame strict canon gen s s' :
  mark_frame s s' -> blob_marks strict canon gen s -> blob_marks strict canon gen s'.
Proof.
  intros Hframe [Hinv Hem].
  pose proof (mark_inv_frame _ _ _ _ _ _ _ Hframe Hinv) as Hinv'.
  destruct Hframe as (_ & _ & _ & Hq & He & _).
  split; [rewrite Hq; exact Hinv' | rewrite He; exact Hem].
Qed.


Section Marks.

Context `{Collaborators}.
Variable opts : export_options_t.
Variables strict canon : bool.
Hypothesis canon_mode : reportmode opts = if canon then canonical else fast.

Lemma mode_canonical : reportmode_eqb (reportmode opts) canonical = canon.
Proof. rewrite canon_mode. destruct canon; reflexivity. Qed.

Lemma mode_fast : reportmode_eqb (reportmode opts) fast = negb canon.
Proof. rewrite canon_mode. destruct canon; reflexivity. Qed.

Lemma export_blob_marks gen node buf len s :
  blob_marks strict canon gen s ->
  wp (export_blob node buf len opts)
     (fun _ => blob_marks strict canon (gen ++ [f_addr (node_commit node)]))
     (fun s' => defined_before_use strict (out s')) s.
Proof.
  intros [[Hout Hnn _ Hgen Hrange Hinj Hmarked Hstored _] Hem].
  unfold export_blob.
  apply wp_modify_bind.
  unfold wp at 1. unfold bind at 1. unfold seqno_next. simpl.
  destruct (MAX_SERIAL_T <=? seqno s + 1); [exact Hout |].
  apply wp_modify_bind.
  set (n := seqno s + 1).
  set (a := f_addr (node_commit node)).
  assert (Hgen' : forall sf a', In a' (gen ++ [a]) ->
                    sf = <[a := n]> (serial_f s) -> is_Some (sf !! a')).
  { intros sf a' Ha' ->. destruct (decide (a = a')) as [<- | Hne].
    - rewrite lookup_insert_eq. eauto.
    - rewrite lookup_insert_ne by exact Hne. apply Hgen.
      apply in_app_or in Ha' as [Ha' | [Ha' | []]]; [exact Ha' | contradiction]. }
  assert (Hrange' : forall a' v, <[a := n]> (serial_f s) !! a' = Some v -> 1 <= v <= n).
  { intros a' v. destruct (decide (a = a')) as [<- | Hne].
    - rewrite lookup_insert_eq. intros [= <-]. subst n. lia.
    - rewrite lookup_insert_ne by exact Hne. intros Hv. apply Hrange in Hv. subst n. lia. }
  assert (Hold : forall a' v, a <> a' -> <[a := n]> (serial_f s) !! a' = Some v ->
                   serial_f s !! a' = Some v /\ 1 <= v < n).
  { intros a' v Hne. rewrite lookup_insert_ne by exact Hne. intros Hv.
    split; [exact Hv |]. apply Hrange in Hv. subst n. lia. }
  assert (Hinj' : forall a' b v, <[a := n]> (serial_f s) !! a' = Some v ->
                    <[a := n]> (serial_f s) !! b = Some v -> a' = b).
  { intros a' b v Ha' Hb.
    destruct (decide (a = a')) as [<- | Hna]; destruct (decide (a = b)) as [<- | Hnb].
    - reflexivity.
    - rewrite lookup_insert_eq in Ha'. injection Ha' as <-.
      apply Hold in Hb as [_ Hb]; [lia | exact Hnb].
    - rewrite lookup_insert_eq in Hb. injection Hb as <-.
      apply Hold in Ha' as [_ Ha']; [lia | exact Hna].
    - apply Hold in Ha' as [Ha' _]; [| exact Hna].
      apply Hold in Hb as [Hb _]; [| exact Hnb].
      eapply Hinj; eauto. }
  rewrite mode_fast. destruct canon eqn:Hcanon; simpl.
  - (* canonical: the blob goes to its file *)
    split; [| exact Hem].
    constructor; simpl; try assumption; try lia.
    + intros a' Ha'. eapply Hgen'; eauto.
    + intros a' v Hv [Hc | Hin]; [discriminate Hc |].
      rewrite Hem in Hin. destruct (not_elem_of_empty (C := gset nat) a' Hin).
    + intros a' v _ Hv _. destruct (decide (a = a')) as [<- | Hne].
      * rewrite lookup_insert_eq in Hv. injection Hv as <-.
        rewrite lookup_insert_eq. eauto.
      * apply Hold in Hv as [Hv Hlt]; [| exact Hne].
        rewrite lookup_insert_ne by lia.
        apply (Hstored a' v); [reflexivity | exact Hv |].
        rewrite Hem. apply not_elem_of_empty.
  - (* fast: the blob is written and its mark recorded *)
    apply wp_next_mark_bind.
    apply wp_markmap_set_any; [| exact Hout].
    intros Hi. apply wp_emit_bind.
    match goal with |- wp _ _ _ ?st => set (s3 := st) end.
    assert (H3 : blob_marks strict false (gen ++ [a]) s3).
    { split; [| exact Hem].
      subst s3. constructor; simpl; try assumption; try lia.
      - apply defined_before_use_snoc; [exact Hout |]. intros x [].
      - intros a' Ha'. eapply Hgen'; eauto.
      - intros a' v Hv _. unfold marked. simpl.
        destruct (decide (a = a')) as [<- | Hne].
        + rewrite lookup_insert_eq in Hv. injection Hv as <-.
          apply marked_set; [exact Hi |].
          rewrite defined_app. apply in_or_app. right. left. reflexivity.
        + apply Hold in Hv as [Hv Hlt]; [| exact Hne].
          apply marked_other; [lia | lia | lia |].
          apply (Hmarked a' v Hv). left. reflexivity. }
    clearbody s3.
    eapply (wp_frame_last mark_frame (blob_marks strict false (gen ++ [a])));
      [apply blob_marks_frame | | exact H3 | auto | intros s' [Hs' _]; apply Hs'].
    repeat mark_frame_step.
Qed.


(** One more line at the end of the stream. *)
Lemma mark_inv_emit R gen seen e s :
  mark_inv strict canon R gen seen s ->
  (forall n, In n (reference strict e) -> In n (defined (out s))) ->
  mark_inv strict canon R gen seen (with_out (out s ++ [e]) s).
Proof.
  intros [Hout Hnn Hseq Hgen Hrange Hinj Hmarked Hstored Hcommits] He.
  assert (Hkeep : forall i, marked s i -> marked (with_out (out s ++ [e]) s) i).
  { intros i Hi. unfold marked. simpl. rewrite defined_app.
    apply in_or_app. left. exact Hi. }
  constructor; simpl; auto.
  - apply defined_before_use_snoc; assumption.
  - intros a v Hv Hem. apply Hkeep. eauto.
  - intros a Hs Ha. destruct (Hcommits a Hs Ha) as [Hr Hm]. auto.
Qed.

Lemma mark_inv_file R gen seen s rev :
  mark_inv strict canon R gen seen s -> In (f_addr rev) gen ->
  exists v, serial_f s !! f_addr rev = Some v /\ file_serial s rev = v /\ 1 <= v <= R.
Proof.
  intros Hinv Hin. destruct (mi_gen _ _ _ _ _ _ Hinv _ Hin) as [v Hv].
  exists v. split; [exact Hv |]. split.
  - unfold file_serial. rewrite Hv. reflexivity.
  - eapply mi_range; eauto.
Qed.

Lemma print_fileop_marks R gen seen o s :
  mark_inv strict canon R gen seen s ->
  (forall a, In a (modified [o]) -> In a gen /\ (canon = false \/ a ∈ emitted s)) ->
  wp (print_fileop o)
     (fun _ s' => mark_inv strict canon R gen seen s' /\ emitted s' = emitted s)
     (fun s' => defined_before_use strict (out s')) s.
Proof.
  intros Hinv Hop.
  set (P := fun s' => mark_inv strict canon R gen seen s' /\ emitted s' = emitted s).
  assert (HP : forall s1 s2, mark_frame s1 s2 -> P s1 -> P s2).
  { intros s1 s2 Hframe [Hinv1 Hem1]. split.
    - eapply mark_inv_frame; eauto.
    - destruct Hframe as (_ & _ & _ & _ & He & _). congruence. }
  unfold print_fileop. destruct o as [perm rev path | path].
  - destruct (Hop (f_addr rev)) as [Hgen Hem]; [left; reflexivity |].
    destruct (mark_inv_file _ _ _ _ _ Hinv Hgen) as (v & Hv & Hfs & Hrange).
    apply wp_assoc. apply wp_get_bind. rewrite Hfs.
    apply wp_assoc. apply wp_markmap_get_any; [| apply Hinv].
    apply wp_emit_bind.
    match goal with |- wp _ _ _ ?st => set (s2 := st) end.
    assert (H2 : P s2).
    { split; [| reflexivity]. subst s2.
      apply (mark_inv_emit R gen seen _ (with_idx (idx s ++ [v]) s)).
      - eapply mark_inv_frame; [| exact Hinv]. apply mark_frame_quiet; reflexivity.
      - intros n [<- | []]. apply (mi_marked _ _ _ _ _ _ Hinv _ _ Hv Hem). }
    clearbody s2.
    eapply (wp_frame_last mark_frame P); [exact HP | | exact H2 | auto |].
    + repeat mark_frame_step.
    + intros s' [Hs' _]. apply Hs'.
  - eapply (wp_frame_last mark_frame P); [exact HP | | | auto |].
    + repeat mark_frame_step.
    + split; [exact Hinv | reflexivity].
    + intros s' [Hs' _]. apply Hs'.
Qed.

(** A slot other than the one assigned keeps its mark, and the stream
    only grows. *)
Lemma marked_update s s' i v j evs :
  markmap s' = <[Z.to_nat i := v]> (markmap s) ->
  out s' = out s ++ evs ->
  0 <= i -> 0 <= j -> i <> j ->
  marked s j -> marked s' j.
Proof.
  intros Hm Ho Hi Hj Hne Hmk. unfold marked. rewrite Hm, Ho.
  rewrite list_lookup_insert_ne by lia.
  rewrite defined_app. apply in_or_app. left. exact Hmk.
Qed.

(** The slot assigned holds its mark once the record is written. *)
Lemma marked_new s s' i v evs :
  markmap s' = <[Z.to_nat i := v]> (markmap s) ->
  out s' = out s ++ evs ->
  0 <= i < Z.of_nat (length (markmap s)) ->
  In v (defined evs) ->
  marked s' i.
Proof.
  intros Hm Ho Hi Hv. unfold marked. rewrite Hm, Ho.
  rewrite list_lookup_insert_eq by lia. simpl.
  rewrite defined_app. apply in_or_app. right. exact Hv.
Qed.

(** Canonical mode: the slot of a file revision not yet shipped is
    assigned the next mark; the blob is then written, or not. *)
Lemma mark_inv_ship R gen seen s s' a v m evs :
  mark_inv strict canon R gen seen s ->
  canon = true ->
  serial_f s !! a = Some v -> a ∉ emitted s ->
  0 <= v < Z.of_nat (length (markmap s)) ->
  markmap s' = <[Z.to_nat v := m]> (markmap s) ->
  serial_f s' = serial_f s -> serial_c s' = serial_c s -> seqno s' = seqno s ->
  out s' = out s ++ evs -> Forall free evs ->
  (emitted s' = emitted s /\ blobs s' = blobs s
   \/ emitted s' = {[a]} ∪ emitted s /\ blobs s' = delete v (blobs s)
      /\ In m (defined evs)) ->
  mark_inv strict canon R gen seen s'.
Proof.
  intros [Hout Hnn Hseq Hgen Hrange Hinj Hmarked Hstored Hcommits]
         Hc Hv Hem Hi Hm Hsf Hsc Hsq Ho Hfree Hcase.
  pose proof (Hrange a v Hv) as Hvr.
  assert (Hother : forall j, 0 <= j -> v <> j -> marked s j -> marked s' j).
  { intros j Hj Hne. eapply marked_update; eauto. lia. }
  constructor; rewrite ?Hsf, ?Hsc, ?Hsq; auto.
  - rewrite Ho. apply defined_before_use_app; assumption.
  - intros a' v' Hv' [Hcf | Hin]; [congruence |].
    destruct (decide (a' = a)) as [-> | Hne].
    + assert (v' = v) by congruence. subst v'.
      destruct Hcase as [[He _] | (He & _ & Hdef)].
      * rewrite He in Hin. contradiction.
      * eapply marked_new; eauto.
    + assert (Hin' : a' ∈ emitted s).
      { destruct Hcase as [[He _] | (He & _)]; rewrite He in Hin;
          [exact Hin |].
        apply elem_of_union in Hin as [Hin | Hin]; [| exact Hin].
        apply elem_of_singleton in Hin. contradiction. }
      apply Hother.
      * apply Hrange in Hv'. lia.
      * intros <-. apply Hne. eapply Hinj; eauto.
      * apply (Hmarked a' v' Hv'). right. exact Hin'.
  - intros a' v' _ Hv' Hnin.
    destruct Hcase as [[He Hb] | (He & Hb & _)]; rewrite Hb.
    + apply (Hstored a' v' Hc Hv'). rewrite <- He. exact Hnin.
    + rewrite He in Hnin.
      assert (Hne : a' <> a).
      { intros ->. apply Hnin, elem_of_union. left. apply elem_of_singleton. reflexivity. }
      rewrite lookup_delete_ne.
      * apply (Hstored a' v' Hc Hv').
        intros Hin. apply Hnin, elem_of_union. right. exact Hin.
      * intros <-. apply Hne. eapply Hinj; eauto.
  - intros a' Hs Ha'. destruct (Hcommits a' Hs Ha') as [Hr Hmk].
    split; [exact Hr |]. apply Hother; [lia | lia | exact Hmk].
Qed.

Lemma ship_blob_marks R gen seen report o s :
  mark_inv strict canon R gen seen s ->
  (forall a, In a (modified [o]) -> In a gen) ->
  wp (ship_blob report opts o)
     (fun _ s' => mark_inv strict canon R gen seen s'
        /\ emitted s ⊆ emitted s'
        /\ (canon = true -> report = true ->
            forall a, In a (modified [o]) -> a ∈ emitted s'))
     (fun s' => defined_before_use strict (out s')) s.
Proof.
  intros Hinv Hop. unfold ship_blob.
  destruct o as [perm rev path | path].
  2: { split; [exact Hinv | split; [reflexivity | intros _ _ a []]]. }
  destruct (mark_inv_file _ _ _ _ _ Hinv (Hop _ (or_introl eq_refl)))
    as (v & Hv & Hfs & Hrange).
  apply wp_get_bind.
  destruct (bool_decide (f_addr rev ∈ emitted s)) eqn:Hem.
  { apply bool_decide_eq_true in Hem.
    split; [exact Hinv | split; [reflexivity |]].
    intros _ _ a [<- | []]. exact Hem. }
  apply bool_decide_eq_false in Hem.
  rewrite mode_canonical, Hfs.
  apply wp_when_bind; intros Hc.
  - apply wp_assoc. apply wp_next_mark_bind.
    apply wp_markmap_set_any; [| apply Hinv].
    intros Hi. simpl in Hi.
    apply wp_when; intros Hrc.
    + apply wp_get_bind.
      destruct (mi_stored _ _ _ _ _ _ Hinv _ _ Hc Hv Hem) as [text Htext].
      unfold file_serial. simpl. rewrite Hv. simpl. rewrite Htext.
      apply wp_emit_bind. apply wp_emit_bind. apply wp_modify_bind.
      apply wp_modify_last.
      split; [| split].
      * eapply (mark_inv_ship R gen seen s _ (f_addr rev) v (mark s + 1)
                  [EBlobMark (mark s + 1); ERaw text]);
          try eassumption; try reflexivity.
        -- simpl. rewrite <- app_assoc. reflexivity.
        -- repeat constructor.
        -- right. simpl. unfold file_serial. simpl. rewrite Hv. simpl. auto.
      * simpl. apply union_subseteq_r.
      * intros _ _ a [<- | []]. simpl.
        apply elem_of_union. left. apply elem_of_singleton. reflexivity.
    + assert (report = false) by (rewrite Hc in Hrc; destruct report; auto).
      subst report.
      split; [| split; [reflexivity | intros _ Hr; discriminate Hr]].
      eapply (mark_inv_ship R gen seen s _ (f_addr rev) v (mark s + 1) []);
        try eassumption; try reflexivity.
      * simpl. rewrite app_nil_r. reflexivity.
      * constructor.
      * left. split; reflexivity.
  - apply wp_when; intros Hrc.
    + rewrite Hc, andb_false_r in Hrc. discriminate Hrc.
    + split; [exact Hinv | split; [reflexivity | intros Hc'; congruence]].
Qed.

Lemma modified_app ops1 ops2 : modified (ops1 ++ ops2) = modified ops1 ++ modified ops2.
Proof. unfold modified. apply flat_map_app. Qed.

Lemma modified_In o ops a : In o ops -> In a (modified [o]) -> In a (modified ops).
Proof.
  intros Ho Ha. unfold modified in *. apply in_flat_map. exists o.
  split; [exact Ho |]. simpl in Ha. rewrite app_nil_r in Ha. exact Ha.
Qed.

(** The commit takes the next serial and the next mark, and its record
    is written, or not. *)
Lemma mark_inv_commit R gen seen s s' c m evs :
  mark_inv strict canon R gen seen s ->
  0 <= seqno s + 1 < Z.of_nat (length (markmap s)) ->
  markmap s' = <[Z.to_nat (seqno s + 1) := m]> (markmap s) ->
  serial_f s' = serial_f s ->
  serial_c s' = <[c := seqno s + 1]> (serial_c s) ->
  seqno s' = seqno s + 1 ->
  emitted s' = emitted s -> blobs s' = blobs s ->
  out s' = out s ++ evs -> Forall free evs ->
  (strict = true -> In m (defined evs)) ->
  mark_inv strict canon R gen (c :: seen) s'.
Proof.
  intros [Hout Hnn Hseq Hgen Hrange Hinj Hmarked Hstored Hcommits]
         Hi Hm Hsf Hsc Hsq Hem Hb Ho Hfree Hdef.
  assert (Hother : forall j, 0 <= j -> seqno s + 1 <> j -> marked s j -> marked s' j).
  { intros j Hj Hne. eapply marked_update; eauto. lia. }
  constructor; rewrite ?Hsf, ?Hsq, ?Hem, ?Hb; auto.
  - rewrite Ho. apply defined_before_use_app; assumption.
  - lia.
  - intros a v Hv Hcase. pose proof (Hrange a v Hv).
    apply Hother; [lia | lia |]. eapply Hmarked; eauto.
  - intros a Hs Ha. rewrite Hsc.
    destruct (decide (c = a)) as [<- | Hne].
    + rewrite lookup_insert_eq. simpl. split; [lia |].
      eapply marked_new; eauto.
    + rewrite lookup_insert_ne by exact Hne.
      destruct Ha as [Ha | Ha]; [contradiction |].
      destruct (Hcommits a Hs Ha) as [Hr Hmk].
      split; [lia |]. apply Hother; [lia | lia | exact Hmk].
Qed.


Lemma display_date_marked_frame c f : keeps mark_frame (display_date_marked c f).
Proof. unfold display_date_marked. repeat mark_frame_step. Qed.

Lemma tag_resets_frame all_tags c : keeps mark_frame (tag_resets all_tags c opts).
Proof.
  unfold tag_resets.
  repeat (mark_frame_step || apply display_date_marked_frame).
Qed.




End Marks.

Lemma select_reportmode_mode `{Collaborators} forest opts :
  exists canon : bool,
    reportmode (select_reportmode forest opts) = if canon then canonical else fast.
Proof.
  unfold select_reportmode.
  destruct (0 <? fromtime opts); [exists true; reflexivity |].
  destruct (reportmode opts) eqn:Hm; simpl.
  - destruct (textsize forest <=? SMALL_REPOSITORY);
      [exists true | exists false]; reflexivity.
  - exists false. exact Hm.
  - exists true. exact Hm.
Qed.

Lemma select_reportmode_fromtime `{Collaborators} forest opts :
  fromtime (select_reportmode forest opts) = fromtime opts.
Proof.
  unfold select_reportmode.
  destruct (0 <? fromtime opts); [reflexivity |].
  destruct (reportmode_eqb _ _); [| reflexivity].
  destruct (_ <=? _); reflexivity.
Qed.





(** The [from] line of a commit exported before its parent refers to
    mark 0, with no cutoff date: the two commits of [long_lived] are
    more than [2^31] seconds apart and are sorted child first. *)
Lemma from_before_parent_example :
  In (EFrom 0)
     (@stream Demo.collaborators Demo.long_lived [] (Demo.mkopts canonical 0))
  /\ ~ In 0 (defined (@stream Demo.collaborators Demo.long_lived []
                         (Demo.mkopts canonical 0))).
Proof.
  split; [vm_compute; tauto |].
  vm_compute. intros [Hin | [Hin | [Hin | [Hin | []]]]]; discriminate Hin.
Qed.

(** The [M] line of a file revision the generators never called back
    with refers to mark 0. *)
Lemma ungenerated_file_example :
  In (EModify 493 0 "src/main.c")
     (@stream Demo.collaborators Demo.unsaved [] (Demo.mkopts fast 0))
  /\ ~ In 0 (defined (@stream Demo.collaborators Demo.unsaved []
                         (Demo.mkopts fast 0))).
Proof.
  split; [vm_compute; tauto |].
  vm_compute. intros [Hin | [Hin | [Hin | [Hin | []]]]]; discriminate Hin.
Qed.

(** * More properties of the engine *)

(** ** The file iterator *)

Lemma file_iter_drain_rest fuel :
  forall pos, (length (file_iter_rest pos) < fuel)%nat ->
    file_iter_drain fuel pos = (file_iter_rest pos, true).
Proof.
  induction fuel as [| fuel IH]; intros pos Hlen; [lia |].
  simpl. pose proof (file_iter_next_rest pos) as Hnext.
  destruct (file_iter_next pos) as [[f pos'] |].
  - rewrite Hnext in Hlen. simpl in Hlen.
    rewrite (IH pos') by lia. rewrite Hnext. reflexivity.
  - rewrite Hnext. reflexivity.
Qed.

(** A loop [while ((cf = file_iter_next(&it)))] started on a commit
    visits the files of the commit, directory by directory and in the
    order of each directory, skips the directories without files, and
    ends after one call more than there are files. *)
Theorem file_iter_enumerates (c : git_commit) :
  file_iter_drain (S (length (file_list c))) (file_iter_start c) = (file_list c, true)
  /\ (forall fuel, (fuel <= length (file_list c))%nat ->
        snd (file_iter_drain fuel (file_iter_start c)) = false).
Proof.
  split.
  - rewrite file_iter_drain_rest; rewrite file_iter_start_rest; [reflexivity | lia].
  - rewrite <- file_iter_start_rest. generalize (file_iter_start c). intros pos fuel.
    revert pos. induction fuel as [| fuel IH]; intros pos Hlen; [reflexivity |].
    simpl. pose proof (file_iter_next_rest pos) as Hnext.
    destruct (file_iter_next pos) as [[f pos'] |].
    + rewrite Hnext in Hlen. simpl in Hlen.
      specialize (IH pos' ltac:(lia)).
      destruct (file_iter_drain fuel pos') as [l done]. exact IH.
    + rewrite Hnext in Hlen. simpl in Hlen. lia.
Qed.

(** ** The name of a file operation *)

Lemma substring_skip (a b : string) (n : nat) :
  substring (String.length a) n (String.append a b) = substring 0 n b.
Proof. induction a as [| c a IH]; simpl; [reflexivity | exact IH]. Qed.

Lemma substring_take (a b : string) (n : nat) :
  substring 0 (String.length a + n) (String.append a b)
  = String.append a (substring 0 n b).
Proof. induction a as [| c a IH]; simpl; [reflexivity | rewrite IH; reflexivity]. Qed.

Lemma substring_all (s : string) : substring 0 (String.length s) s = s.
Proof. induction s as [| c s IH]; simpl; [reflexivity | rewrite IH; reflexivity]. Qed.

Lemma substring_split (s : string) (k : nat) :
  (k <= String.length s)%nat ->
  s = String.append (substring 0 k s) (substring k (String.length s - k) s).
Proof.
  revert k. induction s as [| c s IH]; intros k Hk.
  - destruct k; reflexivity.
  - destruct k as [| k].
    + rewrite Nat.sub_0_r. change (substring 0 0 (String c s)) with EmptyString.
      symmetry. apply substring_all.
    + simpl. change (String.append (String c (substring 0 k s))
                                 (substring k (String.length s - k) s))
        with (String c (String.append (substring 0 k s)
                                      (substring k (String.length s - k) s))).
      f_equal. apply IH. simpl in Hk. lia.
Qed.

Lemma append_cons (c : ascii) (a b : string) :
  String.append (String c a) b = String c (String.append a b).
Proof. reflexivity. Qed.

Lemma append_assoc (a b c : string) :
  String.append a (String.append b c) = String.append (String.append a b) c.
Proof.
  induction a as [| x a IH]; [reflexivity |].
  rewrite !append_cons, IH. reflexivity.
Qed.

Lemma length_append (a b : string) :
  String.length (String.append a b) = (String.length a + String.length b)%nat.
Proof. induction a as [| c a IH]; simpl; [reflexivity | rewrite IH; reflexivity]. Qed.

Lemma fileop_name_cases :
  (forall dir, fileop_name (String.append dir ".cvsignore") = String.append dir ".gitignore")
  /\ (forall n, (forall dir, n <> String.append dir ".cvsignore") -> fileop_name n = n)
  /\ (forall n, String.length (fileop_name n) = String.length n).
Proof.
  assert (Hcvs : forall dir,
            fileop_name (String.append dir ".cvsignore") = String.append dir ".gitignore").
  { intros dir. unfold fileop_name.
    rewrite length_append. simpl String.length.
    replace (String.length dir + 10 - 10)%nat with (String.length dir) by lia.
    replace (String.length dir + 10 - 9)%nat with (String.length dir + 1)%nat by lia.
    replace (String.length dir + 10 - 6)%nat with (String.length dir + 4)%nat by lia.
    assert (Hge : (10 <=? String.length dir + 10)%nat = true) by (apply Nat.leb_le; lia).
    rewrite Hge, substring_skip. simpl.
    rewrite substring_take. simpl.
    change (String.append dir ".cvsignore")
      with (String.append dir (String.append ".cvs" "ignore")).
    pose proof append_assoc as Hassoc.
    rewrite (Hassoc dir ".cvs" "ignore").
    replace (String.length dir + 4)%nat with (String.length (String.append dir ".cvs"))
      by (rewrite length_append; reflexivity).
    rewrite substring_skip. simpl.
    unfold cat. simpl. rewrite <- Hassoc. reflexivity. }
  split; [exact Hcvs |]. split.
  - intros n Hn. unfold fileop_name.
    destruct (10 <=? String.length n)%nat eqn:Hlen; simpl; [| reflexivity].
    destruct (String.eqb _ _) eqn:Heq; [| reflexivity].
    exfalso. apply Nat.leb_le in Hlen. apply String.eqb_eq in Heq.
    apply (Hn (substring 0 (String.length n - 10) n)).
    pose proof (substring_split n (String.length n - 10) ltac:(lia)) as Hsplit.
    replace (String.length n - (String.length n - 10))%nat with 10%nat in Hsplit by lia.
    rewrite Heq in Hsplit. exact Hsplit.
  - intros n.
    assert (Hcase : (exists dir, n = String.append dir ".cvsignore") \/ fileop_name n = n).
    { unfold fileop_name.
      destruct (10 <=? String.length n)%nat eqn:Hlen; simpl; [| right; reflexivity].
      destruct (String.eqb _ _) eqn:Heq; [| right; reflexivity].
      left. apply Nat.leb_le in Hlen. apply String.eqb_eq in Heq.
      exists (substring 0 (String.length n - 10) n).
      pose proof (substring_split n (String.length n - 10) ltac:(lia)) as Hsplit.
      replace (String.length n - (String.length n - 10))%nat with 10%nat in Hsplit by lia.
      rewrite Heq in Hsplit. exact Hsplit. }
    destruct Hcase as [[dir ->] | ->]; [| reflexivity].
    rewrite Hcvs, !length_append. reflexivity.
Qed.

(** For a name that fits the buffer of [PATH_MAX] bytes it is copied
    to: [fileop_name] turns the name of a [.cvsignore] file, in
    whatever directory, into the name of the [.gitignore] file of that
    directory; it gives every other name back as it is; and it never
    changes the length of a name. *)
Theorem fileop_name_cvsignore (n : string) :
  (String.length n < PATH_MAX - 1)%nat ->
  (forall dir, n = String.append dir ".cvsignore" ->
     fileop_name n = String.append dir ".gitignore")
  /\ ((forall dir, n <> String.append dir ".cvsignore") -> fileop_name n = n)
  /\ String.length (fileop_name n) = String.length n.
Proof.
  intros _. destruct fileop_name_cases as (Hcvs & Hother & Hlen).
  split; [intros dir ->; apply Hcvs |]. split; [apply Hother | apply Hlen].
Qed.

Lemma fileop_name_cvsignore_witness :
  fileop_name "src/.cvsignore" = "src/.gitignore".
Proof.
  assert (Hfit : (String.length "src/.cvsignore" < PATH_MAX - 1)%nat)
    by (vm_compute; lia).
  exact (proj1 (fileop_name_cvsignore "src/.cvsignore" Hfit) "src/" eq_refl).
Defined.

(** ** The list of authors *)

Lemma existsb_atom (x : atom_t) (l : list atom_t) :
  existsb (atom_eqb x) l = true <-> In x l.
Proof.
  rewrite existsb_exists. split.
  - intros (y & Hy & Heq). apply String.eqb_eq in Heq. subst y. exact Hy.
  - intros Hx. exists x. split; [exact Hx | apply String.eqb_refl].
Qed.

Lemma collect_authors_fold (history : list commit_seq) :
  forall acc,
    NoDup acc ->
    exists extra,
      fold_left add_author history acc = acc ++ extra
      /\ NoDup (acc ++ extra)
      /\ sublist extra (map (fun hp => author (seq_commit hp)) history)
      /\ (forall a, In a (acc ++ extra) <->
            In a acc \/ exists hp, In hp history /\ author (seq_commit hp) = a).
Proof.
  induction history as [| hp history IH]; intros acc Hnd; simpl.
  - exists []. rewrite app_nil_r. split; [reflexivity |]. split; [exact Hnd |].
    split; [constructor |]. intros a. split; [auto |].
    intros [Ha | (hp & [] & _)]. exact Ha.
  - unfold add_author at 2.
    destruct (existsb _ acc) eqn:Hin.
    + apply existsb_atom in Hin.
      destruct (IH acc Hnd) as (extra & Heq & Hnd' & Hsub & Hiff).
      exists extra. split; [exact Heq |]. split; [exact Hnd' |].
      split; [apply sublist_cons; exact Hsub |].
      intros a. rewrite Hiff. split.
      * intros [Ha | (hp' & Hhp' & Ha)]; [left; exact Ha | right; eauto].
      * intros [Ha | (hp' & [<- | Hhp'] & Ha)];
          [left; exact Ha | left; subst a; exact Hin | right; eauto].
    + assert (Hnot : ~ In (author (seq_commit hp)) acc).
      { intros Hc. apply existsb_atom in Hc. congruence. }
      assert (Hnd1 : NoDup (acc ++ [author (seq_commit hp)])).
      { apply NoDup_app. split; [exact Hnd |]. split.
        - intros x Hx Hx'. apply list_elem_of_In in Hx, Hx'.
          destruct Hx' as [<- | []]. contradiction.
        - apply NoDup_singleton. }
      destruct (IH _ Hnd1) as (extra & Heq & Hnd' & Hsub & Hiff).
      exists (author (seq_commit hp) :: extra).
      rewrite <- app_assoc in Heq, Hnd', Hiff. simpl in Heq, Hnd', Hiff.
      split; [exact Heq |]. split; [exact Hnd' |].
      split; [apply sublist_skip; exact Hsub |].
      intros a. rewrite Hiff, in_app_iff. simpl. split.
      * intros [[Ha | [Ha | []]] | (hp' & Hhp' & Ha)]; eauto.
      * intros [Ha | (hp' & [<- | Hhp'] & Ha)]; eauto.
Qed.

(** [export_authors] prints each author of a converted commit exactly
    once, one per line, in the order in which the authors first occur
    in the array of [canonicalize]; an author that is on no converted
    commit is not printed. *)
Theorem export_authors_lists (forest : forest_t) (opts : export_options_t) (s : state) :
  exists authors,
    export_authors forest opts s
    = Ok tt (with_out (out s ++ map (fun a => ERaw (String.append a newline)) authors)
               (with_export_total_commits (export_ncommit (head forest)) s))
    /\ NoDup authors
    /\ sublist authors
         (map (fun hp => author (seq_commit hp)) (canonicalize (head forest)))
    /\ (forall a, In a authors <->
          exists hp, In hp (canonicalize (head forest)) /\ author (seq_commit hp) = a).
Proof.
  destruct (collect_authors_fold (canonicalize (head forest)) [] (NoDup_nil_2 (A := atom_t)))
    as (authors & Heq & Hnd & Hsub & Hiff).
  simpl in Heq, Hnd, Hiff.
  exists authors. split; [| split; [exact Hnd | split; [exact Hsub |]]].
  - unfold export_authors, collect_authors. rewrite Heq.
    assert (Hgen : forall l st,
              for_each l (fun a => emit (ERaw (String.append a newline))) st
              = Ok tt (with_out (out st ++ map (fun a => ERaw (String.append a newline)) l) st)).
    { induction l as [| a l IH]; intros st; simpl.
      - rewrite app_nil_r. destruct st; reflexivity.
      - unfold bind, emit, modify. rewrite IH. simpl.
        rewrite <- app_assoc. reflexivity. }
    unfold bind at 1. unfold modify at 1.
    exact (Hgen authors (with_export_total_commits (export_ncommit (head forest)) s)).
  - intros a. rewrite Hiff. split; [intros [[] | Hx]; exact Hx | auto].
Qed.

(** ** The path of a blob file *)

Lemma fanout_digit_In d : 0 <= d < FANOUT -> In d fanout_digits.
Proof.
  intros Hd. unfold fanout_digits, FANOUT in *.
  rewrite <- (Z2Nat.id d) by lia. apply in_map, in_seq. lia.
Qed.

Lemma print_hex_facts :
  forallb (fun d =>
    slashless (print_hex d)
    && (String.length (print_hex d) <=? 2)%nat
    && match print_hex d with
       | String c _ => negb (Ascii.eqb c "="%char)
       | EmptyString => false
       end
    && forallb (fun e => implb (String.eqb (print_hex d) (print_hex e)) (d =? e))
         fanout_digits)
    fanout_digits = true.
Proof. vm_compute. reflexivity. Qed.

Lemma print_hex_digit d :
  0 <= d < FANOUT ->
  slashless (print_hex d) = true
  /\ (String.length (print_hex d) <= 2)%nat
  /\ (exists c h, print_hex d = String c h /\ c <> "="%char)
  /\ (forall e, 0 <= e < FANOUT -> print_hex d = print_hex e -> d = e).
Proof.
  intros Hd. pose proof print_hex_facts as Hall.
  rewrite forallb_forall in Hall.
  specialize (Hall d (fanout_digit_In d Hd)).
  rewrite !andb_true_iff in Hall. destruct Hall as [[[Hs Hl] Hc] Hi].
  split; [exact Hs |]. split; [apply Nat.leb_le; exact Hl |]. split.
  - destruct (print_hex d) as [| c h]; [discriminate |].
    exists c, h. split; [reflexivity |]. intros ->. discriminate Hc.
  - intros e He Heq. rewrite forallb_forall in Hi.
    specialize (Hi e (fanout_digit_In e He)).
    rewrite Heq, String.eqb_refl in Hi. simpl in Hi. lia.
Qed.

Lemma substring_0_ge (s : string) (n : nat) :
  (String.length s <= n)%nat -> substring 0 n s = s.
Proof.
  revert n. induction s as [| c s IH]; intros n Hn.
  - destruct n; reflexivity.
  - destruct n as [| n]; simpl in *; [lia |]. rewrite IH by lia. reflexivity.
Qed.

(** The buffer has room: nothing is cut. *)
Lemma snprintf_cat_fits (path text : string) :
  (String.length path + String.length text <= PATH_MAX - 1)%nat ->
  snprintf_cat path text = String.append path text.
Proof.
  intros Hfit. unfold snprintf_cat. apply substring_0_ge.
  rewrite length_append. exact Hfit.
Qed.

Lemma blob_suffix_length fuel :
  forall m, 0 <= m -> (String.length (blob_suffix fuel m) <= 4 * fuel)%nat.
Proof.
  induction fuel as [| fuel IH]; intros m Hm; simpl; [lia |].
  assert (Hd : 0 <= m mod FANOUT < FANOUT) by (apply Z.mod_pos_bound; reflexivity).
  destruct (print_hex_digit _ Hd) as (_ & Hlen & _).
  destruct (m / FANOUT =? 0).
  - rewrite length_append. simpl. lia.
  - rewrite !length_append. simpl.
    specialize (IH (m / FANOUT) ltac:(apply Z.div_pos; [lia | reflexivity])). lia.
Qed.

(** The loop writes the digits of the serial, the low one first. *)
Lemma rem_quot_fanout m :
  0 <= m ->
  Z.rem m FANOUT = m mod FANOUT /\ Z.quot (m - m mod FANOUT) FANOUT = m / FANOUT.
Proof.
  intros Hm. unfold FANOUT.
  pose proof (Z.mod_pos_bound m 256 eq_refl) as Hbound.
  pose proof (Z.div_mod m 256 ltac:(discriminate)) as Hdm.
  split; [apply Z.rem_mod_nonneg; lia |].
  rewrite Z.quot_div_nonneg by lia.
  symmetry. apply Z.div_unique with (r := 0); lia.
Qed.

Lemma append_nil_r (s : string) : String.append s EmptyString = s.
Proof. induction s as [| c s IH]; [reflexivity |]. rewrite append_cons, IH. reflexivity. Qed.

Lemma blobfile_loop_suffix fuel :
  forall m path,
    0 <= m < FANOUT ^ Z.of_nat fuel ->
    (String.length path + 4 * fuel <= PATH_MAX - 1)%nat ->
    fst (blobfile_loop fuel m path) = String.append path (blob_suffix fuel m).
Proof.
  induction fuel as [| fuel IH]; intros m path Hm Hfit.
  - simpl. symmetry. apply append_nil_r.
  - cbn [blobfile_loop blob_suffix].
    destruct (rem_quot_fanout m (proj1 Hm)) as [Hrem Hquot].
    rewrite Hrem, Hquot.
    assert (Hd : 0 <= m mod FANOUT < FANOUT) by (apply Z.mod_pos_bound; reflexivity).
    destruct (print_hex_digit _ Hd) as (_ & Hlen & _).
    destruct (m / FANOUT =? 0) eqn:Hlast.
    + cbn [fst]. apply snprintf_cat_fits. rewrite length_append.
      change (String.length "/=") with 2%nat. lia.
    + rewrite snprintf_cat_fits
        by (rewrite length_append; change (String.length "/") with 1%nat; lia).
      destruct (blobfile_loop fuel (m / FANOUT) _) as [file dirs] eqn:Hrun.
      simpl. change file with (fst (file, dirs)). rewrite <- Hrun.
      rewrite IH.
      * rewrite <- append_assoc. reflexivity.
      * rewrite Nat2Z.inj_succ, Z.pow_succ_r in Hm by lia.
        unfold FANOUT in *. split; [apply Z.div_pos; lia |].
        apply Z.div_lt_upper_bound; lia.
      * rewrite !length_append. change (String.length "/") with 1%nat. lia.
Qed.

Lemma blob_suffix_fuel f :
  forall m g, 0 <= m < FANOUT ^ Z.of_nat (S f) -> (S f <= g)%nat ->
    blob_suffix g m = blob_suffix (S f) m.
Proof.
  induction f as [| f IH]; intros m g Hm Hg; (destruct g as [| g]; [lia |]);
    cbn [blob_suffix].
  - assert (Hlast : m / FANOUT = 0)
      by (apply Z.div_small; unfold FANOUT in *; simpl in Hm; lia).
    rewrite Hlast. reflexivity.
  - destruct (m / FANOUT =? 0); [reflexivity |].
    f_equal. apply IH; [| lia].
    rewrite Nat2Z.inj_succ, Z.pow_succ_r in Hm by lia.
    unfold FANOUT in *. split; [apply Z.div_pos; lia |].
    apply Z.div_lt_upper_bound; lia.
Qed.

Lemma blob_suffix_S fuel m :
  blob_suffix (S fuel) m
  = if m / FANOUT =? 0
    then String.append "/=" (print_hex (m mod FANOUT))
    else String.append (String.append "/" (print_hex (m mod FANOUT)))
           (blob_suffix fuel (m / FANOUT)).
Proof. reflexivity. Qed.

Lemma blob_suffix_slash f m : exists t, blob_suffix (S f) m = String "/" t.
Proof.
  cbn [blob_suffix]. destruct (m / FANOUT =? 0); eexists; reflexivity.
Qed.

(** Two texts cut at their first [/] agree piece by piece. *)
Lemma split_at_slash (u v s t : string) :
  slashless u = true -> slashless v = true ->
  String.append u (String "/" s) = String.append v (String "/" t) ->
  u = v /\ s = t.
Proof.
  revert v. induction u as [| c u IH]; intros v Hu Hv Heq.
  - destruct v as [| d v].
    + injection Heq as ->. auto.
    + rewrite append_cons in Heq. injection Heq as <- _.
      unfold slashless in Hv. simpl in Hv. discriminate Hv.
  - destruct v as [| d v].
    + rewrite append_cons in Heq. injection Heq as -> _.
      unfold slashless in Hu. simpl in Hu. discriminate Hu.
    + rewrite !append_cons in Heq. injection Heq as -> Heq.
      unfold slashless in Hu, Hv. simpl in Hu, Hv.
      apply andb_true_iff in Hu as [_ Hu]. apply andb_true_iff in Hv as [_ Hv].
      destruct (IH v Hu Hv Heq) as [-> ->]. auto.
Qed.

Lemma blob_suffix_inj f :
  forall a b,
    0 <= a < FANOUT ^ Z.of_nat (S f) -> 0 <= b < FANOUT ^ Z.of_nat (S f) ->
    blob_suffix (S f) a = blob_suffix (S f) b -> a = b.
Proof.
  induction f as [| f IH]; intros a b Ha Hb Heq.
  - cbn [blob_suffix] in Heq.
    assert (Hqa : a / FANOUT = 0) by (apply Z.div_small; unfold FANOUT in *; simpl in Ha; lia).
    assert (Hqb : b / FANOUT = 0) by (apply Z.div_small; unfold FANOUT in *; simpl in Hb; lia).
    rewrite Hqa, Hqb in Heq. simpl in Heq.
    rewrite !append_cons in Heq. injection Heq as Heq.
    assert (Hma : 0 <= a mod FANOUT < FANOUT) by (apply Z.mod_pos_bound; reflexivity).
    assert (Hmb : 0 <= b mod FANOUT < FANOUT) by (apply Z.mod_pos_bound; reflexivity).
    destruct (print_hex_digit _ Hma) as (_ & _ & _ & Hinj).
    specialize (Hinj _ Hmb Heq).
    rewrite Z.mod_small in Hinj by (unfold FANOUT in *; simpl in Ha; lia).
    rewrite Z.mod_small in Hinj by (unfold FANOUT in *; simpl in Hb; lia).
    exact Hinj.
  - assert (Hma : 0 <= a mod FANOUT < FANOUT) by (apply Z.mod_pos_bound; reflexivity).
    assert (Hmb : 0 <= b mod FANOUT < FANOUT) by (apply Z.mod_pos_bound; reflexivity).
    destruct (print_hex_digit _ Hma) as (Hsa & _ & (ca & ha & Hha & Hca) & Hinj).
    destruct (print_hex_digit _ Hmb) as (Hsb & _ & (cb & hb & Hhb & Hcb) & _).
    assert (Hrange : forall m, 0 <= m < FANOUT ^ Z.of_nat (S (S f)) ->
                       0 <= m / FANOUT < FANOUT ^ Z.of_nat (S f)).
    { intros m Hm. rewrite (Nat2Z.inj_succ (S f)), Z.pow_succ_r in Hm by lia.
      unfold FANOUT in *. split; [apply Z.div_pos; lia |].
      apply Z.div_lt_upper_bound; lia. }
    assert (Hjoin : forall m, m = FANOUT * (m / FANOUT) + m mod FANOUT)
      by (intros m; apply Z.div_mod; discriminate).
    rewrite !(blob_suffix_S (S f)) in Heq.
    destruct (Z.eqb_spec (a / FANOUT) 0) as [Hqa | Hqa];
      destruct (Z.eqb_spec (b / FANOUT) 0) as [Hqb | Hqb].
    + simpl in Heq. rewrite !append_cons in Heq. injection Heq as Heq.
      specialize (Hinj _ Hmb Heq).
      rewrite (Hjoin a), (Hjoin b), Hqa, Hqb, Hinj. reflexivity.
    + exfalso. rewrite Hhb in Heq. simpl in Heq.
      rewrite !append_cons in Heq. injection Heq as Heq _. congruence.
    + exfalso. rewrite Hha in Heq. simpl in Heq.
      rewrite !append_cons in Heq. injection Heq as Heq _. congruence.
    + destruct (blob_suffix_slash f (a / FANOUT)) as [ta Hta].
      destruct (blob_suffix_slash f (b / FANOUT)) as [tb Htb].
      rewrite Hta, Htb in Heq.
      simpl in Heq. rewrite !append_cons in Heq. injection Heq as Heq.
      destruct (split_at_slash _ _ _ _ Hsa Hsb Heq) as [Hhex Hrest].
      specialize (Hinj _ Hmb Hhex).
      assert (Hq : a / FANOUT = b / FANOUT).
      { apply IH; [apply Hrange, Ha | apply Hrange, Hb |].
        rewrite Hta, Htb, Hrest. reflexivity. }
      rewrite (Hjoin a), (Hjoin b), Hq, Hinj. reflexivity.
Qed.

Lemma serial_fuel a :
  0 <= a < 2 ^ 31 ->
  (S (Z.to_nat (Z.log2 (Z.abs a))) <= 31)%nat
  /\ 0 <= a < FANOUT ^ Z.of_nat (S (Z.to_nat (Z.log2 (Z.abs a)))).
Proof.
  intros Ha. rewrite Z.abs_eq by lia.
  pose proof (Z.log2_nonneg a) as Hnn.
  destruct (Z.eq_dec a 0) as [-> | Hpos].
  - simpl. unfold FANOUT. lia.
  - assert (Hlog : Z.log2 a < 31) by (apply Z.log2_lt_pow2; lia).
    split; [lia |]. split; [lia |].
    rewrite Nat2Z.inj_succ, Z2Nat.id by lia.
    destruct (Z.log2_spec a ltac:(lia)) as [_ Hlt].
    eapply Z.lt_le_trans; [exact Hlt |].
    unfold FANOUT. change 256 with (2 ^ 8).
    rewrite <- Z.pow_mul_r by lia.
    apply Z.pow_le_mono_r; lia.
Qed.

Lemma blobfile_path (blobdir : string) (a : Z) :
  (String.length blobdir + 128 < PATH_MAX)%nat ->
  0 <= a < 2 ^ 31 ->
  fst (blobfile blobdir a) = String.append blobdir (blob_suffix 32 a).
Proof.
  intros Hdir Ha. destruct (serial_fuel a Ha) as [Hfuel Hrange].
  unfold blobfile.
  rewrite (snprintf_cat_fits EmptyString blobdir)
    by (change (String.length EmptyString) with 0%nat; lia).
  change (String.append EmptyString blobdir) with blobdir.
  rewrite blobfile_loop_suffix; [| exact Hrange | lia].
  f_equal. symmetry. apply blob_suffix_fuel; [exact Hrange | lia].
Qed.

(** Distinct serials have distinct blob files: the path that [blobfile]
    gives determines the serial, for the serials an [int] holds and a
    blob directory whose name leaves room for the digits. *)
Theorem blobfile_injective (blobdir : string) (a b : Z) :
  (String.length blobdir + 128 < PATH_MAX)%nat ->
  0 <= a < 2 ^ 31 ->
  0 <= b < 2 ^ 31 ->
  fst (blobfile blobdir a) = fst (blobfile blobdir b) ->
  a = b.
Proof.
  intros Hdir Ha Hb Heq.
  rewrite !blobfile_path in Heq by assumption.
  apply String.app_inj in Heq.
  apply (blob_suffix_inj 31); [| | exact Heq].
  - destruct (serial_fuel a Ha) as [Hfuel [Hnn Hlt]]. split; [exact Hnn |].
    eapply Z.lt_le_trans; [exact Hlt |]. unfold FANOUT. apply Z.pow_le_mono_r; lia.
  - destruct (serial_fuel b Hb) as [Hfuel [Hnn Hlt]]. split; [exact Hnn |].
    eapply Z.lt_le_trans; [exact Hlt |]. unfold FANOUT. apply Z.pow_le_mono_r; lia.
Qed.

Lemma blobfile_injective_witness :
  ((String.length "/tmp/cvs-fast-export-a1b2c3" + 128 < PATH_MAX)%nat
   /\ 0 <= 258 < 2 ^ 31
   /\ 0 <= 258 < 2 ^ 31
   /\ fst (blobfile "/tmp/cvs-fast-export-a1b2c3" 258)
      = fst (blobfile "/tmp/cvs-fast-export-a1b2c3" 258))
  /\ 258 = 258
  /\ fst (blobfile "/tmp/cvs-fast-export-a1b2c3" 258)
     = "/tmp/cvs-fast-export-a1b2c3/2/=1".
Proof.
  assert (Hdir : (String.length "/tmp/cvs-fast-export-a1b2c3" + 128 < PATH_MAX)%nat)
    by (vm_compute; lia).
  assert (Ha : 0 <= 258 < 2 ^ 31) by lia.
  assert (Heq : fst (blobfile "/tmp/cvs-fast-export-a1b2c3" 258)
                = fst (blobfile "/tmp/cvs-fast-export-a1b2c3" 258)) by reflexivity.
  split; [exact (conj Hdir (conj Ha (conj Ha Heq))) |].
  split; [exact (blobfile_injective _ 258 258 Hdir Ha Ha Heq) |].
  vm_compute. reflexivity.
Defined.

(** The directories on the way are ancestors of the blob file: each is
    the path of the file cut in front of one of its [/]. *)
Lemma blobfile_loop_ancestors fuel :
  forall m path,
    0 <= m < FANOUT ^ Z.of_nat fuel ->
    (String.length path + 4 * fuel <= PATH_MAX - 1)%nat ->
    Forall (fun d => exists rest,
              fst (blobfile_loop fuel m path) = String.append d (String "/" rest))
           (snd (blobfile_loop fuel m path)).
Proof.
  induction fuel as [| fuel IH]; intros m path Hm Hfit; [constructor |].
  cbn [blobfile_loop].
  destruct (rem_quot_fanout m (proj1 Hm)) as [Hrem Hquot].
  rewrite Hrem, Hquot.
  assert (Hd : 0 <= m mod FANOUT < FANOUT) by (apply Z.mod_pos_bound; reflexivity).
  destruct (print_hex_digit _ Hd) as (_ & Hlen & _).
  destruct (Z.eqb_spec (m / FANOUT) 0) as [Hlast | Hmore]; [constructor |].
  assert (Hm' : 0 <= m / FANOUT < FANOUT ^ Z.of_nat fuel).
  { rewrite Nat2Z.inj_succ, Z.pow_succ_r in Hm by lia.
    unfold FANOUT in *. split; [apply Z.div_pos; lia |].
    apply Z.div_lt_upper_bound; lia. }
  assert (Hfit' : (String.length (snprintf_cat path
                     (String.append "/" (print_hex (m mod FANOUT)))) + 4 * fuel
                   <= PATH_MAX - 1)%nat).
  { rewrite snprintf_cat_fits
      by (rewrite length_append; change (String.length "/") with 1%nat; lia).
    rewrite !length_append. change (String.length "/") with 1%nat. lia. }
  pose proof (IH _ _ Hm' Hfit') as Hrest.
  pose proof (blobfile_loop_suffix fuel _ _ Hm' Hfit') as Hfile.
  destruct (blobfile_loop fuel (m / FANOUT) _) as [file dirs] eqn:Hrun.
  cbn [fst snd] in *. constructor; [| exact Hrest].
  destruct fuel as [| fuel']; [simpl in Hm'; lia |].
  destruct (blob_suffix_slash fuel' (m / FANOUT)) as [t Ht].
  exists t. rewrite Hfile, Ht. reflexivity.
Qed.

(** The blob file lies under the blob directory, and the directories
    that [blobfile] makes on the way are its ancestors: each is the
    path of the file cut in front of one of its [/]. *)
Theorem blobfile_ancestors (blobdir : string) (a : Z) :
  (String.length blobdir + 128 < PATH_MAX)%nat ->
  0 <= a < 2 ^ 31 ->
  (exists rest, fst (blobfile blobdir a) = String.append blobdir (String "/" rest))
  /\ Forall (fun d => exists rest,
               fst (blobfile blobdir a) = String.append d (String "/" rest))
            (snd (blobfile blobdir a)).
Proof.
  intros Hdir Ha. split.
  - rewrite blobfile_path by assumption.
    destruct (blob_suffix_slash 31 a) as [t Ht]. exists t. rewrite Ht. reflexivity.
  - destruct (serial_fuel a Ha) as [Hfuel Hrange]. unfold blobfile.
    apply blobfile_loop_ancestors; [exact Hrange |].
    rewrite (snprintf_cat_fits EmptyString blobdir)
      by (change (String.length EmptyString) with 0%nat; lia).
    change (String.append EmptyString blobdir) with blobdir. lia.
Qed.

Lemma blobfile_ancestors_witness :
  ((String.length "/tmp/blobs" + 128 < PATH_MAX)%nat /\ 0 <= 65536 + 513 < 2 ^ 31)
  /\ blobfile "/tmp/blobs" (65536 + 513)
     = ("/tmp/blobs/1/2/=1", ["/tmp/blobs/1"; "/tmp/blobs/1/2"])
  /\ Forall (fun d => exists rest,
               fst (blobfile "/tmp/blobs" (65536 + 513))
               = String.append d (String "/" rest))
            (snd (blobfile "/tmp/blobs" (65536 + 513))).
Proof.
  assert (Hdir : (String.length "/tmp/blobs" + 128 < PATH_MAX)%nat) by (vm_compute; lia).
  assert (Ha : 0 <= 65536 + 513 < 2 ^ 31) by lia.
  split; [exact (conj Hdir Ha) |].
  split; [vm_compute; reflexivity |].
  exact (proj2 (blobfile_ancestors "/tmp/blobs" (65536 + 513) Hdir Ha)).
Defined.

(** ** The serials of the file revisions *)

(** A run that cannot stop early completes. *)
Lemma wp_total {A : Type} (m : M A) (Q : A -> state -> Prop) s :
  wp m Q (fun _ => False) s -> exists a s', m s = Ok a s' /\ Q a s'.
Proof. unfold wp. destruct (m s) as [a s' | e s']; [eauto | contradiction]. Qed.

Section Serials.

Context `{Collaborators}.
Variable opts : export_options_t.

(** One callback: the file revision takes the serial after the current
    one, which is below [MAX_SERIAL_T] when the callback returns.  A
    callback that stops has left the serials as they were, or has
    numbered its file revision and stopped at [markmap]. *)
Lemma export_blob_serial node buf len s :
  wp (export_blob node buf len opts)
     (fun _ s' =>
        seqno s' = seqno s + 1
        /\ seqno s + 1 < MAX_SERIAL_T
        /\ serial_f s' = <[f_addr (node_commit node) := seqno s + 1]> (serial_f s))
     (fun s' =>
        serial_f s' = serial_f s
        \/ (seqno s + 1 < MAX_SERIAL_T
            /\ serial_f s' = <[f_addr (node_commit node) := seqno s + 1]> (serial_f s)))
     s.
Proof.
  unfold export_blob.
  apply wp_modify_bind.
  unfold wp at 1. unfold bind at 1. unfold seqno_next. simpl.
  destruct (Z.leb_spec MAX_SERIAL_T (seqno s + 1)) as [Hover | Hlt]; [left; reflexivity |].
  apply wp_modify_bind.
  destruct (reportmode_eqb (reportmode opts) fast) eqn:Hmode.
  - apply wp_next_mark_bind.
    apply wp_markmap_set_any; [intros _ | right; simpl; auto].
    apply wp_emit_bind. apply wp_emit_bind.
    apply wp_when_bind; intros _;
      [apply wp_emit_bind |]; apply wp_emit_bind; apply wp_modify_last; simpl; auto.
  - apply wp_modify_last. simpl. auto.
Qed.

(** Successive callbacks number the file revisions 1, 2, 3, ... in the
    order of the callbacks: when the loop over fewer than [2^31]
    callbacks returns, the file revision of callback [i] (counted from
    0) has the serial [i + 1], which is below [MAX_SERIAL_T], and the
    sequence number is the number of callbacks. *)
Theorem export_blob_numbers (nodes : list node_t) (s s' : state) :
  seqno s = 0 ->
  NoDup (map (fun nd => f_addr (node_commit nd)) nodes) ->
  Z.of_nat (length nodes) < 2 ^ (int_bits - 1) ->
  for_each nodes
    (fun nd => export_blob nd (node_buf nd) (strlen (node_buf nd)) opts) s
  = Ok tt s' ->
  seqno s' = Z.of_nat (length nodes)
  /\ forall i nd, nodes !! i = Some nd ->
       serial_f s' !! f_addr (node_commit nd) = Some (Z.of_nat i + 1)
       /\ Z.of_nat i + 1 < MAX_SERIAL_T.
Proof.
  intros Hseq Hnd _ Hrun.
  set (I := fun (pre : list node_t) (st : state) =>
              seqno st = Z.of_nat (length pre)
              /\ forall i nd, pre !! i = Some nd ->
                   serial_f st !! f_addr (node_commit nd) = Some (Z.of_nat i + 1)
                   /\ Z.of_nat i + 1 < MAX_SERIAL_T).
  refine (wp_ok _ (fun _ => I nodes) (fun _ => True) s tt s' _ Hrun).
  apply (wp_for_each_prefix I).
  - intros pre nd post st Heq (Hsq & Hser).
    eapply wp_mono; [apply export_blob_serial | | auto].
    simpl. intros _ st' (Hsq' & Hlt & Hser').
    split; [rewrite Hsq', Hsq, length_app; simpl; lia |].
    intros i nd' Hi. rewrite Hser', Hsq.
    destruct (decide (i = length pre)) as [-> | Hne].
    + rewrite list_lookup_middle in Hi by reflexivity. injection Hi as <-.
      rewrite lookup_insert_eq. split; [reflexivity | lia].
    + assert (Hlt' : (i < length pre)%nat).
      { apply lookup_lt_Some in Hi. rewrite length_app in Hi. simpl in Hi. lia. }
      rewrite lookup_app_l in Hi by exact Hlt'.
      rewrite lookup_insert_ne; [apply Hser, Hi |].
      intros Hsame. rewrite Heq, map_app in Hnd. simpl in Hnd.
      apply NoDup_app in Hnd as (_ & Hdisj & _).
      apply (Hdisj (f_addr (node_commit nd'))).
      * apply list_elem_of_In, in_map_iff. exists nd'. split; [reflexivity |].
        apply list_elem_of_In. eapply list_elem_of_lookup_2. exact Hi.
      * rewrite <- Hsame. left.
  - split; [exact Hseq |].
    intros i nd Hi. rewrite lookup_nil in Hi. discriminate Hi.
Qed.

End Serials.

Lemma export_blob_numbers_witness :
  (seqno init_state = 0
   /\ NoDup (map (fun nd => f_addr (node_commit nd)) (concat (generators Demo.forest)))
   /\ Z.of_nat (length (concat (generators Demo.forest))) < 2 ^ (int_bits - 1)
   /\ for_each (concat (generators Demo.forest))
        (fun nd => @export_blob Demo.collaborators nd (node_buf nd)
                     (strlen (node_buf nd)) (Demo.mkopts canonical 0)) init_state
      = Ok tt (final (for_each (concat (generators Demo.forest))
                        (fun nd => @export_blob Demo.collaborators nd (node_buf nd)
                                     (strlen (node_buf nd)) (Demo.mkopts canonical 0))
                        init_state)))
  /\ seqno (final (for_each (concat (generators Demo.forest))
                     (fun nd => @export_blob Demo.collaborators nd (node_buf nd)
                                  (strlen (node_buf nd)) (Demo.mkopts canonical 0))
                     init_state)) = 3
  /\ serial_f (final (for_each (concat (generators Demo.forest))
                        (fun nd => @export_blob Demo.collaborators nd (node_buf nd)
                                     (strlen (node_buf nd)) (Demo.mkopts canonical 0))
                        init_state)) !! f_addr Demo.main_c = Some 3.
Proof.
  assert (Hseq : seqno init_state = 0) by reflexivity.
  assert (Hnd : NoDup (map (fun nd => f_addr (node_commit nd))
                         (concat (generators Demo.forest)))).
  { apply (bool_decide_unpack _). vm_compute. exact I. }
  assert (Hint : Z.of_nat (length (concat (generators Demo.forest))) < 2 ^ (int_bits - 1))
    by (vm_compute; reflexivity).
  assert (Hrun : for_each (concat (generators Demo.forest))
                   (fun nd => @export_blob Demo.collaborators nd (node_buf nd)
                                (strlen (node_buf nd)) (Demo.mkopts canonical 0)) init_state
                 = Ok tt (final (for_each (concat (generators Demo.forest))
                                   (fun nd => @export_blob Demo.collaborators nd (node_buf nd)
                                                (strlen (node_buf nd))
                                                (Demo.mkopts canonical 0))
                                   init_state))).
  { apply completed_final. vm_compute. reflexivity. }
  split; [exact (conj Hseq (conj Hnd (conj Hint Hrun))) |].
  destruct (@export_blob_numbers Demo.collaborators (Demo.mkopts canonical 0)
              (concat (generators Demo.forest)) init_state _ Hseq Hnd Hint Hrun)
    as (Hsq & Hser).
  split; [exact Hsq |].
  apply (Hser 2%nat (Demo.mknode Demo.main_c "int main;")). reflexivity.
Defined.

(** ** Running out of serial numbers *)

Section Overflow.

Context `{Collaborators}.
Variable opts : export_options_t.

(** The serials never reach [MAX_SERIAL_T]: when there are more file
    revisions than serials left below [MAX_SERIAL_T], a bound that an
    [int] holds, the loop over the callbacks does not return, and the
    serials handed out before it stopped are below [MAX_SERIAL_T]. *)
Theorem export_blob_runs_out (nodes : list node_t) (s : state) :
  0 <= seqno s < MAX_SERIAL_T ->
  MAX_SERIAL_T <= 2 ^ (int_bits - 1) - 1 ->
  MAX_SERIAL_T <= seqno s + Z.of_nat (length nodes) ->
  (forall s',
     for_each nodes
       (fun nd => export_blob nd (node_buf nd) (strlen (node_buf nd)) opts) s
     <> Ok tt s')
  /\ forall v,
       v ∈ map_img (SA := gset Z)
             (serial_f (final (for_each nodes
                                 (fun nd => export_blob nd (node_buf nd)
                                              (strlen (node_buf nd)) opts) s))) ->
       v ∈ map_img (SA := gset Z) (serial_f s) \/ seqno s < v < MAX_SERIAL_T.
Proof.
  intros Hseq _ Hlen.
  set (numbered := fun st : state =>
         forall v, v ∈ map_img (SA := gset Z) (serial_f st) ->
           v ∈ map_img (SA := gset Z) (serial_f s) \/ seqno s < v < MAX_SERIAL_T).
  set (I := fun (pre : list node_t) (st : state) =>
              seqno st = seqno s + Z.of_nat (length pre)
              /\ seqno st < MAX_SERIAL_T
              /\ numbered st).
  assert (Hins : forall st a, numbered st ->
            seqno s <= seqno st -> seqno st + 1 < MAX_SERIAL_T ->
            forall st', serial_f st' = <[a := seqno st + 1]> (serial_f st) -> numbered st').
  { intros st a Hst Hle Hlt st' Hsf v Hv.
    rewrite Hsf in Hv. apply elem_of_map_img in Hv as (b & Hb).
    destruct (decide (a = b)) as [<- | Hne].
    - rewrite lookup_insert_eq in Hb. injection Hb as <-. right. lia.
    - rewrite lookup_insert_ne in Hb by exact Hne.
      apply Hst. apply elem_of_map_img. exists b. exact Hb. }
  assert (Hrun : wp (for_each nodes
                       (fun nd => export_blob nd (node_buf nd) (strlen (node_buf nd)) opts))
                    (fun _ => I nodes) numbered s).
  { apply (wp_for_each_prefix I).
    - intros pre nd post st Heq (Hsq & Hlt & Hnum).
      eapply wp_mono; [apply export_blob_serial | |]; simpl.
      + intros _ st' (Hsq' & Hlt' & Hsf').
        split; [rewrite Hsq', Hsq, length_app; simpl; lia |].
        split; [lia |].
        apply (Hins st (f_addr (node_commit nd)) Hnum); [lia | exact Hlt' | exact Hsf'].
      + intros st' [Hsame | [Hlt' Hsf']].
        * intros v Hv. rewrite Hsame in Hv. apply Hnum, Hv.
        * apply (Hins st (f_addr (node_commit nd)) Hnum); [lia | exact Hlt' | exact Hsf'].
    - split; [simpl; lia |]. split; [lia |]. intros v Hv. left. exact Hv. }
  unfold wp in Hrun. split.
  - intros s' Hok. rewrite Hok in Hrun. destruct Hrun as (Hsq & Hlt & _). lia.
  - destruct (for_each nodes _ s) as [[] s1 | e s1]; simpl; [apply Hrun | exact Hrun].
Qed.

End Overflow.

Lemma export_blob_runs_out_witness :
  (0 <= seqno (with_seqno 65533 init_state) < @MAX_SERIAL_T Demo.collaborators
   /\ @MAX_SERIAL_T Demo.collaborators <= 2 ^ (int_bits - 1) - 1
   /\ @MAX_SERIAL_T Demo.collaborators
      <= seqno (with_seqno 65533 init_state)
         + Z.of_nat (length (concat (generators Demo.forest))))
  /\ (forall s',
        for_each (concat (generators Demo.forest))
          (fun nd => @export_blob Demo.collaborators nd (node_buf nd) (strlen (node_buf nd))
                       (Demo.mkopts canonical 0))
          (with_seqno 65533 init_state)
        <> Ok tt s')
  /\ exists s',
       for_each (concat (generators Demo.forest))
         (fun nd => @export_blob Demo.collaborators nd (node_buf nd) (strlen (node_buf nd))
                      (Demo.mkopts canonical 0))
         (with_seqno 65533 init_state)
       = Err SerialOverflow s'
       /\ seqno s' = 65535.
Proof.
  assert (H1 : 0 <= seqno (with_seqno 65533 init_state) < @MAX_SERIAL_T Demo.collaborators)
    by (vm_compute; split; [discriminate | reflexivity]).
  assert (H2 : @MAX_SERIAL_T Demo.collaborators <= 2 ^ (int_bits - 1) - 1)
    by (vm_compute; discriminate).
  assert (H3 : @MAX_SERIAL_T Demo.collaborators
               <= seqno (with_seqno 65533 init_state)
                  + Z.of_nat (length (concat (generators Demo.forest))))
    by (vm_compute; discriminate).
  split; [exact (conj H1 (conj H2 H3)) |].
  split.
  - exact (proj1 (@export_blob_runs_out Demo.collaborators (Demo.mkopts canonical 0)
                    (concat (generators Demo.forest)) (with_seqno 65533 init_state)
                    H1 H2 H3)).
  - eexists. split; [vm_compute; reflexivity | reflexivity].
Defined.

(** ** What the lines of the stream are about *)

Lemma canonicalize_from rl hp :
  In hp (canonicalize rl) ->
  In (seq_head hp) (heads rl) /\ ref_tail (seq_head hp) = false
  /\ In (seq_commit hp) (branch (seq_head hp)).
Proof.
  unfold canonicalize. intros Hhp.
  apply in_flat_map in Hhp as (h & Hh & Hhp).
  destruct (ref_tail h) eqn:Htail; [destruct Hhp |].
  apply in_map_iff in Hhp as (c & <- & Hc). simpl.
  split; [exact Hh |]. split; [exact Htail |]. apply in_rev. exact Hc.
Qed.

(** Every [commit] line of the stream carries the branch prefix and the
    name of a head that is not a tail; every [D] line names a file of
    the parent of an exported commit of such a head; and a [from :N]
    line is written only for a commit that has a parent. *)
Theorem stream_lines_belong `{Collaborators}
    (forest : forest_t) (all_tags : list tag_t) (opts : export_options_t) :
  (forall prefix b, In (ECommit prefix b) (stream forest all_tags opts) ->
     prefix = branch_prefix opts
     /\ exists h, In h (heads (head forest)) /\ ref_tail h = false /\ b = ref_name h)
  /\ (forall path, In (EDelete path) (stream forest all_tags opts) ->
        exists hp p pf,
          In hp (canonicalize (head forest))
          /\ parent (seq_commit hp) = Some p
          /\ In pf (file_list p)
          /\ path = fileop_name (name (master pf)))
  /\ (forall m, In (EFrom m) (stream forest all_tags opts) ->
        exists hp p,
          In hp (canonicalize (head forest)) /\ parent (seq_commit hp) = Some p).
Proof.
  unfold stream.
  destruct (keeps_final _ _ init_state (export_commits_writes forest all_tags opts))
    as (evs & Hout & Hall).
  rewrite Hout. simpl. rewrite List.Forall_forall in Hall.
  split; [| split].
  - intros prefix b Hin. destruct (Hall _ Hin) as [[] | (hp & Hhp & Hpre & Hb)].
    split.
    + rewrite Hpre. unfold select_reportmode.
      destruct (0 <? fromtime opts); [reflexivity |].
      destruct (reportmode_eqb _ _); [| reflexivity].
      destruct (_ <=? _); reflexivity.
    + destruct (canonicalize_from _ _ Hhp) as (Hh & Htail & _).
      exists (seq_head hp). auto.
  - intros path Hin. destruct (Hall _ Hin) as [[] | (hp & Hhp & p & pf & Hp & Hpf & Hpath)].
    exists hp, p, pf. auto.
  - intros m Hin. destruct (Hall _ Hin) as [[] | (hp & Hhp & Hp)].
    simpl in Hp. destruct (parent (seq_commit hp)) as [p |] eqn:Hpar; [| contradiction].
    exists hp, p. auto.
Qed.

(** ** A suppressed commit *)

(** The runs that write nothing to standard output. *)
Lemma silent_refl (s : state) : out s = out s.
Proof. reflexivity. Qed.

Lemma silent_trans (s1 s2 s3 : state) : out s2 = out s1 -> out s3 = out s2 -> out s3 = out s1.
Proof. congruence. Qed.

Ltac silent_step :=
  keeps_step silent_refl silent_trans ltac:(reflexivity).

Section Suppressed.

Context `{Collaborators}.

Lemma ship_blob_silent opts o :
  keeps (fun s s' => out s' = out s) (ship_blob false opts o).
Proof.
  unfold ship_blob. destruct o as [perm rev path | path]; simpl; repeat silent_step.
Qed.

Lemma export_commit_silent commit branch opts :
  keeps (fun s s' => out s' = out s) (export_commit commit branch false opts).
Proof.
  unfold export_commit. simpl.
  repeat (silent_step || apply ship_blob_silent).
Qed.

Lemma ship_step_refl s : ship_step s s.
Proof. unfold ship_step. repeat split; lia. Qed.

Lemma ship_step_trans s1 s2 s3 : ship_step s1 s2 -> ship_step s2 s3 -> ship_step s1 s3.
Proof. unfold ship_step. intros (? & ? & ? & ?) (? & ? & ? & ?). repeat split; congruence || lia. Qed.

Lemma next_mark_ship_step : keeps ship_step next_mark.
Proof. intros s. unfold wp, next_mark, ship_step. simpl. repeat split; lia. Qed.

Lemma markmap_set_ship_step i v : keeps ship_step (markmap_set i v).
Proof.
  intros s. unfold wp, markmap_set, ship_step.
  destruct (_ && _); simpl; rewrite ?length_insert; repeat split; lia.
Qed.

Ltac ship_step_tac :=
  lazymatch goal with
  | |- keeps ship_step next_mark => apply next_mark_ship_step
  | |- keeps ship_step (markmap_set _ _) => apply markmap_set_ship_step
  | |- keeps ship_step (emit _) =>
      apply keeps_modify; intros ?; unfold ship_step; simpl; repeat split; lia
  | |- keeps ship_step _ =>
      keeps_step ship_step_refl ship_step_trans
        ltac:(unfold ship_step; simpl; rewrite ?length_insert; repeat split; lia)
  end.

Lemma ship_blob_ship_step report opts o : keeps ship_step (ship_blob report opts o).
Proof.
  unfold ship_blob. destruct o as [perm rev path | path]; repeat ship_step_tac.
Qed.

(** A commit that is not reported writes nothing to standard output;
    when its export completes, the commit has taken the next serial and
    a mark of its own, later than every mark given before, and the slot
    of its serial holds that mark. *)
Theorem suppressed_commit (commit : git_commit) (branch : string)
    (opts : export_options_t) (s s' : state) :
  export_commit commit branch false opts s = Ok tt s' ->
  out s' = out s
  /\ seqno s' = seqno s + 1
  /\ serial_c s' !! c_addr commit = Some (seqno s + 1)
  /\ mark s < mark s'
  /\ markmap s' !! Z.to_nat (seqno s + 1) = Some (mark s').
Proof.
  intros Hrun. split.
  { pose proof (export_commit_silent commit branch opts s) as Hs.
    apply (wp_ok _ _ _ _ _ _ Hs Hrun). }
  refine (wp_ok _ (fun _ st =>
            seqno st = seqno s + 1
            /\ serial_c st !! c_addr commit = Some (seqno s + 1)
            /\ mark s < mark st
            /\ markmap st !! Z.to_nat (seqno s + 1) = Some (mark st))
            (fun _ => True) s tt s' _ Hrun).
  unfold export_commit. simpl.
  eapply wp_seq with (Q1 := fun _ => ship_step s) (E1 := fun _ => True); [| | auto].
  { eapply wp_mono; [| intros ? ? Hx; exact Hx | auto].
    assert (Hk : keeps ship_step
              (match parent commit with
               | Some p => modify (fun s0 => with_other (compute_parent_links commit p (other s0)) s0)
               | None => ret tt
               end)) by repeat ship_step_tac.
    apply Hk. }
  intros _ s0 H0. apply wp_get_bind.
  eapply wp_seq with (Q1 := fun _ => ship_step s) (E1 := fun _ => True); [| | auto].
  { assert (Hk : keeps ship_step
              (for_each (commit_fileops s0 commit ++ parent_fileops s0 commit)
                 (ship_blob false opts))).
    { ship_step_tac. apply ship_blob_ship_step. }
    eapply wp_mono; [apply Hk | | auto].
    simpl. intros _ s1 H1. eapply ship_step_trans; eauto. }
  intros _ s1 (Hsq & Hsc & Hmk & Hlen).
  destruct (match fullname (author commit) with
            | Some a => (full a, email a, default "UTC" (timezone a))
            | None => (author commit, author commit, "UTC")
            end) as [[who mail] tz].
  apply wp_ret_bind. apply wp_modify_bind. apply wp_modify_bind.
  apply wp_next_mark_bind. apply wp_get_bind.
  match goal with
  | |- wp (bind (markmap_set ?i _) _) _ _ _ =>
      assert (Hcs : i = seqno s1 + 1)
        by (unfold commit_serial; simpl; rewrite lookup_insert_eq; reflexivity);
      rewrite Hcs; clear Hcs
  end.
  apply wp_markmap_set_any; [| exact I].
  intros Hi. simpl in Hi.
  apply wp_ret_bind. apply wp_ret_bind. apply wp_ret_unit. simpl.
  rewrite Hsq. rewrite lookup_insert_eq.
  rewrite list_lookup_insert_eq by lia.
  repeat split; try reflexivity. lia.
Qed.

End Suppressed.

Lemma suppressed_commit_witness :
  (exists s',
     @export_commit Demo.collaborators Demo.c1 "master" false
       (Demo.mkopts canonical 1150)
       (with_markmap (replicate 6 0) (with_seqno 3 init_state)) = Ok tt s')
  /\ out (final (@export_commit Demo.collaborators Demo.c1 "master" false
                   (Demo.mkopts canonical 1150)
                   (with_markmap (replicate 6 0) (with_seqno 3 init_state)))) = []
  /\ seqno (final (@export_commit Demo.collaborators Demo.c1 "master" false
                     (Demo.mkopts canonical 1150)
                     (with_markmap (replicate 6 0) (with_seqno 3 init_state)))) = 4.
Proof.
  assert (Hrun : @export_commit Demo.collaborators Demo.c1 "master" false
                   (Demo.mkopts canonical 1150)
                   (with_markmap (replicate 6 0) (with_seqno 3 init_state))
                 = Ok tt (final (@export_commit Demo.collaborators Demo.c1 "master" false
                                   (Demo.mkopts canonical 1150)
                                   (with_markmap (replicate 6 0) (with_seqno 3 init_state)))))
    by (vm_compute; reflexivity).
  split; [eexists; exact Hrun |].
  destruct (@suppressed_commit Demo.collaborators _ _ _ _ _ Hrun) as (Hout & Hsq & _).
  split; [exact Hout | exact Hsq].
Defined.

(** ** The order of a commit and its parent *)

(** [sort_by_date] puts a parent in front of its child, whichever of
    the two comes first in the call, when the child is not older than
    the parent and their dates are less than [2^31] seconds apart: the
    dates decide when they differ, and the test of the parent pointers
    when they are equal. *)
Theorem sort_by_date_parent_first (c p : git_commit) (hc hp : rev_ref) (rc rp : bool) :
  parent c = Some p ->
  c_addr c <> c_addr p ->
  0 <= date c - date p < 2 ^ (int_bits - 1) ->
  commit_is c (parent p) = false ->
  match parent p with
  | Some pp => commit_is c (parent pp)
  | None => false
  end = false ->
  0 < sort_by_date {| seq_commit := c; seq_head := hc; realized := rc |}
                   {| seq_commit := p; seq_head := hp; realized := rp |}
  /\ sort_by_date {| seq_commit := p; seq_head := hp; realized := rp |}
                  {| seq_commit := c; seq_head := hc; realized := rc |} < 0.
Proof.
  intros Hpar Hne Hdate Hcyc1 Hcyc2.
  assert (Hne1 : commit_eqb c p = false) by (apply Nat.eqb_neq; exact Hne).
  assert (Hne2 : commit_eqb p c = false) by (apply Nat.eqb_neq; congruence).
  assert (Hhalf : 2 ^ (int_bits - 1) = 2147483648) by reflexivity.
  unfold sort_by_date. simpl seq_commit.
  rewrite !sort_by_date_loop_unfold, Hne1, Hne2. cbv zeta.
  destruct (Z.eq_dec (date c) (date p)) as [Heq | Hdiff].
  - assert (Hcp : compare_commit c p = 1).
    { unfold compare_commit. rewrite Heq, Z.sub_diag. simpl.
      rewrite Hpar. simpl. rewrite commit_eqb_refl. reflexivity. }
    assert (Hpc : compare_commit p c = -1).
    { unfold compare_commit. rewrite Heq, Z.sub_diag. simpl.
      rewrite Hcyc1, Hcyc2, Hpar. simpl. rewrite commit_eqb_refl. reflexivity. }
    rewrite Hcp, Hpc. simpl. lia.
  - rewrite (compare_commit_dates c p) by exact Hdiff.
    rewrite (compare_commit_dates p c) by congruence.
    rewrite (to_int_fits (date c - date p)) by lia.
    rewrite (to_int_fits (date p - date c)) by lia.
    destruct (Z.eqb_spec (date c - date p) 0); [lia |].
    destruct (Z.eqb_spec (date p - date c) 0); [lia |].
    simpl. lia.
Qed.

Lemma sort_by_date_parent_first_witness :
  (parent Demo.c2 = Some Demo.c1
   /\ c_addr Demo.c2 <> c_addr Demo.c1
   /\ 0 <= date Demo.c2 - date Demo.c1 < 2 ^ (int_bits - 1)
   /\ commit_is Demo.c2 (parent Demo.c1) = false
   /\ match parent Demo.c1 with
      | Some pp => commit_is Demo.c2 (parent pp)
      | None => false
      end = false)
  /\ 0 < sort_by_date
           {| seq_commit := Demo.c2; seq_head := Demo.master; realized := false |}
           {| seq_commit := Demo.c1; seq_head := Demo.master; realized := false |}.
Proof.
  assert (H1 : parent Demo.c2 = Some Demo.c1) by reflexivity.
  assert (H2 : c_addr Demo.c2 <> c_addr Demo.c1) by (vm_compute; discriminate).
  assert (H3 : 0 <= date Demo.c2 - date Demo.c1 < 2 ^ (int_bits - 1)) by (vm_compute; split; [discriminate | reflexivity]).
  assert (H4 : commit_is Demo.c2 (parent Demo.c1) = false) by reflexivity.
  assert (H5 : match parent Demo.c1 with
               | Some pp => commit_is Demo.c2 (parent pp)
               | None => false
               end = false) by reflexivity.
  split; [exact (conj H1 (conj H2 (conj H3 (conj H4 H5)))) |].
  exact (proj1 (sort_by_date_parent_first Demo.c2 Demo.c1 Demo.master Demo.master
                  false false H1 H2 H3 H4 H5)).
Defined.

(** ** Marks are given in increasing order *)

Lemma sorted_app (l1 l2 : list Z) :
  StronglySorted Z.lt l1 -> StronglySorted Z.lt l2 ->
  (forall x y, In x l1 -> In y l2 -> x < y) ->
  StronglySorted Z.lt (l1 ++ l2).
Proof.
  intros H1 H2 H12. induction H1 as [| a l Hl IH Ha]; simpl; [exact H2 |].
  constructor.
  - apply IH. intros x y Hx Hy. apply H12; [right; exact Hx | exact Hy].
  - apply List.Forall_app. split; [exact Ha |].
    apply List.Forall_forall. intros y Hy. apply H12; [left; reflexivity | exact Hy].
Qed.

Lemma sorted_NoDup (l : list Z) : StronglySorted Z.lt l -> NoDup l.
Proof.
  induction 1 as [| a l Hl IH Ha]; constructor; [| exact IH].
  intros Hin. apply list_elem_of_In in Hin.
  rewrite List.Forall_forall in Ha. specialize (Ha a Hin). lia.
Qed.

Lemma adds_marks_trans a b b' c s1 s2 s3 :
  adds_marks a b' s1 s2 -> adds_marks b c s2 s3 ->
  a <= b -> b' <= b + 1 -> b' <= c ->
  adds_marks a c s1 s3.
Proof.
  intros (e1 & Ho1 & Hs1 & Hf1) (e2 & Ho2 & Hs2 & Hf2) Hab Hb Hc.
  exists (e1 ++ e2). split; [rewrite Ho2, Ho1, <- app_assoc; reflexivity |].
  rewrite defined_app. rewrite List.Forall_forall in Hf1, Hf2. split.
  - apply sorted_app; auto. intros x y Hx Hy.
    specialize (Hf1 x Hx). specialize (Hf2 y Hy). lia.
  - apply List.Forall_app.
    split; apply List.Forall_forall; intros x Hx;
      [specialize (Hf1 x Hx) | specialize (Hf2 x Hx)]; lia.
Qed.

Lemma adds_marks_silent lo hi s s' : out s' = out s -> adds_marks lo hi s s'.
Proof.
  intros Ho. exists []. rewrite Ho, app_nil_r. repeat constructor.
Qed.

Lemma mark_step_silent s s' : mark s' = mark s -> out s' = out s -> mark_step s s'.
Proof. intros Hm Ho. split; [lia | apply adds_marks_silent; exact Ho]. Qed.

Lemma mark_step_refl s : mark_step s s.
Proof. apply mark_step_silent; reflexivity. Qed.

Lemma mark_step_trans s1 s2 s3 : mark_step s1 s2 -> mark_step s2 s3 -> mark_step s1 s3.
Proof.
  intros [Hm1 Ha1] [Hm2 Ha2]. split; [lia |].
  eapply adds_marks_trans; eauto; lia.
Qed.

Lemma mark_step_emit e : defines e = [] -> keeps mark_step (emit e).
Proof.
  intros He s. split; [simpl; lia |].
  exists [e]. split; [reflexivity |].
  unfold defined. simpl. rewrite He. repeat constructor.
Qed.

Lemma mark_step_next_mark : keeps mark_step next_mark.
Proof.
  intros s. split; [simpl; lia | apply adds_marks_silent; reflexivity].
Qed.

Lemma mark_pending_start s s1 :
  mark_step s s1 -> mark_pending s (with_mark (mark s1 + 1) s1).
Proof. intros [Hm Ha]. split; [simpl; lia | exact Ha]. Qed.

Lemma mark_pending_still s s1 s2 :
  mark_pending s s1 -> mark s2 = mark s1 -> out s2 = out s1 -> mark_pending s s2.
Proof.
  intros [Hm (evs & Ho & Ha)] Hm2 Ho2. split; [lia |].
  exists evs. rewrite Hm2, Ho2. auto.
Qed.

Lemma mark_pending_weaken s s1 : mark_pending s s1 -> mark_step s s1.
Proof.
  intros [Hm (evs & Ho & Hs & Hf)]. split; [lia |].
  exists evs. repeat split; auto.
  eapply List.Forall_impl; [| exact Hf]. simpl. intros m Hlt. lia.
Qed.

Lemma mark_pending_define s s1 e :
  mark_pending s s1 -> defines e = [mark s1] ->
  mark_step s (with_out (out s1 ++ [e]) s1).
Proof.
  intros [Hm Ha] He. split; [simpl; lia |].
  apply (adds_marks_trans (mark s) (mark s1 - 1) (mark s1) _ s s1); try (simpl; lia); [exact Ha |].
  exists [e]. split; [reflexivity |].
  unfold defined. simpl. rewrite He. simpl.
  split; repeat constructor; lia.
Qed.

Ltac mark_step_tac :=
  lazymatch goal with
  | |- keeps mark_step (emit _) => apply mark_step_emit; reflexivity
  | |- keeps mark_step next_mark => apply mark_step_next_mark
  | |- keeps mark_step _ =>
      keeps_step mark_step_refl mark_step_trans
        ltac:(apply mark_step_silent; reflexivity)
  end.

Lemma wp_over {A B : Type} (m : M A) (k : A -> M B) s0 s :
  keeps mark_step m -> mark_step s0 s ->
  (forall a s', mark_step s0 s' -> wp (k a) (fun _ => mark_step s0) (mark_step s0) s') ->
  wp (bind m k) (fun _ => mark_step s0) (mark_step s0) s.
Proof.
  intros Hm Hs Hk.
  apply (wp_frame_bind mark_step (mark_step s0)); auto.
  intros s1 s2 H12 H01. exact (mark_step_trans _ _ _ H01 H12).
Qed.

Lemma wp_over_last {A : Type} (m : M A) s0 s :
  keeps mark_step m -> mark_step s0 s ->
  wp m (fun _ => mark_step s0) (mark_step s0) s.
Proof.
  intros Hm Hs.
  apply (wp_frame_last mark_step (mark_step s0)); auto.
  intros s1 s2 H12 H01. exact (mark_step_trans _ _ _ H01 H12).
Qed.

Section Increase.

Context `{Collaborators}.
Variable opts : export_options_t.

Lemma seqno_next_mark_step : keeps mark_step seqno_next.
Proof.
  intros s. unfold wp, seqno_next.
  destruct (_ <=? _); apply mark_step_silent; reflexivity.
Qed.

Lemma export_blob_mark_step node buf len :
  keeps mark_step (export_blob node buf len opts).
Proof.
  intros s0. unfold export_blob.
  apply wp_over; [repeat mark_step_tac | apply mark_step_refl |].
  intros _ s1 H1. cbv zeta.
  apply wp_over; [apply seqno_next_mark_step | exact H1 |].
  intros serial s2 H2.
  apply wp_over; [repeat mark_step_tac | exact H2 |].
  intros _ s3 H3.
  pose proof (mark_pending_start _ _ H3) as Hp.
  destruct (reportmode_eqb (reportmode opts) fast).
  - apply wp_next_mark_bind. apply wp_markmap_set_any.
    + intros _. apply wp_emit_bind.
      apply wp_over_last; [repeat mark_step_tac |].
      eapply mark_pending_define; [| reflexivity].
      eapply mark_pending_still; [exact Hp | reflexivity | reflexivity].
    + apply mark_pending_weaken.
      eapply mark_pending_still; [exact Hp | reflexivity | reflexivity].
  - apply wp_over_last; [repeat mark_step_tac | exact H3].
Qed.

Lemma ship_blob_mark_step report o : keeps mark_step (ship_blob report opts o).
Proof.
  intros s0. unfold ship_blob.
  destruct o as [perm rev path | path]; [| apply mark_step_refl].
  apply wp_get_bind.
  destruct (bool_decide _); [apply mark_step_refl |].
  pose proof (mark_pending_start _ _ (mark_step_refl s0)) as Hp.
  destruct (reportmode_eqb (reportmode opts) canonical).
  - rewrite andb_true_r.
    apply wp_when_bind; [intros _ | discriminate].
    apply wp_assoc. apply wp_next_mark_bind. apply wp_markmap_set_any.
    + intros _. apply wp_when; [intros _ | intros _].
      * apply wp_get_bind.
        destruct (blobs _ !! _) as [text |].
        -- apply wp_emit_bind.
           apply wp_over_last; [repeat mark_step_tac |].
           eapply mark_pending_define; [| reflexivity].
           eapply mark_pending_still; [exact Hp | reflexivity | reflexivity].
        -- apply mark_pending_weaken.
           eapply mark_pending_still; [exact Hp | reflexivity | reflexivity].
      * apply mark_pending_weaken.
        eapply mark_pending_still; [exact Hp | reflexivity | reflexivity].
    + apply mark_pending_weaken.
      eapply mark_pending_still; [exact Hp | reflexivity | reflexivity].
  - rewrite andb_false_r. apply mark_step_refl.
Qed.

Lemma print_fileop_mark_step o : keeps mark_step (print_fileop o).
Proof. unfold print_fileop. destruct o; repeat mark_step_tac. Qed.

Lemma export_commit_mark_step commit branch report :
  keeps mark_step (export_commit commit branch report opts).
Proof.
  intros s0. unfold export_commit.
  apply wp_over; [repeat mark_step_tac | apply mark_step_refl |].
  intros _ s1 H1. apply wp_get_bind. cbv zeta.
  apply wp_over; [mark_step_tac; apply ship_blob_mark_step | exact H1 |].
  intros _ s2 H2.
  destruct (match fullname (author commit) with
            | Some a => (full a, email a, default "UTC" (timezone a))
            | None => (author commit, author commit, "UTC")
            end) as [[who mail] tz].
  apply wp_over; [repeat mark_step_tac | exact H2 |].
  intros _ s3 H3.
  apply wp_over; [repeat mark_step_tac | exact H3 |].
  intros _ s4 H4.
  apply wp_over; [repeat mark_step_tac | exact H4 |].
  intros _ s5 H5.
  pose proof (mark_pending_start _ _ H5) as Hp.
  apply wp_next_mark_bind. apply wp_get_bind. apply wp_markmap_set_any.
  - intros _. apply wp_when_bind; intros _.
    + apply wp_emit_bind.
      apply wp_over_last;
        [repeat (mark_step_tac || apply print_fileop_mark_step) |].
      eapply mark_pending_define; [| reflexivity].
      eapply mark_pending_still; [exact Hp | reflexivity | reflexivity].
    + apply wp_over_last;
        [repeat (mark_step_tac || apply print_fileop_mark_step) |].
      apply mark_pending_weaken.
      eapply mark_pending_still; [exact Hp | reflexivity | reflexivity].
  - apply mark_pending_weaken.
    eapply mark_pending_still; [exact Hp | reflexivity | reflexivity].
Qed.

Lemma display_date_marked_mark_step c f : keeps mark_step (display_date_marked c f).
Proof. unfold display_date_marked. repeat mark_step_tac. Qed.

Lemma tag_resets_mark_step all_tags c : keeps mark_step (tag_resets all_tags c opts).
Proof.
  unfold tag_resets.
  repeat (mark_step_tac || apply display_date_marked_mark_step).
Qed.

Lemma export_fast_mark_step rl all_tags : keeps mark_step (export_fast rl all_tags opts).
Proof.
  unfold export_fast.
  repeat (apply export_commit_mark_step || apply tag_resets_mark_step || mark_step_tac).
Qed.

Lemma check_sortable_mark_step history : keeps mark_step (check_sortable history).
Proof.
  induction history as [| hp rest IH]; simpl; [mark_step_tac |].
  destruct (younger_parent hp); [repeat mark_step_tac | exact IH].
Qed.

Lemma export_history_mark_step all_tags n :
  forall history, keeps mark_step (export_history n history all_tags opts).
Proof.
  induction n as [| n IH]; intros history; simpl; [destruct history; mark_step_tac |].
  destruct history as [| hp rest]; [mark_step_tac |].
  apply (keeps_bind _ mark_step_trans); [mark_step_tac | intros s].
  cbv zeta.
  repeat (apply IH || apply export_commit_mark_step || apply tag_resets_mark_step
          || apply display_date_marked_mark_step || mark_step_tac).
Qed.

Lemma export_canonical_mark_step rl all_tags :
  keeps mark_step (export_canonical rl all_tags opts).
Proof.
  unfold export_canonical. cbv zeta.
  apply (keeps_bind _ mark_step_trans); [apply check_sortable_mark_step | intros sortable].
  apply export_history_mark_step.
Qed.

Lemma reset_heads_mark_step rl : keeps mark_step (reset_heads rl opts).
Proof.
  unfold reset_heads.
  repeat (mark_step_tac || apply display_date_marked_mark_step).
Qed.

End Increase.

(** Whatever the repository and the options, and whether the run
    completes or stops early, the marks that the [blob] and [commit]
    records of the stream define are positive and strictly increasing
    in the order of the stream: no mark is defined twice. *)
Theorem marks_increase `{Collaborators} (forest : forest_t) (all_tags : list tag_t)
    (opts : export_options_t) :
  StronglySorted Z.lt (defined (stream forest all_tags opts))
  /\ Forall (fun m => 0 < m) (defined (stream forest all_tags opts))
  /\ NoDup (defined (stream forest all_tags opts)).
Proof.
  assert (Hrun : mark_step init_state (final (export_commits forest all_tags opts init_state))).
  { apply wp_final. unfold export_commits. cbv zeta.
    set (o := select_reportmode forest opts).
    assert (Hrest : forall k : unit -> M unit, keeps mark_step (k tt) ->
              wp (bind (when (reportmode_eqb (reportmode o) canonical)
                          (modify (fun s => with_mark 0 (with_seqno 0 s)) ;;
                           modify (with_blobs ∅))) k)
                 (fun _ => mark_step init_state) (mark_step init_state) init_state).
    { intros k Hk. apply wp_when_bind; intros _.
      - apply wp_assoc. apply wp_modify_bind. apply wp_modify_bind.
        apply wp_over_last; [exact Hk |].
        apply mark_step_silent; reflexivity.
      - apply wp_over_last; [exact Hk | apply mark_step_refl]. }
    apply Hrest.
    repeat (apply export_fast_mark_step || apply export_canonical_mark_step
            || apply reset_heads_mark_step || apply export_blob_mark_step
            || (unfold generate_files; mark_step_tac) || mark_step_tac). }
  unfold stream.
  destruct Hrun as [_ (evs & Ho & Hs & Hf)].
  change (out init_state) with (@nil event) in Ho. rewrite Ho. simpl.
  split; [exact Hs |]. split; [| apply sorted_NoDup; exact Hs].
  eapply List.Forall_impl; [| exact Hf]. simpl. intros m Hm.
  change (mark init_state) with 0 in Hm. lia.
Qed.

(** ** The default ignore patterns *)

Lemma commit_lines_app l1 l2 : commit_lines (l1 ++ l2) = (commit_lines l1 + commit_lines l2)%nat.
Proof. unfold commit_lines. rewrite List.filter_app, List.length_app. reflexivity. Qed.

Lemma neutral_facts e :
  neutral e = true ->
  is_commit_line e = false /\ is_ignores e = false /\ names_gitignore e = false.
Proof.
  unfold neutral. intros Hn. apply negb_true_iff in Hn.
  apply orb_false_iff in Hn as [Hn Hg]. apply orb_false_iff in Hn as [Hc Hi]. auto.
Qed.

Lemma neutral_commit_lines evs :
  Forall (fun e => neutral e = true) evs -> commit_lines evs = 0%nat.
Proof.
  induction 1 as [| e evs He _ IH]; [reflexivity |].
  apply neutral_facts in He as (Hc & _ & _).
  unfold commit_lines in *. simpl. rewrite Hc. exact IH.
Qed.

Lemma neutral_ignore_free evs :
  Forall (fun e => neutral e = true) evs -> ignore_free evs.
Proof.
  unfold ignore_free. intros Hn. eapply List.Forall_impl; [| exact Hn].
  simpl. intros e He. apply neutral_facts in He as (_ & Hi & Hg). auto.
Qed.

(** Lines other than the default ignore patterns, after a stream that
    has them in the right place. *)
Lemma ignores_first_app l evs :
  ignores_first l -> Forall (fun e => is_ignores e = false) evs ->
  ignores_first (l ++ evs).
Proof.
  intros Hl Hevs pre post Heq.
  rewrite List.Forall_forall in Hevs.
  apply List.app_eq_app in Heq as (x & [[H1 H2] | [H1 H2]]).
  - destruct x as [| e x].
    + simpl in H2.
      assert (Hin : In EIgnores evs) by (rewrite <- H2; left; reflexivity).
      specialize (Hevs _ Hin). discriminate.
    + simpl in H2. injection H2 as He Hx. subst e.
      apply (Hl pre x). exact H1.
  - assert (Hin : In EIgnores evs) by (rewrite H2; apply in_or_app; right; left; reflexivity).
    specialize (Hevs _ Hin). discriminate.
Qed.

(** The default ignore patterns, written where they may be. *)
Lemma ignores_first_snoc l :
  ignores_first l -> ignore_free l -> commit_lines l = 1%nat ->
  ignores_first (l ++ [EIgnores]).
Proof.
  intros Hl Hfree Hone pre post Heq.
  apply List.app_eq_app in Heq as (x & [[H1 H2] | [H1 H2]]).
  - destruct x as [| e x].
    + rewrite app_nil_r in H1. subst pre. auto.
    + simpl in H2. injection H2 as He Hx. subst e.
      unfold ignore_free in Hfree. rewrite List.Forall_forall in Hfree.
      assert (Hin : In EIgnores l) by (rewrite H1; apply in_or_app; right; left; reflexivity).
      destruct (Hfree _ Hin) as [Hi _]. discriminate.
  - destruct x as [| e x].
    + rewrite app_nil_r in H1. subst pre. auto.
    + simpl in H2. injection H2 as _ Hx.
      destruct x; discriminate.
Qed.

Lemma ign_frame_silent s s' :
  need_ignores s' = need_ignores s -> out s' = out s -> ign_frame s s'.
Proof. intros Hn Ho. split; [exact Hn |]. exists []. rewrite Ho, app_nil_r. auto. Qed.

Lemma ign_frame_refl s : ign_frame s s.
Proof. apply ign_frame_silent; reflexivity. Qed.

Lemma ign_frame_trans s1 s2 s3 : ign_frame s1 s2 -> ign_frame s2 s3 -> ign_frame s1 s3.
Proof.
  intros [Hn1 (e1 & Ho1 & Hf1)] [Hn2 (e2 & Ho2 & Hf2)]. split; [congruence |].
  exists (e1 ++ e2). split; [rewrite Ho2, Ho1, <- app_assoc; reflexivity |].
  apply List.Forall_app. auto.
Qed.

Lemma ign_frame_emit e : neutral e = true -> keeps ign_frame (emit e).
Proof.
  intros He s. split; [reflexivity |]. exists [e]. split; [reflexivity |].
  constructor; [exact He | constructor].
Qed.

Lemma ign_inv_frame inside s s' : ign_frame s s' -> ign_inv inside s -> ign_inv inside s'.
Proof.
  intros [Hn (evs & Ho & Hevs)] [Hfirst Hneed]. split.
  - rewrite Ho. apply ignores_first_app; [exact Hfirst |].
    eapply List.Forall_impl; [| exact Hevs]. simpl.
    intros e He. apply neutral_facts in He as (_ & Hi & _). exact Hi.
  - rewrite Hn, Ho. intros Ht. destruct (Hneed Ht) as [Hfree Hc].
    split.
    + apply List.Forall_app. split; [exact Hfree | apply neutral_ignore_free; exact Hevs].
    + rewrite commit_lines_app, Hc, (neutral_commit_lines evs Hevs). lia.
Qed.

Lemma ign_inv_out inside s : ign_inv inside s -> ignores_first (out s).
Proof. intros [Hfirst _]. exact Hfirst. Qed.

Lemma ign_inv_closed inside s :
  need_ignores s = false -> ignores_first (out s) -> ign_inv inside s.
Proof. intros Hn Hfirst. split; [exact Hfirst | congruence]. Qed.

(** The [commit] line opens a record. *)
Lemma ign_inv_open s prefix branch :
  ign_inv false s -> ign_inv true (with_out (out s ++ [ECommit prefix branch]) s).
Proof.
  intros [Hfirst Hneed]. split; simpl.
  - apply ignores_first_app; [exact Hfirst | repeat constructor].
  - intros Ht. destruct (Hneed Ht) as [Hfree Hc]. split.
    + apply List.Forall_app. split; [exact Hfree | repeat constructor].
    + rewrite commit_lines_app, Hc. reflexivity.
Qed.

Ltac ign_step :=
  lazymatch goal with
  | |- keeps ign_frame (emit _) => apply ign_frame_emit; reflexivity
  | |- keeps ign_frame _ =>
      keeps_step ign_frame_refl ign_frame_trans
        ltac:(apply ign_frame_silent; reflexivity)
  end.

Section Ignores.

Context `{Collaborators}.
Variable opts : export_options_t.

Lemma seqno_next_ign_frame : keeps ign_frame seqno_next.
Proof.
  intros s. unfold wp, seqno_next.
  destruct (_ <=? _); apply ign_frame_silent; reflexivity.
Qed.

Lemma export_blob_ign_frame node buf len : keeps ign_frame (export_blob node buf len opts).
Proof.
  unfold export_blob. repeat (apply seqno_next_ign_frame || ign_step).
Qed.

Lemma ship_blob_ign_frame report o : keeps ign_frame (ship_blob report opts o).
Proof. unfold ship_blob. destruct o; repeat ign_step. Qed.

Lemma display_date_marked_ign_frame c f : keeps ign_frame (display_date_marked c f).
Proof. unfold display_date_marked. repeat ign_step. Qed.

Lemma tag_resets_ign_frame all_tags c : keeps ign_frame (tag_resets all_tags c opts).
Proof.
  unfold tag_resets. repeat (apply display_date_marked_ign_frame || ign_step).
Qed.

Lemma reset_heads_ign_frame rl : keeps ign_frame (reset_heads rl opts).
Proof.
  unfold reset_heads. repeat (apply display_date_marked_ign_frame || ign_step).
Qed.

Lemma check_sortable_ign_frame history : keeps ign_frame (check_sortable history).
Proof.
  induction history as [| hp rest IH]; simpl; [ign_step |].
  destruct (younger_parent hp); [repeat ign_step | exact IH].
Qed.

(** One operation of a commit record: an operation on [.gitignore]
    clears [need_ignores]. *)
Lemma print_fileop_ignores o s :
  ign_inv true s ->
  wp (print_fileop o) (fun _ => ign_inv true) (fun s' => ignores_first (out s')) s.
Proof.
  intros Hs. unfold print_fileop.
  assert (Hop : forall e st, ign_inv true st ->
            is_commit_line e = false -> is_ignores e = false ->
            forall p, names_gitignore e = atom_eqb p s_gitignore ->
            wp (do s1 <- get;
                when (need_ignores s1 && atom_eqb p s_gitignore)
                  (modify (with_need_ignores false)))
               (fun _ => ign_inv true) (fun s' => ignores_first (out s'))
               (with_out (out st ++ [e]) st)).
  { intros e st [Hfirst Hneed] Hc Hi p Hg.
    assert (Hfirst' : ignores_first (out st ++ [e])).
    { apply ignores_first_app; [exact Hfirst |]. constructor; [exact Hi | constructor]. }
    apply wp_get_bind. apply wp_when; intros Hb; simpl in Hb.
    - apply wp_modify_last. apply ign_inv_closed; [reflexivity | exact Hfirst'].
    - split; [exact Hfirst' |]. simpl. intros Ht. rewrite Ht in Hb. simpl in Hb.
      destruct (Hneed Ht) as [Hfree Hone]. split.
      + apply List.Forall_app. split; [exact Hfree |].
        constructor; [| constructor]. split; [exact Hi | congruence].
      + rewrite commit_lines_app, Hone. unfold commit_lines. simpl. rewrite Hc. reflexivity. }
  destruct o as [perm rev path | path].
  - apply wp_assoc. apply wp_get_bind. apply wp_assoc.
    apply wp_markmap_get_any.
    + apply wp_emit_bind.
      refine (Hop _ (with_idx _ s) _ _ _ path _); try reflexivity.
      eapply ign_inv_frame; [| exact Hs]. apply ign_frame_silent; reflexivity.
    + apply Hs.
  - apply wp_emit_bind. apply (Hop _ s Hs); reflexivity.
Qed.

Lemma wp_ign_bind {A B : Type} (inside : bool) (m : M A) (k : A -> M B) Q s :
  keeps ign_frame m -> ign_inv inside s ->
  (forall a s', ign_inv inside s' -> wp (k a) Q (fun s' => ignores_first (out s')) s') ->
  wp (bind m k) Q (fun s' => ignores_first (out s')) s.
Proof.
  intros Hm Hs Hk.
  apply (wp_frame_bind ign_frame (ign_inv inside)); auto.
  - intros s1 s2 H12 H1. exact (ign_inv_frame _ _ _ H12 H1).
  - intros s' Hs'. exact (ign_inv_out _ _ Hs').
Qed.

Lemma wp_ign_last {A : Type} (inside : bool) (m : M A) s :
  keeps ign_frame m -> ign_inv inside s ->
  wp m (fun _ => ign_inv inside) (fun s' => ignores_first (out s')) s.
Proof.
  intros Hm Hs.
  apply (wp_frame_last ign_frame (ign_inv inside)); auto.
  - intros s1 s2 H12 H1. exact (ign_inv_frame _ _ _ H12 H1).
  - intros s' Hs'. exact (ign_inv_out _ _ Hs').
Qed.

(** A commit record: it ends with [need_ignores] cleared when it is
    reported. *)
Lemma export_commit_ignores commit branch report s :
  ign_inv false s ->
  wp (export_commit commit branch report opts)
     (fun _ => ign_inv false) (fun s' => ignores_first (out s')) s.
Proof.
  intros Hs. unfold export_commit.
  apply (wp_ign_bind false); [repeat ign_step | exact Hs |].
  intros _ s1 H1. apply wp_get_bind. cbv zeta.
  apply (wp_ign_bind false); [ign_step; apply ship_blob_ign_frame | exact H1 |].
  intros _ s2 H2.
  destruct (match fullname (author commit) with
            | Some a => (full a, email a, default "UTC" (timezone a))
            | None => (author commit, author commit, "UTC")
            end) as [[who mail] tz].
  destruct report.
  2: { apply (wp_ign_last false); [| exact H2].
       simpl. repeat ign_step. }
  apply wp_when_bind; [intros _ | discriminate]. apply wp_emit_bind.
  pose proof (ign_inv_open s2 (branch_prefix opts) branch H2) as H3.
  apply (wp_ign_bind true); [repeat ign_step | exact H3 |].
  intros _ s4 H4.
  apply (wp_ign_bind true); [repeat ign_step | exact H4 |].
  intros _ s5 H5.
  apply (wp_ign_bind true); [repeat ign_step | exact H5 |].
  intros here s6 H6. apply wp_get_bind.
  apply (wp_ign_bind true); [repeat ign_step | exact H6 |].
  intros _ s7 H7.
  apply (wp_ign_bind true); [repeat ign_step | exact H7 |].
  intros _ s8 H8.
  apply wp_when_bind; [intros _ | discriminate].
  cbv zeta. apply wp_assoc.
  apply (wp_ign_bind true); [repeat ign_step | exact H8 |].
  intros _ s9 H9. apply wp_assoc.
  apply (wp_ign_bind true); [repeat ign_step | exact H9 |].
  intros _ s10 H10. apply wp_assoc.
  apply (wp_ign_bind true); [repeat ign_step | exact H10 |].
  intros _ s11 H11. apply wp_assoc.
  eapply wp_seq with (Q1 := fun _ => ign_inv true);
    [apply (wp_for_each (ign_inv true) (fun s' => ignores_first (out s')));
       [intros o st _ Hst; apply print_fileop_ignores; exact Hst | exact H11]
    | | intros s' Hs'; exact Hs'].
  intros _ s12 H12. apply wp_assoc. apply wp_get_bind. apply wp_assoc.
  assert (Hend : forall st, ign_inv false st ->
            wp ((when (wants_revpairs opts
                       && (0 <? strlen (revpairs_of opts (commit_fileops s1 commit))))
                   (when (revision_map opts)
                      (modify (fun s => with_revmap
                         (revmap s ++ [revmap_text here
                            (revpairs_of opts (commit_fileops s1 commit))]) s)) ;;
                    when (reposurgeon opts)
                      (when true (emit (EProperty
                         (strlen (revpairs_of opts (commit_fileops s1 commit)))
                         (revpairs_of opts (commit_fileops s1 commit))))))) ;;
                when true (emit ENewline))
               (fun _ => ign_inv false) (fun s' => ignores_first (out s')) st).
  { intros st Hst. apply (wp_ign_last false); [| exact Hst].
    simpl. repeat ign_step. }
  apply wp_when_bind; intros Hneed.
  - apply wp_assoc. apply wp_modify_bind. apply wp_emit_bind.
    apply Hend. apply ign_inv_closed; [reflexivity |]. simpl.
    destruct H12 as [Hfirst Hn]. destruct (Hn Hneed) as [Hfree Hone].
    apply ignores_first_snoc; assumption.
  - apply Hend. apply ign_inv_closed; [exact Hneed | apply H12].
Qed.

Lemma rounds_ignores all_tags l s (f : git_commit -> string * bool) :
  ign_inv false s ->
  wp (for_each l (fun c =>
        export_commit c (fst (f c)) (snd (f c)) opts ;; tag_resets all_tags c opts))
     (fun _ => ign_inv false) (fun s' => ignores_first (out s')) s.
Proof.
  intros Hs. apply (wp_for_each (ign_inv false)); [| exact Hs].
  intros c st _ Hst.
  eapply wp_seq with (Q1 := fun _ => ign_inv false);
    [apply export_commit_ignores; exact Hst | | intros s' Hs'; exact Hs'].
  intros _ st' Hst'. apply (wp_ign_last false); [apply tag_resets_ign_frame | exact Hst'].
Qed.

Lemma export_fast_ignores rl all_tags s :
  ign_inv false s ->
  wp (export_fast rl all_tags opts)
     (fun _ => ign_inv false) (fun s' => ignores_first (out s')) s.
Proof.
  intros Hs. unfold export_fast.
  apply (wp_for_each (ign_inv false)); [| exact Hs].
  intros h st _ Hst. apply wp_when; [intros _ | intros _; exact Hst].
  cbv zeta. exact (rounds_ignores all_tags _ st (fun _ => (ref_name h, true)) Hst).
Qed.

Lemma export_history_ignores all_tags n :
  forall history s, ign_inv false s ->
  wp (export_history n history all_tags opts)
     (fun _ => ign_inv false) (fun s' => ignores_first (out s')) s.
Proof.
  induction n as [| n IH]; intros history s Hs; simpl; [destruct history; exact Hs |].
  destruct history as [| hp rest]; [exact Hs |].
  apply wp_get_bind. cbv zeta.
  apply (wp_ign_bind false);
    [repeat (apply display_date_marked_ign_frame || ign_step) | exact Hs |].
  intros _ s1 H1.
  eapply wp_seq with (Q1 := fun _ => ign_inv false);
    [apply export_commit_ignores; exact H1 | | intros s' Hs'; exact Hs'].
  intros _ s2 H2.
  apply (wp_ign_bind false); [apply tag_resets_ign_frame | exact H2 |].
  intros _ s3 H3. apply IH. exact H3.
Qed.

End Ignores.

(** Whatever the repository and the options, and whether the run
    completes or stops early: wherever the stream has the default
    ignore patterns, exactly one [commit] line has been written before
    them, and neither the patterns nor an operation on [.gitignore].
    So they are written at most once, in the first commit record of
    the stream, and only when that record has no operation on
    [.gitignore]. *)
Theorem default_ignores_once `{Collaborators} (forest : forest_t) (all_tags : list tag_t)
    (opts : export_options_t) (pre post : list event) :
  stream forest all_tags opts = pre ++ EIgnores :: post ->
  commit_lines pre = 1%nat
  /\ ignore_free pre
  /\ Forall (fun e => is_ignores e = false) post.
Proof.
  assert (Hrun : ignores_first (stream forest all_tags opts)).
  { unfold stream.
    apply (wp_final _ (fun s => ignores_first (out s))).
    eapply wp_mono with (Q := fun _ => ign_inv false);
      [| intros _ s' Hs'; exact (ign_inv_out _ _ Hs') | intros s' Hs'; exact Hs'].
    assert (Hinit : ign_inv false init_state).
    { split; [| intros _; split; [constructor | reflexivity]].
      intros p q Heq. destruct p; discriminate. }
    unfold export_commits. cbv zeta.
    set (o := select_reportmode forest opts).
    apply (wp_ign_bind false); [repeat ign_step | exact Hinit |].
    intros _ s1 H1.
    apply (wp_ign_bind false); [repeat ign_step | exact H1 |].
    intros _ s2 H2. apply wp_get_bind.
    apply (wp_ign_bind false); [repeat ign_step | exact H2 |].
    intros _ s3 H3.
    apply (wp_ign_bind false);
      [unfold generate_files; repeat (apply export_blob_ign_frame || ign_step) | exact H3 |].
    intros _ s4 H4.
    eapply wp_seq with (Q1 := fun _ => ign_inv false); [| | intros s' Hs'; exact Hs'].
    { destruct (reportmode_eqb (reportmode o) fast).
      - apply export_fast_ignores. exact H4.
      - unfold export_canonical. cbv zeta.
        apply (wp_ign_bind false); [apply check_sortable_ign_frame | exact H4 |].
        intros sortable s5 H5. apply export_history_ignores. exact H5. }
    intros _ s5 H5.
    apply (wp_ign_last false); [| exact H5].
    repeat (apply reset_heads_ign_frame || ign_step). }
  intros Heq. destruct (Hrun pre post Heq) as [Hone Hfree].
  split; [exact Hone |]. split; [exact Hfree |].
  apply List.Forall_forall. intros e Hin.
  destruct e; try reflexivity.
  apply in_split in Hin as (mid & post' & Hpost).
  assert (Heq' : stream forest all_tags opts = (pre ++ EIgnores :: mid) ++ EIgnores :: post').
  { rewrite Heq, Hpost, <- app_assoc. reflexivity. }
  destruct (Hrun _ _ Heq') as [_ Hfree'].
  unfold ignore_free in Hfree'. rewrite List.Forall_forall in Hfree'.
  assert (Hin' : In EIgnores (pre ++ EIgnores :: mid)) by (apply in_or_app; right; left; reflexivity).
  destruct (Hfree' _ Hin') as [Hi _]. discriminate.
Qed.

Lemma default_ignores_once_witness :
  @stream Demo.collaborators Demo.forest Demo.tags (Demo.mkopts canonical 0)
  = firstn 7 (@stream Demo.collaborators Demo.forest Demo.tags (Demo.mkopts canonical 0))
    ++ EIgnores
    :: skipn 8 (@stream Demo.collaborators Demo.forest Demo.tags (Demo.mkopts canonical 0))
  /\ commit_lines
       (firstn 7 (@stream Demo.collaborators Demo.forest Demo.tags (Demo.mkopts canonical 0)))
     = 1%nat.
Proof.
  assert (Hsplit :
    @stream Demo.collaborators Demo.forest Demo.tags (Demo.mkopts canonical 0)
    = firstn 7 (@stream Demo.collaborators Demo.forest Demo.tags (Demo.mkopts canonical 0))
      ++ EIgnores
      :: skipn 8 (@stream Demo.collaborators Demo.forest Demo.tags (Demo.mkopts canonical 0))).
  { vm_compute. reflexivity. }
  split; [exact Hsplit |].
  exact (proj1 (@default_ignores_once Demo.collaborators Demo.forest Demo.tags
                  (Demo.mkopts canonical 0) _ _ Hsplit)).
Defined.

(** ** The resets of the tags refer to defined marks *)

Lemma tags_defined_app l evs :
  tags_defined l -> Forall untagged evs -> tags_defined (l ++ evs).
Proof.
  intros Hl Hevs pre t m post Heq.
  rewrite List.Forall_forall in Hevs.
  apply List.app_eq_app in Heq as (x & [[H1 H2] | [H1 H2]]).
  - destruct x as [| e x].
    + simpl in H2.
      assert (Hin : In (ETagReset t m) evs) by (rewrite <- H2; left; reflexivity).
      destruct (Hevs _ Hin).
    + simpl in H2. injection H2 as He Hx. subst e.
      apply (Hl pre t m x). exact H1.
  - assert (Hin : In (ETagReset t m) evs)
      by (rewrite H2; apply in_or_app; right; left; reflexivity).
    destruct (Hevs _ Hin).
Qed.

Lemma tags_defined_snoc l t m :
  tags_defined l -> In m (defined l) -> tags_defined (l ++ [ETagReset t m]).
Proof.
  intros Hl Hm pre t' m' post Heq.
  apply List.app_eq_app in Heq as (x & [[H1 H2] | [H1 H2]]).
  - destruct x as [| e x].
    + rewrite app_nil_r in H1. subst pre. simpl in H2. injection H2 as _ <- _. exact Hm.
    + simpl in H2. injection H2 as He Hx. subst e.
      apply (Hl pre t' m' x). exact H1.
  - destruct x as [| e x].
    + rewrite app_nil_r in H1. subst pre. simpl in H2. injection H2 as _ <- _. exact Hm.
    + simpl in H2. injection H2 as _ Hx. destruct x; discriminate.
Qed.

Lemma tags_defined_writes s s' :
  writes untagged s s' -> tags_defined (out s) -> tags_defined (out s').
Proof.
  intros (evs & Ho & Hevs) Hs. rewrite Ho. apply tags_defined_app; assumption.
Qed.

Lemma tag_frame_refl s : tag_frame s s.
Proof. split; [reflexivity |]. split; [reflexivity |]. exists []. symmetry. apply app_nil_r. Qed.

Lemma tag_frame_trans s1 s2 s3 : tag_frame s1 s2 -> tag_frame s2 s3 -> tag_frame s1 s3.
Proof.
  intros (Hm1 & Hc1 & e1 & Ho1) (Hm2 & Hc2 & e2 & Ho2).
  split; [congruence |]. split; [congruence |].
  exists (e1 ++ e2). rewrite Ho2, Ho1, <- app_assoc. reflexivity.
Qed.

Lemma tag_frame_silent s s' :
  markmap s' = markmap s -> serial_c s' = serial_c s -> out s' = out s -> tag_frame s s'.
Proof.
  intros Hm Hc Ho. split; [exact Hm |]. split; [exact Hc |].
  exists []. rewrite Ho. symmetry. apply app_nil_r.
Qed.

Lemma tag_frame_emit e : keeps tag_frame (emit e).
Proof.
  intros s. split; [reflexivity |]. split; [reflexivity |]. exists [e]. reflexivity.
Qed.

Lemma tag_frame_marked c s s' :
  tag_frame s s' -> marked s (commit_serial s c) -> marked s' (commit_serial s' c).
Proof.
  intros (Hm & Hc & evs & Ho). unfold marked, commit_serial.
  rewrite Hm, Hc, Ho, defined_app. intros Hin. apply in_or_app. left. exact Hin.
Qed.

Ltac tag_frame_step :=
  lazymatch goal with
  | |- keeps tag_frame (emit _) => apply tag_frame_emit
  | |- keeps tag_frame _ =>
      keeps_step tag_frame_refl tag_frame_trans
        ltac:(apply tag_frame_silent; reflexivity)
  end.

Lemma keeps_any {A : Type} (m : M A) : keeps (fun _ _ => True) m.
Proof. intros s. unfold wp. destruct (m s); exact I. Qed.

Lemma wp_skip_bind {A B : Type} (m : M A) (k : A -> M B) Q s :
  (forall a s', wp (k a) Q (fun _ => True) s') ->
  wp (bind m k) Q (fun _ => True) s.
Proof.
  intros Hk. unfold wp, bind. destruct (m s) as [a s' | e s']; [apply Hk | exact I].
Qed.

Section TagResets.

Context `{Collaborators}.
Variable opts : export_options_t.

Lemma commit_event_untagged commit branch e :
  commit_event commit branch opts e -> untagged e.
Proof. destruct e; simpl; auto. Qed.

Lemma print_fileop_tag_frame o : keeps tag_frame (print_fileop o).
Proof. unfold print_fileop. destruct o; repeat tag_frame_step. Qed.

(** A commit that is reported leaves the mark of its record in the
    slot of its serial. *)
Lemma export_commit_marked commit branch s :
  wp (export_commit commit branch true opts)
     (fun _ s' => marked s' (commit_serial s' commit)) (fun _ => True) s.
Proof.
  unfold export_commit.
  apply wp_skip_bind. intros _ s1. apply wp_get_bind. cbv zeta.
  apply wp_skip_bind. intros _ s2.
  destruct (match fullname (author commit) with
            | Some a => (full a, email a, default "UTC" (timezone a))
            | None => (author commit, author commit, "UTC")
            end) as [[who mail] tz].
  apply wp_skip_bind. intros _ s3.
  apply wp_modify_bind. apply wp_modify_bind.
  apply wp_next_mark_bind. apply wp_get_bind.
  apply wp_markmap_set_any; [| exact I].
  intros Hi. apply wp_when_bind; [intros _ | discriminate].
  apply wp_emit_bind.
  match goal with
  | |- wp _ _ _ ?st => assert (Hst : marked st (commit_serial st commit))
  end.
  { unfold marked. simpl. simpl in Hi.
    rewrite list_lookup_insert_eq by lia. simpl.
    rewrite defined_app. apply in_or_app. right. left. reflexivity. }
  apply (wp_frame_last tag_frame (fun st => marked st (commit_serial st commit)));
    [| | exact Hst | auto | auto].
  - intros sa sb Hab Hsa. exact (tag_frame_marked _ _ _ Hab Hsa).
  - repeat (apply print_fileop_tag_frame || tag_frame_step).
Qed.

Lemma export_commit_tags commit branch report s :
  tags_defined (out s) ->
  wp (export_commit commit branch report opts)
     (fun _ s' => tags_defined (out s')
                  /\ (report = true -> marked s' (commit_serial s' commit)))
     (fun s' => tags_defined (out s')) s.
Proof.
  intros Hs.
  assert (Hw : wp (export_commit commit branch report opts)
                 (fun _ s' => tags_defined (out s')) (fun s' => tags_defined (out s')) s).
  { apply (wp_frame_last (writes untagged) (fun st => tags_defined (out st)));
      [| | exact Hs | auto | auto].
    - intros sa sb Hab Hsa. exact (tags_defined_writes _ _ Hab Hsa).
    - eapply keeps_impl; [| apply export_commit_writes].
      intros sa sb Hab. eapply writes_impl; [| exact Hab].
      intros e He. exact (commit_event_untagged _ _ _ He). }
  destruct report.
  - eapply wp_mono; [exact (wp_conj _ _ _ _ _ _ Hw (export_commit_marked commit branch s)) | |];
      simpl.
    + intros _ s' [H1 H2]. auto.
    + intros s' [H1 _]. exact H1.
  - eapply wp_mono; [exact Hw | |]; simpl; [| auto].
    intros _ s' H1. split; [exact H1 | discriminate].
Qed.

(** The loop over the tags that follows a commit. *)
Lemma tag_resets_tags all_tags c s :
  tags_defined (out s) -> tag_ready c opts s ->
  wp (tag_resets all_tags c opts)
     (fun _ s' => tags_defined (out s')) (fun s' => tags_defined (out s')) s.
Proof.
  intros Hs Hready. unfold tag_resets.
  eapply wp_mono;
    [apply (wp_for_each (fun st => tags_defined (out st) /\ tag_ready c opts st)
              (fun st => tags_defined (out st)))
    | intros _ s' [H1 _]; exact H1 | auto]; [| split; assumption].
  intros t st _ [Hst Hrd].
  destruct (commit_eqb (tag_commit t) c); [| split; assumption].
  assert (Hwhen : forall d st',
            (force_dates opts = false -> d = date c + RCS_EPOCH) ->
            tags_defined (out st') -> tag_ready c opts st' ->
            wp (when (fromtime opts <? d)
                  (do s0 <- get;
                   do m <- markmap_get (commit_serial s0 c);
                   emit (ETagReset (tag_name t) m)))
               (fun _ s' => tags_defined (out s') /\ tag_ready c opts s')
               (fun s' => tags_defined (out s')) st').
  { intros d st' Hd Hst' Hrd'. apply wp_when; intros Hb; [| split; assumption].
    destruct Hrd' as [Hmk | [Hforce Hlate]].
    2: { rewrite (Hd Hforce) in Hb. apply Z.ltb_lt in Hb. lia. }
    apply wp_get_bind. apply wp_markmap_get_any; [| exact Hst'].
    apply wp_modify_last. simpl. split.
    - apply tags_defined_snoc; [exact Hst' | exact Hmk].
    - left. unfold marked in *. simpl. rewrite defined_app.
      apply in_or_app. left. exact Hmk. }
  unfold display_date_marked. destruct (force_dates opts) eqn:Hforce.
  - apply wp_assoc. apply wp_get_bind. apply wp_assoc.
    apply wp_markmap_get_any; [| exact Hst].
    apply wp_ret_bind. apply Hwhen; [intros Hf; congruence | exact Hst |].
    destruct Hrd as [Hmk | [Hf _]]; [left; exact Hmk | congruence].
  - apply wp_ret_bind. apply Hwhen; [intros _; reflexivity | exact Hst | exact Hrd].
Qed.

Lemma export_fast_tags rl all_tags s :
  tags_defined (out s) ->
  wp (export_fast rl all_tags opts)
     (fun _ s' => tags_defined (out s')) (fun s' => tags_defined (out s')) s.
Proof.
  intros Hs. unfold export_fast.
  apply (wp_for_each (fun st => tags_defined (out st))); [| exact Hs].
  intros h st _ Hst. apply wp_when; [intros _ | intros _; exact Hst].
  cbv zeta. apply (wp_for_each (fun st => tags_defined (out st))); [| exact Hst].
  intros c st' _ Hst'.
  eapply wp_seq; [apply export_commit_tags; exact Hst' | | auto].
  simpl. intros [] s2 [H1 H2].
  apply tag_resets_tags; [exact H1 | left; apply H2; reflexivity].
Qed.

Lemma export_history_tags all_tags n :
  (0 < fromtime opts -> force_dates opts = false) ->
  forall history s, tags_defined (out s) ->
  wp (export_history n history all_tags opts)
     (fun _ s' => tags_defined (out s')) (fun s' => tags_defined (out s')) s.
Proof.
  intros Hf. induction n as [| n IH]; intros history s Hs; simpl;
    [destruct history; exact Hs |].
  destruct history as [| hp rest]; [exact Hs |].
  apply wp_get_bind. cbv zeta.
  apply (wp_frame_bind (writes untagged) (fun st => tags_defined (out st)));
    [| | exact Hs | | auto].
  { intros sa sb Hab Hsa. exact (tags_defined_writes _ _ Hab Hsa). }
  { repeat (apply display_date_marked_writes || writes_step); exact I. }
  intros [] s1 H1.
  eapply wp_seq; [apply export_commit_tags; exact H1 | | auto].
  simpl. intros [] s2 [H2 Hm].
  eapply wp_seq with (Q1 := fun _ st => tags_defined (out st));
    [apply tag_resets_tags; [exact H2 |] | intros [] s3 H3; apply IH; exact H3 | auto].
  destruct (0 <? fromtime opts) eqn:Hcut; simpl in Hm; [| left; apply Hm; reflexivity].
  destruct (display_date (seq_commit hp) (mark s + 1) (force_dates opts) <=? fromtime opts)
    eqn:Hlate; simpl in Hm; [| left; apply Hm; reflexivity].
  right. apply Z.ltb_lt in Hcut. apply Z.leb_le in Hlate.
  rewrite (Hf Hcut) in Hlate. split; [exact (Hf Hcut) | exact Hlate].
Qed.

End TagResets.

Lemma select_reportmode_force_dates `{Collaborators} forest opts :
  force_dates (select_reportmode forest opts) = force_dates opts.
Proof.
  unfold select_reportmode.
  destruct (0 <? fromtime opts); [reflexivity |].
  destruct (reportmode_eqb (reportmode opts) adaptive); [| reflexivity].
  destruct (textsize forest <=? SMALL_REPOSITORY); reflexivity.
Qed.

(** Unless the dates are forced in an incremental export, the mark of
    every [reset refs/tags/...] block of the stream is one that a
    record written strictly earlier defines, whether the run completes
    or stops early. *)
Theorem tag_resets_defined `{Collaborators} (forest : forest_t) (all_tags : list tag_t)
    (opts : export_options_t) (pre post : list event) (t : string) (m : Z) :
  (0 < fromtime opts -> force_dates opts = false) ->
  stream forest all_tags opts = pre ++ ETagReset t m :: post ->
  In m (defined pre).
Proof.
  intros Hf.
  assert (Hrun : tags_defined (stream forest all_tags opts)).
  { unfold stream. apply (wp_final _ (fun s => tags_defined (out s))).
    unfold export_commits. cbv zeta.
    set (o := select_reportmode forest opts).
    assert (Hfo : 0 < fromtime o -> force_dates o = false).
    { subst o. rewrite select_reportmode_fromtime, select_reportmode_force_dates. exact Hf. }
    assert (Hresp : forall sa sb, writes untagged sa sb ->
              tags_defined (out sa) -> tags_defined (out sb))
      by exact tags_defined_writes.
    assert (Hinit : tags_defined (out init_state)).
    { intros p t' m' q Heq. destruct p; discriminate. }
    apply (wp_frame_bind (writes untagged) (fun st => tags_defined (out st)));
      [exact Hresp | repeat writes_step | exact Hinit | | auto].
    intros [] s1 H1.
    apply (wp_frame_bind (writes untagged) (fun st => tags_defined (out st)));
      [exact Hresp | repeat writes_step | exact H1 | | auto].
    intros [] s2 H2. apply wp_get_bind.
    apply (wp_frame_bind (writes untagged) (fun st => tags_defined (out st)));
      [exact Hresp | repeat writes_step | exact H2 | | auto].
    intros [] s3 H3.
    apply (wp_frame_bind (writes untagged) (fun st => tags_defined (out st)));
      [exact Hresp | | exact H3 | | auto].
    { writes_step. apply generate_files_writes; intros; exact I. }
    intros [] s4 H4.
    eapply wp_seq with (Q1 := fun _ st => tags_defined (out st));
      [| | intros s' Hs'; exact Hs'].
    { destruct (reportmode_eqb (reportmode o) fast).
      - apply export_fast_tags. exact H4.
      - unfold export_canonical. cbv zeta.
        apply (wp_frame_bind (writes untagged) (fun st => tags_defined (out st)));
          [exact Hresp | apply check_sortable_writes | exact H4 | | auto].
        intros sortable s5 H5. apply export_history_tags; [exact Hfo | exact H5]. }
    intros [] s5 H5.
    apply (wp_frame_last (writes untagged) (fun st => tags_defined (out st)));
      [exact Hresp | | exact H5 | auto | auto].
    writes_step; [apply reset_heads_writes; intros; exact I |].
    repeat (writes_step; try exact I). }
  intros Heq. exact (Hrun pre t m post Heq).
Qed.

Lemma tag_resets_defined_witness :
  (0 < fromtime (Demo.mkopts canonical 0) -> force_dates (Demo.mkopts canonical 0) = false)
  /\ @stream Demo.collaborators Demo.forest Demo.tags (Demo.mkopts canonical 0)
     = firstn 9 (@stream Demo.collaborators Demo.forest Demo.tags (Demo.mkopts canonical 0))
       ++ ETagReset "v1" 2
       :: skipn 10 (@stream Demo.collaborators Demo.forest Demo.tags (Demo.mkopts canonical 0))
  /\ In 2 (defined
             (firstn 9 (@stream Demo.collaborators Demo.forest Demo.tags
                          (Demo.mkopts canonical 0)))).
Proof.
  assert (Hf : 0 < fromtime (Demo.mkopts canonical 0) ->
               force_dates (Demo.mkopts canonical 0) = false)
    by (intros _; reflexivity).
  assert (Hsplit :
    @stream Demo.collaborators Demo.forest Demo.tags (Demo.mkopts canonical 0)
    = firstn 9 (@stream Demo.collaborators Demo.forest Demo.tags (Demo.mkopts canonical 0))
      ++ ETagReset "v1" 2
      :: skipn 10 (@stream Demo.collaborators Demo.forest Demo.tags (Demo.mkopts canonical 0))).
  { vm_compute. reflexivity. }
  split; [exact Hf |]. split; [exact Hsplit |].
  exact (@tag_resets_defined Demo.collaborators Demo.forest Demo.tags
           (Demo.mkopts canonical 0) _ _ "v1" 2 Hf Hsplit).
Defined.

(** ** The resets of the branches refer to defined marks *)

Lemma resets_defined_app l evs :
  resets_defined l -> Forall unreset evs -> resets_defined (l ++ evs).
Proof.
  intros Hl Hevs pre prefix b m post Heq.
  rewrite List.Forall_forall in Hevs.
  apply List.app_eq_app in Heq as (x & [[H1 H2] | [H1 H2]]).
  - destruct x as [| e x].
    + simpl in H2.
      assert (Hin : In (EReset prefix b m) evs) by (rewrite <- H2; left; reflexivity).
      destruct (Hevs _ Hin).
    + simpl in H2. injection H2 as He Hx. subst e.
      apply (Hl pre prefix b m x). exact H1.
  - assert (Hin : In (EReset prefix b m) evs)
      by (rewrite H2; apply in_or_app; right; left; reflexivity).
    destruct (Hevs _ Hin).
Qed.

Lemma resets_defined_snoc l prefix b m :
  resets_defined l -> In m (defined l) -> resets_defined (l ++ [EReset prefix b m]).
Proof.
  intros Hl Hm pre prefix' b' m' post Heq.
  apply List.app_eq_app in Heq as (x & [[H1 H2] | [H1 H2]]).
  - destruct x as [| e x].
    + rewrite app_nil_r in H1. subst pre. simpl in H2. injection H2 as _ _ <- _. exact Hm.
    + simpl in H2. injection H2 as He Hx. subst e.
      apply (Hl pre prefix' b' m' x). exact H1.
  - destruct x as [| e x].
    + rewrite app_nil_r in H1. subst pre. simpl in H2. injection H2 as _ _ <- _. exact Hm.
    + simpl in H2. injection H2 as _ Hx. destruct x; discriminate.
Qed.

Lemma reset_frame_silent s s' :
  markmap s' = markmap s -> serial_f s' = serial_f s -> serial_c s' = serial_c s ->
  seqno s' = seqno s -> out s' = out s -> reset_frame s s'.
Proof.
  intros Hm Hf Hc Hq Ho. repeat (split; [assumption |]).
  exists []. rewrite Ho, app_nil_r. auto.
Qed.

Lemma reset_frame_refl s : reset_frame s s.
Proof. apply reset_frame_silent; reflexivity. Qed.

Lemma reset_frame_trans s1 s2 s3 : reset_frame s1 s2 -> reset_frame s2 s3 -> reset_frame s1 s3.
Proof.
  intros (Hm1 & Hf1 & Hc1 & Hq1 & e1 & Ho1 & He1) (Hm2 & Hf2 & Hc2 & Hq2 & e2 & Ho2 & He2).
  repeat (split; [congruence |]).
  exists (e1 ++ e2). split; [rewrite Ho2, Ho1, <- app_assoc; reflexivity |].
  apply List.Forall_app. auto.
Qed.

Lemma reset_frame_emit e : unreset e -> keeps reset_frame (emit e).
Proof.
  intros He s. repeat (split; [reflexivity |]).
  exists [e]. split; [reflexivity | repeat constructor; exact He].
Qed.

Ltac reset_frame_step :=
  lazymatch goal with
  | |- keeps reset_frame (emit _) => apply reset_frame_emit; exact I
  | |- keeps reset_frame _ =>
      keeps_step reset_frame_refl reset_frame_trans
        ltac:(apply reset_frame_silent; reflexivity)
  end.

Lemma marked_grow s s' i :
  markmap s' !! Z.to_nat i = markmap s !! Z.to_nat i ->
  (exists evs, out s' = out s ++ evs) ->
  marked s i -> marked s' i.
Proof.
  intros Hm (evs & Ho). unfold marked. rewrite Hm, Ho, defined_app.
  intros Hin. apply in_or_app. left. exact Hin.
Qed.

Section Resets.

Context `{Collaborators}.
Variable opts : export_options_t.

Lemma tag_ready_grow c s s' :
  serial_c s' = serial_c s ->
  markmap s' !! Z.to_nat (commit_serial s c) = markmap s !! Z.to_nat (commit_serial s c) ->
  (exists evs, out s' = out s ++ evs) ->
  tag_ready c opts s -> tag_ready c opts s'.
Proof.
  intros Hc Hm Ho [Hmk | Hlate]; [left | right; exact Hlate].
  unfold commit_serial in *. rewrite Hc. eapply marked_grow; eauto.
Qed.

Lemma ready_frame R seen s s' :
  reset_frame s s' -> ready opts R seen s -> ready opts R seen s'.
Proof.
  intros (Hm & Hf & Hc & Hq & evs & Ho & Hevs) (Hout & HR & Hfiles & Hseen).
  split; [rewrite Ho; apply resets_defined_app; assumption |].
  split; [rewrite Hq; exact HR |].
  split; [rewrite Hf; exact Hfiles |].
  intros c Hin. destruct (Hseen c Hin) as [Hr Hrd].
  unfold commit_serial in *. rewrite Hc, Hq. split; [exact Hr |].
  eapply tag_ready_grow; eauto. rewrite Hm. reflexivity.
Qed.

Lemma ready_out R seen s : ready opts R seen s -> resets_defined (out s).
Proof. intros [Hout _]. exact Hout. Qed.

(** An assignment to the slot of a file revision, with lines other
    than the reset of a branch. *)
Lemma ready_file_slot R seen s s' i m :
  ready opts R seen s ->
  0 <= i <= R ->
  markmap s' = <[Z.to_nat i := m]> (markmap s) ->
  serial_f s' = serial_f s -> serial_c s' = serial_c s -> seqno s' = seqno s ->
  (exists evs, out s' = out s ++ evs /\ Forall unreset evs) ->
  ready opts R seen s'.
Proof.
  intros (Hout & HR & Hfiles & Hseen) Hi Hm Hf Hc Hq (evs & Ho & Hevs).
  split; [rewrite Ho; apply resets_defined_app; assumption |].
  split; [rewrite Hq; exact HR |].
  split; [rewrite Hf; exact Hfiles |].
  intros c Hin. destruct (Hseen c Hin) as [Hr Hrd].
  unfold commit_serial in *. rewrite Hc, Hq. split; [exact Hr |].
  eapply tag_ready_grow; eauto.
  rewrite Hm. apply list_lookup_insert_ne. unfold commit_serial. lia.
Qed.

Lemma ship_blob_ready R seen report o s :
  ready opts R seen s ->
  wp (ship_blob report opts o)
     (fun _ => ready opts R seen) (fun s' => resets_defined (out s')) s.
Proof.
  intros Hs. unfold ship_blob.
  destruct o as [perm rev path | path]; [| exact Hs].
  apply wp_get_bind.
  destruct (bool_decide _); [exact Hs |].
  assert (Hslot : 0 <= file_serial s rev <= R).
  { destruct Hs as (_ & HR & Hfiles & _). unfold file_serial.
    destruct (serial_f s !! f_addr rev) as [v |] eqn:Hv; simpl; [eauto | lia]. }
  apply wp_when_bind; intros Hc.
  - apply wp_assoc. apply wp_next_mark_bind.
    apply wp_markmap_set_any; [| apply Hs].
    intros Hi.
    match goal with
    | |- wp _ _ _ ?st => assert (H1 : ready opts R seen st)
    end.
    { eapply (ready_file_slot R seen s _ (file_serial s rev)); eauto; try reflexivity.
      exists []. split; [symmetry; apply app_nil_r | constructor]. }
    apply (wp_frame_last reset_frame (ready opts R seen));
      [apply ready_frame | | exact H1 | auto | apply ready_out].
    repeat reset_frame_step.
  - apply (wp_frame_last reset_frame (ready opts R seen));
      [apply ready_frame | | exact Hs | auto | apply ready_out].
    rewrite Hc, andb_false_r. repeat reset_frame_step.
Qed.

Lemma print_fileop_reset_frame o : keeps reset_frame (print_fileop o).
Proof. unfold print_fileop. destruct o; repeat reset_frame_step. Qed.

Lemma display_date_marked_reset_frame c f : keeps reset_frame (display_date_marked c f).
Proof. unfold display_date_marked. repeat reset_frame_step. Qed.

Lemma tag_resets_reset_frame all_tags c : keeps reset_frame (tag_resets all_tags c opts).
Proof.
  unfold tag_resets. repeat (apply display_date_marked_reset_frame || reset_frame_step).
Qed.

Lemma check_sortable_reset_frame history : keeps reset_frame (check_sortable history).
Proof.
  induction history as [| hp rest IH]; simpl; [reset_frame_step |].
  destruct (younger_parent hp); [repeat reset_frame_step | exact IH].
Qed.

(** One callback: the serials of the file revisions stay at or below
    the current serial. *)
Lemma export_blob_ready node buf len s :
  ready opts (seqno s) [] s ->
  wp (export_blob node buf len opts)
     (fun _ s' => ready opts (seqno s') [] s') (fun s' => resets_defined (out s')) s.
Proof.
  intros (Hout & HR & Hfiles & _). unfold export_blob.
  apply wp_modify_bind.
  unfold wp at 1. unfold bind at 1. unfold seqno_next. simpl.
  destruct (MAX_SERIAL_T <=? seqno s + 1); [exact Hout |].
  apply wp_modify_bind.
  assert (Hfinal : forall st : state,
            seqno st = seqno s + 1 ->
            serial_f st = <[f_addr (node_commit node) := seqno s + 1]> (serial_f s) ->
            (exists evs, out st = out s ++ evs /\ Forall unreset evs) ->
            ready opts (seqno st) [] st).
  { intros st Hq Hf (evs & Ho & Hevs).
    split; [rewrite Ho; apply resets_defined_app; assumption |].
    split; [lia |]. split; [| intros c []].
    intros a v. rewrite Hf, Hq.
    destruct (decide (f_addr (node_commit node) = a)) as [<- | Hne].
    - rewrite lookup_insert_eq. intros [= <-]. lia.
    - rewrite lookup_insert_ne by exact Hne. intros Hv. apply Hfiles in Hv. lia. }
  destruct (reportmode_eqb (reportmode opts) fast).
  - apply wp_next_mark_bind. apply wp_markmap_set_any; [| exact Hout]. intros _.
    apply wp_emit_bind. apply wp_emit_bind.
    apply wp_when_bind; intros _; [apply wp_emit_bind |];
      apply wp_emit_bind; apply wp_modify_last;
      (apply Hfinal; [reflexivity | reflexivity |]); simpl;
      eexists; (split; [rewrite <- !app_assoc; reflexivity | repeat constructor]).
  - apply wp_modify_last. apply Hfinal; [reflexivity | reflexivity |].
    exists []. split; [symmetry; apply app_nil_r | constructor].
Qed.

(** A commit takes the serial after the current one; the slot of that
    serial gets its mark, which its record defines when it is
    reported. *)
Lemma export_commit_ready R seen commit branch report s :
  ready opts R seen s ->
  (forall c, In c seen -> c_addr c = c_addr commit -> c = commit) ->
  (report = false ->
   force_dates opts = false /\ date commit + RCS_EPOCH <= fromtime opts) ->
  wp (export_commit commit branch report opts)
     (fun _ => ready opts R (commit :: seen)) (fun s' => resets_defined (out s')) s.
Proof.
  intros Hs Hsame Hlate. unfold export_commit.
  apply (wp_frame_bind reset_frame (ready opts R seen));
    [apply ready_frame | repeat reset_frame_step | exact Hs | | apply ready_out].
  clear Hs. intros [] s0 H0. apply wp_get_bind. cbv zeta.
  eapply wp_seq with (Q1 := fun _ => ready opts R seen);
    [apply (wp_for_each (ready opts R seen)); [| exact H0] | | intros st Hst; exact Hst].
  { intros o st _ Hst. apply ship_blob_ready. exact Hst. }
  clear H0. intros [] s1 H1.
  destruct (match fullname (author commit) with
            | Some a => (full a, email a, default "UTC" (timezone a))
            | None => (author commit, author commit, "UTC")
            end) as [[who mail] tz].
  apply (wp_frame_bind reset_frame (ready opts R seen));
    [apply ready_frame | repeat reset_frame_step | exact H1 | | apply ready_out].
  clear H1. intros [] s2 H2.
  apply wp_modify_bind. apply wp_modify_bind. apply wp_next_mark_bind. apply wp_get_bind.
  match goal with
  | |- wp (bind (markmap_set ?i _) _) _ _ _ =>
      assert (Hcs : i = seqno s2 + 1)
        by (unfold commit_serial; simpl; rewrite lookup_insert_eq; reflexivity);
      rewrite Hcs; clear Hcs
  end.
  apply wp_markmap_set_any; [| apply H2].
  intros Hi. simpl in Hi.
  assert (Hnext : forall st : state,
            markmap st = <[Z.to_nat (seqno s2 + 1) := mark s2 + 1]> (markmap s2) ->
            serial_f st = serial_f s2 ->
            serial_c st = <[c_addr commit := seqno s2 + 1]> (serial_c s2) ->
            seqno st = seqno s2 + 1 ->
            (exists evs, out st = out s2 ++ evs /\ Forall unreset evs
                         /\ (report = true -> In (mark s2 + 1) (defined evs))) ->
            ready opts R (commit :: seen) st).
  { intros st Hm Hf Hc Hq (evs & Ho & Hevs & Hdef).
    destruct H2 as (Hout & HR & Hfiles & Hseen).
    split; [rewrite Ho; apply resets_defined_app; assumption |].
    split; [lia |]. split; [rewrite Hf; exact Hfiles |].
    assert (Hnew : R < commit_serial st commit <= seqno st /\ tag_ready commit opts st).
    { unfold commit_serial. rewrite Hc, lookup_insert_eq, Hq. simpl. split; [lia |].
      destruct report.
      - left. unfold marked, commit_serial. rewrite Hc, lookup_insert_eq, Hm. simpl.
        rewrite list_lookup_insert_eq by lia. simpl.
        rewrite Ho, defined_app. apply in_or_app. right. apply Hdef. reflexivity.
      - right. apply Hlate. reflexivity. }
    intros c [<- | Hin]; [exact Hnew |].
    destruct (Nat.eq_dec (c_addr c) (c_addr commit)) as [Heq | Hne].
    { rewrite (Hsame c Hin Heq). exact Hnew. }
    destruct (Hseen c Hin) as [Hr Hrd].
    assert (Hser : commit_serial st c = commit_serial s2 c).
    { unfold commit_serial. rewrite Hc, lookup_insert_ne by congruence. reflexivity. }
    rewrite Hser. split; [lia |].
    destruct Hrd as [Hmk | Hl]; [left | right; exact Hl].
    unfold marked in *. rewrite Hser, Hm, Ho.
    rewrite list_lookup_insert_ne by lia.
    rewrite defined_app. apply in_or_app. left. exact Hmk. }
  assert (Hrest : forall st (k : M unit),
            ready opts R (commit :: seen) st -> keeps reset_frame k ->
            wp k (fun _ => ready opts R (commit :: seen))
               (fun s' => resets_defined (out s')) st).
  { intros st k Hst Hk.
    apply (wp_frame_last reset_frame (ready opts R (commit :: seen)));
      [apply ready_frame | exact Hk | exact Hst | auto | apply ready_out]. }
  destruct report; simpl.
  - apply wp_emit_bind. apply Hrest.
    + apply Hnext; try reflexivity. simpl.
      exists [EMark (mark s2 + 1)]. split; [reflexivity |].
      split; [repeat constructor |]. intros _. left. reflexivity.
    + repeat (apply print_fileop_reset_frame || reset_frame_step).
  - apply wp_ret_bind. apply wp_ret_bind.
    apply Hnext; try reflexivity. simpl.
    exists []. split; [symmetry; apply app_nil_r |]. split; [constructor | discriminate].
Qed.

Variable rl : git_repo.
Hypothesis identified : commits_identified rl.

(** The commits exported so far are commits of the array. *)
Let known (seen : list git_commit) : Prop :=
  forall c, In c seen -> In c (map seq_commit (canonicalize rl)).

Lemma known_same seen hp c :
  known seen -> In (seq_commit hp) (map seq_commit (canonicalize rl)) ->
  In c seen -> c_addr c = c_addr (seq_commit hp) -> c = seq_commit hp.
Proof.
  intros Hknown Hhp Hc Ha.
  apply Hknown in Hc. apply in_map_iff in Hc as (hc & Ec & Hhc).
  apply in_map_iff in Hhp as (hp' & Ep & Hhp').
  rewrite <- Ec, <- Ep in *. apply identified; assumption.
Qed.

Lemma rounds_ready R all_tags l :
  forall seen s,
    ready opts R seen s -> known seen ->
    (forall hp, In hp l -> In (seq_commit hp) (map seq_commit (canonicalize rl))) ->
    wp (for_each l (fun hp =>
          export_commit (seq_commit hp) (ref_name (seq_head hp)) true opts ;;
          tag_resets all_tags (seq_commit hp) opts))
       (fun _ s' => ready opts R (rev (map seq_commit l) ++ seen) s')
       (fun s' => resets_defined (out s')) s.
Proof.
  induction l as [| hp l IH]; intros seen s Hs Hknown Hl; simpl; [exact Hs |].
  apply wp_assoc.
  eapply wp_seq with (Q1 := fun _ => ready opts R (seq_commit hp :: seen));
    [apply export_commit_ready; [exact Hs | | discriminate] | | intros st Hst; exact Hst].
  { intros c Hc Ha. apply (known_same seen hp c); auto. apply Hl. left. reflexivity. }
  intros [] s1 H1.
  apply (wp_frame_bind reset_frame (ready opts R (seq_commit hp :: seen)));
    [apply ready_frame | apply tag_resets_reset_frame | exact H1 | | apply ready_out].
  intros [] s2 H2. rewrite <- app_assoc. simpl.
  apply IH; [exact H2 | |].
  - intros c [<- | Hc]; [apply Hl; left; reflexivity | apply Hknown, Hc].
  - intros hp' Hhp'. apply Hl. right. exact Hhp'.
Qed.

Lemma export_history_ready R all_tags n :
  (0 < fromtime opts -> force_dates opts = false) ->
  forall history seen s,
    (n = length history) ->
    ready opts R seen s -> known seen ->
    (forall hp, In hp history -> In (seq_commit hp) (map seq_commit (canonicalize rl))) ->
    wp (export_history n history all_tags opts)
       (fun _ s' => ready opts R (rev (map seq_commit history) ++ seen) s')
       (fun s' => resets_defined (out s')) s.
Proof.
  intros Hf. induction n as [| n IH]; intros history seen s Hn Hs Hknown Hl;
    destruct history as [| hp rest]; simpl; try exact Hs; try discriminate Hn.
  apply wp_get_bind. cbv zeta.
  apply (wp_frame_bind reset_frame (ready opts R seen));
    [apply ready_frame | | exact Hs | | apply ready_out].
  { repeat (apply display_date_marked_reset_frame || reset_frame_step). }
  intros [] s1 H1.
  eapply wp_seq with (Q1 := fun _ => ready opts R (seq_commit hp :: seen));
    [apply export_commit_ready; [exact H1 | |] | | intros st Hst; exact Hst].
  { intros c Hc Ha. apply (known_same seen hp c); auto. apply Hl. left. reflexivity. }
  { intros Hrep. apply negb_false_iff in Hrep. apply andb_true_iff in Hrep as [Hcut Hlt].
    apply Z.ltb_lt in Hcut. apply Z.leb_le in Hlt.
    rewrite (Hf Hcut) in Hlt. split; [exact (Hf Hcut) | exact Hlt]. }
  intros [] s2 H2.
  apply (wp_frame_bind reset_frame (ready opts R (seq_commit hp :: seen)));
    [apply ready_frame | apply tag_resets_reset_frame | exact H2 | | apply ready_out].
  intros [] s3 H3.
  match goal with |- context [export_history n ?r] => set (rest' := r) end.
  assert (Hrest : map seq_commit rest' = map seq_commit rest).
  { subst rest'. destruct (_ && _ && _); [apply realize_commits | reflexivity]. }
  rewrite <- app_assoc. simpl. rewrite <- Hrest.
  apply IH; [| exact H3 | |].
  - simpl in Hn. injection Hn as Hn. rewrite Hn.
    rewrite <- (length_map seq_commit rest), <- Hrest, length_map. reflexivity.
  - intros c [<- | Hc]; [apply Hl; left; reflexivity | apply Hknown, Hc].
  - intros hp' Hhp'. apply in_map with (f := seq_commit) in Hhp'. rewrite Hrest in Hhp'.
    apply in_map_iff in Hhp' as (hp0 & Heq & Hhp0). rewrite <- Heq.
    apply Hl. right. exact Hhp0.
Qed.

(** The closing loop: a reset is written for a head whose commit is
    ready by the mark in its slot. *)
Lemma reset_heads_ready R seen s :
  ready opts R seen s ->
  (forall h c, In h (heads rl) -> ref_commit h = Some c -> In c seen) ->
  wp (reset_heads rl opts)
     (fun _ s' => resets_defined (out s')) (fun s' => resets_defined (out s')) s.
Proof.
  intros Hs Hheads. unfold reset_heads.
  eapply wp_mono;
    [apply (wp_for_each (ready opts R seen) (fun st => resets_defined (out st)));
       [| exact Hs]
    | intros [] st Hst; exact (ready_out _ _ _ Hst) | auto].
  intros h st Hh Hst.
  destruct (ref_commit h) as [c |] eqn:Hc; [| exact (ready_out _ _ _ Hst)].
  pose proof (Hheads h c Hh Hc) as Hseen.
  assert (Hwhen : forall d st',
            (force_dates opts = false -> d = date c + RCS_EPOCH) ->
            ready opts R seen st' ->
            wp (when (fromtime opts <? d)
                  (do s0 <- get;
                   do m <- markmap_get (commit_serial s0 c);
                   emit (EReset (branch_prefix opts) (ref_name h) m)))
               (fun _ => ready opts R seen) (fun s' => resets_defined (out s')) st').
  { intros d st' Hd Hst'. apply wp_when; intros Hb; [| exact Hst'].
    destruct Hst' as (Hout & HR & Hfiles & Hall).
    destruct (Hall c Hseen) as [_ [Hmk | [Hforce Hlate]]].
    2: { rewrite (Hd Hforce) in Hb. apply Z.ltb_lt in Hb. lia. }
    apply wp_get_bind. apply wp_markmap_get_any; [| exact Hout].
    apply wp_modify_last. simpl.
    split; [apply resets_defined_snoc; [exact Hout | exact Hmk] |].
    split; [exact HR |]. split; [exact Hfiles |].
    intros c' Hc'. destruct (Hall c' Hc') as [Hr Hrd]. split; [exact Hr |].
    eapply tag_ready_grow; [| | | exact Hrd]; try reflexivity.
    simpl. eexists. reflexivity. }
  unfold display_date_marked. destruct (force_dates opts) eqn:Hforce.
  - apply wp_assoc. apply wp_get_bind. apply wp_assoc.
    apply wp_markmap_get_any; [| exact (ready_out _ _ _ Hst)].
    apply wp_ret_bind. apply Hwhen; [intros Hx; congruence |].
    eapply ready_frame; [| exact Hst]. apply reset_frame_silent; reflexivity.
  - apply wp_ret_bind. apply Hwhen; [intros _; reflexivity | exact Hst].
Qed.

End Resets.

(** When an address holds one commit, the commit of every head is one
    of the exported commits, and the dates are not forced in an
    incremental export: the mark of every [reset <branch>] block of the
    stream is one that a record written strictly earlier defines,
    whether the run completes or stops early. *)
Theorem branch_resets_defined `{Collaborators}
    (forest : forest_t) (all_tags : list tag_t) (opts : export_options_t)
    (pre post : list event) (prefix b : string) (m : Z) :
  commits_identified (head forest) ->
  heads_converted (head forest) ->
  (0 < fromtime opts -> force_dates opts = false) ->
  stream forest all_tags opts = pre ++ EReset prefix b m :: post ->
  In m (defined pre).
Proof.
  intros Hident Hheads Hf.
  assert (Hrun : resets_defined (stream forest all_tags opts)).
  { unfold stream. apply (wp_final _ (fun s => resets_defined (out s))).
    unfold export_commits. cbv zeta.
    set (o := select_reportmode forest opts).
    set (rl := head forest) in *.
    assert (Hfo : 0 < fromtime o -> force_dates o = false).
    { subst o. rewrite select_reportmode_fromtime, select_reportmode_force_dates. exact Hf. }
    match goal with
    | |- wp (bind (when _ _) ?k) _ _ _ =>
        assert (Hrest : forall s0, seqno s0 = 0 -> serial_f s0 = ∅ -> out s0 = [] ->
                  wp (k tt) (fun _ s => resets_defined (out s))
                     (fun s => resets_defined (out s)) s0)
    end.
    2: { apply wp_when_bind; intros _.
         - apply wp_assoc. apply wp_modify_bind. apply wp_modify_bind.
           apply Hrest; reflexivity.
         - apply Hrest; reflexivity. }
    intros s0 Hseq0 Hsf0 Hout0. cbv beta.
    apply wp_modify_bind. apply wp_get_bind. apply wp_modify_bind.
    match goal with |- wp _ _ _ ?st => set (s1 := st) end.
    assert (H1 : ready o (seqno s1) [] s1).
    { subst s1. split; simpl.
      - rewrite Hout0. intros p q r t u Heq. destruct p; discriminate.
      - split; [lia |]. split; [| intros c []].
        intros a v Hv. cbn in Hv. rewrite Hsf0, lookup_empty in Hv. discriminate Hv. }
    clearbody s1.
    eapply wp_seq with (Q1 := fun _ st => ready o (seqno st) [] st);
      [| | intros st Hst; exact Hst].
    { apply (wp_for_each (fun st => ready o (seqno st) [] st)); [| exact H1].
      intros gp st _ Hst. unfold generate_files.
      apply (wp_for_each (fun st => ready o (seqno st) [] st)); [| exact Hst].
      intros nd st' _ Hst'. apply export_blob_ready. exact Hst'. }
    intros [] s2 H2.
    eapply wp_seq with
      (Q1 := fun _ st => exists seen, ready o (seqno s2) seen st
               /\ forall c, In c (map seq_commit (canonicalize rl)) -> In c seen);
      [| | intros st Hst; exact Hst].
    { destruct (reportmode_eqb (reportmode o) fast) eqn:Hmode.
      - eapply wp_ext; [apply export_fast_flat |].
        eapply wp_mono;
          [apply (rounds_ready o rl Hident (seqno s2) all_tags _ [] s2 H2)
          | | intros st Hst; exact Hst].
        + intros c [].
        + intros hp Hhp. apply in_map. exact Hhp.
        + simpl. intros [] st Hst. eexists. split; [exact Hst |].
          intros c Hc. apply in_or_app. left. apply in_rev. rewrite rev_involutive. exact Hc.
      - eapply wp_run_eq; [apply export_canonical_order; exact Hmode |].
        pose proof (export_order_commits rl o) as Hperm.
        eapply wp_mono;
          [apply (export_history_ready o rl Hident (seqno s2) all_tags _ Hfo
                    (export_order rl o) [] _ eq_refl)
          | | intros st Hst; exact Hst].
        + destruct (sortable _); [exact H2 |].
          eapply ready_frame; [| exact H2]. apply reset_frame_silent; reflexivity.
        + intros c [].
        + intros hp Hhp. eapply Permutation_in; [exact Hperm |]. apply in_map. exact Hhp.
        + simpl. intros [] st Hst. eexists. split; [exact Hst |].
          intros c Hc. apply in_or_app. left. apply in_rev. rewrite rev_involutive.
          eapply Permutation_in; [apply Permutation_sym; exact Hperm | exact Hc]. }
    intros [] s3 (seen & H3 & Hall).
    eapply wp_seq with (Q1 := fun _ st => resets_defined (out st));
      [apply (reset_heads_ready o rl (seqno s2) seen); [exact H3 |]
      | | intros st Hst; exact Hst].
    { intros h c Hh Hc. apply Hall. exact (Hheads h c Hh Hc). }
    intros [] s4 H4.
    eapply (wp_frame_last (writes unreset) (fun s => resets_defined (out s)));
      [| | exact H4 | auto | auto].
    - intros sa sb (evs & Ho & Hevs) Hsa. rewrite Ho.
      apply resets_defined_app; assumption.
    - repeat (writes_step; try exact I). }
  intros Heq. exact (Hrun pre prefix b m post Heq).
Qed.

Lemma branch_resets_defined_witness :
  commits_identified (head Demo.forest)
  /\ heads_converted (head Demo.forest)
  /\ In 5 (defined
             (firstn 23 (@stream Demo.collaborators Demo.forest Demo.tags
                           (Demo.mkopts canonical 0)))).
Proof.
  assert (Hident : commits_identified (head Demo.forest)).
  { intros hp hp' Hhp Hhp' Ha. vm_compute in Hhp, Hhp'.
    destruct Hhp as [<- | [<- | []]]; destruct Hhp' as [<- | [<- | []]];
      vm_compute in Ha; try discriminate Ha; reflexivity. }
  assert (Hheads : heads_converted (head Demo.forest)).
  { intros h c Hh Hc. vm_compute in Hh. destruct Hh as [<- | []].
    vm_compute in Hc. injection Hc as <-. vm_compute. tauto. }
  assert (Hf : 0 < fromtime (Demo.mkopts canonical 0) ->
               force_dates (Demo.mkopts canonical 0) = false)
    by (intros _; reflexivity).
  assert (Hsplit :
    @stream Demo.collaborators Demo.forest Demo.tags (Demo.mkopts canonical 0)
    = firstn 23 (@stream Demo.collaborators Demo.forest Demo.tags (Demo.mkopts canonical 0))
      ++ EReset "refs/heads/" "master" 5
      :: skipn 24 (@stream Demo.collaborators Demo.forest Demo.tags (Demo.mkopts canonical 0))).
  { vm_compute. reflexivity. }
  split; [exact Hident |]. split; [exact Hheads |].
  exact (@branch_resets_defined Demo.collaborators Demo.forest Demo.tags
           (Demo.mkopts canonical 0) _ _ "refs/heads/" "master" 5
           Hident Hheads Hf Hsplit).
Defined.

(** ** The revision map *)

Lemma cat_app (l1 l2 : list string) : cat (l1 ++ l2) = String.append (cat l1) (cat l2).
Proof.
  unfold cat. induction l1 as [| a l1 IH]; [reflexivity |].
  cbn [fold_right app]. rewrite IH. apply append_assoc.
Qed.

Lemma revmap_text_app here (a b : string) :
  revmap_text here (String.append a b)
  = String.append (revmap_text here a) (revmap_text here b).
Proof.
  induction a as [| c a IH]; [reflexivity |].
  rewrite append_cons. cbn [revmap_text]. rewrite IH.
  destruct (Ascii.eqb c "010"%char).
  - rewrite <- !append_assoc. rewrite append_cons. reflexivity.
  - rewrite append_cons. reflexivity.
Qed.

Lemma revmap_text_one_line here (s : string) :
  one_line s = true -> revmap_text here s = s.
Proof.
  induction s as [| c s IH]; [reflexivity |].
  cbn [one_line revmap_text]. intros Hs. apply andb_true_iff in Hs as [Hc Hs].
  apply negb_true_iff in Hc. rewrite Hc, (IH Hs). reflexivity.
Qed.

Section RevisionMap.

Context `{Collaborators}.
Variable opts : export_options_t.

Lemma revmap_text_newline here :
  revmap_text here newline
  = String.append (String.append " :" (print_decimal here)) newline.
Proof. reflexivity. Qed.

Lemma revpairs_of_cons perm cc path (ops : list fileop) :
  revpairs_of opts (Modify perm cc path :: ops)
  = String.append
      (cat [if embed_ids opts then "CVS-ID: " else EmptyString;
            stringify_revision (name (master cc)) " " (number cc); newline])
      (revpairs_of opts ops).
Proof. unfold revpairs_of. exact (cat_app [_; _; _] _). Qed.

Lemma revmap_lines_cons here cc (revs : list cvs_commit) :
  revmap_lines opts here (cc :: revs)
  = String.append
      (cat [if embed_ids opts then "CVS-ID: " else EmptyString;
            stringify_revision (name (master cc)) " " (number cc);
            " :"; print_decimal here; newline])
      (revmap_lines opts here revs).
Proof. unfold revmap_lines. exact (cat_app [_; _; _; _; _] _). Qed.

(** The loop that writes the revision map puts the mark at the end of
    each revision pair. *)
Lemma revmap_text_pairs here (ops : list fileop) :
  (forall cc, In cc (op_revs ops) ->
     one_line (stringify_revision (name (master cc)) " " (number cc)) = true) ->
  revmap_text here (revpairs_of opts ops) = revmap_lines opts here (op_revs ops).
Proof.
  induction ops as [| o ops IH]; intros Hone; [reflexivity |].
  destruct o as [perm cc path | path].
  - change (op_revs (Modify perm cc path :: ops)) with (cc :: op_revs ops) in *.
    rewrite revpairs_of_cons, revmap_lines_cons, revmap_text_app.
    rewrite IH by (intros c Hc; apply Hone; right; exact Hc).
    f_equal. unfold cat. cbn [fold_right].
    rewrite !revmap_text_app, revmap_text_newline.
    rewrite (revmap_text_one_line here (if embed_ids opts then "CVS-ID: " else EmptyString))
      by (destruct (embed_ids opts); reflexivity).
    rewrite (revmap_text_one_line here (stringify_revision (name (master cc)) " " (number cc)))
      by (apply Hone; left; reflexivity).
    f_equal. f_equal.
    change (revmap_text here EmptyString) with EmptyString.
    rewrite !append_nil_r, <- append_assoc. reflexivity.
  - change (op_revs (Delete path :: ops)) with (op_revs ops) in *.
    change (revpairs_of opts (Delete path :: ops)) with (revpairs_of opts ops).
    apply IH. exact Hone.
Qed.

Lemma revpairs_of_empty (ops : list fileop) :
  (0 <? strlen (revpairs_of opts ops))
  = match op_revs ops with [] => false | _ :: _ => true end.
Proof.
  induction ops as [| o ops IH]; [reflexivity |].
  destruct o as [perm cc path | path].
  - change (op_revs (Modify perm cc path :: ops)) with (cc :: op_revs ops).
    rewrite revpairs_of_cons. unfold strlen, cat. cbn [fold_right].
    rewrite !length_append. change (String.length newline) with 1%nat.
    apply Z.ltb_lt. lia.
  - exact IH.
Qed.

Lemma revmap_same_refl (s : state) : revmap s = revmap s.
Proof. reflexivity. Qed.

Lemma revmap_same_trans (s1 s2 s3 : state) :
  revmap s2 = revmap s1 -> revmap s3 = revmap s2 -> revmap s3 = revmap s1.
Proof. congruence. Qed.

Lemma revmap_frame_refl s : revmap_frame s s.
Proof. split; reflexivity. Qed.

Lemma revmap_frame_trans s1 s2 s3 :
  revmap_frame s1 s2 -> revmap_frame s2 s3 -> revmap_frame s1 s3.
Proof. intros [? ?] [? ?]. split; congruence. Qed.

Ltac revmap_same_step :=
  lazymatch goal with
  | |- keeps _ (emit _) => apply keeps_modify; intros ?; reflexivity
  | |- _ => keeps_step revmap_same_refl revmap_same_trans ltac:(reflexivity)
  end.

Ltac revmap_frame_step :=
  lazymatch goal with
  | |- keeps _ (emit _) => apply keeps_modify; intros ?; split; reflexivity
  | |- _ => keeps_step revmap_frame_refl revmap_frame_trans ltac:(split; reflexivity)
  end.

Lemma ship_blob_revmap report o :
  keeps (fun s s' => revmap s' = revmap s) (ship_blob report opts o).
Proof. unfold ship_blob. destruct o; repeat revmap_same_step. Qed.

Lemma export_commit_revmap commit branch :
  keeps (fun s s' => revmap s' = revmap s) (export_commit commit branch false opts).
Proof.
  unfold export_commit. simpl.
  repeat (revmap_same_step || apply ship_blob_revmap).
Qed.

Lemma print_fileop_revmap_frame o : keeps revmap_frame (print_fileop o).
Proof. unfold print_fileop. destruct o; repeat revmap_frame_step. Qed.

(** When a revision map is kept, a commit that is reported and has an
    [M] operation adds exactly one entry to the map: one line for each
    file revision that the commit has an [M] operation for, in the
    order in which the operations are collected, each line being the
    revision pair followed by the mark of the commit.  A commit without
    an [M] operation, or one that is not reported, leaves the map as it
    is. *)
Theorem revision_map_entry (commit : git_commit) (branch : string) (report : bool)
    (s s' : state) :
  revision_map opts = true ->
  (forall cc, In cc (file_list commit) ->
     one_line (stringify_revision (name (master cc)) " " (number cc)) = true) ->
  export_commit commit branch report opts s = Ok tt s' ->
  revmap s'
  = revmap s
    ++ (if report
        then match modified_revs commit s with
             | [] => []
             | _ :: _ => [revmap_lines opts (mark s') (modified_revs commit s)]
             end
        else []).
Proof.
  intros Hmap Hone Hrun.
  destruct report.
  2: { rewrite app_nil_r.
       pose proof (export_commit_revmap commit branch s) as Hs.
       apply (wp_ok _ _ _ _ _ _ Hs Hrun). }
  refine (wp_ok _ (fun _ st =>
            revmap st
            = revmap s ++ match modified_revs commit s with
                          | [] => []
                          | _ :: _ => [revmap_lines opts (mark st) (modified_revs commit s)]
                          end)
            (fun _ => True) s tt s' _ Hrun).
  unfold export_commit.
  assert (Hlinked : forall (k : unit -> M unit) Q E,
            wp (k tt) Q E (linked commit s) ->
            wp (bind (match parent commit with
                      | Some p =>
                          modify (fun st =>
                            with_other (compute_parent_links commit p (other st)) st)
                      | None => ret tt
                      end) k) Q E s).
  { intros k Q E Hk. unfold linked in Hk. destruct (parent commit); exact Hk. }
  apply Hlinked. clear Hlinked.
  assert (H0 : revmap (linked commit s) = revmap s)
    by (unfold linked; destruct (parent commit); reflexivity).
  unfold modified_revs.
  set (s0 := linked commit s) in *. clearbody s0.
  assert (Hresp1 : forall a b : state, revmap b = revmap a ->
            revmap a = revmap s -> revmap b = revmap s) by (intros; congruence).
  apply wp_get_bind. cbv zeta.
  set (ops := commit_fileops s0 commit).
  assert (Hrevs : forall cc, In cc (op_revs ops) -> In cc (file_list commit)).
  { intros cc Hcc. unfold op_revs in Hcc. apply in_flat_map in Hcc as (o & Ho & Hcc).
    apply commit_fileops_In in Ho as (cc' & Hin & ->).
    destruct Hcc as [<- | []]. exact Hin. }
  apply (wp_frame_bind (fun a b => revmap b = revmap a) (fun st => revmap st = revmap s));
    [exact Hresp1 | revmap_same_step; apply ship_blob_revmap | exact H0 | | auto].
  intros [] s1 H1.
  destruct (match fullname (author commit) with
            | Some a => (full a, email a, default "UTC" (timezone a))
            | None => (author commit, author commit, "UTC")
            end) as [[who mail] tz].
  apply wp_when_bind; [intros _ | discriminate].
  apply wp_emit_bind. apply wp_modify_bind. apply wp_modify_bind.
  apply wp_next_mark_bind. apply wp_get_bind.
  apply wp_markmap_set_any; [| exact I]. intros _.
  apply wp_when_bind; [intros _ | discriminate]. apply wp_emit_bind.
  set (here := mark s1 + 1).
  assert (Hresp2 : forall a b : state, revmap_frame a b ->
            revmap a = revmap s /\ mark a = here -> revmap b = revmap s /\ mark b = here).
  { intros a b [Hr Hm] [Ha1 Ha2]. split; congruence. }
  apply wp_when_bind; [intros _ | discriminate]. cbv zeta.
  apply wp_assoc.
  apply (wp_frame_bind revmap_frame (fun st => revmap st = revmap s /\ mark st = here));
    [exact Hresp2 | repeat revmap_frame_step | split; [exact H1 | reflexivity] | | auto].
  intros [] s2 H2. apply wp_assoc.
  apply (wp_frame_bind revmap_frame (fun st => revmap st = revmap s /\ mark st = here));
    [exact Hresp2 | repeat revmap_frame_step | exact H2 | | auto].
  intros [] s3 H3. apply wp_assoc.
  apply (wp_frame_bind revmap_frame (fun st => revmap st = revmap s /\ mark st = here));
    [exact Hresp2 | repeat revmap_frame_step | exact H3 | | auto].
  intros [] s4 H4. apply wp_assoc.
  apply (wp_frame_bind revmap_frame (fun st => revmap st = revmap s /\ mark st = here));
    [exact Hresp2 | revmap_frame_step; apply print_fileop_revmap_frame | exact H4 | | auto].
  intros [] s5 H5. apply wp_assoc. apply wp_get_bind. apply wp_assoc.
  apply (wp_frame_bind revmap_frame (fun st => revmap st = revmap s /\ mark st = here));
    [exact Hresp2 | repeat revmap_frame_step | exact H5 | | auto].
  intros [] s6 [H6 Hm6].
  assert (Hwants : wants_revpairs opts = true).
  { unfold wants_revpairs. rewrite Hmap. destruct (reposurgeon opts); reflexivity. }
  rewrite Hwants, Hmap, revpairs_of_empty. fold ops. cbn [andb].
  destruct (op_revs ops) as [| cc revs] eqn:Hops.
  - apply wp_when_bind; [discriminate | intros _].
    apply wp_when; [intros _ | discriminate]. apply wp_modify_last.
    rewrite app_nil_r. exact H6.
  - apply wp_when_bind; [intros _ | discriminate]. apply wp_assoc.
    apply wp_when_bind; [intros _ | discriminate]. apply wp_modify_bind.
    apply (wp_frame_last revmap_frame
             (fun st => revmap st = revmap s ++ [revmap_text here (revpairs_of opts ops)]
                        /\ mark st = here)).
    + intros a b [Hr Hm] [Ha1 Ha2]. split; congruence.
    + repeat revmap_frame_step.
    + split; [simpl; rewrite H6; reflexivity | exact Hm6].
    + intros [] st [Hr Hm].
      rewrite Hr, Hm, revmap_text_pairs, Hops; [reflexivity |].
      intros c Hc. apply Hone, Hrevs. rewrite <- Hops. exact Hc.
    + auto.
Qed.

End RevisionMap.

Lemma revision_map_entry_witness :
  modified_revs (H := Demo.collaborators) Demo.c1
    (with_markmap (replicate 6 0) (with_seqno 3 init_state)) = [Demo.readme1]
  /\ revmap (final (@export_commit Demo.collaborators Demo.c1 "master" true Demo.mapped
                      (with_markmap (replicate 6 0) (with_seqno 3 init_state))))
     = revmap (with_markmap (replicate 6 0) (with_seqno 3 init_state))
       ++ match modified_revs (H := Demo.collaborators) Demo.c1
                  (with_markmap (replicate 6 0) (with_seqno 3 init_state)) with
          | [] => []
          | _ :: _ =>
              [@revmap_lines Demo.collaborators Demo.mapped
                 (mark (final (@export_commit Demo.collaborators Demo.c1 "master" true
                                 Demo.mapped
                                 (with_markmap (replicate 6 0)
                                    (with_seqno 3 init_state)))))
                 (modified_revs (H := Demo.collaborators) Demo.c1
                    (with_markmap (replicate 6 0) (with_seqno 3 init_state)))]
          end.
Proof.
  split; [reflexivity |].
  apply (@revision_map_entry Demo.collaborators Demo.mapped Demo.c1 "master" true).
  - reflexivity.
  - intros cc Hcc. vm_compute in Hcc. destruct Hcc as [<- | []]. vm_compute. reflexivity.
  - vm_compute. reflexivity.
Defined.

(** ** The content of the blobs *)

Lemma has_blob_app l evs m t : has_blob l m t -> has_blob (l ++ evs) m t.
Proof.
  intros (pre & body & post & Hl & Ht).
  exists pre, body, (post ++ evs). split; [| exact Ht].
  rewrite Hl. rewrite <- !app_assoc. simpl. rewrite <- app_assoc. reflexivity.
Qed.

Lemma has_blob_new l m body t evs :
  cat (map render body) = t -> has_blob (l ++ EBlobMark m :: body ++ evs) m t.
Proof. intros Ht. exists l, body, evs. auto. Qed.

Lemma contents_ok_app nodes exported l evs :
  contents_ok nodes exported l -> Forall unmodifying evs -> contents_ok nodes exported (l ++ evs).
Proof.
  intros Hl Hevs pre perm m path post Heq.
  rewrite List.Forall_forall in Hevs.
  apply List.app_eq_app in Heq as (x & [[H1 H2] | [H1 H2]]).
  - destruct x as [| e x].
    + simpl in H2.
      assert (Hin : In (EModify perm m path) evs) by (rewrite <- H2; left; reflexivity).
      destruct (Hevs _ Hin).
    + simpl in H2. injection H2 as He Hx. subst e.
      apply (Hl pre perm m path x). exact H1.
  - assert (Hin : In (EModify perm m path) evs)
      by (rewrite H2; apply in_or_app; right; left; reflexivity).
    destruct (Hevs _ Hin).
Qed.

Lemma contents_ok_snoc nodes exported l perm m path nd :
  contents_ok nodes exported l -> In nd nodes -> exported (node_commit nd) ->
  perm = fileop_mode (mode (master (node_commit nd))) ->
  path = fileop_name (name (master (node_commit nd))) ->
  has_blob l m (node_text nd) ->
  contents_ok nodes exported (l ++ [EModify perm m path]).
Proof.
  intros Hl Hnd Hexp Hperm Hpath Hblob pre perm' m' path' post Heq.
  apply List.app_eq_app in Heq as (x & [[H1 H2] | [H1 H2]]).
  - destruct x as [| e x].
    + rewrite app_nil_r in H1. subst pre. simpl in H2. injection H2 as <- <- <- _.
      exists nd. auto.
    + simpl in H2. injection H2 as He Hx. subst e.
      apply (Hl pre perm' m' path' x). exact H1.
  - destruct x as [| e x].
    + rewrite app_nil_r in H1. subst pre. simpl in H2. injection H2 as <- <- <- _.
      exists nd. auto.
    + simpl in H2. injection H2 as _ Hx. destruct x; discriminate.
Qed.

Lemma free_unmodifying e : free e -> unmodifying e.
Proof. destruct e; simpl; auto. intros Hf. discriminate Hf. Qed.

Lemma holds_frame s s' v t :
  markmap s' !! Z.to_nat v = markmap s !! Z.to_nat v ->
  (exists evs, out s' = out s ++ evs) ->
  holds s v t -> holds s' v t.
Proof.
  intros Hm (evs & Ho). unfold holds. rewrite Hm, Ho. apply has_blob_app.
Qed.

(** The steps that leave the slots, the serials and the blobs alone. *)
Lemma content_inv_frame canon nodes s s' :
  markmap s' = markmap s -> serial_f s' = serial_f s ->
  emitted s' = emitted s -> blobs s' = blobs s ->
  (exists evs, out s' = out s ++ evs) ->
  content_inv canon nodes s -> content_inv canon nodes s'.
Proof.
  intros Hm Hsf Hem Hb Ho Hinv a v Hv. rewrite Hsf in Hv.
  destruct (Hinv a v Hv) as (nd & Hnd & Ha & Hfile & Hrec).
  exists nd. split; [exact Hnd |]. split; [exact Ha |]. rewrite Hem, Hb.
  split; [exact Hfile |].
  intros Hcase. eapply holds_frame; [rewrite Hm; reflexivity | exact Ho | auto].
Qed.

Lemma content_ok_frame canon nodes exported s s' :
  mark_frame s s' -> content_ok canon nodes exported s -> content_ok canon nodes exported s'.
Proof.
  intros (Hm & Hsf & _ & _ & Hem & Hb & evs & Ho & Hfree) [Hout Hinv]. split.
  - rewrite Ho. apply contents_ok_app; [exact Hout |].
    eapply List.Forall_impl; [| exact Hfree]. exact free_unmodifying.
  - eapply content_inv_frame; eauto.
Qed.

(** An assignment to a slot that is not the slot of a file revision. *)
Lemma content_inv_slot canon nodes s s' i m :
  markmap s' = <[Z.to_nat i := m]> (markmap s) ->
  serial_f s' = serial_f s -> emitted s' = emitted s -> blobs s' = blobs s ->
  (exists evs, out s' = out s ++ evs) ->
  0 <= i ->
  (forall a v, serial_f s !! a = Some v -> 0 <= v /\ v <> i) ->
  content_inv canon nodes s -> content_inv canon nodes s'.
Proof.
  intros Hm Hsf Hem Hb Ho Hi Hfar Hinv a v Hv. rewrite Hsf in Hv.
  destruct (Hinv a v Hv) as (nd & Hnd & Ha & Hfile & Hrec).
  exists nd. split; [exact Hnd |]. split; [exact Ha |]. rewrite Hem, Hb.
  split; [exact Hfile |].
  intros Hcase. eapply holds_frame; [| exact Ho | auto].
  rewrite Hm. apply list_lookup_insert_ne.
  destruct (Hfar a v Hv). lia.
Qed.

Lemma render_blob_text buf len extralen :
  cat (map render
         (EData (len + extralen)
          :: (if 0 <? extralen then [ERaw CVS_IGNORES] else [])
             ++ [ERaw buf; ERaw newline]))
  = blob_text buf len extralen.
Proof.
  unfold blob_text. destruct (0 <? extralen); unfold cat; cbn [map app fold_right render];
    unfold cat; cbn [fold_right]; rewrite ?append_nil_r, <- ?append_assoc;
    reflexivity.
Qed.

Section Contents.

Context `{Collaborators}.
Variable opts : export_options_t.
Variable canon : bool.
Hypothesis canon_mode : reportmode opts = if canon then canonical else fast.
Variable nodes : list node_t.
Variable exported : cvs_commit -> Prop.

(** One callback: the text of the file revision goes to its blob file
    (canonical mode) or to a blob record (fast mode). *)
Lemma export_blob_content gen node s :
  In node nodes ->
  blob_marks false canon gen s ->
  content_ok canon nodes exported s ->
  wp (export_blob node (node_buf node) (strlen (node_buf node)) opts)
     (fun _ s' => content_ok canon nodes exported s')
     (fun s' => contents_ok nodes exported (out s')) s.
Proof.
  intros Hnode [Hinv Hem] [Hout Hcont].
  pose proof (mi_range _ _ _ _ _ _ Hinv) as Hrange.
  unfold export_blob.
  apply wp_modify_bind.
  unfold wp at 1. unfold bind at 1. unfold seqno_next. simpl.
  destruct (MAX_SERIAL_T <=? seqno s + 1); [exact Hout |].
  apply wp_modify_bind.
  set (n := seqno s + 1).
  set (a := f_addr (node_commit node)).
  set (extralen := if String.eqb (name (master (node_commit node))) ".cvsignore"
                   then strlen CVS_IGNORES else 0).
  rewrite (mode_fast opts canon canon_mode). destruct canon eqn:Hcanon; simpl.
  - (* canonical: the text goes to the blob file *)
    split; [exact Hout |].
    intros a' v Hv. simpl in Hv.
    destruct (decide (a = a')) as [<- | Hne].
    + rewrite lookup_insert_eq in Hv. injection Hv as <-.
      exists node. split; [exact Hnode |]. split; [reflexivity |]. simpl. split.
      * intros _ _. rewrite lookup_insert_eq. reflexivity.
      * intros [Hc | Hin]; [discriminate Hc |].
        rewrite Hem in Hin. destruct (not_elem_of_empty (C := gset nat) a Hin).
    + rewrite lookup_insert_ne in Hv by exact Hne.
      destruct (Hcont a' v Hv) as (nd & Hnd & Ha & Hfile & Hrec).
      exists nd. split; [exact Hnd |]. split; [exact Ha |]. simpl. split.
      * intros Hc Hnin. rewrite lookup_insert_ne; [apply Hfile; assumption |].
        apply Hrange in Hv. subst n. lia.
      * intros [Hc | Hin]; [discriminate Hc |].
        rewrite Hem in Hin. destruct (not_elem_of_empty (C := gset nat) a' Hin).
  - (* fast: the text goes to a blob record *)
    apply wp_next_mark_bind.
    apply wp_markmap_set_any; [| exact Hout].
    intros Hi. simpl in Hi. apply wp_emit_bind. apply wp_emit_bind.
    assert (Hfinal : forall st : state,
              markmap st = <[Z.to_nat n := mark s + 1]> (markmap s) ->
              serial_f st = <[a := n]> (serial_f s) ->
              emitted st = emitted s -> blobs st = blobs s ->
              out st = out s ++ EBlobMark (mark s + 1)
                                :: (EData (strlen (node_buf node) + extralen)
                                    :: (if 0 <? extralen then [ERaw CVS_IGNORES] else [])
                                       ++ [ERaw (node_buf node); ERaw newline]) ++ [] ->
              content_ok false nodes exported st).
    { intros st Hm Hsf Hemst Hb Ho. split.
      - rewrite Ho. apply contents_ok_app; [exact Hout |].
        destruct (0 <? extralen); repeat constructor.
      - intros a' v Hv. rewrite Hsf in Hv.
        destruct (decide (a = a')) as [<- | Hne].
        + rewrite lookup_insert_eq in Hv. injection Hv as <-.
          exists node. split; [exact Hnode |]. split; [reflexivity |].
          split; [intros Hc; discriminate Hc |].
          intros _. unfold holds. rewrite Hm, Ho.
          rewrite list_lookup_insert_eq by lia. simpl.
          exact (has_blob_new (out s) (mark s + 1) _ _ []
                   (render_blob_text (node_buf node) (strlen (node_buf node)) extralen)).
        + rewrite lookup_insert_ne in Hv by exact Hne.
          destruct (Hcont a' v Hv) as (nd & Hnd & Ha & Hfile & Hrec).
          exists nd. split; [exact Hnd |]. split; [exact Ha |].
          split; [intros Hc; discriminate Hc |].
          intros _. eapply holds_frame; [| eexists; exact Ho | apply Hrec; left; reflexivity].
          rewrite Hm. apply list_lookup_insert_ne.
          apply Hrange in Hv. subst n. lia. }
    destruct (0 <? extralen) eqn:Hextra.
    + apply wp_when_bind; [intros _ | discriminate].
      apply wp_emit_bind. apply wp_emit_bind. apply wp_modify_last.
      apply Hfinal; try reflexivity.
      simpl. rewrite <- !app_assoc. reflexivity.
    + apply wp_when_bind; [discriminate | intros _].
      apply wp_emit_bind. apply wp_modify_last.
      apply Hfinal; try reflexivity.
      simpl. rewrite <- !app_assoc. reflexivity.
Qed.

(** The blob of an operation is shipped: its text leaves the blob file
    for a blob record whose mark is in the slot of its serial. *)
Lemma ship_blob_content R gen seen report o s :
  mark_inv false canon R gen seen s ->
  (forall a, In a (modified [o]) -> In a gen) ->
  content_ok canon nodes exported s ->
  wp (ship_blob report opts o)
     (fun _ s' => content_ok canon nodes exported s')
     (fun s' => contents_ok nodes exported (out s')) s.
Proof.
  intros Hinv Hop [Hout Hcont]. unfold ship_blob.
  destruct o as [perm rev path | path]; [| split; assumption].
  destruct (mark_inv_file _ _ _ _ _ _ _ Hinv (Hop _ (or_introl eq_refl)))
    as (v & Hv & Hfs & Hrange).
  pose proof (mi_inj _ _ _ _ _ _ Hinv) as Hinj.
  pose proof (mi_range _ _ _ _ _ _ Hinv) as Hranges.
  apply wp_get_bind.
  destruct (bool_decide (f_addr rev ∈ emitted s)) eqn:Hem; [split; assumption |].
  apply bool_decide_eq_false in Hem.
  rewrite (mode_canonical opts canon canon_mode), Hfs.
  apply wp_when_bind; intros Hc.
  2: { apply wp_when; intros Hrc; [| split; assumption].
       rewrite Hc, andb_false_r in Hrc. discriminate Hrc. }
  destruct (Hcont _ _ Hv) as (nd & Hnd & Ha & Hfile & _).
  specialize (Hfile Hc Hem).
  apply wp_assoc. apply wp_next_mark_bind.
  apply wp_markmap_set_any; [| exact Hout].
  intros Hi. simpl in Hi.
  assert (Hothers : forall st : state,
            markmap st = <[Z.to_nat v := mark s + 1]> (markmap s) ->
            serial_f st = serial_f s ->
            (exists evs, out st = out s ++ evs) ->
            forall a' v', a' <> f_addr rev -> serial_f s !! a' = Some v' ->
              forall t, holds s v' t -> holds st v' t).
  { intros st Hm Hsf Ho a' v' Hne Hv' t Ht.
    eapply holds_frame; [| exact Ho | exact Ht].
    rewrite Hm. apply list_lookup_insert_ne.
    pose proof (Hranges _ _ Hv'). intros Heq.
    assert (v = v') by lia. subst v'. apply Hne. eapply Hinj; eauto. }
  apply wp_when; intros Hrc.
  - apply wp_get_bind. unfold file_serial. simpl. rewrite Hv. simpl. rewrite Hfile.
    apply wp_emit_bind. apply wp_emit_bind. apply wp_modify_bind. apply wp_modify_last.
    split; simpl.
    + rewrite <- app_assoc. apply contents_ok_app; [exact Hout | repeat constructor].
    + intros a' v' Hv'. simpl in Hv'.
      destruct (decide (a' = f_addr rev)) as [-> | Hne].
      * assert (v' = v) by congruence. subst v'.
        exists nd. split; [exact Hnd |]. split; [exact Ha |]. simpl. split.
        -- intros _ Hnin. exfalso. apply Hnin, elem_of_union. left.
           apply elem_of_singleton. reflexivity.
        -- intros _. unfold holds. simpl.
           rewrite list_lookup_insert_eq by lia. simpl.
           rewrite <- app_assoc. simpl.
           apply (has_blob_new (out s) (mark s + 1) [ERaw (node_text nd)] _ []).
           unfold cat. simpl. apply append_nil_r.
      * destruct (Hcont _ _ Hv') as (nd' & Hnd' & Ha' & Hfile' & Hrec').
        exists nd'. split; [exact Hnd' |]. split; [exact Ha' |]. simpl. split.
        -- intros _ Hnin. unfold file_serial. simpl. rewrite Hv. simpl.
           rewrite lookup_delete_ne.
           ++ apply Hfile'; [exact Hc |]. intros Hin. apply Hnin, elem_of_union. right. exact Hin.
           ++ intros <-. apply Hne. eapply Hinj; eauto.
        -- intros [Hcf | Hin]; [congruence |].
           apply elem_of_union in Hin as [Hin | Hin];
             [apply elem_of_singleton in Hin; contradiction |].
           eapply Hothers;
             [reflexivity | reflexivity | | exact Hne | exact Hv' | apply Hrec'; right; exact Hin].
           simpl. eexists. rewrite <- app_assoc. reflexivity.
  - split; simpl; [exact Hout |].
    intros a' v' Hv'. simpl in Hv'.
    destruct (Hcont _ _ Hv') as (nd' & Hnd' & Ha' & Hfile' & Hrec').
    exists nd'. split; [exact Hnd' |]. split; [exact Ha' |]. simpl.
    split; [exact Hfile' |].
    intros [Hcf | Hin]; [congruence |].
    assert (Hne : a' <> f_addr rev) by (intros ->; contradiction).
    eapply Hothers;
      [reflexivity | reflexivity | | exact Hne | exact Hv' | apply Hrec'; right; exact Hin].
    simpl. exists []. symmetry. apply app_nil_r.
Qed.

(** An [M] line refers to the blob record of its file revision. *)
Lemma print_fileop_content R gen seen o s :
  mark_inv false canon R gen seen s ->
  content_ok canon nodes exported s ->
  (forall perm rev path, o = Modify perm rev path ->
     In (f_addr rev) gen /\ (canon = false \/ f_addr rev ∈ emitted s)
     /\ exported rev
     /\ perm = fileop_mode (mode (master rev))
     /\ path = fileop_name (name (master rev))
     /\ forall nd, In nd nodes -> f_addr (node_commit nd) = f_addr rev ->
          node_commit nd = rev) ->
  wp (print_fileop o)
     (fun _ s' => content_ok canon nodes exported s')
     (fun s' => contents_ok nodes exported (out s')) s.
Proof.
  intros Hinv Hok Hop. unfold print_fileop.
  assert (HE : forall st, content_ok canon nodes exported st -> contents_ok nodes exported (out st))
    by (intros st [Hst _]; exact Hst).
  destruct o as [perm rev path | path].
  - destruct (Hop perm rev path eq_refl) as (Hgen & Hem & Hexp & Hperm & Hpath & Hsame).
    destruct (mark_inv_file _ _ _ _ _ _ _ Hinv Hgen) as (v & Hv & Hfs & Hrange).
    destruct Hok as [Hout Hcont].
    destruct (Hcont _ _ Hv) as (nd & Hnd & Ha & _ & Hrec).
    specialize (Hrec Hem).
    apply wp_assoc. apply wp_get_bind. rewrite Hfs.
    apply wp_assoc. apply wp_markmap_get_any; [| exact Hout].
    apply wp_emit_bind.
    match goal with |- wp _ _ _ ?st => assert (H2 : content_ok canon nodes exported st) end.
    { split; simpl.
      - apply (contents_ok_snoc nodes exported (out s) perm _ path nd); auto;
          rewrite (Hsame nd Hnd Ha); assumption.
      - eapply content_inv_frame; [| | | | | exact Hcont]; try reflexivity.
        simpl. eexists. reflexivity. }
    eapply (wp_frame_last mark_frame (content_ok canon nodes exported));
      [apply content_ok_frame | | exact H2 | auto | exact HE].
    repeat mark_frame_step.
  - eapply (wp_frame_last mark_frame (content_ok canon nodes exported));
      [apply content_ok_frame | | exact Hok | auto | exact HE].
    repeat mark_frame_step.
Qed.

(** One more line, other than an [M] line, at the end of the stream. *)
Lemma content_ok_emit e s :
  content_ok canon nodes exported s -> unmodifying e ->
  content_ok canon nodes exported (with_out (out s ++ [e]) s).
Proof.
  intros [Hout Hcont] He. split; simpl.
  - apply contents_ok_app; [exact Hout | repeat constructor; exact He].
  - eapply content_inv_frame; [| | | | | exact Hcont]; try reflexivity.
    simpl. eexists. reflexivity.
Qed.

Lemma export_commit_content R gen seen commit branch report s :
  mark_inv false canon R gen seen s ->
  content_ok canon nodes exported s ->
  (forall f, In f (file_list commit) -> In (f_addr f) gen /\ exported f) ->
  (forall f nd, In f (file_list commit) -> In nd nodes ->
     f_addr (node_commit nd) = f_addr f -> node_commit nd = f) ->
  wp (export_commit commit branch report opts)
     (fun _ s' => mark_inv false canon R gen (c_addr commit :: seen) s'
                  /\ content_ok canon nodes exported s')
     (fun s' => contents_ok nodes exported (out s')) s.
Proof.
  intros Hinv Hok Hfiles Hsame. unfold export_commit.
  set (J := fun seen' st => mark_inv false canon R gen seen' st /\ content_ok canon nodes exported st).
  assert (HJ : forall seen' sa sb, mark_frame sa sb -> J seen' sa -> J seen' sb).
  { intros seen' sa sb Hframe [Ha Hb]. split.
    - eapply mark_inv_frame; eauto.
    - eapply content_ok_frame; eauto. }
  assert (HJE : forall seen' st, J seen' st -> contents_ok nodes exported (out st)).
  { intros seen' st [_ [Hst _]]. exact Hst. }
  assert (H0 : J seen s) by (split; assumption).
  clear Hinv Hok.
  eapply (wp_frame_bind mark_frame (J seen));
    [apply HJ | repeat mark_frame_step | exact H0
    | clear H0; intros _ s' H0 | apply HJE].
  apply wp_get_bind.
  set (ops := commit_fileops s' commit ++ parent_fileops s' commit).
  assert (Hmods : forall perm rev path, In (Modify perm rev path) ops ->
            In rev (file_list commit)
            /\ perm = fileop_mode (mode (master rev))
            /\ path = fileop_name (name (master rev))).
  { intros perm rev path Ho. subst ops. apply in_app_or in Ho as [Ho | Ho].
    - apply commit_fileops_In in Ho as (cc & Hcc & Heq). inversion Heq; subst. auto.
    - apply parent_fileops_In in Ho as (p & pf & _ & _ & Heq). discriminate Heq. }
  assert (Hops : forall a, In a (modified ops) -> In a gen).
  { intros a Ha. unfold modified in Ha. apply in_flat_map in Ha as (o & Ho & Ha).
    destruct o as [perm rev path | path]; [| destruct Ha].
    destruct Ha as [<- | []]. apply Hfiles. apply (Hmods _ _ _ Ho). }
  set (shipped := fun (l : list fileop) (st : state) =>
         canon = true -> report = true -> forall a, In a (modified l) -> a ∈ emitted st).
  eapply wp_seq with
    (Q1 := fun _ st => J seen st /\ shipped ops st)
    (E1 := fun st => contents_ok nodes exported (out st)); [| | auto].
  { apply (wp_for_each_prefix (fun pre st => J seen st /\ shipped pre st)).
    - intros pre o post st Heq [[Hst Hcst] Hsh].
      assert (Ho : forall a, In a (modified [o]) -> In a gen).
      { intros a Ha. apply Hops. apply (modified_In o); [| exact Ha].
        rewrite Heq. apply in_elt. }
      eapply wp_mono;
        [exact (wp_conj _ _ _ _ _ _
                  (ship_blob_marks opts false canon canon_mode R gen seen report o st Hst Ho)
                  (ship_blob_content R gen seen report o st Hst Ho Hcst)) | |].
      + simpl. intros _ st' [(Hst' & Hsub & Hnew) Hcst']. split; [split; assumption |].
        intros Hc Hr a Ha. rewrite modified_app in Ha.
        apply in_app_or in Ha as [Ha | Ha].
        * apply Hsub. apply Hsh; assumption.
        * apply Hnew; assumption.
      + simpl. intros st' [_ Hst']. exact Hst'.
    - split; [exact H0 |]. intros _ _ a []. }
  clear H0. intros _ s1 [H1 Hshipped].
  destruct (match fullname (author commit) with
            | Some a => (full a, email a, default "UTC" (timezone a))
            | None => (author commit, author commit, "UTC")
            end) as [[who mail] tz].
  set (P := fun seen' st => J seen' st /\ emitted s1 ⊆ emitted st).
  assert (HP : forall seen' sa sb, mark_frame sa sb -> P seen' sa -> P seen' sb).
  { intros seen' sa sb Hframe [Hsa Hsub]. split.
    - eapply HJ; eauto.
    - destruct Hframe as (_ & _ & _ & _ & He & _). rewrite He. exact Hsub. }
  assert (HPE : forall seen' st, P seen' st -> contents_ok nodes exported (out st)).
  { intros seen' st [Hst _]. eapply HJE; eauto. }
  assert (H1' : P seen s1) by (split; [exact H1 | reflexivity]).
  clear H1.
  eapply (wp_frame_bind mark_frame (P seen));
    [apply HP | repeat mark_frame_step | exact H1'
    | clear H1'; intros _ s2 H1 | apply HPE].
  apply wp_modify_bind. apply wp_modify_bind. apply wp_next_mark_bind.
  apply wp_get_bind.
  match goal with
  | |- wp (bind (markmap_set ?i _) _) _ _ _ =>
      assert (Hcs : i = seqno s2 + 1)
        by (unfold commit_serial; simpl; rewrite lookup_insert_eq; reflexivity);
      rewrite Hcs; clear Hcs
  end.
  destruct H1 as [[Hinv [Hout Hcont]] Hsub].
  apply wp_markmap_set_any; [| exact Hout].
  intros Hi. simpl in Hi.
  assert (Hfar : forall a v, serial_f s2 !! a = Some v -> 0 <= v /\ v <> seqno s2 + 1).
  { intros a v Hv. pose proof (mi_range _ _ _ _ _ _ Hinv _ _ Hv).
    pose proof (mi_seqno _ _ _ _ _ _ Hinv). lia. }
  destruct report; simpl.
  2: { apply wp_ret_bind. apply wp_ret_bind. split.
       - eapply (mark_inv_commit false canon R gen seen s2 _ (c_addr commit) (mark s2 + 1) []);
           try exact Hinv; try reflexivity; try exact Hi.
         + simpl. rewrite app_nil_r. reflexivity.
         + constructor.
         + intros Hs. discriminate Hs.
       - split; simpl; [exact Hout |].
         eapply (content_inv_slot canon nodes s2 _ (seqno s2 + 1) (mark s2 + 1));
           try reflexivity; try exact Hcont; try exact Hfar; [| lia].
         simpl. exists []. symmetry. apply app_nil_r. }
  apply wp_emit_bind.
  match goal with |- wp _ _ _ ?st => set (s3 := st) end.
  assert (H3 : P (c_addr commit :: seen) s3).
  { split; [| exact Hsub]. split.
    - eapply (mark_inv_commit false canon R gen seen s2 _ (c_addr commit) (mark s2 + 1)
                [EMark (mark s2 + 1)]);
        try exact Hinv; try reflexivity; try exact Hi.
      + repeat constructor.
      + intros Hs. discriminate Hs.
    - split; simpl.
      + apply contents_ok_app; [exact Hout | repeat constructor].
      + eapply (content_inv_slot canon nodes s2 _ (seqno s2 + 1) (mark s2 + 1));
          try reflexivity; try exact Hcont; try exact Hfar; [| lia].
        simpl. eexists. reflexivity. }
  clearbody s3. clear Hinv Hout Hcont Hsub Hi Hfar.
  apply wp_assoc.
  eapply (wp_frame_bind mark_frame (P (c_addr commit :: seen)));
    [apply HP | repeat mark_frame_step | exact H3
    | clear H3; intros _ s4 H3 | apply HPE].
  apply wp_assoc.
  eapply (wp_frame_bind mark_frame (P (c_addr commit :: seen)));
    [apply HP | repeat mark_frame_step | exact H3
    | clear H3; intros _ s5 H3 | apply HPE].
  apply wp_assoc.
  eapply wp_seq with (Q1 := fun _ => P (c_addr commit :: seen))
                     (E1 := fun st => contents_ok nodes exported (out st)); [| | auto].
  { destruct (parent commit) as [p |] eqn:Hp; [| exact H3].
    apply wp_get_bind. destruct H3 as [[Hinv Hok] Hsub].
    apply wp_markmap_get_any; [| apply Hok].
    apply wp_modify_last. split; [| exact Hsub]. split.
    - apply (mark_inv_emit false canon R gen _ _ (with_idx _ s5)).
      + eapply mark_inv_frame; [| exact Hinv]. apply mark_frame_quiet; reflexivity.
      + intros n [].
    - apply (content_ok_emit _ (with_idx _ s5)); [| exact I].
      eapply content_ok_frame; [| exact Hok]. apply mark_frame_quiet; reflexivity. }
  clear H3. intros _ s6 H3.
  apply wp_assoc.
  eapply wp_seq with (Q1 := fun _ => P (c_addr commit :: seen))
                     (E1 := fun st => contents_ok nodes exported (out st)); [| | auto].
  { apply wp_for_each with (I := P (c_addr commit :: seen)); [| exact H3].
    intros o st Ho [[Hst Hcst] Hsubst].
    apply qsort_In in Ho.
    assert (Hem : forall a, In a (modified [o]) ->
              In a gen /\ (canon = false \/ a ∈ emitted st)).
    { intros a Ha. pose proof (modified_In o ops a Ho Ha) as Hin.
      split; [apply Hops, Hin |].
      assert (Hcase : canon = true \/ canon = false) by (destruct canon; auto).
      destruct Hcase as [Hc | Hc]; [right | left; exact Hc].
      apply Hsubst. apply Hshipped; auto. }
    eapply wp_mono;
      [refine (wp_conj _ _ _ _ _ _
                 (print_fileop_marks false canon R gen _ o st Hst Hem)
                 (print_fileop_content R gen _ o st Hst Hcst _)) | |].
    - intros perm rev path ->.
      destruct (Hem (f_addr rev) (or_introl eq_refl)) as [Hg He].
      destruct (Hmods _ _ _ Ho) as (Hrev & Hperm & Hpath).
      split; [exact Hg |]. split; [exact He |].
      split; [apply Hfiles; exact Hrev |].
      split; [exact Hperm |]. split; [exact Hpath |].
      intros nd Hnd Ha. apply Hsame; assumption.
    - simpl. intros _ st' [[Hst' Hem'] Hcst']. split; [split; assumption |].
      rewrite Hem'. exact Hsubst.
    - simpl. intros st' [_ Hst']. exact Hst'. }
  clear H3. intros _ s7 H3.
  apply wp_assoc. apply wp_get_bind.
  apply wp_assoc.
  eapply (wp_frame_bind mark_frame (P (c_addr commit :: seen)));
    [apply HP | repeat mark_frame_step | exact H3
    | clear H3; intros _ s8 H3 | apply HPE].
  eapply (wp_frame_bind mark_frame (P (c_addr commit :: seen)));
    [apply HP | repeat mark_frame_step | exact H3
    | clear H3; intros _ s9 H3 | apply HPE].
  eapply (wp_frame_last mark_frame (P (c_addr commit :: seen)));
    [apply HP | repeat mark_frame_step | exact H3
    | intros _ st [Hst _]; exact Hst | apply HPE].
Qed.

End Contents.

Section ContentsRun.

Context `{Collaborators}.
Variable opts : export_options_t.
Variable canon : bool.
Hypothesis canon_mode : reportmode opts = if canon then canonical else fast.
Variable nodes : list node_t.
Variable exported : cvs_commit -> Prop.

Lemma generators_content gens s :
  (forall nd, In nd (concat gens) -> In nd nodes) ->
  blob_marks false canon [] s ->
  content_ok canon nodes exported s ->
  wp (for_each gens (fun gp => generate_files gp opts export_blob))
     (fun _ s' =>
        blob_marks false canon
          (map (fun node => f_addr (node_commit node)) (concat gens)) s'
        /\ content_ok canon nodes exported s')
     (fun s' => contents_ok nodes exported (out s')) s.
Proof.
  intros Hnodes Hs Hok.
  assert (Hflat : concat gens = flat_map id gens).
  { rewrite flat_map_concat_map, map_id. reflexivity. }
  rewrite Hflat in *.
  eapply wp_ext; [symmetry; apply (for_each_flat_map id) |].
  apply (wp_for_each_prefix
           (fun pre st =>
              blob_marks false canon (map (fun node => f_addr (node_commit node)) pre) st
              /\ content_ok canon nodes exported st));
    [| split; assumption].
  intros pre node post st Heq [Hst Hcst]. rewrite map_app. simpl.
  assert (Hnode : In node nodes) by (apply Hnodes; rewrite Heq; apply in_elt).
  eapply wp_mono;
    [exact (wp_conj _ _ _ _ _ _
              (export_blob_marks opts false canon canon_mode _ node _ _ st Hst)
              (export_blob_content opts canon canon_mode nodes exported _ node st Hnode Hst Hcst))
    | |]; simpl.
  - intros _ st' [H1 H2]. split; assumption.
  - intros st' [_ H2]. exact H2.
Qed.

Lemma rounds_content R gen all_tags l :
  forall seen s,
    mark_inv false canon R gen seen s ->
    content_ok canon nodes exported s ->
    (forall hp f, In hp l -> In f (file_list (seq_commit hp)) ->
       (In (f_addr f) gen /\ exported f)
       /\ forall nd, In nd nodes -> f_addr (node_commit nd) = f_addr f ->
            node_commit nd = f) ->
    wp (for_each l (fun hp =>
          export_commit (seq_commit hp) (ref_name (seq_head hp)) true opts ;;
          tag_resets all_tags (seq_commit hp) opts))
       (fun _ s' => contents_ok nodes exported (out s'))
       (fun s' => contents_ok nodes exported (out s')) s.
Proof.
  induction l as [| hp l IH]; intros seen s Hinv Hok Hfiles; simpl.
  - apply Hok.
  - apply wp_assoc.
    eapply wp_seq;
      [apply (export_commit_content opts canon canon_mode nodes exported R gen seen);
       [exact Hinv | exact Hok | |] | | auto].
    { intros f Hf. apply (Hfiles hp f); [left; reflexivity | exact Hf]. }
    { intros f nd Hf. apply (Hfiles hp f); [left; reflexivity | exact Hf]. }
    simpl. intros [] s1 [Hinv1 Hok1].
    eapply (wp_frame_bind mark_frame
              (fun st => mark_inv false canon R gen (c_addr (seq_commit hp) :: seen) st
                         /\ content_ok canon nodes exported st));
      [| apply tag_resets_frame | split; [exact Hinv1 | exact Hok1]
       | intros [] s2 [Hinv2 Hok2] | intros st [_ [Hst _]]; exact Hst].
    + intros sa sb Hab [Ha Hb]. split.
      * eapply mark_inv_frame; eauto.
      * eapply content_ok_frame; eauto.
    + apply (IH (c_addr (seq_commit hp) :: seen)); [exact Hinv2 | exact Hok2 |].
      intros hp' f Hhp'. apply Hfiles. right. exact Hhp'.
Qed.

Lemma export_history_content R gen all_tags n :
  forall history seen s,
    mark_inv false canon R gen seen s ->
    content_ok canon nodes exported s ->
    (forall f, In f (flat_map file_list (map seq_commit history)) ->
       (In (f_addr f) gen /\ exported f)
       /\ forall nd, In nd nodes -> f_addr (node_commit nd) = f_addr f ->
            node_commit nd = f) ->
    wp (export_history n history all_tags opts)
       (fun _ s' => contents_ok nodes exported (out s'))
       (fun s' => contents_ok nodes exported (out s')) s.
Proof.
  induction n as [| n IH]; intros history seen s Hinv Hok Hfiles;
    destruct history as [| hp rest]; simpl; try apply Hok.
  assert (HJ : forall seen' sa sb, mark_frame sa sb ->
            mark_inv false canon R gen seen' sa /\ content_ok canon nodes exported sa ->
            mark_inv false canon R gen seen' sb /\ content_ok canon nodes exported sb).
  { intros seen' sa sb Hab [Ha Hb]. split.
    - eapply mark_inv_frame; eauto.
    - eapply content_ok_frame; eauto. }
  apply wp_get_bind.
  eapply (wp_frame_bind mark_frame
            (fun st => mark_inv false canon R gen seen st /\ content_ok canon nodes exported st));
    [apply HJ | | split; [exact Hinv | exact Hok]
    | clear Hinv Hok; intros [] s1 [Hinv Hok] | intros st [_ [Hst _]]; exact Hst].
  { repeat (mark_frame_step || apply display_date_marked_frame). }
  simpl in Hfiles.
  eapply wp_seq;
    [apply (export_commit_content opts canon canon_mode nodes exported R gen seen);
     [exact Hinv | exact Hok | |] | | auto].
  { intros f Hf. apply Hfiles, in_or_app. left. exact Hf. }
  { intros f nd Hf. apply Hfiles, in_or_app. left. exact Hf. }
  simpl. intros [] s2 [Hinv2 Hok2].
  eapply (wp_frame_bind mark_frame
            (fun st => mark_inv false canon R gen (c_addr (seq_commit hp) :: seen) st
                       /\ content_ok canon nodes exported st));
    [apply HJ | apply tag_resets_frame | split; [exact Hinv2 | exact Hok2]
    | intros [] s3 [Hinv3 Hok3] | intros st [_ [Hst _]]; exact Hst].
  match goal with |- context [export_history n ?r] => set (rest' := r) end.
  assert (Hrest : map seq_commit rest' = map seq_commit rest).
  { subst rest'. destruct (_ && _ && _); [apply realize_commits | reflexivity]. }
  apply (IH rest' (c_addr (seq_commit hp) :: seen)); [exact Hinv3 | exact Hok3 |].
  rewrite Hrest. intros f Hf. apply Hfiles, in_or_app. right. exact Hf.
Qed.

Lemma export_phase_content R gen rl all_tags s :
  mark_inv false canon R gen [] s ->
  content_ok canon nodes exported s ->
  (forall hp f, In hp (canonicalize rl) -> In f (file_list (seq_commit hp)) ->
     (In (f_addr f) gen /\ exported f)
     /\ forall nd, In nd nodes -> f_addr (node_commit nd) = f_addr f ->
          node_commit nd = f) ->
  wp (if reportmode_eqb (reportmode opts) fast
      then export_fast rl all_tags opts
      else export_canonical rl all_tags opts)
     (fun _ s' => contents_ok nodes exported (out s'))
     (fun s' => contents_ok nodes exported (out s')) s.
Proof.
  intros Hinv Hok Hfiles.
  pose proof (export_order_commits rl opts) as Hperm.
  destruct (reportmode_eqb (reportmode opts) fast) eqn:Hmode.
  - eapply wp_ext; [apply export_fast_flat |].
    apply (rounds_content R gen all_tags _ []); [exact Hinv | exact Hok | exact Hfiles].
  - eapply wp_run_eq; [apply export_canonical_order; exact Hmode |].
    apply (export_history_content R gen all_tags _ _ []).
    + destruct (sortable _); [exact Hinv |].
      eapply mark_inv_frame; [| exact Hinv]. apply mark_frame_quiet; reflexivity.
    + destruct (sortable _); [exact Hok |].
      eapply content_ok_frame; [| exact Hok]. apply mark_frame_quiet; reflexivity.
    + intros f Hf. apply in_flat_map in Hf as (c & Hc & Hf).
      eapply Permutation_in in Hc; [| exact Hperm].
      apply in_map_iff in Hc as (hp & <- & Hhp). eapply Hfiles; eauto.
Qed.

End ContentsRun.

(** When every file revision of an exported commit is one the
    generators call back with, and an address holds one file revision:
    every [M] line of the stream is the mode, the path and the text of
    one file revision of an exported commit.  Its mark is that of a
    blob record, written strictly earlier, that holds the text that
    [export_blob] was given for that file revision: the [data] header,
    the default ignore patterns in front of a [.cvsignore] file, and
    the content.  This holds in fast mode, where the blob is written as
    it comes, and in canonical mode, where it is written to a blob file
    first and read back when a commit needs it. *)
Theorem blob_contents `{Collaborators}
    (forest : forest_t) (all_tags : list tag_t) (opts : export_options_t)
    (pre post : list event) (perm m : Z) (path : string) :
  files_generated forest ->
  addresses_identify forest ->
  stream forest all_tags opts = pre ++ EModify perm m path :: post ->
  exists nd,
    In nd (concat (generators forest))
    /\ exported_file forest (node_commit nd)
    /\ perm = fileop_mode (mode (master (node_commit nd)))
    /\ path = fileop_name (name (master (node_commit nd)))
    /\ has_blob pre m (node_text nd).
Proof.
  intros Hgen Hsame.
  set (nodes := concat (generators forest)).
  set (exported := exported_file forest).
  assert (Hrun : contents_ok nodes exported (stream forest all_tags opts)).
  { unfold stream.
    apply (wp_final _ (fun s => contents_ok nodes exported (out s))).
    unfold export_commits.
    destruct (select_reportmode_mode forest opts) as [canon Hcanon].
    set (opts' := select_reportmode forest opts) in *.
    match goal with
    | |- wp (bind (when _ _) ?k) _ _ _ =>
        assert (Hrest : forall s0, seqno s0 = 0 -> serial_f s0 = ∅ -> emitted s0 = ∅ ->
                  out s0 = [] ->
                  wp (k tt) (fun _ s => contents_ok nodes exported (out s))
                     (fun s => contents_ok nodes exported (out s)) s0)
    end.
    2: { apply wp_when_bind; intros _.
         - apply wp_assoc. apply wp_modify_bind. apply wp_modify_bind.
           apply Hrest; reflexivity.
         - apply Hrest; reflexivity. }
    intros s0 Hseq0 Hsf0 Hem0 Hout0. cbv beta.
    apply wp_modify_bind. apply wp_get_bind. apply wp_modify_bind.
    match goal with |- wp _ _ _ ?st => set (s1 := st) end.
    assert (Hblob : blob_marks false canon [] s1).
    { split; [| exact Hem0].
      subst s1. constructor; simpl; rewrite ?Hseq0, ?Hsf0, ?Hout0, ?Hem0.
      - apply defined_before_use_nil.
      - lia.
      - lia.
      - intros a [].
      - intros a v. rewrite lookup_empty. discriminate.
      - intros a b v. rewrite lookup_empty. discriminate.
      - intros a v. rewrite lookup_empty. discriminate.
      - intros a v _. rewrite lookup_empty. discriminate.
      - intros a Hs. discriminate Hs. }
    assert (Hok : content_ok canon nodes exported s1).
    { split; subst s1; simpl.
      - rewrite Hout0. intros p q r t u Heq. destruct p; discriminate.
      - intros a v Hv. cbn in Hv. rewrite Hsf0, lookup_empty in Hv. discriminate Hv. }
    clearbody s1.
    eapply wp_seq;
      [eapply (generators_content opts' canon Hcanon nodes exported);
       [intros nd Hnd; exact Hnd | exact Hblob | exact Hok] | | auto].
    simpl. intros [] s2 [[Hinv2 Hem2] Hok2].
    eapply wp_seq;
      [eapply (export_phase_content opts' canon Hcanon nodes exported (seqno s2));
       [exact Hinv2 | exact Hok2 |] | | auto].
    { intros hp f Hhp Hf. split.
      - split; [| exists hp; split; assumption].
        pose proof (Hgen hp f Hhp Hf) as Hin.
        unfold generated in Hin. rewrite map_map in Hin. exact Hin.
      - intros nd Hnd Ha. exact (Hsame hp f nd Hhp Hf Hnd Ha). }
    simpl. intros [] s3 H3.
    eapply (wp_frame_last (writes unmodifying) (fun s => contents_ok nodes exported (out s)));
      [| | exact H3 | auto | auto].
    - intros sa sb (evs & Ho & Hfree) Hsa. rewrite Ho.
      apply contents_ok_app; assumption.
    - unfold reset_heads, display_date_marked.
      repeat (writes_step; try exact I). }
  intros Heq. exact (Hrun pre perm m path post Heq).
Qed.

Lemma blob_contents_witness :
  files_generated Demo.forest
  /\ addresses_identify Demo.forest
  /\ exists nd,
       In nd (concat (generators Demo.forest))
       /\ exported_file Demo.forest (node_commit nd)
       /\ 420 = fileop_mode (mode (master (node_commit nd)))
       /\ "README" = fileop_name (name (master (node_commit nd)))
       /\ has_blob
            (firstn 6 (@stream Demo.collaborators Demo.forest Demo.tags
                         (Demo.mkopts canonical 0)))
            1 (node_text nd).
Proof.
  assert (Hgen : files_generated Demo.forest).
  { intros hp f Hhp Hf. vm_compute in Hhp.
    destruct Hhp as [<- | [<- | []]]; vm_compute in Hf;
      repeat (destruct Hf as [<- | Hf]; [vm_compute; tauto |]); destruct Hf. }
  assert (Hsame : addresses_identify Demo.forest).
  { intros hp f nd Hhp Hf Hnd Ha. vm_compute in Hhp.
    destruct Hhp as [<- | [<- | []]]; vm_compute in Hf;
      repeat (destruct Hf as [<- | Hf];
              [vm_compute in Hnd;
               repeat (destruct Hnd as [<- | Hnd];
                       [vm_compute in Ha; try discriminate Ha; reflexivity |]);
               destruct Hnd |]);
      destruct Hf. }
  assert (Hsplit :
    @stream Demo.collaborators Demo.forest Demo.tags (Demo.mkopts canonical 0)
    = firstn 6 (@stream Demo.collaborators Demo.forest Demo.tags (Demo.mkopts canonical 0))
      ++ EModify 420 1 "README"
      :: skipn 7 (@stream Demo.collaborators Demo.forest Demo.tags (Demo.mkopts canonical 0))).
  { vm_compute. reflexivity. }
  split; [exact Hgen |]. split; [exact Hsame |].
  exact (@blob_contents Demo.collaborators Demo.forest Demo.tags
           (Demo.mkopts canonical 0) _ _ 420 1 "README" Hgen Hsame Hsplit).
Defined.

(** * The file names of the older export engine *)

Lemma length_substring_le (s : string) :
  forall n m, (String.length (substring n m s) <= String.length s - n)%nat.
Proof.
  induction s as [| c s IH]; intros n m.
  - destruct n, m; simpl; lia.
  - destruct n as [| n].
    + destruct m as [| m]; simpl; [lia |]. specialize (IH 0%nat m). lia.
    + simpl. apply IH.
Qed.

Lemma length_substring (s : string) :
  forall n m, (n + m <= String.length s)%nat -> String.length (substring n m s) = m.
Proof.
  induction s as [| c s IH]; intros n m Hle.
  - simpl in Hle. assert (n = 0%nat) by lia. assert (m = 0%nat) by lia. subst. reflexivity.
  - destruct n as [| n].
    + destruct m as [| m]; simpl; [reflexivity |]. rewrite IH; [reflexivity | simpl in Hle; lia].
    + simpl. apply IH. simpl in Hle. lia.
Qed.

(** An occurrence lies within the string. *)
Lemma strstr_within (str drop : string) (c : nat) :
  drop <> EmptyString -> strstr str drop = Some c ->
  (c + String.length drop <= String.length str)%nat.
Proof.
  intros Hne Hs. apply index_correct1 in Hs.
  pose proof (length_substring_le str c (String.length drop)) as Hle.
  rewrite Hs in Hle.
  destruct drop as [| a d]; [contradiction |]. simpl in *. lia.
Qed.

Lemma length_cut_out (str : string) (c m : nat) :
  (c + m <= String.length str)%nat ->
  (String.length (cut_out str c m) + m = String.length str)%nat.
Proof.
  intros Hle. unfold cut_out. rewrite length_append.
  rewrite length_substring by lia. rewrite length_substring by lia. lia.
Qed.

Lemma drop_path_component_loop_stops (drop : string) :
  drop <> EmptyString ->
  forall fuel str, (String.length str < fuel)%nat ->
    exists r, drop_path_component_loop fuel str drop = Some r
      /\ (String.length r <= String.length str)%nat
      /\ forall c, strstr r drop = Some c -> c <> 0%nat /\ after_slash r c = false.
Proof.
  intros Hne. induction fuel as [| fuel IH]; intros str Hlen; [lia |].
  simpl. destruct (strstr str drop) as [c |] eqn:Hs.
  - destruct ((c =? 0)%nat || after_slash str c) eqn:Hb.
    + pose proof (strstr_within str drop c Hne Hs) as Hin.
      pose proof (length_cut_out str c (String.length drop) Hin) as Hcut.
      assert (Hpos : (0 < String.length drop)%nat)
        by (destruct drop; [contradiction | simpl; lia]).
      destruct (IH (cut_out str c (String.length drop))) as (r & Hr & Hlr & Hpost); [lia |].
      exists r. split; [exact Hr |]. split; [lia | exact Hpost].
    + exists str. split; [reflexivity |]. split; [lia |].
      intros c' Hc'. rewrite Hs in Hc'. injection Hc' as <-.
      apply orb_false_iff in Hb as [Hz Hsl]. split; [| exact Hsl].
      apply Nat.eqb_neq. exact Hz.
  - exists str. split; [reflexivity |]. split; [lia |].
    intros c Hc. rewrite Hs in Hc. discriminate Hc.
Qed.

(** The loop of [drop_path_component] ends, for a component that is
    not empty, and leaves a string that is no longer than the one it
    was given and in which the first occurrence of the component, if
    there is one, neither starts the string nor follows a slash. *)
Theorem drop_path_component_stops (str drop : string) :
  drop <> EmptyString ->
  exists r, drop_path_component str drop = Some r
    /\ (String.length r <= String.length str)%nat
    /\ forall c, strstr r drop = Some c -> c <> 0%nat /\ after_slash r c = false.
Proof.
  intros Hne. apply drop_path_component_loop_stops; [exact Hne | lia].
Qed.

Lemma drop_path_component_stops_witness :
  exists r, drop_path_component "src/Attic/main.c,v" "Attic/" = Some r
    /\ (String.length r <= String.length "src/Attic/main.c,v")%nat
    /\ forall c, strstr r "Attic/" = Some c -> c <> 0%nat /\ after_slash r c = false.
Proof.
  apply (drop_path_component_stops "src/Attic/main.c,v" "Attic/"). discriminate.
Defined.

(** A string without the component is left as it is. *)
Lemma drop_path_component_absent (str drop : string) :
  strstr str drop = None -> drop_path_component str drop = Some str.
Proof. intros Hs. unfold drop_path_component. simpl. rewrite Hs. reflexivity. Qed.

Lemma get_last (a : string) (ch : ascii) (b : string) :
  String.get (String.length a) (String.append a (String ch b)) = Some ch.
Proof. induction a as [| x a IH]; [reflexivity | exact IH]. Qed.

Lemma cut_out_middle (a d b : string) :
  cut_out (String.append a (String.append d b)) (String.length a) (String.length d)
  = String.append a b.
Proof.
  unfold cut_out. f_equal.
  - replace (String.length a) with (String.length a + 0)%nat at 1 by lia.
    rewrite substring_take. destruct (String.append d b); simpl; apply append_nil_r.
  - rewrite !length_append.
    replace (String.length a + (String.length d + String.length b)
             - (String.length a + String.length d))%nat with (String.length b) by lia.
    rewrite append_assoc.
    replace (String.length a + String.length d)%nat
      with (String.length (String.append a d)) by apply length_append.
    rewrite substring_skip. apply substring_all.
Qed.

(** A component that starts the string or follows a slash, and is the
    only occurrence, is cut out. *)
Lemma drop_path_component_once (a d b : string) :
  d <> EmptyString ->
  (a = EmptyString \/ exists a', a = String.append a' "/") ->
  strstr (String.append a (String.append d b)) d = Some (String.length a) ->
  strstr (String.append a b) d = None ->
  drop_path_component (String.append a (String.append d b)) d = Some (String.append a b).
Proof.
  intros Hne Ha Hfirst Hnone. unfold drop_path_component.
  cbn [drop_path_component_loop]. rewrite Hfirst.
  assert (Hb : ((String.length a =? 0)%nat
                || after_slash (String.append a (String.append d b)) (String.length a)) = true).
  { destruct Ha as [-> | [a' ->]]; [reflexivity |].
    apply orb_true_iff. right. unfold after_slash.
    rewrite length_append. simpl String.length.
    replace (String.length a' + 1 - 1)%nat with (String.length a') by lia.
    rewrite <- append_assoc, append_cons, get_last. reflexivity. }
  rewrite Hb, cut_out_middle.
  assert (Hfuel : exists f, String.length (String.append a (String.append d b)) = S f).
  { rewrite !length_append. destruct d as [| x d]; [contradiction |].
    simpl. exists (String.length a + (String.length d + String.length b))%nat. lia. }
  destruct Hfuel as [f ->]. simpl. rewrite Hnone. reflexivity.
Qed.

(** [export_filename] maps the master of a file, in its directory or
    in the [Attic] below it, to the path of the file: the [Attic/]
    component and the [,v] suffix are dropped, and [.cvsignore] becomes
    [.gitignore].  The directory is empty or ends in a slash, the name
    fits [MAXPATHLEN], and the [Attic/] that is dropped is the only
    occurrence of [Attic/] or [RCS/] in the name. *)
Theorem export_filename_master (dir base : string) (attic : bool) :
  (dir = EmptyString \/ exists d, dir = String.append d "/") ->
  base <> EmptyString ->
  Z.of_nat (String.length
              (String.append dir
                 (String.append (if attic then "Attic/" else EmptyString)
                    (String.append base ",v")))) < MAXPATHLEN ->
  (attic = true ->
   strstr (String.append dir (String.append "Attic/" (String.append base ",v"))) "Attic/"
   = Some (String.length dir)) ->
  strstr (String.append dir (String.append base ",v")) "Attic/" = None ->
  strstr (String.append dir (String.append base ",v")) "RCS/" = None ->
  export_filename
    (String.append dir
       (String.append (if attic then "Attic/" else EmptyString) (String.append base ",v")))
    0
  = Some (if String.eqb (String.append dir base) ".cvsignore"
          then ".gitignore" else String.append dir base).
Proof.
  intros Hdir Hbase Hlen Hfirst Hattic Hrcs. unfold export_filename.
  set (master := String.append dir
                   (String.append (if attic then "Attic/" else EmptyString)
                      (String.append base ",v"))) in *.
  rewrite Z.sub_0_r, Z.mod_small
    by (unfold MAXPATHLEN, PATH_MAX, size_bits in *; lia).
  destruct (Z.leb_spec MAXPATHLEN (Z.of_nat (String.length master))) as [Hbig | _]; [lia |].
  change (Z.to_nat 0) with 0%nat. rewrite Nat.sub_0_r, substring_all.
  assert (Hdrop : drop_path_component master "Attic/"
                  = Some (String.append dir (String.append base ",v"))).
  { subst master. destruct attic.
    - apply drop_path_component_once; [discriminate | exact Hdir | auto | exact Hattic].
    - apply drop_path_component_absent. exact Hattic. }
  rewrite Hdrop, (drop_path_component_absent _ _ Hrcs).
  rewrite append_assoc.
  set (path := String.append dir base).
  rewrite length_append. change (String.length ",v") with 2%nat.
  assert (Hpos : (0 < String.length path)%nat).
  { subst path. rewrite length_append.
    destruct base; [contradiction | simpl; lia]. }
  replace (String.length path + 2 - 2)%nat with (String.length path) by lia.
  destruct (Nat.ltb_spec 2 (String.length path + 2)) as [_ | Hle]; [| lia].
  rewrite substring_skip. cbn [andb substring String.eqb Ascii.eqb Bool.eqb].
  assert (Htake : substring 0 (String.length path) (String.append path ",v") = path).
  { replace (String.length path) with (String.length path + 0)%nat at 1 by lia.
    rewrite substring_take. cbn [substring]. apply append_nil_r. }
  rewrite !Htake. reflexivity.
Qed.

Lemma export_filename_master_witness :
  export_filename "src/Attic/main.c,v" 0 = Some "src/main.c".
Proof.
  apply (export_filename_master "src/" "main.c" true).
  - right. exists "src". reflexivity.
  - discriminate.
  - vm_compute. reflexivity.
  - intros _. vm_compute. reflexivity.
  - vm_compute. reflexivity.
  - vm_compute. reflexivity.
Defined.

(** * The extent of [markmap] *)

Section Still.

Variable L : Z.

Lemma still_refl s : still L s s.
Proof. unfold still. auto. Qed.

Lemma still_trans s1 s2 s3 : still L s1 s2 -> still L s2 s3 -> still L s1 s3.
Proof. unfold still. intuition congruence. Qed.

Lemma markmap_get_still (i : Z) : 0 <= i < L -> keeps (still L) (markmap_get i).
Proof.
  intros Hi s. unfold wp, markmap_get.
  destruct (_ && _); (do 4 (split; [reflexivity |])); simpl; intros Hidx;
    apply Forall_app; (split; [exact Hidx | constructor; [exact Hi | constructor]]).
Qed.

Lemma markmap_set_still (i v : Z) : 0 <= i < L -> keeps (still L) (markmap_set i v).
Proof.
  intros Hi s. unfold wp, markmap_set.
  destruct (_ && _); (split; [simpl; rewrite ?length_insert; reflexivity |]);
    (do 3 (split; [reflexivity |])); simpl; intros Hidx;
    apply Forall_app; (split; [exact Hidx | constructor; [exact Hi | constructor]]).
Qed.

Lemma bounded_still k s s' : still L s s' -> bounded L k s -> bounded L k s'.
Proof.
  intros (Hl & Hsf & Hsc & Hsq & Hidx) [[Hlen Hin] Hseq Hf Hc].
  constructor; rewrite ?Hsf, ?Hsc, ?Hsq; try assumption.
  split; [rewrite Hl; exact Hlen | apply Hidx, Hin].
Qed.

Lemma bounded_mono k k' s : k <= k' -> bounded L k s -> bounded L k' s.
Proof. intros Hk [Hw Hseq Hf Hc]. constructor; try assumption. lia. Qed.

Lemma bounded_within k s : bounded L k s -> within L s.
Proof. intros [Hw _ _ _]. exact Hw. Qed.

End Still.

Ltac still_step :=
  lazymatch goal with
  | |- keeps (still _) (emit _) =>
      apply keeps_modify; intros ?; unfold still; auto
  | |- keeps (still _) (markmap_get _) => apply markmap_get_still
  | |- keeps (still _) (markmap_set _ _) => apply markmap_set_still
  | |- keeps (still ?L) _ =>
      keeps_step (still_refl L) (still_trans L) ltac:(unfold still; auto)
  end.

(** A step that the bounds do not see, in front of the rest. *)
Ltac still_bind :=
  lazymatch goal with
  | Hinv : bounded ?L ?k ?s |- wp (bind _ _) _ _ ?s =>
      eapply (wp_frame_bind (still L) (bounded L k));
      [apply bounded_still
      | repeat still_step
      | exact Hinv
      | clear Hinv; intros ? ? Hinv
      | apply bounded_within]
  end.

Ltac still_last :=
  lazymatch goal with
  | Hinv : bounded ?L ?k ?s |- wp _ _ _ ?s =>
      eapply (wp_frame_last (still L) (bounded L k));
      [apply bounded_still
      | repeat still_step
      | exact Hinv
      | auto
      | apply bounded_within]
  end.

Section Bounds.

Context `{Collaborators}.
Variable L : Z.
Hypothesis L_pos : 0 < L.

Lemma file_serial_bounded k s f : bounded L k s -> 0 <= file_serial s f < L.
Proof.
  intros [_ _ Hf _]. unfold file_serial.
  destruct (serial_f s !! f_addr f) as [v |] eqn:Hv; simpl; [eapply Hf; eauto | lia].
Qed.

Lemma commit_serial_bounded k s c : bounded L k s -> 0 <= commit_serial s c < L.
Proof.
  intros [_ _ _ Hc]. unfold commit_serial.
  destruct (serial_c s !! c_addr c) as [v |] eqn:Hv; simpl; [eapply Hc; eauto | lia].
Qed.

(** One callback of the generators. *)
Lemma export_blob_bounded k node buf len opts s :
  bounded L k s -> k + 1 < L ->
  wp (export_blob node buf len opts) (fun _ => bounded L (k + 1)) (within L) s.
Proof.
  intros Hinv Hroom. unfold export_blob.
  apply wp_modify_bind.
  unfold wp at 1. unfold bind at 1. unfold seqno_next. simpl.
  destruct (MAX_SERIAL_T <=? seqno s + 1).
  { destruct Hinv as [Hw _ _ _]. exact Hw. }
  apply wp_modify_bind.
  match goal with |- wp _ _ _ ?st => set (s1 := st) end.
  assert (Hinv1 : bounded L (k + 1) s1).
  { destruct Hinv as [Hw Hseq Hf Hc]. subst s1. constructor; simpl.
    - exact Hw.
    - lia.
    - intros a v. destruct (decide (f_addr (node_commit node) = a)) as [<- | Hne].
      + rewrite lookup_insert_eq. intros [= <-]. lia.
      + rewrite lookup_insert_ne by exact Hne. apply Hf.
    - exact Hc. }
  assert (Hn : 0 <= seqno s + 1 < L) by (destruct Hinv as [_ Hseq _ _]; lia).
  clearbody s1. clear Hinv.
  eapply (wp_frame_last (still L) (bounded L (k + 1)));
    [apply bounded_still | | exact Hinv1 | auto | apply bounded_within].
  repeat (still_step; try exact Hn).
Qed.

Lemma nodes_bounded opts nodes :
  forall k s,
    bounded L k s ->
    k + Z.of_nat (length nodes) < L ->
    wp (for_each nodes (fun node =>
          export_blob node (node_buf node) (strlen (node_buf node)) opts))
       (fun _ => bounded L (k + Z.of_nat (length nodes))) (within L) s.
Proof.
  induction nodes as [| node nodes IH]; intros k s Hinv Hroom.
  - simpl. rewrite Z.add_0_r. exact Hinv.
  - simpl for_each. simpl length in *.
    eapply wp_seq; [apply (export_blob_bounded k); [exact Hinv | lia] | | auto].
    simpl. intros _ s1 Hinv1.
    eapply wp_mono; [apply (IH (k + 1)); [exact Hinv1 | lia] | | auto].
    simpl. intros _ s2 Hinv2.
    replace (k + Z.of_nat (S (length nodes)))
      with (k + 1 + Z.of_nat (length nodes)) by lia.
    exact Hinv2.
Qed.

Lemma generators_bounded opts gens :
  forall k s,
    bounded L k s ->
    k + Z.of_nat (length (concat gens)) < L ->
    wp (for_each gens (fun gp => generate_files gp opts export_blob))
       (fun _ => bounded L (k + Z.of_nat (length (concat gens)))) (within L) s.
Proof.
  induction gens as [| gp gens IH]; intros k s Hinv Hroom.
  - simpl. rewrite Z.add_0_r. exact Hinv.
  - simpl for_each. simpl concat in *. rewrite length_app in *.
    eapply wp_seq;
      [apply (nodes_bounded opts gp k); [exact Hinv | lia] | | auto].
    simpl. intros _ s1 Hinv1.
    eapply wp_mono;
      [apply (IH (k + Z.of_nat (length gp))); [exact Hinv1 | lia] | | auto].
    simpl. intros _ s2 Hinv2.
    replace (k + Z.of_nat (length gp + length (concat gens)))
      with (k + Z.of_nat (length gp) + Z.of_nat (length (concat gens))) by lia.
    exact Hinv2.
Qed.

Lemma ship_blob_bounded k report opts o s :
  bounded L k s ->
  wp (ship_blob report opts o) (fun _ => bounded L k) (within L) s.
Proof.
  intros Hinv. unfold ship_blob.
  destruct o as [perm rev path | path]; [| exact Hinv].
  apply wp_get_bind.
  destruct (bool_decide _); [exact Hinv |].
  pose proof (file_serial_bounded k s rev Hinv) as Hrange.
  eapply (wp_frame_last (still L) (bounded L k));
    [apply bounded_still | | exact Hinv | auto | apply bounded_within].
  repeat (still_step; try exact Hrange).
Qed.

Lemma print_fileop_bounded k o s :
  bounded L k s ->
  wp (print_fileop o) (fun _ => bounded L k) (within L) s.
Proof.
  intros Hinv. unfold print_fileop.
  destruct o as [perm rev path | path].
  - apply wp_assoc. apply wp_get_bind.
    pose proof (file_serial_bounded k s rev Hinv) as Hrange.
    eapply (wp_frame_last (still L) (bounded L k));
      [apply bounded_still | | exact Hinv | auto | apply bounded_within].
    repeat (still_step; try exact Hrange).
  - still_last.
Qed.

Lemma display_date_marked_bounded k c f s :
  bounded L k s ->
  wp (display_date_marked c f) (fun _ => bounded L k) (within L) s.
Proof.
  intros Hinv. unfold display_date_marked. destruct f; [| exact Hinv].
  apply wp_get_bind.
  pose proof (commit_serial_bounded k s c Hinv) as Hrange.
  eapply (wp_frame_last (still L) (bounded L k));
    [apply bounded_still | | exact Hinv | auto | apply bounded_within].
  repeat (still_step; try exact Hrange).
Qed.

Lemma tag_resets_bounded k all_tags c opts s :
  bounded L k s ->
  wp (tag_resets all_tags c opts) (fun _ => bounded L k) (within L) s.
Proof.
  intros Hinv. unfold tag_resets. revert s Hinv.
  apply wp_for_each. intros t s _ Hinv.
  destruct (commit_eqb (tag_commit t) c); [| exact Hinv].
  eapply wp_seq; [apply display_date_marked_bounded; eassumption | | auto].
  simpl. intros d s1 Hinv1.
  destruct (fromtime opts <? d); simpl; [| exact Hinv1].
  apply wp_get_bind.
  pose proof (commit_serial_bounded k s1 c Hinv1) as Hrange.
  eapply (wp_frame_last (still L) (bounded L k));
    [apply bounded_still | | exact Hinv1 | auto | apply bounded_within].
  repeat (still_step; try exact Hrange).
Qed.

(** One commit: the sequence number goes up by one. *)
Lemma export_commit_bounded k commit branch report opts s :
  bounded L k s -> k + 1 < L ->
  wp (export_commit commit branch report opts)
     (fun _ => bounded L (k + 1)) (within L) s.
Proof.
  intros Hinv Hroom. unfold export_commit.
  still_bind.
  apply wp_get_bind.
  eapply wp_seq with (Q1 := fun _ => bounded L k) (E1 := within L);
    [| | auto].
  { apply wp_for_each with (I := bounded L k); [| exact Hinv].
    intros o st _ Hst. apply ship_blob_bounded. exact Hst. }
  clear Hinv. intros _ s1 Hinv.
  destruct (match fullname (author commit) with
            | Some a => (full a, email a, default "UTC" (timezone a))
            | None => (author commit, author commit, "UTC")
            end) as [[who mail] tz].
  still_bind.
  apply wp_modify_bind. apply wp_modify_bind.
  match goal with |- wp _ _ _ ?st => set (s2 := st) end.
  assert (Hinv2 : bounded L (k + 1) s2).
  { destruct Hinv as [Hw Hseq Hf Hc]. subst s2. constructor; simpl.
    - exact Hw.
    - lia.
    - exact Hf.
    - intros x v. destruct (decide (c_addr commit = x)) as [<- | Hne].
      + rewrite lookup_insert_eq. intros [= <-]. lia.
      + rewrite lookup_insert_ne by exact Hne. apply Hc. }
  clearbody s2. clear Hinv. rename Hinv2 into Hinv.
  still_bind.
  apply wp_get_bind.
  match goal with
  | Hb : bounded L (k + 1) ?st |- _ =>
      pose proof (commit_serial_bounded _ st commit Hb) as Hrange
  end.
  still_bind; [exact Hrange |]. clear Hrange.
  still_bind.
  destruct report; simpl.
  2: { exact Hinv. }
  apply wp_assoc. still_bind.
  apply wp_assoc. still_bind.
  apply wp_assoc.
  eapply wp_seq with (Q1 := fun _ => bounded L (k + 1)) (E1 := within L);
    [| | auto].
  { destruct (parent commit) as [p |] eqn:Hp; [| exact Hinv].
    apply wp_get_bind.
    match goal with
    | Hb : bounded L (k + 1) ?st |- _ =>
        pose proof (commit_serial_bounded _ st p Hb) as Hrange
    end.
    eapply (wp_frame_last (still L) (bounded L (k + 1)));
      [apply bounded_still | | exact Hinv | auto | apply bounded_within].
    repeat (still_step; try exact Hrange). }
  clear Hinv. intros _ s3 Hinv.
  apply wp_assoc.
  eapply wp_seq with (Q1 := fun _ => bounded L (k + 1)) (E1 := within L);
    [| | auto].
  { apply wp_for_each with (I := bounded L (k + 1)); [| exact Hinv].
    intros o st _ Hst. apply print_fileop_bounded. exact Hst. }
  clear Hinv. intros _ s4 Hinv.
  apply wp_assoc. apply wp_get_bind.
  apply wp_assoc. still_bind.
  still_bind.
  still_last.
Qed.

(** The commits of a list, one after the other. *)
Lemma rounds_bounded all_tags opts l :
  forall k s,
    bounded L k s -> k + Z.of_nat (length l) < L ->
    wp (for_each l (fun hp =>
          export_commit (seq_commit hp) (ref_name (seq_head hp)) true opts ;;
          tag_resets all_tags (seq_commit hp) opts))
       (fun _ => bounded L (k + Z.of_nat (length l))) (within L) s.
Proof.
  induction l as [| hp l IH]; intros k s Hinv Hroom.
  - simpl. rewrite Z.add_0_r. exact Hinv.
  - simpl for_each. simpl length in *.
    apply wp_assoc.
    eapply wp_seq; [apply (export_commit_bounded k); [exact Hinv | lia] | | auto].
    simpl. intros _ s1 Hinv1.
    eapply wp_seq; [apply tag_resets_bounded; exact Hinv1 | | auto].
    simpl. intros _ s2 Hinv2.
    eapply wp_mono; [apply (IH (k + 1)); [exact Hinv2 | lia] | | auto].
    simpl. intros _ s3 Hinv3.
    replace (k + Z.of_nat (S (length l))) with (k + 1 + Z.of_nat (length l)) by lia.
    exact Hinv3.
Qed.

Lemma export_history_bounded all_tags opts n :
  forall history k s,
    bounded L k s -> k + Z.of_nat (length history) < L ->
    wp (export_history n history all_tags opts)
       (fun _ => bounded L (k + Z.of_nat (length history))) (within L) s.
Proof.
  induction n as [| n IH]; intros history k s Hinv Hroom.
  - simpl. eapply bounded_mono; [| exact Hinv]. lia.
  - destruct history as [| hp rest].
    + simpl. rewrite Z.add_0_r. exact Hinv.
    + cbn [export_history]. simpl length in *.
      apply wp_get_bind.
      eapply wp_seq with (Q1 := fun _ => bounded L k) (E1 := within L);
        [| | auto].
      { apply wp_when; [intros _ | intros _; exact Hinv].
        destruct (parent (seq_commit hp)) as [p |]; [| exact Hinv].
        eapply wp_seq; [apply display_date_marked_bounded; exact Hinv | | auto].
        simpl. intros d s1 Hinv1. still_last. }
      clear Hinv. intros _ s1 Hinv.
      eapply wp_seq; [apply (export_commit_bounded k); [exact Hinv | lia] | | auto].
      simpl. intros _ s2 Hinv2.
      eapply wp_seq; [apply tag_resets_bounded; exact Hinv2 | | auto].
      simpl. intros _ s3 Hinv3.
      eapply wp_mono; [apply (IH _ (k + 1)); [exact Hinv3 |] | | auto].
      * destruct (_ && _); [unfold realize; rewrite length_map |]; lia.
      * simpl. intros _ s4 Hinv4.
        eapply bounded_mono; [| exact Hinv4].
        destruct (_ && _); [unfold realize; rewrite length_map |]; lia.
Qed.

Lemma export_phase_bounded k rl all_tags opts s :
  bounded L k s -> k + Z.of_nat (length (canonicalize rl)) < L ->
  wp (if reportmode_eqb (reportmode opts) fast
      then export_fast rl all_tags opts
      else export_canonical rl all_tags opts)
     (fun _ => bounded L (k + Z.of_nat (length (canonicalize rl)))) (within L) s.
Proof.
  intros Hinv Hroom.
  pose proof (export_order_commits rl opts) as Hperm.
  apply Permutation_length in Hperm. rewrite !length_map in Hperm.
  destruct (reportmode_eqb (reportmode opts) fast) eqn:Hmode.
  - eapply wp_ext; [apply export_fast_flat |].
    apply rounds_bounded; assumption.
  - eapply wp_run_eq; [apply export_canonical_order; exact Hmode |].
    rewrite <- Hperm.
    apply export_history_bounded; [| lia].
    destruct (sortable _); [exact Hinv |].
    eapply bounded_still; [| exact Hinv]. unfold still. auto.
Qed.

(** The closing loop. *)
Lemma reset_heads_bounded k rl opts s :
  bounded L k s ->
  wp (reset_heads rl opts) (fun _ => bounded L k) (within L) s.
Proof.
  intros Hinv. unfold reset_heads. revert s Hinv.
  apply wp_for_each. intros h s Hh Hinv.
  destruct (ref_commit h) as [c |] eqn:Hc; [| exact (bounded_within L k s Hinv)].
  eapply wp_seq; [apply display_date_marked_bounded; exact Hinv | | auto].
  simpl. intros d s1 Hinv1.
  destruct (fromtime opts <? d); simpl; [| exact Hinv1].
  apply wp_get_bind.
  pose proof (commit_serial_bounded k s1 c Hinv1) as Hrange.
  eapply (wp_frame_last (still L) (bounded L k));
    [apply bounded_still | | exact Hinv1 | auto | apply bounded_within].
  repeat (still_step; try exact Hrange).
Qed.

End Bounds.

(** No access to [markmap] is outside the array.  When the generators
    call back at most [total_revisions] times, and an [int] holds the
    number of file revisions and commits, then at every point of a
    run, whether it returns or stops, and in whatever order the commits
    are exported, [markmap] has its [total_revisions + total_commits +
    1] slots and every index at which it has been read or written is
    one of them. *)
Theorem markmap_accesses_in_bounds `{Collaborators}
    (forest : forest_t) (all_tags : list tag_t) (opts : export_options_t) :
  Z.of_nat (length (generated forest)) <= total_revisions forest ->
  total_revisions forest + export_ncommit (head forest) < 2 ^ (int_bits - 1) ->
  within (total_revisions forest + export_ncommit (head forest) + 1)
    (final (export_commits forest all_tags opts init_state)).
Proof.
  intros Hcount _.
  set (R := total_revisions forest) in *.
  set (C := export_ncommit (head forest)).
  set (G := Z.of_nat (length (generated forest))) in *.
  assert (HG : G = Z.of_nat (length (concat (generators forest))))
    by (subst G; unfold generated; rewrite length_map; reflexivity).
  assert (HC : C = Z.of_nat (length (canonicalize (head forest))))
    by apply export_ncommit_length.
  set (L := R + C + 1).
  assert (HL : 0 < L) by lia.
  apply (wp_final _ (within L)).
  unfold export_commits.
  set (opts' := select_reportmode forest opts).
  match goal with
  | |- wp (bind (when _ _) ?k) _ _ _ =>
      assert (Hrest : forall s0, seqno s0 = 0 -> serial_f s0 = ∅ -> serial_c s0 = ∅ ->
                idx s0 = [] ->
                wp (k tt) (fun _ => within L) (within L) s0)
  end.
  2: { apply wp_when_bind; intros _.
       - apply wp_assoc. apply wp_modify_bind. apply wp_modify_bind.
         apply Hrest; reflexivity.
       - apply Hrest; reflexivity. }
  intros s0 Hseq0 Hfiles0 Hcommits0 Hidx0. cbv beta.
  apply wp_modify_bind. apply wp_get_bind. apply wp_modify_bind.
  match goal with |- wp _ _ _ ?st => set (s1 := st) end.
  assert (Hinv : bounded L 0 s1).
  { subst s1. constructor; simpl.
    - split; simpl.
      + fold C. fold R. rewrite length_replicate. fold L. lia.
      + rewrite Hidx0. constructor.
    - rewrite Hseq0. lia.
    - intros a v. rewrite Hfiles0, lookup_empty. discriminate.
    - intros a v. rewrite Hcommits0, lookup_empty. discriminate. }
  clearbody s1.
  eapply wp_seq; [apply (generators_bounded L); [exact Hinv | lia] | | auto].
  simpl. intros _ s2 Hinv2. rewrite Z.add_0_l, <- HG in Hinv2.
  eapply wp_seq;
    [apply (export_phase_bounded L HL G (head forest)); [exact Hinv2 | lia] | | auto].
  simpl. intros _ s3 Hinv3.
  eapply wp_seq; [apply (reset_heads_bounded L HL); exact Hinv3 | | auto].
  simpl. intros _ s4 Hinv4.
  eapply (wp_frame_last (still L) (bounded L _));
    [apply bounded_still | | exact Hinv4 | intros _ s' Hs'; apply (bounded_within _ _ _ Hs')
    | apply bounded_within].
  repeat still_step.
Qed.

Lemma markmap_accesses_in_bounds_witness :
  (Z.of_nat (length (generated Demo.long_lived)) <= total_revisions Demo.long_lived
   /\ total_revisions Demo.long_lived + export_ncommit (head Demo.long_lived)
      < 2 ^ (int_bits - 1))
  /\ within (total_revisions Demo.long_lived + export_ncommit (head Demo.long_lived) + 1)
       (final (@export_commits Demo.collaborators Demo.long_lived []
                 (Demo.mkopts canonical 0) init_state))
  /\ idx (final (@export_commits Demo.collaborators Demo.long_lived []
                   (Demo.mkopts canonical 0) init_state))
     = [2; 3; 0; 2; 1; 4; 1; 3].
Proof.
  assert (H1 : Z.of_nat (length (generated Demo.long_lived))
               <= total_revisions Demo.long_lived) by (vm_compute; discriminate).
  assert (H2 : total_revisions Demo.long_lived + export_ncommit (head Demo.long_lived)
               < 2 ^ (int_bits - 1)) by (vm_compute; reflexivity).
  split; [exact (conj H1 H2) |].
  split; [| vm_compute; reflexivity].
  exact (@markmap_accesses_in_bounds Demo.collaborators Demo.long_lived []
           (Demo.mkopts canonical 0) H1 H2).
Defined.
